(** * pi-second-brain: the daily-note engine and the knowledge extractor

    A shallow embedding of [daily.ts] (daily-note lifecycle, section
    splicing, priority parsing) and [extractor.ts] (light extraction,
    write-back, parsing of the deep-extraction reply), with the theorems
    that relate the written specification to the code.

    JavaScript strings are sequences of UTF-16 code units: a string is a
    [list N], every element a code unit.  The file system is a finite map
    from the file names of the daily directory to their text, plus the
    optional daily template. *)

From Stdlib Require Import NArith ZArith Ascii String DecimalString DecimalZ.
From stdpp Require Import base option list gmap sorting.

Set Warnings "-register-all".
Local Open Scope N_scope.

(** ** Strings *)

Abbreviation jsstring := (list N).

(** A string literal of the source, as code units (ASCII literals only). *)
Definition js (s : string) : jsstring :=
  (λ a, N_of_ascii a) <$> list_ascii_of_string s.

(** ECMAScript LineTerminator: LF, CR, LS, PS. *)
Definition isLineTerminator (c : N) : bool :=
  (c =? 10) || (c =? 13) || (c =? 0x2028) || (c =? 0x2029).

(** ECMAScript WhiteSpace: TAB, VT, FF, SP, NBSP, ZWNBSP and category Zs. *)
Definition isWhiteSpace (c : N) : bool :=
  (c =? 9) || (c =? 11) || (c =? 12) || (c =? 32) || (c =? 0xA0) ||
  (c =? 0xFEFF) || (c =? 0x1680) || ((0x2000 <=? c) && (c <=? 0x200A)) ||
  (c =? 0x202F) || (c =? 0x205F) || (c =? 0x3000).

(** What [\s] matches and what [trim] strips. *)
Definition isSpace (c : N) : bool := isWhiteSpace c || isLineTerminator c.

(** What [.] matches (no [s] flag). *)
Definition isDot (c : N) : bool := negb (isLineTerminator c).

(** What [\w] matches: [A-Za-z0-9_]. *)
Definition isWord (c : N) : bool :=
  ((65 <=? c) && (c <=? 90)) || ((97 <=? c) && (c <=? 122)) ||
  ((48 <=? c) && (c <=? 57)) || (c =? 95).

(** Canonicalize of a non-unicode [/i] regex, restricted to what can equal
    an ASCII pattern character: a code unit above 127 never folds to ASCII. *)
Definition asciiUpper (c : N) : N :=
  if (97 <=? c) && (c <=? 122) then c - 32 else c.

(** [s.startsWith(p)] *)
Fixpoint startsWith (p s : jsstring) : bool :=
  match p, s with
  | [], _ => true
  | a :: p', b :: s' => (a =? b) && startsWith p' s'
  | _ :: _, [] => false
  end.

(** [s.split("\n")]: always at least one piece. *)
Fixpoint splitLines (s : jsstring) : list jsstring :=
  match s with
  | [] => [[]]
  | c :: s' =>
      if c =? 10 then [] :: splitLines s'
      else match splitLines s' with
           | l :: ls => (c :: l) :: ls
           | [] => [[c]]
           end
  end.

(** [a.join(sep)] *)
Fixpoint joinWith (sep : jsstring) (a : list jsstring) : jsstring :=
  match a with
  | [] => []
  | [l] => l
  | l :: ls => l ++ sep ++ joinWith sep ls
  end.

Definition NL : jsstring := [10].

Definition joinLines (a : list jsstring) : jsstring := joinWith NL a.

(** [s.trim()]: white space and line terminators off both ends. *)
Fixpoint trimStart (s : jsstring) : jsstring :=
  match s with
  | c :: s' => if isSpace c then trimStart s' else s
  | [] => []
  end.

Definition trimEnd (s : jsstring) : jsstring := rev (trimStart (rev s)).

Definition trim (s : jsstring) : jsstring := trimEnd (trimStart s).

(** [s.indexOf(p)] as the text before the first occurrence and the text
    after it. *)
Fixpoint cutAt (p s : jsstring) : option (jsstring * jsstring) :=
  if startsWith p s then Some ([], drop (length p) s)
  else match s with
       | [] => None
       | c :: s' =>
           match cutAt p s' with
           | Some (a, b) => Some (c :: a, b)
           | None => None
           end
       end.

(** ** Regular expressions

    The backtracking matcher of ECMAScript for the constructs the sources
    use.  [run] lists the states a pattern can end in, in the order the
    backtracking search tries them; the match is the first one. *)

Inductive regex :=
| Emp
| Chr (p : N → bool)
| Seq (a b : regex)
| Alt (a b : regex)
| Opt (a : regex)
| Many (p : N → bool)
| Bol
| Eol
| Wb
| Cap (a : regex).

(** The character left of the position ([None] at the start of the input),
    the input right of it, and capture group 1. *)
Record mstate := MState {
  prev : option N;
  rest : jsstring;
  cap : option jsstring
}.

(** Greedy [p*]: longest run first, then shorter ones. *)
Fixpoint many (p : N → bool) (pv : option N) (s : jsstring)
    (cp : option jsstring) : list mstate :=
  match s with
  | c :: s' =>
      if p c then many p (Some c) s' cp ++ [MState pv s cp]
      else [MState pv s cp]
  | [] => [MState pv s cp]
  end.

Definition atBol (m : bool) (st : mstate) : bool :=
  match prev st with
  | None => true
  | Some c => m && isLineTerminator c
  end.

Definition atEol (m : bool) (st : mstate) : bool :=
  match rest st with
  | [] => true
  | c :: _ => m && isLineTerminator c
  end.

Definition atWb (st : mstate) : bool :=
  xorb (from_option isWord false (prev st))
       (from_option isWord false (head (rest st))).

(** [m] is the multiline flag. *)
Fixpoint run (m : bool) (r : regex) (st : mstate) : list mstate :=
  match r with
  | Emp => [st]
  | Chr p =>
      match rest st with
      | c :: s' => if p c then [MState (Some c) s' (cap st)] else []
      | [] => []
      end
  | Seq a b => run m a st ≫= run m b
  | Alt a b => run m a st ++ run m b st
  | Opt a => run m a st ++ [st]
  | Many p => many p (prev st) (rest st) (cap st)
  | Bol => if atBol m st then [st] else []
  | Eol => if atEol m st then [st] else []
  | Wb => if atWb st then [st] else []
  | Cap a =>
      (λ st', MState (prev st') (rest st')
                (Some (take (length (rest st) - length (rest st')) (rest st))))
        <$> run m a st
  end.

(** The leftmost match: its index, and the state it ends in. *)
Fixpoint searchFrom (m : bool) (r : regex) (pv : option N) (s : jsstring)
    (i : nat) : option (nat * mstate) :=
  match run m r (MState pv s None) with
  | st :: _ => Some (i, st)
  | [] =>
      match s with
      | c :: s' => searchFrom m r (Some c) s' (S i)
      | [] => None
      end
  end.

Definition exec (m : bool) (r : regex) (s : jsstring) : option (nat * mstate) :=
  searchFrom m r None s 0.

(** [re.test(s)] *)
Definition test (m : bool) (r : regex) (s : jsstring) : bool :=
  bool_decide (is_Some (exec m r s)).

(** [s.match(re)[1]] for a regex without the [g] flag; [None] is no match. *)
Definition match1 (m : bool) (r : regex) (s : jsstring) : option jsstring :=
  '(_, st) ← exec m r s; Some (default [] (cap st)).

(** [s.replace(re, '')] for a regex without the [g] flag. *)
Definition removeFirst (m : bool) (r : regex) (s : jsstring) : jsstring :=
  match exec m r s with
  | Some (i, st) => take i s ++ rest st
  | None => s
  end.

(** Pattern builders. *)
Definition chr (c : N) : regex := Chr (N.eqb c).
Definition chri (c : N) : regex := Chr (λ x, asciiUpper x =? asciiUpper c).
Definition plus (p : N → bool) : regex := Seq (Chr p) (Many p).
Definition cat (rs : list regex) : regex := foldr Seq Emp rs.
Definition alts (rs : list regex) : regex := foldr Alt (Chr (λ _, false)) rs.
Definition lit (s : string) : regex := cat (chr <$> js s).
Definition liti (s : string) : regex := cat (chri <$> js s).

(** [/^-\s+\[\s\]\s+(.+)/] *)
Definition todoRe : regex :=
  cat [Bol; lit "-"; plus isSpace; lit "["; Chr isSpace; lit "]";
       plus isSpace; Cap (plus isDot)].

(** [/^-\s+\[x\]\s+(.+)/i] *)
Definition doneRe : regex :=
  cat [Bol; lit "-"; plus isSpace; lit "["; liti "x"; lit "]";
       plus isSpace; Cap (plus isDot)].

(** [/\s*\*\(rolled over\)\*\s*$/] *)
Definition rolledRe : regex :=
  cat [Many isSpace; lit "*(rolled over)*"; Many isSpace; Eol].

(** ** Dates

    The local calendar fields of a JavaScript [Date], as its getters return
    them: month 0 to 11, day of the week 0 (Sunday) to 6. *)

Record Date := {
  getFullYear : Z;
  getMonth : nat;
  getDate : nat;
  getDay : nat
}.

Definition DAYS : list string :=
  ["Sunday"; "Monday"; "Tuesday"; "Wednesday"; "Thursday"; "Friday";
   "Saturday"]%string.

Definition MONTHS : list string :=
  ["January"; "February"; "March"; "April"; "May"; "June"; "July"; "August";
   "September"; "October"; "November"; "December"]%string.

(** [String(n)] for an integer. *)
Definition strZ (z : Z) : jsstring := js (NilEmpty.string_of_int (Z.to_int z)).
Definition strNat (n : nat) : jsstring := strZ (Z.of_nat n).

(** [s.padStart(2, "0")] *)
Definition padStart2 (s : jsstring) : jsstring :=
  replicate (2 - length s) 48 ++ s.

(** An array read inside a template literal: out of range gives
    ["undefined"]. *)
Definition nameAt (names : list string) (i : nat) : jsstring :=
  js (default "undefined"%string (names !! i)).

Definition formatDate (d : Date) : jsstring :=
  strZ (getFullYear d) ++ js "-" ++ padStart2 (strNat (getMonth d + 1))
    ++ js "-" ++ padStart2 (strNat (getDate d)).

Definition fullDate (d : Date) : jsstring :=
  nameAt MONTHS (getMonth d) ++ js " " ++ strNat (getDate d) ++ js ", "
    ++ strZ (getFullYear d).

Definition dayName (d : Date) : jsstring := nameAt DAYS (getDay d).

Definition isLeapYear (y : Z) : bool :=
  ((y mod 4 =? 0) && negb (y mod 100 =? 0) || (y mod 400 =? 0))%Z.

Definition daysInMonth (y : Z) (m : nat) : nat :=
  match m with
  | 1 => if isLeapYear y then 29 else 28
  | 3 | 5 | 8 | 10 => 30
  | _ => 31
  end%nat.

(** [y = new Date(d); y.setDate(y.getDate() - 1)]: day 0 of a month is the
    last day of the month before. *)
Definition dayBefore (d : Date) : Date :=
  let wd := ((getDay d + 6) `mod` 7)%nat in
  match getDate d with
  | S (S n) =>
      {| getFullYear := getFullYear d; getMonth := getMonth d;
         getDate := S n; getDay := wd |}
  | _ =>
      match getMonth d with
      | O =>
          {| getFullYear := getFullYear d - 1; getMonth := 11;
             getDate := 31; getDay := wd |}
      | S m =>
          {| getFullYear := getFullYear d; getMonth := m;
             getDate := daysInMonth (getFullYear d) m; getDay := wd |}
      end
  end.

(** ** The file system and the clock

    [daily] maps the file names of [DAILY_DIR] to their text;
    [dailyTemplate] is the text of [TEMPLATES_DIR/daily.md] when that file
    exists.  [ensureDirs] only creates directories and is not modelled. *)

Record fs := Fs {
  daily : gmap jsstring jsstring;
  dailyTemplate : option jsstring
}.

(** What [new Date()] returns. *)
Record Clock := {
  today : Date;
  getHours : nat;
  getMinutes : nat
}.

(** [dailyPath(date)], relative to [DAILY_DIR]. *)
Definition dailyPath (d : Date) : jsstring := formatDate d ++ js ".md".

(** ** daily.ts *)

(** [s.replace(/pat/g, rep)] for a literal pattern.  The replacement texts
    of [ensureDailyNote] are dates and names and hold no [$]. *)
Fixpoint replaceAllFuel (fuel : nat) (pat rep s : jsstring) : jsstring :=
  match fuel with
  | O => s
  | S fuel' =>
      match cutAt pat s with
      | Some (a, b) => a ++ rep ++ replaceAllFuel fuel' pat rep b
      | None => s
      end
  end.

Definition replaceAll (pat rep s : jsstring) : jsstring :=
  replaceAllFuel (S (length s)) pat rep s.

(** GetSubstitution of ECMAScript for a string pattern (no captures):
    [$$] is a dollar, [$&] the matched text, [$`] the text before the match,
    [$'] the text after it; any other [$] stands for itself. *)
Fixpoint getSubstitution (matched before after rep : jsstring) : jsstring :=
  match rep with
  | [] => []
  | c :: r =>
      if c =? 36 then
        match r with
        | c2 :: r2 =>
            if c2 =? 36 then 36 :: getSubstitution matched before after r2
            else if c2 =? 38 then
              matched ++ getSubstitution matched before after r2
            else if c2 =? 96 then
              before ++ getSubstitution matched before after r2
            else if c2 =? 39 then
              after ++ getSubstitution matched before after r2
            else c :: getSubstitution matched before after r
        | [] => [c]
        end
      else c :: getSubstitution matched before after r
  end.

(** [s.replace(pat, rep)] for a string pattern: the first occurrence only. *)
Definition replaceFirst (pat rep s : jsstring) : jsstring :=
  match cutAt pat s with
  | Some (a, b) => a ++ getSubstitution pat a b rep ++ b
  | None => s
  end.

Definition PRIORITIES_HEADER : jsstring := js "## Priorities".
Definition H2 : jsstring := js "## ".
Definition COMMENT_OPEN : jsstring := js "<!-- ".
Definition PLACEHOLDER : jsstring := js "- [ ] ".
Definition ROLLED_OVER : jsstring := js " *(rolled over)*".

(** What the loop of [extractIncompletePriorities] pushes for one line of
    the Priorities section. *)
Definition incompleteOfLine (line : jsstring) : option jsstring :=
  match match1 false todoRe line with
  | Some m =>
      if bool_decide (trim m ≠ []) then Some (removeFirst false rolledRe m)
      else None
  | None => None
  end.

(** The [for] loop of [extractIncompletePriorities]. *)
Fixpoint incompleteLoop (inPriorities : bool) (lines : list jsstring)
    : list jsstring :=
  match lines with
  | [] => []
  | line :: lines' =>
      if startsWith PRIORITIES_HEADER line then incompleteLoop true lines'
      else if inPriorities && startsWith H2 line then []
      else if inPriorities then
        match incompleteOfLine line with
        | Some p => p :: incompleteLoop inPriorities lines'
        | None => incompleteLoop inPriorities lines'
        end
      else incompleteLoop inPriorities lines'
  end.

Definition extractIncompletePriorities (content : jsstring) : list jsstring :=
  incompleteLoop false (splitLines content).

(** The template with its three placeholders substituted. *)
Definition instantiate (t : jsstring) (d : Date) : jsstring :=
  replaceAll (js "{{FULL_DATE}}") (fullDate d)
    (replaceAll (js "{{DAY_NAME}}") (dayName d)
       (replaceAll (js "{{DATE}}") (formatDate d) t)).

(** The built-in skeleton. *)
Definition skeleton (d : Date) : jsstring :=
  joinLines
    [js "---"; js "date: " ++ formatDate d; js "---";
     js "# " ++ dayName d ++ js ", " ++ fullDate d; [];
     js "## Priorities"; js "- [ ] "; [];
     js "## Log"; [];
     js "## Notes"; [];
     js "## Decisions"; [];
     js "## Learned"; []].

(** The rollover step on the new text, given yesterday's text. *)
Definition rollOver (yesterdayContent content : jsstring) : jsstring :=
  let incomplete := extractIncompletePriorities yesterdayContent in
  if (0 <? length incomplete)%nat then
    let prioritiesSection :=
      joinLines ((λ p, PLACEHOLDER ++ p ++ ROLLED_OVER) <$> incomplete) in
    replaceFirst (PLACEHOLDER ++ NL)
      (prioritiesSection ++ NL ++ PLACEHOLDER ++ NL) content
  else content.

(** The text [ensureDailyNote] writes when the note does not exist yet. *)
Definition newNoteContent (st : fs) (d : Date) : jsstring :=
  let content :=
    match dailyTemplate st with
    | Some t => instantiate t d
    | None => skeleton d
    end in
  match daily st !! dailyPath (dayBefore d) with
  | Some yesterdayContent => rollOver yesterdayContent content
  | None => content
  end.

(** [ensureDailyNote(date)]: the file system afterwards (the returned path
    is [dailyPath d]). *)
Definition ensureDailyNote (d : Date) (st : fs) : fs :=
  match daily st !! dailyPath d with
  | Some _ => st
  | None =>
      Fs (<[dailyPath d := newNoteContent st d]> (daily st)) (dailyTemplate st)
  end.

(** [readFileSync(path)] right after [ensureDailyNote]: the file exists. *)
Definition readNote (d : Date) (st : fs) : jsstring :=
  default [] (daily st !! dailyPath d).

Definition writeNote (d : Date) (content : jsstring) (st : fs) : fs :=
  Fs (<[dailyPath d := content]> (daily st)) (dailyTemplate st).

(** The inner [while] loop of [appendToLog] and [appendToSection]: from
    index [i], skip blank lines and comment lines. *)
Fixpoint skipLoop (header : jsstring) (lines : list jsstring) (i : nat) : nat :=
  match lines with
  | [] => i
  | ln :: lines' =>
      if startsWith H2 ln && negb (startsWith header ln) then i
      else if startsWith COMMENT_OPEN ln then skipLoop header lines' (S i)
      else if bool_decide (trim ln = []) then skipLoop header lines' (S i)
      else i
  end.

(** The outer [for] loop: [None] is the source's [-1]. *)
Fixpoint findInsertIndex (header : jsstring) (lines : list jsstring) (i : nat)
    : option nat :=
  match lines with
  | [] => None
  | ln :: lines' =>
      if startsWith header ln then Some (skipLoop header lines' (S i))
      else findInsertIndex header lines' (S i)
  end.

(** [lines.splice(i, 0, x)] *)
Definition splice (i : nat) (x : jsstring) (lines : list jsstring)
    : list jsstring :=
  take i lines ++ x :: drop i lines.

(** The separator of a log entry as the source file spells it: the code
    points U+00E2 U+20AC U+201D, an em dash read as Windows-1252. *)
Definition LOG_DASH : jsstring := [0xE2; 0x20AC; 0x201D].

Definition logEntry (now : Clock) (entry : jsstring) : jsstring :=
  js "- " ++ padStart2 (strNat (getHours now)) ++ js ":"
    ++ padStart2 (strNat (getMinutes now)) ++ js " " ++ LOG_DASH ++ js " "
    ++ entry.

(** [appendToLog(entry, date)] *)
Definition appendToLog (now : Clock) (entry : jsstring) (date : option Date)
    (st : fs) : fs :=
  let d := default (today now) date in
  let st := ensureDailyNote d st in
  let content := readNote d st in
  let lines := splitLines content in
  match findInsertIndex (js "## Log") lines 0 with
  | None => writeNote d (content ++ NL ++ logEntry now entry ++ NL) st
  | Some insertIndex =>
      writeNote d (joinLines (splice insertIndex (logEntry now entry) lines)) st
  end.

(** [appendToSection(section, content, date)] *)
Definition appendToSection (now : Clock) (section content : jsstring)
    (date : option Date) (st : fs) : fs :=
  let d := default (today now) date in
  let st := ensureDailyNote d st in
  let fileContent := readNote d st in
  let lines := splitLines fileContent in
  match findInsertIndex (H2 ++ section) lines 0 with
  | Some insertIndex =>
      writeNote d (joinLines (splice insertIndex content lines)) st
  | None => st
  end.

(** [readDailyNote(date)]: the text, and the file system afterwards. *)
Definition readDailyNote (now : Clock) (date : option Date) (st : fs)
    : jsstring * fs :=
  let d := default (today now) date in
  let st := ensureDailyNote d st in
  (readNote d st, st).

Record PriorityItem := {
  text : jsstring;
  done : bool
}.

(** What the loop of [getPriorities] pushes for one line of the Priorities
    section: [doneMatch] first, then [todoMatch] with non-blank text. *)
Definition priorityOfLine (line : jsstring) : option PriorityItem :=
  let doneMatch := match1 false doneRe line in
  let todoMatch := match1 false todoRe line in
  match doneMatch with
  | Some m => Some {| text := m; done := true |}
  | None =>
      match todoMatch with
      | Some m =>
          if bool_decide (trim m ≠ []) then Some {| text := m; done := false |}
          else None
      | None => None
      end
  end.

(** The [for] loop of [getPriorities]. *)
Fixpoint prioritiesLoop (inPriorities : bool) (lines : list jsstring)
    : list PriorityItem :=
  match lines with
  | [] => []
  | line :: lines' =>
      if startsWith PRIORITIES_HEADER line then prioritiesLoop true lines'
      else if inPriorities && startsWith H2 line then []
      else if inPriorities then
        match priorityOfLine line with
        | Some p => p :: prioritiesLoop inPriorities lines'
        | None => prioritiesLoop inPriorities lines'
        end
      else prioritiesLoop inPriorities lines'
  end.

(** [getPriorities(date)] *)
Definition getPriorities (now : Clock) (date : option Date) (st : fs)
    : list PriorityItem * fs :=
  let '(content, st) := readDailyNote now date st in
  (prioritiesLoop false (splitLines content), st).

(** ** extractor.ts: light extraction *)

Record ExtractedKnowledge := {
  decisions : list jsstring;
  solutions : list jsstring;
  learnings : list jsstring;
  todos : list jsstring;
  commands : list jsstring;
  projectContext : option jsstring
}.

(** An element of a content array: an object with optional [type] and
    [text], or anything else. *)
Inductive ContentBlock :=
| Block (type text : option jsstring)
| NotABlock.

(** [message.content]: a string, an array, or anything else. *)
Inductive Content :=
| CString (s : jsstring)
| CArray (a : list ContentBlock)
| COther.

Record Message := {
  role : option jsstring;
  content : Content
}.

Record SessionEntry := {
  entryType : jsstring;
  message : option Message
}.

Definition extractText (c : Content) : jsstring :=
  match c with
  | CString s => s
  | CArray a =>
      joinLines
        (omap (λ b, match b with
                    | Block (Some ty) tx =>
                        if bool_decide (ty = js "text") then Some (default [] tx)
                        else None
                    | _ => None
                    end) a)
  | COther => []
  end.

(** [/\b(decided|going with|let's (go with|use|do)|we('ll| will) (use|go))\b/i] *)
Definition decisionRe : regex :=
  cat [Wb;
       alts [liti "decided"; liti "going with";
             cat [liti "let's "; alts [liti "go with"; liti "use"; liti "do"]];
             cat [liti "we"; alts [liti "'ll"; liti " will"]; liti " ";
                  alts [liti "use"; liti "go"]]];
       Wb].

(** [/\b(fix(ed)?|solv(ed|e)|resolv(ed|e)|the (issue|problem|error) was|workaround)\b/i] *)
Definition solutionRe : regex :=
  cat [Wb;
       alts [cat [liti "fix"; Opt (liti "ed")];
             cat [liti "solv"; alts [liti "ed"; liti "e"]];
             cat [liti "resolv"; alts [liti "ed"; liti "e"]];
             cat [liti "the "; alts [liti "issue"; liti "problem"; liti "error"];
                  liti " was"];
             liti "workaround"];
       Wb].

(** [/\b(turns out|TIL|learned|discovered|important(ly)?:?\s|note:?\s|key (insight|takeaway))\b/i] *)
Definition learningRe : regex :=
  cat [Wb;
       alts [liti "turns out"; liti "TIL"; liti "learned"; liti "discovered";
             cat [liti "important"; Opt (liti "ly"); Opt (liti ":"); Chr isSpace];
             cat [liti "note"; Opt (liti ":"); Chr isSpace];
             cat [liti "key "; alts [liti "insight"; liti "takeaway"]]];
       Wb].

(** [/\b(TODO|FIXME|need to|should (also )?|remember to|don't forget)\b/i] *)
Definition actionRe : regex :=
  cat [Wb;
       alts [liti "TODO"; liti "FIXME"; liti "need to";
             cat [liti "should "; Opt (liti "also ")];
             liti "remember to"; liti "don't forget"];
       Wb].

(** [/^```/] *)
Definition fenceRe : regex := cat [Bol; lit "```"].

(** [/^\$?\s*(npm |yarn |pnpm |brew |go |cargo |pip |terraform |aws |gcloud |kubectl |docker |git )/] *)
Definition commandRe : regex :=
  cat [Bol; Opt (lit "$"); Many isSpace;
       alts [lit "npm "; lit "yarn "; lit "pnpm "; lit "brew "; lit "go ";
             lit "cargo "; lit "pip "; lit "terraform "; lit "aws ";
             lit "gcloud "; lit "kubectl "; lit "docker "; lit "git "]].

Definition push (x : jsstring) (a : list jsstring) : list jsstring := a ++ [x].

Definition isDecision (line : jsstring) : bool :=
  test false decisionRe line && (15 <? length line)%nat
    && (length line <? 300)%nat.

(** The body of the inner [for] loop: the five tests on one line. *)
Definition scanLine (r : option jsstring) (k : ExtractedKnowledge)
    (line : jsstring) : ExtractedKnowledge :=
  let k :=
    if isDecision line then
      {| decisions := push (trim line) (decisions k); solutions := solutions k;
         learnings := learnings k; todos := todos k; commands := commands k;
         projectContext := projectContext k |}
    else k in
  let k :=
    if test false solutionRe line && (15 <? length line)%nat
         && (length line <? 300)%nat then
      {| decisions := decisions k; solutions := push (trim line) (solutions k);
         learnings := learnings k; todos := todos k; commands := commands k;
         projectContext := projectContext k |}
    else k in
  let k :=
    if test false learningRe line && (10 <? length line)%nat
         && (length line <? 300)%nat then
      {| decisions := decisions k; solutions := solutions k;
         learnings := push (trim line) (learnings k); todos := todos k;
         commands := commands k; projectContext := projectContext k |}
    else k in
  let k :=
    if test false actionRe line && (10 <? length line)%nat
         && (length line <? 200)%nat then
      {| decisions := decisions k; solutions := solutions k;
         learnings := learnings k; todos := push (trim line) (todos k);
         commands := commands k; projectContext := projectContext k |}
    else k in
  if bool_decide (r = Some (js "assistant"))
       && negb (test false fenceRe (trim line))
       && test false commandRe (trim line) && (length line <? 200)%nat then
    {| decisions := decisions k; solutions := solutions k;
       learnings := learnings k; todos := todos k;
       commands := push (trim line) (commands k);
       projectContext := projectContext k |}
  else k.

(** The body of the outer [for] loop. *)
Definition scanEntry (k : ExtractedKnowledge) (entry : SessionEntry)
    : ExtractedKnowledge :=
  if bool_decide (entryType entry ≠ js "message") then k
  else
    match message entry with
    | None => k
    | Some msg =>
        let text := extractText (content msg) in
        if bool_decide (text = []) then k
        else foldl (scanLine (role msg)) k (splitLines text)
    end.

(** [[...new Set(a)]]: first occurrences, in insertion order. *)
Fixpoint uniqFrom (seen a : list jsstring) : list jsstring :=
  match a with
  | [] => []
  | x :: a' =>
      if bool_decide (x ∈ seen) then uniqFrom seen a'
      else x :: uniqFrom (x :: seen) a'
  end.

Definition dedupe5 (a : list jsstring) : list jsstring :=
  take 5 (uniqFrom [] a).

Section LightExtract.

(** [detectProject] of para.ts reads the projects directory; here it is
    the collaborator that names the active project. *)
Variable detectProject : jsstring → option jsstring.

Definition lightExtract (entries : list SessionEntry) (cwd : jsstring)
    : ExtractedKnowledge :=
  let result :=
    foldl scanEntry
      {| decisions := []; solutions := []; learnings := []; todos := [];
         commands := []; projectContext := detectProject cwd |}
      entries in
  {| decisions := dedupe5 (decisions result);
     solutions := dedupe5 (solutions result);
     learnings := dedupe5 (learnings result);
     todos := dedupe5 (todos result);
     commands := dedupe5 (commands result);
     projectContext := projectContext result |}.

End LightExtract.

(** ** extractor.ts: writing the light extraction to the daily note *)

(** The [parts] array of [writeToDaily]. *)
Definition summaryParts (knowledge : ExtractedKnowledge) : list jsstring :=
  let parts :=
    match projectContext knowledge with
    | Some p =>
        if bool_decide (p ≠ []) then [js "Working on **" ++ p ++ js "**"]
        else []
    | None => []
    end in
  let count (a : list jsstring) (what : string) : list jsstring :=
    if (0 <? length a)%nat then [strNat (length a) ++ js what] else [] in
  let items :=
    count (decisions knowledge) " decision(s)"%string
      ++ count (solutions knowledge) " solution(s)"%string
      ++ count (learnings knowledge) " learning(s)"%string in
  if (0 <? length items)%nat then parts ++ [joinWith (js ", ") items]
  else parts.

(** [writeToDaily(knowledge)]; the clock stands still during the call. *)
Definition writeToDaily (now : Clock) (knowledge : ExtractedKnowledge)
    (st : fs) : fs :=
  let parts := summaryParts knowledge in
  let st :=
    if (0 <? length parts)%nat then
      appendToLog now (joinWith (js ". ") parts) None st
    else st in
  let st :=
    foldl (λ st d, appendToSection now (js "Decisions") (js "- " ++ d) None st)
      st (decisions knowledge) in
  foldl (λ st l, appendToSection now (js "Learned") (js "- " ++ l) None st)
    st (learnings knowledge).

(** ** JSON.parse

    The JSON grammar of ECMA-404 as [JSON.parse] reads it.  A number keeps
    its lexeme; an object keeps its members in the order of the text. *)

Inductive json :=
| JNull
| JBool (b : bool)
| JNumber (lexeme : jsstring)
| JString (s : jsstring)
| JArray (items : list json)
| JObject (members : list (jsstring * json)).

Definition isJsonWs (c : N) : bool :=
  (c =? 32) || (c =? 9) || (c =? 10) || (c =? 13).

Fixpoint skipWs (s : jsstring) : jsstring :=
  match s with
  | c :: s' => if isJsonWs c then skipWs s' else s
  | [] => []
  end.

Definition isDigit (c : N) : bool := (48 <=? c) && (c <=? 57).

Definition hexValue (c : N) : option N :=
  if isDigit c then Some (c - 48)
  else if (97 <=? c) && (c <=? 102) then Some (c - 87)
  else if (65 <=? c) && (c <=? 70) then Some (c - 55)
  else None.

(** The characters of a string after its opening quote. *)
Fixpoint parseChars (s : jsstring) : option (jsstring * jsstring) :=
  match s with
  | [] => None
  | c :: s' =>
      if c =? 34 then Some ([], s')
      else if c <? 32 then None
      else if c =? 92 then
        match s' with
        | e :: s'' =>
            let simple (x : N) :=
              '(r, t) ← parseChars s''; Some (x :: r, t) in
            if e =? 34 then simple 34
            else if e =? 92 then simple 92
            else if e =? 47 then simple 47
            else if e =? 98 then simple 8
            else if e =? 102 then simple 12
            else if e =? 110 then simple 10
            else if e =? 114 then simple 13
            else if e =? 116 then simple 9
            else if e =? 117 then
              match s'' with
              | h1 :: h2 :: h3 :: h4 :: s4 =>
                  a ← hexValue h1; b ← hexValue h2;
                  c ← hexValue h3; d ← hexValue h4;
                  '(r, t) ← parseChars s4;
                  Some (((a * 16 + b) * 16 + c) * 16 + d :: r, t)
              | _ => None
              end
            else None
        | [] => None
        end
      else '(r, t) ← parseChars s'; Some (c :: r, t)
  end.

Fixpoint spanDigits (s : jsstring) : jsstring * jsstring :=
  match s with
  | c :: s' =>
      if isDigit c then let '(a, b) := spanDigits s' in (c :: a, b)
      else ([], s)
  | [] => ([], [])
  end.

(** A number: an optional minus, an integer part without a leading zero,
    an optional fraction, an optional exponent. *)
Definition parseNumber (s : jsstring) : option (jsstring * jsstring) :=
  let '(sign, s1) :=
    match s with
    | c :: s' => if c =? 45 then ([c], s') else ([], s)
    | [] => ([], s)
    end in
  '(int, s2) ←
    match s1 with
    | c :: s' =>
        if c =? 48 then Some ([c], s')
        else if isDigit c then Some (spanDigits s1)
        else None
    | [] => None
    end;
  '(frac, s3) ←
    match s2 with
    | c :: s' =>
        if c =? 46 then
          let '(ds, t) := spanDigits s' in
          if bool_decide (ds = []) then None else Some (c :: ds, t)
        else Some ([], s2)
    | [] => Some ([], s2)
    end;
  '(exp, s4) ←
    match s3 with
    | c :: s' =>
        if (c =? 101) || (c =? 69) then
          let '(sg, s'') :=
            match s' with
            | x :: t => if (x =? 43) || (x =? 45) then ([x], t) else ([], s')
            | [] => ([], s')
            end in
          let '(ds, t) := spanDigits s'' in
          if bool_decide (ds = []) then None else Some (c :: sg ++ ds, t)
        else Some ([], s3)
    | [] => Some ([], s3)
    end;
  Some (sign ++ int ++ frac ++ exp, s4).

(** The outcome of a parser that runs on fuel. *)
Inductive parsed (A : Type) :=
| Parsed (a : A) (rest : jsstring)
| SyntaxError
| OutOfFuel.

Arguments Parsed {A} a rest.
Arguments SyntaxError {A}.
Arguments OutOfFuel {A}.

Definition ofOption {A} (o : option (A * jsstring)) : parsed A :=
  match o with
  | Some (a, t) => Parsed a t
  | None => SyntaxError
  end.

Definition andThen {A B} (p : parsed A) (k : A → jsstring → parsed B)
    : parsed B :=
  match p with
  | Parsed a t => k a t
  | SyntaxError => SyntaxError
  | OutOfFuel => OutOfFuel
  end.

Fixpoint parseValue (fuel : nat) (s : jsstring) : parsed json :=
  match fuel with
  | O => OutOfFuel
  | S fuel' =>
      match skipWs s with
      | [] => SyntaxError
      | c :: s' =>
          if c =? 34 then
            andThen (ofOption (parseChars s')) (λ str t, Parsed (JString str) t)
          else if c =? 91 then
            match skipWs s' with
            | x :: t =>
                if x =? 93 then Parsed (JArray []) t
                else
                  andThen (parseItems fuel' s')
                    (λ items t', Parsed (JArray items) t')
            | [] => SyntaxError
            end
          else if c =? 123 then
            match skipWs s' with
            | x :: t =>
                if x =? 125 then Parsed (JObject []) t
                else
                  andThen (parseMembers fuel' s')
                    (λ members t', Parsed (JObject members) t')
            | [] => SyntaxError
            end
          else if startsWith (js "null") (c :: s') then
            Parsed JNull (drop 4 (c :: s'))
          else if startsWith (js "true") (c :: s') then
            Parsed (JBool true) (drop 4 (c :: s'))
          else if startsWith (js "false") (c :: s') then
            Parsed (JBool false) (drop 5 (c :: s'))
          else
            andThen (ofOption (parseNumber (c :: s')))
              (λ lexeme t, Parsed (JNumber lexeme) t)
      end
  end
with parseItems (fuel : nat) (s : jsstring) : parsed (list json) :=
  match fuel with
  | O => OutOfFuel
  | S fuel' =>
      andThen (parseValue fuel' s) (λ v t,
        match skipWs t with
        | x :: t' =>
            if x =? 93 then Parsed [v] t'
            else if x =? 44 then
              andThen (parseItems fuel' t') (λ vs t'', Parsed (v :: vs) t'')
            else SyntaxError
        | [] => SyntaxError
        end)
  end
with parseMembers (fuel : nat) (s : jsstring)
    : parsed (list (jsstring * json)) :=
  match fuel with
  | O => OutOfFuel
  | S fuel' =>
      match skipWs s with
      | q :: s1 =>
          if q =? 34 then
            andThen (ofOption (parseChars s1)) (λ key s2,
              match skipWs s2 with
              | colon :: s3 =>
                  if colon =? 58 then
                    andThen (parseValue fuel' s3) (λ v t,
                      match skipWs t with
                      | x :: t' =>
                          if x =? 125 then Parsed [(key, v)] t'
                          else if x =? 44 then
                            andThen (parseMembers fuel' t')
                              (λ ms t'', Parsed ((key, v) :: ms) t'')
                          else SyntaxError
                      | [] => SyntaxError
                      end)
                  else SyntaxError
              | [] => SyntaxError
              end)
          else SyntaxError
      | [] => SyntaxError
      end
  end.

(** [JSON.parse(text)]: [None] is the SyntaxError it throws.  The fuel is
    enough for every text ([parse_fuel_enough]). *)
Definition JSON_parse (s : jsstring) : option json :=
  match parseValue (2 * length s + 2) s with
  | Parsed v t => if bool_decide (skipWs t = []) then Some v else None
  | SyntaxError | OutOfFuel => None
  end.

(** ** extractor.ts: the reply of the deep extraction *)

(** [/^```json?\n?/m] *)
Definition fenceOpenRe : regex :=
  cat [Bol; lit "```jso"; Opt (lit "n"); Opt (chr 10)].

(** [/\n?```$/m] *)
Definition fenceCloseRe : regex := cat [Opt (chr 10); lit "```"; Eol].

Definition stripFences (response : jsstring) : jsstring :=
  removeFirst true fenceCloseRe (removeFirst true fenceOpenRe response).

(** [parseDeepExtraction(response)]: [JNull] is the [null] it returns, from
    the [catch] or from the text [null] itself. *)
Definition parseDeepExtraction (response : jsstring) : json :=
  default JNull (JSON_parse (stripFences response)).

(** * The vocabulary of the statements *)

(** ** Lines, headers and insertion *)

(** A line the [while] loop steps over: a comment line or a blank line. *)
Definition skippable (ln : jsstring) : Prop :=
  startsWith COMMENT_OPEN ln = true ∨ trim ln = [].

#[local] Instance skippable_dec ln : Decision (skippable ln).
Proof. unfold skippable. apply _. Defined.

(** The comment and blank lines at the head of a list of lines, and the
    lines behind them. *)
Fixpoint leadingSkippable (lines : list jsstring) : list jsstring :=
  match lines with
  | ln :: lines' =>
      if decide (skippable ln) then ln :: leadingSkippable lines' else []
  | [] => []
  end.

Fixpoint afterSkippable (lines : list jsstring) : list jsstring :=
  match lines with
  | ln :: lines' =>
      if decide (skippable ln) then afterSkippable lines' else lines
  | [] => []
  end.

(** [xs] put behind the first line that starts with [header] and the
    comment and blank lines that follow it; without such a line, nothing
    changes. *)
Fixpoint insertBehind (header : jsstring) (xs lines : list jsstring)
    : list jsstring :=
  match lines with
  | [] => []
  | ln :: lines' =>
      if startsWith header ln then
        ln :: leadingSkippable lines' ++ xs ++ afterSkippable lines'
      else ln :: insertBehind header xs lines'
  end.

Definition noHeader (header : jsstring) (lines : list jsstring) : Prop :=
  Forall (λ ln, startsWith header ln = false) lines.

(** Lines before a break, each with its newline. *)
Definition linesText (ls : list jsstring) : jsstring := ls ≫= (λ ln, ln ++ NL).

(** [p] does not occur in [s] at an index below [n]. *)
Definition noOccurrenceBefore (p : jsstring) (n : nat) (s : jsstring) : Prop :=
  ∀ i, (i < n)%nat → startsWith p (drop i s) = false.

(** ** Checklist lines and the Priorities section *)

Definition CHECKED_x : jsstring := js "- [x] ".
Definition CHECKED_X : jsstring := js "- [X] ".

(** Text that starts with a non-space character and holds no line
    terminator: what [(.+)] captures whole behind the marker. *)
Definition plainText (t : jsstring) : Prop :=
  (∃ c t', t = c :: t' ∧ isSpace c = false)
  ∧ Forall (λ x, isDot x = true) t.

(** The shape of a line a checklist pattern matches: a dash, white space,
    a bracketed mark, white space, then the captured text [t]. *)
Definition checklistShape (mark : N → Prop) (line t : jsstring) : Prop :=
  ∃ w1 mk w2 tl,
    line = [45] ++ w1 ++ [91; mk; 93] ++ w2 ++ t ++ tl
    ∧ w1 ≠ [] ∧ Forall (λ x, isSpace x = true) w1
    ∧ mark mk
    ∧ w2 ≠ [] ∧ Forall (λ x, isSpace x = true) w2
    ∧ t ≠ [] ∧ Forall (λ x, isDot x = true) t.

(** The body of a section: its lines are no headers, other than repeated
    Priorities headers, which the loops step over. *)
Definition sectionBody (body : list jsstring) : Prop :=
  Forall (λ ln, startsWith H2 ln = true → startsWith PRIORITIES_HEADER ln = true)
    body.

(** What ends a section: the end of the text, or a header other than a
    Priorities header. *)
Definition sectionEnd (post : list jsstring) : Prop :=
  post = []
  ∨ ∃ stop post', post = stop :: post' ∧ startsWith H2 stop = true
                  ∧ startsWith PRIORITIES_HEADER stop = false.

(** The rolled-over lines of the new note. *)
Definition rolledLines (incomplete : list jsstring) : list jsstring :=
  (λ p, PLACEHOLDER ++ p ++ ROLLED_OVER) <$> incomplete.

(** The text before rollover: the instantiated template, or the skeleton. *)
Definition freshContent (st : fs) (d : Date) : jsstring :=
  match dailyTemplate st with
  | Some t => instantiate t d
  | None => skeleton d
  end.

(** ** Log entries and bullets *)

(** Two decimal digits. *)
Definition twoDigits (n : nat) : jsstring :=
  [N.of_nat (48 + n / 10); N.of_nat (48 + n `mod` 10)].

(** The bullets of a list of texts. *)
Definition bullets (items : list jsstring) : list jsstring :=
  (λ d, js "- " ++ d) <$> items.

(** The text with the bullets under a section header, the last one first. *)
Definition addBullets (section : jsstring) (items : list jsstring)
    (c : jsstring) : jsstring :=
  joinLines (insertBehind (H2 ++ section) (reverse (bullets items))
               (splitLines c)).

(** The text of today's note after the summary step of [writeToDaily]. *)
Definition withSummary (now : Clock) (k : ExtractedKnowledge) (c : jsstring)
    : jsstring :=
  if decide (summaryParts k = []) then c
  else
    let entry := logEntry now (joinWith (js ". ") (summaryParts k)) in
    if decide (noHeader (js "## Log") (splitLines c)) then
      c ++ NL ++ entry ++ NL
    else joinLines (insertBehind (js "## Log") [entry] (splitLines c)).

(** ** Conversation lines *)

(** The lines the double loop of [lightExtract] visits, in order. *)
Definition linesOfEntry (entry : SessionEntry) : list jsstring :=
  if bool_decide (entryType entry = js "message") then
    match message entry with
    | Some msg =>
        if bool_decide (extractText (content msg) = []) then []
        else splitLines (extractText (content msg))
    | None => []
    end
  else [].

Definition scannedLines (entries : list SessionEntry) : list jsstring :=
  entries ≫= linesOfEntry.

(** A line with a decision marker and a length from 16 to 299. *)
Definition decisionLine (line : jsstring) : Prop :=
  test false decisionRe line = true ∧ (16 ≤ length line < 300)%nat.

#[local] Instance decisionLine_dec line : Decision (decisionLine line).
Proof. unfold decisionLine. apply _. Defined.

(** ** JSON texts *)

(** A parser outcome that is not out of fuel and, when it succeeds, has
    consumed some of its input [s]. *)
Definition consumes {A} (p : parsed A) (s : jsstring) : Prop :=
  p ≠ OutOfFuel ∧ ∀ a t, p = Parsed a t → (length t < length s)%nat.

(** A character no JSON value starts with. *)
Definition notJsonStart (c : N) : Prop :=
  c ≠ 34 ∧ c ≠ 91 ∧ c ≠ 123 ∧ c ≠ 45 ∧ isDigit c = false
  ∧ c ≠ 110 ∧ c ≠ 116 ∧ c ≠ 102.

Definition FENCE_JSON : jsstring := js "```json".
Definition FENCE : jsstring := js "```".

(** ** Concrete inputs *)

(** An empty line. *)
Definition blank : string := EmptyString.

(** Friday 1 March 2024, at 09:05. *)
Definition exampleDate : Date :=
  {| getFullYear := 2024; getMonth := 2; getDate := 1; getDay := 5 |}.

Definition exampleClock : Clock :=
  {| today := exampleDate; getHours := 9; getMinutes := 5 |}.

(** A file system with one daily note and no template. *)
Definition noteFs (d : Date) (lines : list string) : fs :=
  Fs {[ dailyPath d := joinLines (js <$> lines) ]} None.

Definition emptyFs : fs := Fs ∅ None.

(** A conversation of one message whose text is [s]. *)
Definition oneMessage (s : string) : list SessionEntry :=
  [{| entryType := js "message";
      message := Some {| role := Some (js "user"); content := CString (js s) |} |}].

Definition notesNote : list string :=
  ["# Friday"; "## Notes"; blank; "old"; blank]%string.

Definition oldNotesNote : list string := ["## Notes (old)"; blank]%string.

Definition decisionsLogNote : list string :=
  ["## Decisions Log"; "kept"]%string.

Definition priorityNote : list string :=
  ["# Friday"; "- [ ] before"; "## Priorities"; "- [ ] write"; "- [X] read";
   "note"; "- [x] "; "## Log"; "- [ ] after"]%string.

Definition yesterdayNote : list string :=
  ["## Priorities"; "- [ ] write report"; "- [x] call home"; blank]%string.

(** Thursday 29 February 2024 has a note; no template is installed. *)
Definition rolloverFs : fs :=
  Fs {[ dailyPath (dayBefore exampleDate) := joinLines (js <$> yesterdayNote) ]}
     None.

Definition templateElsewhere : list string :=
  ["# {{DAY_NAME}}"; "## Inbox"; "- [ ] "; blank; "## Priorities"; "- [ ] ";
   blank]%string.

(** Thursday 29 February 2024 has a note; the template has its first empty
    checklist line under [## Inbox]. *)
Definition elsewhereFs : fs :=
  Fs {[ dailyPath (dayBefore exampleDate) := joinLines (js <$> yesterdayNote) ]}
     (Some (joinLines (js <$> templateElsewhere))).

Definition templateSomeday : list string :=
  ["# {{DAY_NAME}}"; "## Priorities"; blank; "## Someday"; "- [ ] ";
   blank]%string.

Definition somedayFs : fs :=
  Fs {[ dailyPath (dayBefore exampleDate) := joinLines (js <$> yesterdayNote) ]}
     (Some (joinLines (js <$> templateSomeday))).

Definition exampleKnowledge : ExtractedKnowledge :=
  {| decisions := js <$> ["use stdpp"; "keep N"]%string;
     solutions := js <$> ["s1"; "s2"; "s3"]%string;
     learnings := js <$> ["greedy first"]%string;
     todos := js <$> ["later"]%string;
     commands := js <$> ["git status"]%string;
     projectContext := Some (js "pi") |}.

Definition sectionsNote : list string :=
  ["## Log"; blank; "## Decisions"; "<!-- Key decisions made today -->"; blank;
   "## Learned"; blank]%string.

Definition contextOnly : ExtractedKnowledge :=
  {| decisions := []; solutions := []; learnings := []; todos := [];
     commands := []; projectContext := Some (js "pi") |}.

(** A quoted JSON string without escapes. *)
Definition quoted (s : string) : jsstring := [34] ++ js s ++ [34].

(** The text of a complete DeepExtraction object. *)
Definition extractionText : jsstring :=
  js "{" ++ quoted "summary" ++ js ": " ++ quoted "done" ++ js ", "
    ++ quoted "decisions" ++ js ": [" ++ quoted "use stdpp" ++ js "], "
    ++ quoted "solutions" ++ js ": [], "
    ++ quoted "learnings" ++ js ": [], "
    ++ quoted "todos" ++ js ": [], "
    ++ quoted "commands" ++ js ": [], "
    ++ quoted "projectNotes" ++ js ": " ++ quoted blank ++ js ", "
    ++ quoted "resourceTopics" ++ js ": []}".

Definition extractionValue : json :=
  JObject
    [(js "summary", JString (js "done"));
     (js "decisions", JArray [JString (js "use stdpp")]);
     (js "solutions", JArray []);
     (js "learnings", JArray []);
     (js "todos", JArray []);
     (js "commands", JArray []);
     (js "projectNotes", JString []);
     (js "resourceTopics", JArray [])].

(** * Further parts of the program

    The rest of [daily.ts], [para.ts], handlers and tools of [index.ts] and the
    key handlers of [ui.ts], each with the vocabulary of its statements. *)

(** ** Fresh notes and rolled-over items *)

(** The rollover mark without the space in front of it. *)
Definition MARK : jsstring := js "*(rolled over)*".

(** Text that does not end in a white-space character. *)
Definition noTrailingSpace (q : jsstring) : Prop :=
  ∀ c, last q = Some c → isSpace c = false.

(** The text of a rolled-over line as [getPriorities] reads it back: the
    item and the mark; for an empty item, the mark alone. *)
Definition rolledText (p : jsstring) : jsstring := trimStart (p ++ ROLLED_OVER).

(** The lines of the built-in skeleton before and behind its placeholder
    line. *)
Definition skeletonHead (d : Date) : list jsstring :=
  [js "---"; js "date: " ++ formatDate d; js "---";
   js "# " ++ dayName d ++ js ", " ++ fullDate d; [];
   js "## Priorities"].

Definition skeletonTail : list jsstring :=
  [[]; js "## Log"; []; js "## Notes"; []; js "## Decisions"; [];
   js "## Learned"; []].

(** The capture of [(.+)] behind greedy white space: blank, or text that
    starts with a non-space character. *)
Definition captureStartsText (st : mstate) : Prop :=
  ∃ t, cap st = Some t
       ∧ (Forall (λ x, isSpace x = true) t
          ∨ ∃ c t', t = c :: t' ∧ isSpace c = false).

(** ** daily.ts: listing the recent notes *)

(** [s.endsWith(p)] *)
Definition endsWith (p s : jsstring) : bool :=
  startsWith (reverse p) (reverse s).

(** [/^\d{4}-\d{2}-\d{2}\.md$/] *)
Definition dailyNameRe : regex :=
  cat [Bol; Chr isDigit; Chr isDigit; Chr isDigit; Chr isDigit; lit "-";
       Chr isDigit; Chr isDigit; lit "-"; Chr isDigit; Chr isDigit;
       lit ".md"; Eol].

(** [a < b] on strings: by code units, a proper prefix first. *)
Fixpoint strLt (a b : jsstring) : bool :=
  match a, b with
  | _, [] => false
  | [], _ :: _ => true
  | x :: a', y :: b' => (x <? y) || ((x =? y) && strLt a' b')
  end.

(** [a.sort()] without a comparator: ascending by code units.  The names
    of a directory are distinct, so the order of equal elements does not
    show. *)
Fixpoint insertSorted (x : jsstring) (l : list jsstring) : list jsstring :=
  match l with
  | [] => [x]
  | y :: l' => if strLt y x then y :: insertSorted x l' else x :: l
  end.

Definition sortStrings (l : list jsstring) : list jsstring :=
  foldr insertSorted [] l.

(** [readdirSync(DAILY_DIR)] *)
Definition readdir (st : fs) : list jsstring := (map_to_list (daily st)).*1.

(** The filter of [listRecentDailies]. *)
Definition isDailyName (f : jsstring) : bool :=
  endsWith (js ".md") f && test false dailyNameRe f.

(** [listRecentDailies(count)]; the daily directory exists once
    [ensureDirs] has run. *)
Definition listRecentDailies (count : nat) (st : fs) : list jsstring :=
  take count
    (reverse (sortStrings (filter (λ f, isDailyName f = true) (readdir st)))).

(** ** Dates and file names *)

(** Four decimal digits. *)
Definition fourDigits (n : nat) : jsstring :=
  [N.of_nat (48 + n / 1000); N.of_nat (48 + (n / 100) `mod` 10);
   N.of_nat (48 + (n / 10) `mod` 10); N.of_nat (48 + n `mod` 10)].

(** A calendar date as [Date] holds it: month 0 to 11, day 1 to 31. *)
Definition calendarDate (d : Date) : Prop :=
  (getMonth d < 12)%nat ∧ (1 ≤ getDate d ≤ 31)%nat.

Definition fourDigitYear (d : Date) : Prop :=
  (1000 ≤ getFullYear d ≤ 9999)%Z.

(** The same day: year, month and day of the month. *)
Definition sameDay (d1 d2 : Date) : Prop :=
  getFullYear d1 = getFullYear d2 ∧ getMonth d1 = getMonth d2
  ∧ getDate d1 = getDate d2.

(** [d1] is an earlier day than [d2]. *)
Definition earlierDay (d1 d2 : Date) : Prop :=
  (getFullYear d1 < getFullYear d2)%Z
  ∨ (getFullYear d1 = getFullYear d2
     ∧ ((getMonth d1 < getMonth d2)%nat
        ∨ (getMonth d1 = getMonth d2 ∧ (getDate d1 < getDate d2)%nat))).

(** A name of the form [dddd-dd-dd.md]. *)
Definition dateShaped (f : jsstring) : Prop :=
  ∃ y1 y2 y3 y4 m1 m2 d1 d2,
    f = [y1; y2; y3; y4; 45; m1; m2; 45; d1; d2] ++ js ".md"
    ∧ Forall (λ c, isDigit c = true) [y1; y2; y3; y4; m1; m2; d1; d2].

(** [a] stands before [b] in the list [l]. *)
Definition listedBefore (a b : jsstring) (l : list jsstring) : Prop :=
  ∃ l1 l2 l3, l = l1 ++ a :: l2 ++ b :: l3.

(** Ascending: no element is above a later one. *)
Definition ascending (l : list jsstring) : Prop :=
  StronglySorted (λ a b, strLt b a = false) l.

(** ** para.ts: slugify *)

(** [s.replace(re, rep)] for a regex with the [g] flag and a replacement
    text without [$]: every match, from left to right, each search starting
    where the match before ended; behind an empty match the search moves on
    by one code unit.  [pv] is the character left of [s]. *)
Fixpoint replaceReFuel (fuel : nat) (m : bool) (r : regex) (rep : jsstring)
    (pv : option N) (s : jsstring) : jsstring :=
  match fuel with
  | O => s
  | S fuel' =>
      match searchFrom m r pv s 0 with
      | None => s
      | Some (i, st) =>
          if (length (rest st) <? length (drop i s))%nat then
            take i s ++ rep ++ replaceReFuel fuel' m r rep (prev st) (rest st)
          else
            match drop i s with
            | c :: s' =>
                take i s ++ rep ++ c :: replaceReFuel fuel' m r rep (Some c) s'
            | [] => take i s ++ rep
            end
      end
  end.

Definition replaceRe (m : bool) (r : regex) (rep s : jsstring) : jsstring :=
  replaceReFuel (S (length s)) m r rep None s.

(** [s.toLowerCase()] as far as [slugify] can tell.  The ASCII letters, and
    the two code units outside ASCII whose lower case holds an ASCII letter:
    U+0130 gives [i] and U+0307, U+212A gives [k].  Every other code unit
    lower-cases to code units outside [a-z0-9], which the next step of
    [slugify] replaces whatever they are; they are kept as they are. *)
Definition lowerUnit (c : N) : jsstring :=
  if (65 <=? c) && (c <=? 90) then [c + 32]
  else if c =? 0x130 then [105; 0x307]
  else if c =? 0x212A then [107]
  else [c].

Definition toLowerCase (s : jsstring) : jsstring := s ≫= lowerUnit.

(** [[a-z0-9]] *)
Definition isSlugChar (c : N) : bool :=
  ((97 <=? c) && (c <=? 122)) || ((48 <=? c) && (c <=? 57)).

(** [/[^a-z0-9]+/g] *)
Definition nonSlugRe : regex := plus (λ c, negb (isSlugChar c)).

(** [/^-|-$/g] *)
Definition edgeDashRe : regex := Alt (cat [Bol; lit "-"]) (cat [lit "-"; Eol]).

(** [slugify(title)] *)
Definition slugify (title : jsstring) : jsstring :=
  take 60
    (replaceRe false edgeDashRe []
       (replaceRe false nonSlugRe (js "-") (toLowerCase title))).

(** ** Slugs *)

(** The text cut at every character outside [a-z0-9]. *)
Fixpoint slugPieces (s : jsstring) : list jsstring :=
  match s with
  | [] => [[]]
  | c :: s' =>
      if isSlugChar c then
        match slugPieces s' with
        | l :: ls => (c :: l) :: ls
        | [] => [[c]]
        end
      else [] :: slugPieces s'
  end.

(** The words of a text: its maximal runs of characters of [a-z0-9]. *)
Definition slugWords (s : jsstring) : list jsstring :=
  filter (λ w, w ≠ []) (slugPieces s).

Definition DASH : jsstring := js "-".

(** Every run of characters outside [a-z0-9] replaced by one dash. *)
Fixpoint collapse (inRun : bool) (s : jsstring) : jsstring :=
  match s with
  | [] => []
  | c :: s' =>
      if isSlugChar c then c :: collapse false s'
      else if inRun then collapse true s'
      else 45 :: collapse true s'
  end.

(** Without one dash at the start, at the end. *)
Definition dropFirstDash (u : jsstring) : jsstring :=
  match u with
  | c :: u' => if c =? 45 then u' else u
  | [] => []
  end.

Definition dropLastDash (u : jsstring) : jsstring :=
  reverse (dropFirstDash (reverse u)).

(** No two dashes in a row. *)
Fixpoint singleDashes (s : jsstring) : Prop :=
  match s with
  | a :: s' =>
      match s' with
      | b :: _ => ¬ (a = 45 ∧ b = 45)
      | [] => True
      end ∧ singleDashes s'
  | [] => True
  end.

(** A slug: characters of [a-z0-9] and single dashes, no dash in front. *)
Definition slugShaped (s : jsstring) : Prop :=
  Forall (λ c, isSlugChar c = true ∨ c = 45) s
  ∧ head s ≠ Some 45
  ∧ singleDashes s.

(** ** index.ts: the [agent_end] handler *)

Section AgentEnd.

Variable detectProject : jsstring → option jsstring.

(** The handler of [agent_end]: the file system afterwards, and the flag
  [reindexQueued].  [None] is an event without messages. *)
Definition agentEnd (now : Clock) (messages : option (list SessionEntry))
  (cwd : jsstring) (st : fs) (reindexQueued : bool) : fs * bool :=
match messages with
| None | Some [] => (st, reindexQueued)
| Some entries =>
    let knowledge := lightExtract detectProject entries cwd in
    let hasContent :=
      (0 <? length (decisions knowledge))%nat
      || (0 <? length (solutions knowledge))%nat
      || (0 <? length (learnings knowledge))%nat in
    if hasContent then (writeToDaily now knowledge st, true)
    else (st, reindexQueued)
end.

End AgentEnd.

(** ** The lines light extraction keeps *)

(** A line with a solution marker and a length from 16 to 299. *)
Definition solutionLine (line : jsstring) : Prop :=
  test false solutionRe line = true ∧ (16 ≤ length line < 300)%nat.

(** A line with a learning marker and a length from 11 to 299. *)
Definition learningLine (line : jsstring) : Prop :=
  test false learningRe line = true ∧ (11 ≤ length line < 300)%nat.

(** A line with an action marker and a length from 11 to 199. *)
Definition todoLine (line : jsstring) : Prop :=
  test false actionRe line = true ∧ (11 ≤ length line < 200)%nat.

(** A line shorter than 200 that, trimmed, starts with a command and not
    with a code fence. *)
Definition commandLine (line : jsstring) : Prop :=
  test false fenceRe (trim line) = false
  ∧ test false commandRe (trim line) = true
  ∧ (length line < 200)%nat.

#[local] Instance solutionLine_dec line : Decision (solutionLine line).
Proof. unfold solutionLine. apply _. Defined.
#[local] Instance learningLine_dec line : Decision (learningLine line).
Proof. unfold learningLine. apply _. Defined.
#[local] Instance todoLine_dec line : Decision (todoLine line).
Proof. unfold todoLine. apply _. Defined.
#[local] Instance commandLine_dec line : Decision (commandLine line).
Proof. unfold commandLine. apply _. Defined.

(** The scanned lines of the messages of the assistant. *)
Definition assistantLines (entries : list SessionEntry) : list jsstring :=
  entries ≫= (λ e,
    match message e with
    | Some msg =>
        if bool_decide (role msg = Some (js "assistant")) then linesOfEntry e
        else []
    | None => []
    end).

(** Text without white space at its ends, and not empty. *)
Definition trimmedText (x : jsstring) : Prop :=
  x ≠ [] ∧ ∀ c, head x = Some c ∨ last x = Some c → isSpace c = false.

(** A list of items as [lightExtract] returns it: at most five, distinct,
    each a trimmed single line shorter than 300. *)
Definition extractedList (l : list jsstring) : Prop :=
  (length l ≤ 5)%nat ∧ NoDup l
  ∧ Forall (λ x, trimmedText x ∧ (10 ∉ x) ∧ (length x < 300)%nat) l.

(** ** index.ts: writing the priorities back *)

(** The [for] loop of [writePriorities]: [startIdx] and [endIdx], [None]
    for the source's [-1]. *)
Fixpoint sectionBounds (fileLines : list jsstring) (i : nat)
    (startIdx : option nat) : option nat * option nat :=
  match fileLines with
  | [] => (startIdx, None)
  | ln :: fileLines' =>
      if startsWith PRIORITIES_HEADER ln then
        sectionBounds fileLines' (S i) (Some (S i))
      else if bool_decide (is_Some startIdx) && startsWith H2 ln then
        (startIdx, Some i)
      else sectionBounds fileLines' (S i) startIdx
  end.

(** [a.splice(start, deleteCount, ...items)] *)
Definition spliceLines (start deleteCount : nat) (items a : list jsstring)
    : list jsstring :=
  take start a ++ items ++ drop (start + deleteCount) a.

(** [writePriorities(lines)] *)
Definition writePriorities (now : Clock) (lines : list jsstring) (st : fs)
    : fs :=
  let st := ensureDailyNote (today now) st in
  let content := readNote (today now) st in
  let fileLines := splitLines content in
  match sectionBounds fileLines 0 None with
  | (Some startIdx, endIdx) =>
      let endIdx := default (length fileLines) endIdx in
      writeNote (today now)
        (joinLines
           (spliceLines startIdx (endIdx - startIdx) (lines ++ [[]]) fileLines))
        st
  | (None, _) => st
  end.

(** The lines the [/priorities] command writes for the text of the
    editor: one unchecked line for each line with visible text. *)
Definition linesOfInput (input : jsstring) : list jsstring :=
  (λ l, PLACEHOLDER ++ trim l)
    <$> filter (λ l, trim l ≠ []) (splitLines input).

(** The [/priorities] command without priorities: the editor returned
    [input] ([None] when it was cancelled). *)
Definition setPriorities (now : Clock) (input : option jsstring) (st : fs)
    : fs :=
  match input with
  | Some text =>
      if bool_decide (trim text ≠ []) then writePriorities now (linesOfInput text) st
      else st
  | None => st
  end.

(** The lines the toggle writes for the items. *)
Definition linesOfItems (items : list PriorityItem) : list jsstring :=
  (λ p, if done p then CHECKED_x ++ text p else PLACEHOLDER ++ text p)
    <$> items.

(** [a[i]] for an integer [i]: [None] is [undefined]. *)
Definition lookupZ {A} (a : list A) (i : Z) : option A :=
  if (0 <=? i)%Z then a !! Z.to_nat i else None.

(** The toggle of the item at the index [selected]:
    [items[selected] = { ...items[selected], done: !items[selected].done }]
    and the write of all items.  [None] is the [TypeError] of reading
    [done] of [undefined]. *)
Definition togglePriority (now : Clock) (selected : Z)
    (items : list PriorityItem) (st : fs) : option (list PriorityItem * fs) :=
  p ← lookupZ items selected;
  let items :=
    <[Z.to_nat selected := {| text := text p; done := negb (done p) |}]> items in
  Some (items, writePriorities now (linesOfItems items) st).

(** ** The Priorities section as [writePriorities] sees it *)

(** Lines that are no headers of any section. *)
Definition noHeaders (body : list jsstring) : Prop :=
  Forall (λ ln, startsWith H2 ln = false) body.

(** Lines of earlier Priorities sections: Priorities headers and lines
    that are no headers. *)
Definition earlierSections (earlier : list jsstring) : Prop :=
  Forall (λ ln, startsWith PRIORITIES_HEADER ln = true
                ∨ startsWith H2 ln = false) earlier.

(** ** ui.ts and index.ts: the key handlers

    [matchesKey] and the key identifiers of [Key] come from pi-tui and are
    left open.  Of the components only the selection is modelled: the
    render cache that every handler clears holds no data of its own. *)

Record SearchResult := {
  path : jsstring;
  title : jsstring;
  score : jsstring;
  snippet : jsstring
}.

(** The callbacks a handler calls. *)
Inductive UiEvent :=
  | OnClose
  | OnSelect (r : SearchResult).

(** [sections] of [DashboardComponent] *)
Definition sections : list jsstring :=
  js <$> ["overview"; "projects"; "areas"; "resources"; "inbox"]%string.

(** The state the toggle view of [/priorities] closes over, with the vault
    and the re-index flag it writes. *)
Record PrioritiesView := {
  selected : Z;
  items : list PriorityItem;
  vault : fs;
  reindexQueued : bool
}.

Section Keys.
Variable matchesKey : jsstring → jsstring → bool.
Variables Key_escape Key_up Key_down Key_left Key_right Key_enter
  Key_space : jsstring.

(** [DashboardComponent.handleInput(data)] on [selectedSection]; the
    boolean tells whether [onClose] was called. *)
Definition dashboardInput (data : jsstring) (selectedSection : Z)
    : Z * bool :=
  if matchesKey data Key_escape || matchesKey data (js "q") then
    (selectedSection, true)
  else if matchesKey data Key_left || matchesKey data (js "h") then
    (Z.max 0 (selectedSection - 1), false)
  else if matchesKey data Key_right || matchesKey data (js "l") then
    (Z.min (Z.of_nat (length sections) - 1) (selectedSection + 1), false)
  else (selectedSection, false).

(** [SearchResultsComponent.handleInput(data)] on [selected], with the
    callback it calls. *)
Definition searchInput (results : list SearchResult) (data : jsstring)
    (selected : Z) : Z * option UiEvent :=
  if matchesKey data Key_escape then (selected, Some OnClose)
  else if matchesKey data Key_up || matchesKey data (js "k") then
    (Z.max 0 (selected - 1), None)
  else if matchesKey data Key_down || matchesKey data (js "j") then
    (Z.min (Z.of_nat (length results) - 1) (selected + 1), None)
  else if matchesKey data Key_enter then
    (selected, OnSelect <$> lookupZ results selected)
  else (selected, None).

(** [handleInput(data)] of the toggle view of [/priorities]; the boolean
    tells whether [done] was called, [None] is a [TypeError].  The
    notification of the key [a], [updateWidgets] and the request to
    render write nothing that is modelled. *)
Definition prioritiesInput (now : Clock) (data : jsstring)
    (v : PrioritiesView) : option (PrioritiesView * bool) :=
  if matchesKey data Key_escape || matchesKey data (js "q") then
    Some (v, true)
  else if matchesKey data Key_up || matchesKey data (js "k") then
    Some ({| selected := Z.max 0 (selected v - 1); items := items v;
             vault := vault v; reindexQueued := reindexQueued v |}, false)
  else if matchesKey data Key_down || matchesKey data (js "j") then
    Some ({| selected :=
               Z.min (Z.of_nat (length (items v)) - 1) (selected v + 1);
             items := items v;
             vault := vault v; reindexQueued := reindexQueued v |}, false)
  else if matchesKey data Key_space || matchesKey data Key_enter then
    '(items', st') ← togglePriority now (selected v) (items v) (vault v);
    Some ({| selected := selected v; items := items';
             vault := st'; reindexQueued := true |}, false)
  else Some (v, false).
End Keys.

(** ** Runs of the key handlers *)

Section KeyRuns.
Variable matchesKey : jsstring → jsstring → bool.
Variables Key_escape Key_up Key_down Key_left Key_right Key_enter
  Key_space : jsstring.

(** The selected section after the inputs, from the given one. *)
Definition dashboardRun (inputs : list jsstring) (selectedSection : Z) : Z :=
  foldl (λ s data,
           (dashboardInput matchesKey Key_escape Key_left Key_right data s).1)
    selectedSection inputs.

(** The selection after the inputs and the callbacks called on the way. *)
Definition searchRun (results : list SearchResult) (inputs : list jsstring)
    (selected : Z) : Z * list UiEvent :=
  foldl (λ '(s, evs) data,
           let '(s', ev) :=
             searchInput matchesKey Key_escape Key_up Key_down Key_enter
               results data s in
           (s', evs ++ option_list ev))
    (selected, []) inputs.

(** The view after the inputs, each with the time it arrives at. *)
Definition prioritiesRun (inputs : list (Clock * jsstring))
    (v : PrioritiesView) : option PrioritiesView :=
  foldl (λ ov '(now, data),
           v ← ov;
           fst <$> prioritiesInput matchesKey Key_escape Key_up Key_down
                     Key_enter Key_space now data v)
    (Some v) inputs.
End KeyRuns.

(** The selection points at an item. *)
Definition inRange {A} (a : list A) (i : Z) : Prop :=
  (0 ≤ i < Z.of_nat (length a))%Z.

(** ** index.ts: the [context] event

    The handler reads of a message only its [customType], so the messages
    are of any type with that field ([None] when a message has none). *)

Section ContextEvent.
Context {A : Type}.
Variable customType : A → option jsstring.

Definition isBrainContext (msg : A) : bool :=
  bool_decide (customType msg = Some (js "second-brain-context")).

(** The [for] loop, with [n] for [i + 1]: it goes down the indices and
    splices [messages] in place.  [None] is the [TypeError] of reading a
    field of [undefined]. *)
Fixpoint pruneLoop (n : nat) (messages : list A) (lastBrainIdx : Z)
    : option (list A * Z) :=
  match n with
  | O => Some (messages, lastBrainIdx)
  | S i =>
      msg ← messages !! i;
      if isBrainContext msg then
        if (lastBrainIdx =? -1)%Z then pruneLoop i messages (Z.of_nat i)
        else pruneLoop i (delete i messages) (lastBrainIdx - 1)%Z
      else pruneLoop i messages lastBrainIdx
  end.

(** The handler of the [context] event: the messages it returns. *)
Definition pruneContext (messages : list A) : option (list A) :=
  fst <$> pruneLoop (length messages) messages (-1).
End ContextEvent.

(** ** The messages of the [context] event *)

(** The messages that are no context of the second brain. *)
Definition otherMessages {A} (customType : A → option jsstring)
    (messages : list A) : list A :=
  filter (λ m, isBrainContext customType m = false) messages.

(** ** index.ts: the text output of [qmd search] *)

(** [s.split(sep)] for a separator that is not empty. *)
Fixpoint splitFuel (fuel : nat) (sep s : jsstring) : list jsstring :=
  match fuel with
  | O => [s]
  | S fuel' =>
      match cutAt sep s with
      | Some (a, b) => a :: splitFuel fuel' sep b
      | None => [s]
      end
  end.

Definition split (sep s : jsstring) : list jsstring :=
  splitFuel (S (length s)) sep s.

Definition BLANK_LINE : jsstring := [10; 10].
Definition TITLE : jsstring := js "Title:".
Definition SCORE : jsstring := js "Score:".
Definition CONTEXT : jsstring := js "Context:".
Definition HUNK : jsstring := js "@@".

(** [/^(qmd:\/\/[^\s]+)/] *)
Definition qmdPathRe : regex :=
  cat [Bol; Cap (Seq (lit "qmd://") (plus (λ c, negb (isSpace c))))].

(** The test of the filter that selects the lines of the snippet. *)
Definition isSnippetLine (pathLine l : jsstring) : bool :=
  negb (startsWith TITLE l) && negb (startsWith SCORE l)
  && negb (startsWith CONTEXT l) && bool_decide (l ≠ pathLine)
  && negb (startsWith HUNK l).

(** The body of the loop of [parseTextSearchResults]: the result of a
    block, [None] when the loop continues without one.  [split] returns at
    least one line, so the test of [lines.length] never holds. *)
Definition resultOfBlock (block : jsstring) : option SearchResult :=
  let lines := splitLines (trim block) in
  let pathLine := default [] (head lines) in
  p ← match1 false qmdPathRe pathLine;
  let titleLine := List.find (startsWith TITLE) lines in
  let scoreLine := List.find (startsWith SCORE) lines in
  let snippetLines := filter (λ l, isSnippetLine pathLine l = true) lines in
  Some {| path := p;
          title := from_option (λ l, trim (replaceFirst TITLE [] l)) []
                     titleLine;
          score := from_option (λ l, trim (replaceFirst SCORE [] l)) (js "?")
                     scoreLine;
          snippet := trim (joinLines snippetLines) |}.

(** [parseTextSearchResults(output)] *)
Definition parseTextSearchResults (output : jsstring) : list SearchResult :=
  omap resultOfBlock (split BLANK_LINE output).

(** ** The text output of [qmd search] *)

(** A path of the index: [qmd://] and then characters that are no white
    space, at least one. *)
Definition qmdPath (p : jsstring) : Prop :=
  ∃ name, p = js "qmd://" ++ name ∧ name ≠ []
          ∧ Forall (λ c, isSpace c = false) name.

(** Text without white space at its ends. *)
Definition trimmed (t : jsstring) : Prop := trim t = t.

(** A line of a snippet as the parser keeps it: it is not empty and is
    neither a field of the block nor the path. *)
Definition snippetLine (p l : jsstring) : Prop :=
  l ≠ [] ∧ isSnippetLine p l = true.

(** A result that a block of the text output can hold. *)
Definition printable (r : SearchResult) : Prop :=
  qmdPath (path r)
  ∧ (trimmed (title r) ∧ (10 ∉ title r))
  ∧ (trimmed (score r) ∧ (10 ∉ score r))
  ∧ trimmed (snippet r) ∧ snippet r ≠ []
  ∧ Forall (snippetLine (path r)) (splitLines (snippet r)).

(** The block of a result: the path, the title, the score, the snippet. *)
Definition blockOf (r : SearchResult) : jsstring :=
  joinLines [path r; js "Title: " ++ title r; js "Score: " ++ score r;
             snippet r].

(** Every newline is followed by a character that is no newline: the text
    has no blank line and does not end in a newline. *)
Fixpoint tight (b : jsstring) : bool :=
  match b with
  | [] => true
  | c :: b' =>
      (negb (c =? 10)
       || match b' with [] => false | d :: _ => negb (d =? 10) end)
      && tight b'
  end.

(** ** para.ts: the notes of a category *)

Inductive ParaCategory := inbox | projects | areas | resources | archive.

(** An entry of a directory as [readdirSync] returns it with
    [withFileTypes], a file with the text [readFileSync] reads and the
    time of [statSync(...).mtime.getTime()].  [Other] is an entry that is
    neither a file nor a directory. *)
Inductive Dirent :=
  | File (name : jsstring) (content : jsstring) (mtime : Z)
  | Directory (name : jsstring) (entries : list Dirent)
  | Other (name : jsstring).

(** The directories of the categories: [None] when [existsSync] fails,
    else the entries in the order [readdirSync] returns them. *)
Definition ParaFs : Type := ParaCategory → option (list Dirent).

Module Note.
Record NoteInfo := {
path : jsstring;
name : jsstring;
title : jsstring;
category : ParaCategory;
modified : Z
}.
End Note.

(** [/\.md$/] *)
Definition mdSuffixRe : regex := cat [lit ".md"; Eol].

(** [/^#\s+(.+)$/m] *)
Definition headingRe : regex :=
  cat [Bol; lit "#"; plus isSpace; Cap (plus isDot); Eol].

(** [join(dir, name)] for a directory and a name without separators. *)
Definition join (dir name : jsstring) : jsstring := dir ++ js "/" ++ name.

(** The note pushed for a file; [prefix] is empty for a file of the
    category's directory and the name of the sub directory with a slash
    for a file below. *)
Definition noteOf (category : ParaCategory) (fullPath prefix fileName
    content : jsstring) (mtime : Z) : Note.NoteInfo :=
  let base := removeFirst false mdSuffixRe fileName in
  {| Note.path := fullPath;
     Note.name := prefix ++ base;
     Note.title := default base (match1 true headingRe content);
     Note.category := category;
     Note.modified := mtime |}.

(** The body of the loop over the entries. *)
Definition notesOfEntry (category : ParaCategory) (dir : jsstring)
    (entry : Dirent) : list Note.NoteInfo :=
  match entry with
  | File name content mtime =>
      if endsWith (js ".md") name then
        [noteOf category (join dir name) [] name content mtime]
      else []
  | Directory name subEntries =>
      subEntries ≫= λ sub,
        match sub with
        | File subName content mtime =>
            if endsWith (js ".md") subName then
              [noteOf category (join (join dir name) subName)
                 (name ++ js "/") subName content mtime]
            else []
        | _ => []
        end
  | Other _ => []
  end.

(** [notes.sort((a, b) => b.modified.getTime() - a.modified.getTime())]:
    the sort is stable, so it is the insertion of each note behind the
    notes the comparator puts before it. *)
Fixpoint insertNote (x : Note.NoteInfo) (l : list Note.NoteInfo)
    : list Note.NoteInfo :=
  match l with
  | [] => [x]
  | y :: l' =>
      if (0 <? Note.modified y - Note.modified x)%Z then y :: insertNote x l'
      else x :: l
  end.

Definition sortNotes (l : list Note.NoteInfo) : list Note.NoteInfo :=
  foldr insertNote [] l.

Section Para.
(** [PARA_DIRS] *)
Variable PARA_DIRS : ParaCategory → jsstring.
(** [basename] of node:path *)
Variable basename : jsstring → jsstring.

(** [listNotes(category)] *)
Definition listNotes (vault : ParaFs) (category : ParaCategory)
  : list Note.NoteInfo :=
match vault category with
| None => []
| Some entries =>
    sortNotes (entries ≫= notesOfEntry category (PARA_DIRS category))
end.

(** [getCounts()] *)
Definition getCounts (vault : ParaFs) : ParaCategory → nat :=
λ category, length (listNotes vault category).

(** The test of [find] in [detectProject]. *)
Definition matchesDir (dirName : jsstring) (p : Note.NoteInfo) : bool :=
bool_decide (Note.name p = dirName)
|| bool_decide (slugify (Note.title p) = slugify dirName).

(** [detectProject(cwd)] *)
Definition detectProject (vault : ParaFs) (cwd : jsstring)
  : option jsstring :=
let dirName := basename cwd in
let projects := listNotes vault projects in
Note.name <$> List.find (matchesDir dirName) projects.
End Para.

(** ** The notes of a category *)

(** The notes of the files of a directory, in the order of the entries. *)
Definition notesOfEntries (category : ParaCategory) (dir : jsstring)
    (entries : list Dirent) : list Note.NoteInfo :=
  entries ≫= notesOfEntry category dir.

(** Latest first. *)
Definition latestFirst (l : list Note.NoteInfo) : Prop :=
  StronglySorted (λ a b, (Note.modified b ≤ Note.modified a)%Z) l.

(** The notes modified at the time [t], in their order. *)
Definition modifiedAt (t : Z) (l : list Note.NoteInfo) : list Note.NoteInfo :=
  filter (λ n, Note.modified n = t) l.

(** ** index.ts: capturing a note

    A capture writes one file of a category directory.  [ParaFiles] maps
    the names of the files of each directory to their text; the date is
    [new Date().toISOString().split("T")[0]].  The schema of the tool and
    the labels of the command offer four of the five categories. *)

Definition ParaFiles : Type := ParaCategory → gmap jsstring jsstring.

#[local] Instance ParaCategory_eq_dec : EqDecision ParaCategory.
Proof. solve_decision. Defined.

(** [writeFileSync(join(PARA_DIRS[category], name), text)] *)
Definition writeFile (category : ParaCategory) (name text : jsstring)
    (files : ParaFiles) : ParaFiles :=
  λ c, if decide (c = category) then <[name := text]> (files c) else files c.

(** The text of a captured note. *)
Definition captureText (date title content : jsstring) : jsstring :=
  js "---" ++ NL ++ js "title: " ++ title ++ NL ++ js "created: " ++ date
  ++ NL ++ js "---" ++ NL ++ js "# " ++ title ++ NL ++ NL ++ content ++ NL.

Section Capture.
Variable PARA_DIRS : ParaCategory → jsstring.

(** [execute] of the tool [second_brain_capture]: the files and the
  re-index flag afterwards, and the path of the details. *)
Definition captureTool (date title content : jsstring)
  (category : option ParaCategory) (files : ParaFiles)
  : ParaFiles * bool * jsstring :=
let category := default inbox category in
let dir := PARA_DIRS category in
let slug := slugify title in
let filePath := join dir (slug ++ js ".md") in
(writeFile category (slug ++ js ".md") (captureText date title content)
   files,
 true, filePath).

(** The handler of [/capture] in interactive mode: [choice] is the
  category of the selected label, [title] and [content] what the input
  and the editor return, each [None] when cancelled.  The result is the
  files and the re-index flag. *)
Definition captureCommand (date : jsstring) (choice : option ParaCategory)
  (title content : option jsstring) (files : ParaFiles)
  (reindexQueued : bool) : ParaFiles * bool :=
match choice with
| None => (files, reindexQueued)
| Some category =>
    match title with
    | None => (files, reindexQueued)
    | Some title =>
        if bool_decide (trim title = []) then (files, reindexQueued)
        else
          match content with
          | None => (files, reindexQueued)
          | Some content =>
              if bool_decide (trim content = []) then (files, reindexQueued)
              else
                (writeFile category (slugify title ++ js ".md")
                   (captureText date title content) files,
                 true)
          end
    end
end.
End Capture.

(** ** Where a heading can start *)

(** The character left of the position behind [P]. *)
Definition lastOr (pv : option N) (P : jsstring) : option N :=
  match last P with
  | Some c => Some c
  | None => pv
  end.

(** No [#] of [P] stands at the start of a line, when [pv] is the character
    left of [P]. *)
Fixpoint noHeading (pv : option N) (P : jsstring) : Prop :=
  match P with
  | [] => True
  | c :: P' =>
      (c = 35 → ∃ c', pv = Some c' ∧ isLineTerminator c' = false)
      ∧ noHeading (Some c) P'
  end.

(** * Theorems *)


#[local] Arguments js : simpl never.
#[local] Arguments N.eqb : simpl never.
#[local] Arguments N.leb : simpl never.
#[local] Arguments N.ltb : simpl never.

Ltac not_in_literal :=
  let H := fresh in
  intros H; vm_compute in H;
  repeat (let H' := fresh in
          inversion H as [|? ? ? H']; clear H; rename H' into H).

Lemma startsWith_head p s a :
  startsWith p s = true → head p = Some a → head s = Some a.
Proof.
  destruct p as [|x p], s as [|y s]; simpl; try done.
  intros [->%N.eqb_eq _]%andb_true_iff. done.
Qed.

Lemma startsWith_app p q s :
  startsWith (p ++ q) s = true → startsWith p s = true.
Proof.
  revert s. induction p as [|a p IH]; intros [|b s]; simpl; try done.
  intros [-> H]%andb_true_iff. by rewrite (IH _ H).
Qed.

(** ** Lines of a text *)

Lemma splitLines_nonempty s : splitLines s ≠ [].
Proof.
  destruct s as [|c s]; simpl; [done|].
  destruct (c =? 10); [done|]. by destruct (splitLines s).
Qed.

Lemma joinLines_cons_char c l ls :
  joinLines ((c :: l) :: ls) = c :: joinLines (l :: ls).
Proof. unfold joinLines; simpl. by destruct ls. Qed.

Lemma joinLines_cons l ls :
  ls ≠ [] → joinLines (l :: ls) = l ++ NL ++ joinLines ls.
Proof. unfold joinLines; simpl. by destruct ls. Qed.

Lemma joinLines_splitLines s : joinLines (splitLines s) = s.
Proof.
  induction s as [|c s IH]; simpl; [done|].
  destruct (c =? 10) eqn:E.
  - apply N.eqb_eq in E as ->.
    rewrite joinLines_cons by apply splitLines_nonempty. by rewrite IH.
  - pose proof (splitLines_nonempty s) as Hne.
    destruct (splitLines s) as [|l ls]; [done|].
    by rewrite joinLines_cons_char, IH.
Qed.

Lemma splitLines_no_newline s : Forall (λ l, 10 ∉ l) (splitLines s).
Proof.
  induction s as [|c s IH]; simpl.
  - repeat constructor. by intros ?%elem_of_nil.
  - destruct (c =? 10) eqn:E.
    + constructor; [by intros ?%elem_of_nil|done].
    + destruct (splitLines s) as [|l ls]; inversion IH; subst.
      * repeat constructor.
        intros [Hc|?%elem_of_nil]%elem_of_cons; [subst c|]; done.
      * constructor; [|done].
        intros [Hc|?]%elem_of_cons; [subst c|]; done.
Qed.

Lemma splitLines_line l :
  10 ∉ l → splitLines l = [l].
Proof.
  induction l as [|c l IH]; intros Hn; simpl; [done|].
  destruct (c =? 10) eqn:E.
  - apply N.eqb_eq in E as ->. exfalso. apply Hn. by left.
  - rewrite IH; [done|]. intros ?. apply Hn. by right.
Qed.

Lemma splitLines_app_newline l s :
  10 ∉ l → splitLines (l ++ NL ++ s) = l :: splitLines s.
Proof.
  induction l as [|c l IH]; intros Hn; simpl; [done|].
  destruct (c =? 10) eqn:E.
  - apply N.eqb_eq in E as ->. exfalso. apply Hn. by left.
  - simpl in IH. rewrite IH; [done|]. intros ?. apply Hn. by right.
Qed.

Lemma splitLines_joinLines ls :
  ls ≠ [] → Forall (λ l, 10 ∉ l) ls → splitLines (joinLines ls) = ls.
Proof.
  induction ls as [|l ls IH]; intros Hne Hall; [done|].
  inversion Hall; subst.
  destruct ls as [|l' ls].
  - by apply splitLines_line.
  - rewrite joinLines_cons by done.
    rewrite splitLines_app_newline by done.
    by rewrite IH.
Qed.

(** ** Trimming and the lines the insertion loop skips *)

Lemma trimStart_app_nonspace l c :
  isSpace c = false → trimStart (l ++ [c]) ≠ [].
Proof.
  intros Hc. induction l as [|x l IH]; simpl.
  - by rewrite Hc.
  - by destruct (isSpace x).
Qed.

Lemma trim_cons_nonspace c s : isSpace c = false → trim (c :: s) ≠ [].
Proof.
  intros Hc. unfold trim, trimEnd; simpl. rewrite Hc. simpl.
  intros H. apply (f_equal (@rev N)) in H. rewrite rev_involutive in H.
  by apply trimStart_app_nonspace in H.
Qed.

Lemma header_not_skippable ln : startsWith H2 ln = true → ¬ skippable ln.
Proof.
  intros H [Hc|Ht].
  - apply (startsWith_head _ _ 35) in H; [|done].
    apply (startsWith_head _ _ 60) in Hc; [|done]. congruence.
  - apply (startsWith_head _ _ 35) in H; [|done].
    destruct ln as [|c ln]; [done|]. simplify_eq/=.
    by apply trim_cons_nonspace in Ht.
Qed.

Lemma dash_not_skippable s : ¬ skippable (js "- " ++ s).
Proof.
  intros [Hc|Ht]; [done|]. by apply trim_cons_nonspace in Ht.
Qed.

Lemma skipLoop_skippable header ln lines i :
  skippable ln →
  skipLoop header (ln :: lines) i = skipLoop header lines (S i).
Proof.
  intros Hs. cbn [skipLoop].
  destruct (startsWith H2 ln) eqn:E2.
  { by apply header_not_skippable in E2. }
  cbn [andb]. destruct (startsWith COMMENT_OPEN ln) eqn:Ec; [done|].
  destruct Hs as [?|Ht]; [congruence|]. by rewrite bool_decide_true.
Qed.

Lemma skipLoop_stop header ln lines i :
  ¬ skippable ln → skipLoop header (ln :: lines) i = i.
Proof.
  intros Hs. cbn [skipLoop].
  destruct (startsWith H2 ln && negb (startsWith header ln)); [done|].
  destruct (startsWith COMMENT_OPEN ln) eqn:Ec.
  { exfalso. apply Hs. by left. }
  rewrite bool_decide_false; [done|]. intros ?. apply Hs. by right.
Qed.

Lemma leading_after lines :
  leadingSkippable lines ++ afterSkippable lines = lines.
Proof.
  induction lines as [|ln lines IH]; simpl; [done|].
  case_decide; simpl; by rewrite ?IH.
Qed.

Lemma take_leading lines :
  take (length (leadingSkippable lines)) lines = leadingSkippable lines.
Proof.
  induction lines as [|ln lines IH]; simpl; [done|].
  case_decide; simpl; by rewrite ?IH.
Qed.

Lemma drop_leading lines :
  drop (length (leadingSkippable lines)) lines = afterSkippable lines.
Proof.
  induction lines as [|ln lines IH]; simpl; [done|].
  case_decide; simpl; by rewrite ?IH.
Qed.

(** The loop stops behind the leading comment and blank lines. *)
Lemma skipLoop_spec header lines i :
  skipLoop header lines i = (i + length (leadingSkippable lines))%nat.
Proof.
  revert i. induction lines as [|ln lines IH]; intros i.
  - simpl. lia.
  - destruct (decide (skippable ln)) as [Hs|Hs].
    + rewrite skipLoop_skippable by done. rewrite IH.
      cbn [leadingSkippable]. rewrite decide_True by done. simpl. lia.
    + rewrite skipLoop_stop by done.
      cbn [leadingSkippable]. rewrite decide_False by done. simpl. lia.
Qed.

(** ** Light extraction: which lines become decisions *)

Lemma isDecision_decisionLine line :
  isDecision line = true ↔ decisionLine line.
Proof.
  unfold isDecision, decisionLine.
  rewrite !andb_true_iff, Nat.ltb_lt, Nat.ltb_lt. intuition lia.
Qed.

Lemma scanLine_decisions r k line :
  decisions (scanLine r k line)
  = decisions k ++ (if isDecision line then [trim line] else []).
Proof.
  unfold scanLine, push.
  repeat (match goal with |- context [if ?b then _ else _] =>
            destruct b eqn:? end; simpl);
    try reflexivity; by rewrite ?app_nil_r.
Qed.

Lemma foldl_scanLine_decisions r ls : ∀ k,
  decisions (foldl (scanLine r) k ls)
  = decisions k ++ (trim <$> filter decisionLine ls).
Proof.
  induction ls as [|l ls IH]; intros k; simpl.
  - by rewrite app_nil_r.
  - rewrite IH, scanLine_decisions, filter_cons.
    destruct (isDecision l) eqn:E.
    + rewrite decide_True by by apply isDecision_decisionLine.
      by rewrite <- app_assoc.
    + rewrite decide_False; [by rewrite app_nil_r|].
      rewrite <- isDecision_decisionLine. congruence.
Qed.

Lemma scanEntry_decisions k entry :
  decisions (scanEntry k entry)
  = decisions k ++ (trim <$> filter decisionLine (linesOfEntry entry)).
Proof.
  unfold scanEntry, linesOfEntry.
  destruct (decide (entryType entry = js "message")) as [E|E].
  - rewrite bool_decide_false by naive_solver.
    rewrite (bool_decide_true _ E).
    destruct (message entry) as [msg|]; [|by rewrite app_nil_r].
    case_bool_decide; [by rewrite app_nil_r|].
    apply foldl_scanLine_decisions.
  - rewrite bool_decide_true by done. rewrite bool_decide_false by done.
    by rewrite app_nil_r.
Qed.

Lemma foldl_scanEntry_decisions entries : ∀ k,
  decisions (foldl scanEntry k entries)
  = decisions k ++ (trim <$> filter decisionLine (scannedLines entries)).
Proof.
  unfold scannedLines.
  induction entries as [|e es IH]; intros k; simpl.
  - by rewrite app_nil_r.
  - rewrite IH, scanEntry_decisions, filter_app, fmap_app.
    by rewrite <- app_assoc.
Qed.

(** C7 (amended): a scanned line is recorded as a decision exactly when it
    bears a decision marker and its length is in the open interval (15,300),
    that is from 16 to 299; the decisions array is the first five distinct
    trimmed such lines, in the order of the conversation. *)
Theorem lightExtract_decisions detectProject entries cwd :
  decisions (lightExtract detectProject entries cwd)
  = dedupe5 (trim <$> filter decisionLine (scannedLines entries)).
Proof.
  unfold lightExtract; simpl.
  by rewrite foldl_scanEntry_decisions.
Qed.

(** C7 (as stated) fails: a marker-bearing line of exactly 15 characters is
    not classified as a decision. *)
Lemma lightExtract_decision_15_counterexample :
  test false decisionRe (js "we decided that") = true
  ∧ length (js "we decided that") = 15%nat
  ∧ decisions (lightExtract (λ _, None) (oneMessage "we decided that") []) = [].
Proof. vm_compute. done. Qed.

Example lightExtract_decision_16 :
  decisions (lightExtract (λ _, None) (oneMessage "we decided that!") [])
  = [js "we decided that!"].
Proof. vm_compute. done. Qed.

(** ** Section-aware insertion *)

Lemma findInsertIndex_None header lines i :
  findInsertIndex header lines i = None ↔ noHeader header lines.
Proof.
  unfold noHeader. revert i.
  induction lines as [|ln lines IH]; intros i; simpl.
  - split; [constructor|done].
  - destruct (startsWith header ln) eqn:E.
    + split; [done|]. intros H. inversion H; congruence.
    + rewrite IH. split; [by constructor|]. by intros H; inversion H.
Qed.

Lemma findInsertIndex_Some header x lines : ∀ i0 i,
  findInsertIndex header lines i0 = Some i →
  (i0 ≤ i)%nat ∧ splice (i - i0) x lines = insertBehind header [x] lines.
Proof.
  unfold splice.
  induction lines as [|ln lines IH]; intros i0 i; simpl; [done|].
  destruct (startsWith header ln) eqn:E.
  - intros [= <-]. rewrite skipLoop_spec.
    split; [lia|].
    replace (S i0 + length (leadingSkippable lines) - i0)%nat
      with (S (length (leadingSkippable lines))) by lia.
    simpl. f_equal.
    by rewrite take_leading, drop_leading.
  - intros H. apply IH in H as [Hle H]. split; [lia|].
    replace (i - i0)%nat with (S (i - S i0)) by lia.
    simpl. by rewrite H.
Qed.

Lemma insertBehind_noHeader header xs lines :
  noHeader header lines → insertBehind header xs lines = lines.
Proof.
  induction 1 as [|ln lines E _ IH]; simpl; [done|]. by rewrite E, IH.
Qed.

Lemma insertBehind_at header xs pre h post :
  noHeader header pre → startsWith header h = true →
  insertBehind header xs (pre ++ h :: post)
  = pre ++ h :: leadingSkippable post ++ xs ++ afterSkippable post.
Proof.
  intros Hpre Hh. induction Hpre as [|ln pre E _ IH]; simpl.
  - by rewrite Hh.
  - by rewrite E, IH.
Qed.

(** The first header line of a text that has one. *)
Lemma first_header header lines :
  ¬ noHeader header lines →
  ∃ pre h post, lines = pre ++ h :: post ∧ noHeader header pre
                ∧ startsWith header h = true.
Proof.
  induction lines as [|ln lines IH]; intros Hn.
  - destruct Hn. constructor.
  - destruct (startsWith header ln) eqn:E.
    + exists [], ln, lines. split_and!; [done|constructor|done].
    + destruct IH as (pre & h & post & -> & Hpre & Hh).
      { intros H. apply Hn. by constructor. }
      exists (ln :: pre), h, post. split_and!; [done|by constructor|done].
Qed.

(** ** The daily note on the file system *)

Lemma ensureDailyNote_present d st c :
  daily st !! dailyPath d = Some c → ensureDailyNote d st = st.
Proof. unfold ensureDailyNote. by intros ->. Qed.

Lemma ensureDailyNote_absent d st :
  daily st !! dailyPath d = None →
  ensureDailyNote d st
  = Fs (<[dailyPath d := newNoteContent st d]> (daily st)) (dailyTemplate st).
Proof. unfold ensureDailyNote. by intros ->. Qed.

Lemma ensureDailyNote_lookup d st :
  daily (ensureDailyNote d st) !! dailyPath d
  = Some (default (newNoteContent st d) (daily st !! dailyPath d)).
Proof.
  unfold ensureDailyNote.
  destruct (daily st !! dailyPath d) as [c|] eqn:E; simpl; [done|].
  by rewrite lookup_insert_eq.
Qed.


(** [appendToSection] on the text [c] that [ensureDailyNote] leaves. *)
Lemma appendToSection_eq now section content date st c :
  let d := default (today now) date in
  daily (ensureDailyNote d st) !! dailyPath d = Some c →
  appendToSection now section content date st
  = if decide (noHeader (H2 ++ section) (splitLines c)) then
      ensureDailyNote d st
    else
      writeNote d
        (joinLines (insertBehind (H2 ++ section) [content] (splitLines c)))
        (ensureDailyNote d st).
Proof.
  intros d Hc. unfold appendToSection. fold d.
  unfold readNote. rewrite Hc. change (default [] (Some c)) with c. cbv zeta.
  destruct (findInsertIndex (H2 ++ section) (splitLines c) 0) as [i|] eqn:E.
  - rewrite decide_False.
    + apply (findInsertIndex_Some _ content) in E as [_ E].
      rewrite Nat.sub_0_r in E. by rewrite E.
    + rewrite <- (findInsertIndex_None _ _ 0%nat). congruence.
  - rewrite decide_True; [done|]. by apply findInsertIndex_None in E.
Qed.

(** [appendToLog] on the text [c] that [ensureDailyNote] leaves. *)
Lemma appendToLog_eq now entry date st c :
  let d := default (today now) date in
  daily (ensureDailyNote d st) !! dailyPath d = Some c →
  appendToLog now entry date st
  = writeNote d
      (if decide (noHeader (js "## Log") (splitLines c)) then
         c ++ NL ++ logEntry now entry ++ NL
       else
         joinLines
           (insertBehind (js "## Log") [logEntry now entry] (splitLines c)))
      (ensureDailyNote d st).
Proof.
  intros d Hc. unfold appendToLog. fold d.
  unfold readNote. rewrite Hc. change (default [] (Some c)) with c. cbv zeta.
  destruct (findInsertIndex (js "## Log") (splitLines c) 0) as [i|] eqn:E.
  - rewrite decide_False.
    + apply (findInsertIndex_Some _ (logEntry now entry)) in E as [_ E].
      rewrite Nat.sub_0_r in E. by rewrite E.
    + rewrite <- (findInsertIndex_None _ _ 0%nat). congruence.
  - rewrite decide_True; [done|]. by apply findInsertIndex_None in E.
Qed.

(** ** appendToSection *)

(** [appendToSection] on a note that exists. *)
Lemma appendToSection_present now st D c S L :
  daily st !! dailyPath D = Some c →
  appendToSection now S L (Some D) st
  = if decide (noHeader (H2 ++ S) (splitLines c)) then st
    else writeNote D (joinLines (insertBehind (H2 ++ S) [L] (splitLines c))) st.
Proof.
  intros Hc.
  pose proof (ensureDailyNote_present _ _ _ Hc) as He.
  assert (Hc' : daily (ensureDailyNote D st) !! dailyPath D = Some c)
    by by rewrite He.
  pose proof (appendToSection_eq now S L (Some D) st c Hc') as Heq.
  cbv zeta in Heq. change (default (today now) (Some D)) with D in Heq.
  by rewrite He in Heq.
Qed.

Lemma appendToSection_at_header now st D c S L pre h post :
  daily st !! dailyPath D = Some c →
  splitLines c = pre ++ h :: post →
  noHeader (H2 ++ S) pre →
  startsWith (H2 ++ S) h = true →
  appendToSection now S L (Some D) st
  = writeNote D
      (joinLines (pre ++ h :: leadingSkippable post ++ L :: afterSkippable post))
      st.
Proof.
  intros Hc Hl Hpre Hh.
  rewrite (appendToSection_present now st D c S L Hc), decide_False.
  - rewrite Hl. by rewrite (insertBehind_at _ [L]).
  - rewrite Hl. intros Hn. apply Forall_app in Hn as [_ Hn].
    apply Forall_cons in Hn as [Hn _]. congruence.
Qed.

(** C2 (amended): on an existing note for [D], [appendToSection(S, L, D)]
    leaves the file system unchanged when no line starts with ["## " + S]
    (no exception, nothing appended at the end).  Otherwise the first line
    [h] that starts with ["## " + S] is the header: [L] is inserted behind
    [h] and the comment and blank lines that follow it, and all lines of the
    note stay, in their order. *)
Theorem appendToSection_spec now st D c S L :
  daily st !! dailyPath D = Some c →
  (noHeader (H2 ++ S) (splitLines c) →
   appendToSection now S L (Some D) st = st)
  ∧ (∀ pre h post,
       splitLines c = pre ++ h :: post →
       noHeader (H2 ++ S) pre →
       startsWith (H2 ++ S) h = true →
       appendToSection now S L (Some D) st
       = writeNote D
           (joinLines
              (pre ++ h :: leadingSkippable post ++ L :: afterSkippable post))
           st)
  ∧ (¬ noHeader (H2 ++ S) (splitLines c) →
     ∃ pre h post, splitLines c = pre ++ h :: post
                   ∧ noHeader (H2 ++ S) pre ∧ startsWith (H2 ++ S) h = true).
Proof.
  intros Hc. split_and!.
  - intros Hn. by rewrite (appendToSection_present now st D c S L Hc),
      decide_True.
  - intros pre h post Hl Hpre Hh.
    by apply (appendToSection_at_header now st D c S L pre h post).
  - apply first_header.
Qed.

Lemma appendToSection_spec_witness :
  appendToSection exampleClock (js "Decisions") (js "- x") (Some exampleDate)
    (noteFs exampleDate notesNote)
  = noteFs exampleDate notesNote
  ∧ appendToSection exampleClock (js "Notes") (js "- x") (Some exampleDate)
      (noteFs exampleDate notesNote)
    = noteFs exampleDate
        ["# Friday"; "## Notes"; blank; "- x"; "old"; blank]%string.
Proof.
  destruct (appendToSection_spec exampleClock (noteFs exampleDate notesNote)
              exampleDate (joinLines (js <$> notesNote))
              (js "Decisions") (js "- x") eq_refl) as (H1 & _ & _).
  destruct (appendToSection_spec exampleClock (noteFs exampleDate notesNote)
              exampleDate (joinLines (js <$> notesNote))
              (js "Notes") (js "- x") eq_refl) as (_ & H2 & _).
  split.
  - apply H1. vm_compute. repeat constructor.
  - rewrite (H2 [js "# Friday"] (js "## Notes")
               (js <$> [blank; "old"; blank]%string)).
    + vm_compute. reflexivity.
    + vm_compute. reflexivity.
    + vm_compute. repeat constructor.
    + vm_compute. reflexivity.
Defined.

(** C2 (as stated) fails: no line of the note is the header [## Notes], yet
    the note changes, because [## Notes (old)] starts with it. *)
Lemma appendToSection_absent_header_counterexample :
  (js "## Notes" ∉ (js <$> oldNotesNote))
  ∧ appendToSection exampleClock (js "Notes") (js "- x") (Some exampleDate)
      (noteFs exampleDate oldNotesNote)
    = noteFs exampleDate ["## Notes (old)"; blank; "- x"]%string
  ∧ appendToSection exampleClock (js "Notes") (js "- x") (Some exampleDate)
      (noteFs exampleDate oldNotesNote)
    ≠ noteFs exampleDate oldNotesNote.
Proof.
  split_and!.
  - not_in_literal.
  - vm_compute. reflexivity.
  - intros H. apply (f_equal (λ s, daily s !! dailyPath exampleDate)) in H.
    vm_compute in H. discriminate.
Qed.

(** C6 (amended): [appendToSection(name, line, D)] selects the first line
    that starts with ["## " + name], whatever follows the name on that
    line: a header [## N] where [N] extends [name] is taken for the header
    of [name], and the line is inserted in its section. *)
Theorem appendToSection_prefix_header now st D name ext L pre post :
  daily st !! dailyPath D
  = Some (joinLines (pre ++ (H2 ++ name ++ ext) :: post)) →
  Forall (λ ln, 10 ∉ ln) (pre ++ (H2 ++ name ++ ext) :: post) →
  noHeader (H2 ++ name) pre →
  daily (appendToSection now name L (Some D) st) !! dailyPath D
  = Some (joinLines (pre ++ (H2 ++ name ++ ext)
                       :: leadingSkippable post ++ L :: afterSkippable post)).
Proof.
  intros Hc Hnl Hpre.
  rewrite (appendToSection_at_header now st D _ name L pre
             (H2 ++ name ++ ext) post Hc); [| |done|].
  - unfold writeNote; simpl. by rewrite lookup_insert_eq.
  - apply splitLines_joinLines; [by destruct pre|done].
  - rewrite app_assoc. generalize (H2 ++ name).
    intros p. induction p as [|a p IH]; simpl; [done|].
    by rewrite N.eqb_refl, IH.
Qed.

Lemma appendToSection_prefix_header_witness :
  daily (appendToSection exampleClock (js "Decisions") (js "- x")
           (Some exampleDate)
           (noteFs exampleDate
              ["# Friday"; "## Decisions Log"; blank; "old"]%string))
    !! dailyPath exampleDate
  = Some (joinLines
            (js <$> ["# Friday"; "## Decisions Log"; blank; "- x"; "old"]%string)).
Proof.
  etrans.
  apply (appendToSection_prefix_header exampleClock _ exampleDate
           (js "Decisions") (js " Log") (js "- x") [js "# Friday"]
           (js <$> [blank; "old"]%string)).
  4: vm_compute; reflexivity.
  - vm_compute. reflexivity.
  - repeat constructor; not_in_literal.
  - vm_compute. repeat constructor.
Defined.

(** C6 (as stated) fails: the only candidate header is [## Decisions Log],
    which is not the header [## Decisions], yet the operation does not
    behave as if the header were absent: it inserts under that line. *)
Lemma appendToSection_exact_match_counterexample :
  (js "## Decisions" ∉ (js <$> decisionsLogNote))
  ∧ appendToSection exampleClock (js "Decisions") (js "- x") (Some exampleDate)
      (noteFs exampleDate decisionsLogNote)
    = noteFs exampleDate ["## Decisions Log"; "- x"; "kept"]%string
  ∧ appendToSection exampleClock (js "Decisions") (js "- x") (Some exampleDate)
      (noteFs exampleDate decisionsLogNote)
    ≠ noteFs exampleDate decisionsLogNote.
Proof.
  split_and!.
  - not_in_literal.
  - vm_compute. reflexivity.
  - intros H. apply (f_equal (λ s, daily s !! dailyPath exampleDate)) in H.
    vm_compute in H. discriminate.
Qed.

(** ** appendToLog *)

Lemma padStart2_twoDigits n :
  (n < 100)%nat → padStart2 (strNat n) = twoDigits n.
Proof.
  intros H.
  do 100 (destruct n as [|n]; [vm_compute; reflexivity|]). lia.
Qed.

(** What [appendToLog(text, D)] does.  It writes the entry [- HH:MM],
    [LOG_DASH], [text] with the hours and minutes of the clock.  The Log
    header is the first line that starts with [## Log], exact or longer;
    the entry goes behind it and the comment and blank lines that follow.
    When no line starts with [## Log], the entry is appended at the very
    end of the text, on a line of its own. *)
Theorem appendToLog_spec now entryText date st c :
  let D := default (today now) date in
  let entry :=
    js "- " ++ twoDigits (getHours now) ++ js ":" ++ twoDigits (getMinutes now)
      ++ js " " ++ LOG_DASH ++ js " " ++ entryText in
  daily (ensureDailyNote D st) !! dailyPath D = Some c →
  (getHours now < 24)%nat →
  (getMinutes now < 60)%nat →
  (noHeader (js "## Log") (splitLines c) →
   appendToLog now entryText date st
   = writeNote D (c ++ NL ++ entry ++ NL) (ensureDailyNote D st))
  ∧ (∀ pre h post,
       splitLines c = pre ++ h :: post →
       noHeader (js "## Log") pre →
       startsWith (js "## Log") h = true →
       appendToLog now entryText date st
       = writeNote D
           (joinLines
              (pre ++ h :: leadingSkippable post ++ entry :: afterSkippable post))
           (ensureDailyNote D st)).
Proof.
  intros D entry Hc Hh Hm.
  assert (He : logEntry now entryText = entry).
  { unfold logEntry, entry.
    rewrite !padStart2_twoDigits by lia. done. }
  rewrite (appendToLog_eq now entryText date st c Hc). fold D. rewrite He.
  split.
  - intros Hn. by rewrite decide_True.
  - intros pre h post Hl Hpre Hhd. rewrite decide_False.
    + rewrite Hl. by rewrite (insertBehind_at _ [entry]).
    + rewrite Hl. intros Hn. apply Forall_app in Hn as [_ Hn].
      apply Forall_cons in Hn as [Hn _]. congruence.
Qed.

Lemma appendToLog_spec_witness :
  appendToLog exampleClock (js "hi") None
    (noteFs exampleDate ["# Friday"; "## Notes"]%string)
  = Fs {[ dailyPath exampleDate :=
            joinLines ((js <$> ["# Friday"; "## Notes"]%string)
                       ++ [js "- 09:05 " ++ LOG_DASH ++ js " hi"; []]) ]} None
  ∧ appendToLog exampleClock (js "hi") None
      (noteFs exampleDate ["## Logbook"; "<!-- auto -->"; "old"]%string)
    = Fs {[ dailyPath exampleDate :=
              joinLines ([js "## Logbook"; js "<!-- auto -->";
                          js "- 09:05 " ++ LOG_DASH ++ js " hi"; js "old"]) ]}
        None.
Proof.
  split.
  - destruct (appendToLog_spec exampleClock (js "hi") None
                (noteFs exampleDate ["# Friday"; "## Notes"]%string)
                (joinLines (js <$> ["# Friday"; "## Notes"]%string)))
      as [Hend _].
    + vm_compute. reflexivity.
    + vm_compute. lia.
    + vm_compute. lia.
    + etrans; [apply Hend|]; vm_compute; [repeat constructor|reflexivity].
  - destruct (appendToLog_spec exampleClock (js "hi") None
                (noteFs exampleDate ["## Logbook"; "<!-- auto -->"; "old"]%string)
                (joinLines (js <$> ["## Logbook"; "<!-- auto -->"; "old"]%string)))
      as [_ Hins].
    + vm_compute. reflexivity.
    + vm_compute. lia.
    + vm_compute. lia.
    + etrans.
      * apply (Hins [] (js "## Logbook")
                 (js <$> ["<!-- auto -->"; "old"]%string)).
        -- vm_compute. reflexivity.
        -- constructor.
        -- vm_compute. reflexivity.
      * vm_compute. reflexivity.
Defined.

(** C4 (code bug): the entry that [appendToLog] writes does not have the
    em dash of the claim's format [- HH:MM — text].  At 09:05,
    [appendToLog("hi")] on the note [# Friday], [## Log] writes behind the
    header the line [- 09:05 ], the code units U+00E2 U+20AC U+201D, [ hi]:
    the template literal of the source holds these three characters, an em
    dash read as Windows-1252.  The line of the claim, with the one code
    unit U+2014 between the time and the text, is no line of the note. *)
Lemma appendToLog_dash_divergence :
  appendToLog exampleClock (js "hi") None
    (noteFs exampleDate ["# Friday"; "## Log"]%string)
  = Fs {[ dailyPath exampleDate :=
            joinLines [js "# Friday"; js "## Log";
                       js "- 09:05 " ++ [0xE2; 0x20AC; 0x201D] ++ js " hi"] ]}
      None
  ∧ js "- 09:05 " ++ [0x2014] ++ js " hi"
    ∉ splitLines
        (readNote exampleDate
           (appendToLog exampleClock (js "hi") None
              (noteFs exampleDate ["# Friday"; "## Log"]%string))).
Proof.
  split; [vm_compute; reflexivity|].
  apply (bool_decide_unpack _). vm_compute. reflexivity.
Qed.

(** ** Appending creates the note *)



(** ** The regular-expression matcher *)

#[local] Arguments isSpace : simpl never.
#[local] Arguments isDot : simpl never.
#[local] Arguments isWord : simpl never.

Lemma list_bind_assoc {A B C} (f : A → list B) (g : B → list C) l :
  (l ≫= f) ≫= g = l ≫= (λ x, f x ≫= g).
Proof.
  induction l as [|x l IH]; [done|].
  by rewrite !bind_cons, bind_app, IH.
Qed.

(** Stepping a pattern over a known prefix of the input. *)

Lemma run_assoc m a b r st :
  run m (Seq (Seq a b) r) st = run m (Seq a (Seq b r)) st.
Proof. simpl. apply list_bind_assoc. Qed.

Lemma run_Emp m r st : run m (Seq Emp r) st = run m r st.
Proof. simpl. apply app_nil_r. Qed.

Lemma run_Chr_hit m p r pv c s cp :
  p c = true →
  run m (Seq (Chr p) r) (MState pv (c :: s) cp) = run m r (MState (Some c) s cp).
Proof. intros H. simpl. rewrite H. apply bind_singleton. Qed.

Lemma run_Chr_miss m p r pv c s cp :
  p c = false → run m (Seq (Chr p) r) (MState pv (c :: s) cp) = [].
Proof. intros H. simpl. by rewrite H. Qed.

Lemma run_Chr_nil m p r pv cp : run m (Seq (Chr p) r) (MState pv [] cp) = [].
Proof. done. Qed.

Lemma run_chr_hit m r pv c s cp :
  run m (Seq (chr c) r) (MState pv (c :: s) cp) = run m r (MState (Some c) s cp).
Proof. apply run_Chr_hit, N.eqb_refl. Qed.

Lemma run_Many_stop m p r pv c s cp :
  p c = false →
  run m (Seq (Many p) r) (MState pv (c :: s) cp)
  = run m r (MState pv (c :: s) cp).
Proof. intros H. simpl. rewrite H. apply bind_singleton. Qed.

Lemma run_plus_one m p r pv a c s cp :
  p a = true → p c = false →
  run m (Seq (plus p) r) (MState pv (a :: c :: s) cp)
  = run m r (MState (Some a) (c :: s) cp).
Proof.
  intros Ha Hc. unfold plus.
  by rewrite run_assoc, run_Chr_hit, run_Many_stop.
Qed.

Lemma run_Bol m r s cp :
  run m (Seq Bol r) (MState None s cp) = run m r (MState None s cp).
Proof. simpl. apply app_nil_r. Qed.

Lemma run_Opt m a r st :
  run m (Seq (Opt a) r) st = run m (Seq a r) st ++ run m r st.
Proof. simpl. by rewrite bind_app, bind_singleton. Qed.

Lemma many_all p s : ∀ pv cp,
  Forall (λ x, p x = true) s → ∃ q tl, many p pv s cp = MState q [] cp :: tl.
Proof.
  induction s as [|c s IH]; intros pv cp Hs; simpl.
  - by eexists _, _.
  - inversion Hs as [|? ? Hc Hs']; subst. rewrite Hc.
    destruct (IH (Some c) cp Hs') as (q & tl & ->). simpl. by eexists _, _.
Qed.

(** A final [(.+)] on text without line terminators captures all of it. *)
Lemma run_Cap_dots m pv c s cp :
  Forall (λ x, isDot x = true) (c :: s) →
  ∃ q tl, run m (Seq (Cap (plus isDot)) Emp) (MState pv (c :: s) cp)
          = MState q [] (Some (c :: s)) :: tl.
Proof.
  intros H. inversion H as [|? ? Hc Hs]; subst.
  simpl. rewrite Hc. simpl.
  destruct (many_all isDot s (Some c) cp Hs) as (q & tl & ->).
  simpl. rewrite firstn_all. by eexists _, _.
Qed.

(** A pattern anchored with [^] (no [m] flag) only matches at index 0. *)
Lemma searchFrom_Bol_later r s : ∀ c i,
  searchFrom false (Seq Bol r) (Some c) s i = None.
Proof. induction s as [|x s IH]; intros c i; simpl; [done|apply IH]. Qed.

Lemma exec_Bol r s :
  exec false (Seq Bol r) s
  = (λ st, (0%nat, st)) <$> head (run false r (MState None s None)).
Proof.
  unfold exec. destruct s as [|c s]; cbn [searchFrom]; rewrite run_Bol.
  - by destruct (run false r _).
  - destruct (run false r _); [|done]. apply searchFrom_Bol_later.
Qed.

Ltac re_norm r :=
  let r' := eval cbv -[chr chri plus isSpace isDot isWord] in r in
  change r with r'.

Ltac re_step :=
  repeat first
    [ rewrite run_assoc
    | rewrite run_Emp
    | rewrite run_chr_hit
    | rewrite run_Chr_hit by (assumption || reflexivity)
    | rewrite run_Chr_miss by (assumption || reflexivity)
    | rewrite run_Many_stop by (assumption || reflexivity)
    | rewrite run_plus_one by (assumption || reflexivity) ].

(** Membership in [run]: what a pattern consumed. *)

Lemma elem_of_run_Seq m a b st st' :
  st' ∈ run m (Seq a b) st ↔ ∃ mid, mid ∈ run m a st ∧ st' ∈ run m b mid.
Proof.
  simpl. rewrite list_elem_of_bind.
  split; intros (mid & ? & ?); by exists mid.
Qed.

Lemma elem_of_run_Emp m st st' : st' ∈ run m Emp st → st' = st.
Proof. simpl. by intros ->%list_elem_of_singleton. Qed.

Lemma elem_of_run_Bol m st st' : st' ∈ run m Bol st → st' = st.
Proof.
  simpl. destruct (atBol m st); [|by intros ?%elem_of_nil].
  by intros ->%list_elem_of_singleton.
Qed.

Lemma elem_of_run_Eol st st' :
  st' ∈ run false Eol st → st' = st ∧ rest st = [].
Proof.
  simpl. unfold atEol. destruct (rest st) eqn:E; simpl.
  - by intros ->%list_elem_of_singleton.
  - by intros ?%elem_of_nil.
Qed.

Lemma elem_of_run_Chr m p st st' :
  st' ∈ run m (Chr p) st →
  ∃ c, rest st = c :: rest st' ∧ p c = true ∧ cap st' = cap st.
Proof.
  simpl. destruct (rest st) as [|c s]; [by intros ?%elem_of_nil|].
  destruct (p c) eqn:E; [|by intros ?%elem_of_nil].
  intros ->%list_elem_of_singleton. by exists c.
Qed.

Lemma elem_of_many p s : ∀ pv cp st',
  st' ∈ many p pv s cp →
  ∃ w, s = w ++ rest st' ∧ Forall (λ x, p x = true) w ∧ cap st' = cp.
Proof.
  induction s as [|c s IH]; intros pv cp st'; simpl.
  - intros ->%list_elem_of_singleton. by exists [].
  - destruct (p c) eqn:E.
    + intros [H| ->%list_elem_of_singleton]%elem_of_app.
      * apply IH in H as (w & -> & Hw & Hc).
        exists (c :: w). split_and!; [done|by constructor|done].
      * by exists [].
    + intros ->%list_elem_of_singleton. by exists [].
Qed.

Lemma elem_of_run_Many m p st st' :
  st' ∈ run m (Many p) st →
  ∃ w, rest st = w ++ rest st' ∧ Forall (λ x, p x = true) w
       ∧ cap st' = cap st.
Proof. simpl. apply elem_of_many. Qed.

Lemma elem_of_run_plus m p st st' :
  st' ∈ run m (plus p) st →
  ∃ w, rest st = w ++ rest st' ∧ w ≠ [] ∧ Forall (λ x, p x = true) w
       ∧ cap st' = cap st.
Proof.
  unfold plus. intros (mid & H1 & H2)%elem_of_run_Seq.
  apply elem_of_run_Chr in H1 as (c & Hr & Hc & Hcap).
  apply elem_of_run_Many in H2 as (w & Hr' & Hw & Hcap').
  exists (c :: w). rewrite Hr, Hr'. split_and!; [done|done|by constructor|].
  congruence.
Qed.

Lemma elem_of_run_Cap_plus m p st st' :
  st' ∈ run m (Cap (plus p)) st →
  ∃ w, rest st = w ++ rest st' ∧ w ≠ [] ∧ Forall (λ x, p x = true) w
       ∧ cap st' = Some w.
Proof.
  cbn [run]. intros (st'' & -> & H)%list_elem_of_fmap.
  apply elem_of_run_plus in H as (w & Hr & Hne & Hw & _).
  exists w. cbn [rest cap]. split_and!; try done.
  rewrite Hr, length_app.
  replace (length w + length (rest st'') - length (rest st''))%nat
    with (length w) by lia.
  by rewrite take_app_length.
Qed.

(** ** The checklist patterns *)

Lemma todoRe_plain t :
  plainText t → match1 false todoRe (PLACEHOLDER ++ t) = Some t.
Proof.
  intros [(c & t' & -> & Hc) Hd].
  unfold match1. re_norm todoRe. rewrite exec_Bol.
  change (PLACEHOLDER ++ c :: t')
    with (45 :: 32 :: 91 :: 32 :: 93 :: 32 :: c :: t').
  re_step.
  by destruct (run_Cap_dots false (Some 32) c t' None Hd) as (q & tl & ->).
Qed.

Lemma doneRe_plain_x t :
  plainText t → match1 false doneRe (CHECKED_x ++ t) = Some t.
Proof.
  intros [(c & t' & -> & Hc) Hd].
  unfold match1. re_norm doneRe. rewrite exec_Bol.
  change (CHECKED_x ++ c :: t')
    with (45 :: 32 :: 91 :: 120 :: 93 :: 32 :: c :: t').
  unfold chri. re_step.
  by destruct (run_Cap_dots false (Some 32) c t' None Hd) as (q & tl & ->).
Qed.

Lemma doneRe_plain_X t :
  plainText t → match1 false doneRe (CHECKED_X ++ t) = Some t.
Proof.
  intros [(c & t' & -> & Hc) Hd].
  unfold match1. re_norm doneRe. rewrite exec_Bol.
  change (CHECKED_X ++ c :: t')
    with (45 :: 32 :: 91 :: 88 :: 93 :: 32 :: c :: t').
  unfold chri. re_step.
  by destruct (run_Cap_dots false (Some 32) c t' None Hd) as (q & tl & ->).
Qed.

(** An unchecked line is no checked line, and the other way round. *)
Lemma doneRe_unchecked t : match1 false doneRe (PLACEHOLDER ++ t) = None.
Proof.
  unfold match1. re_norm doneRe. rewrite exec_Bol.
  change (PLACEHOLDER ++ t) with (45 :: 32 :: 91 :: 32 :: 93 :: 32 :: t).
  unfold chri. by re_step.
Qed.

Lemma todoRe_checked_x t : match1 false todoRe (CHECKED_x ++ t) = None.
Proof.
  unfold match1. re_norm todoRe. rewrite exec_Bol.
  change (CHECKED_x ++ t) with (45 :: 32 :: 91 :: 120 :: 93 :: 32 :: t).
  by re_step.
Qed.

Lemma todoRe_checked_X t : match1 false todoRe (CHECKED_X ++ t) = None.
Proof.
  unfold match1. re_norm todoRe. rewrite exec_Bol.
  change (CHECKED_X ++ t) with (45 :: 32 :: 91 :: 88 :: 93 :: 32 :: t).
  by re_step.
Qed.

Lemma elem_of_run_chr1 m c st st' :
  st' ∈ run m (Seq (chr c) Emp) st → rest st = c :: rest st' ∧ cap st' = cap st.
Proof.
  intros (mid & H1 & ->%elem_of_run_Emp)%elem_of_run_Seq.
  apply elem_of_run_Chr in H1 as (x & Hr & ->%N.eqb_eq & Hc). done.
Qed.

Lemma checklist_shape (rm : regex) (mark : N → Prop) line st :
  (∀ s s', s' ∈ run false rm s → ∃ mk, rest s = mk :: rest s' ∧ mark mk) →
  st ∈ run false
         (Seq (Seq (chr 45) Emp)
            (Seq (plus isSpace)
               (Seq (Seq (chr 91) Emp)
                  (Seq rm
                     (Seq (Seq (chr 93) Emp)
                        (Seq (plus isSpace) (Seq (Cap (plus isDot)) Emp)))))))
         (MState None line None) →
  checklistShape mark line (default [] (cap st)).
Proof.
  intros Hrm (s1 & H1 & H)%elem_of_run_Seq.
  apply elem_of_run_Seq in H as (s2 & H2 & H).
  apply elem_of_run_Seq in H as (s3 & H3 & H).
  apply elem_of_run_Seq in H as (s4 & H4 & H).
  apply elem_of_run_Seq in H as (s5 & H5 & H).
  apply elem_of_run_Seq in H as (s6 & H6 & H).
  apply elem_of_run_Seq in H as (s7 & H7 & ->%elem_of_run_Emp).
  apply elem_of_run_chr1 in H1 as [E1 _]. cbn [rest] in E1.
  apply elem_of_run_plus in H2 as (w1 & E2 & Hw1 & Hs1 & _).
  apply elem_of_run_chr1 in H3 as [E3 _].
  apply Hrm in H4 as (mk & E4 & Hmk).
  apply elem_of_run_chr1 in H5 as [E5 _].
  apply elem_of_run_plus in H6 as (w2 & E6 & Hw2 & Hs2 & _).
  apply elem_of_run_Cap_plus in H7 as (t & E7 & Ht & Hd & ->).
  exists w1, mk, w2, (rest s7). split_and!; try done.
  rewrite E1, E2, E3, E4, E5, E6, E7. done.
Qed.

Lemma match1_Bol r line t :
  match1 false (Seq Bol r) line = Some t →
  ∃ st, st ∈ run false r (MState None line None) ∧ t = default [] (cap st).
Proof.
  unfold match1. rewrite exec_Bol.
  destruct (run false r _) as [|st l] eqn:E; [done|].
  simpl. intros [= <-]. exists st. split; [by left|done].
Qed.

Lemma todoRe_shape line t :
  match1 false todoRe line = Some t →
  checklistShape (λ mk, isSpace mk = true) line t.
Proof.
  re_norm todoRe. intros (st & H & ->)%match1_Bol.
  apply (checklist_shape _ (λ mk, isSpace mk = true)) in H; [done|].
  intros s s' (mk & ? & ? & _)%elem_of_run_Chr. by exists mk.
Qed.

Lemma asciiUpper_x mk :
  (asciiUpper mk =? asciiUpper 120) = true → mk = 120 ∨ mk = 88.
Proof.
  intros H%N.eqb_eq. change (asciiUpper 120) with 88 in H.
  unfold asciiUpper in H.
  destruct ((97 <=? mk) && (mk <=? 122)) eqn:E; [|by right].
  apply andb_true_iff in E as [E1%N.leb_le E2%N.leb_le]. left. lia.
Qed.

Lemma doneRe_shape line t :
  match1 false doneRe line = Some t →
  checklistShape (λ mk, mk = 120 ∨ mk = 88) line t.
Proof.
  re_norm doneRe. intros (st & H & ->)%match1_Bol.
  apply (checklist_shape _ (λ mk, mk = 120 ∨ mk = 88)) in H; [done|].
  intros s s' (mid & H1 & ->%elem_of_run_Emp)%elem_of_run_Seq.
  apply elem_of_run_Chr in H1 as (mk & ? & ?%asciiUpper_x & _). by exists mk.
Qed.

(** ** getPriorities *)

Lemma shape_head mark line t : checklistShape mark line t → head line = Some 45.
Proof. by intros (w1 & mk & w2 & tl & -> & _). Qed.

Lemma priorityOfLine_shape line it :
  priorityOfLine line = Some it →
  checklistShape
    (λ mk, if done it then mk = 120 ∨ mk = 88 else isSpace mk = true)
    line (text it)
  ∧ (done it = false → trim (text it) ≠ []).
Proof.
  unfold priorityOfLine.
  destruct (match1 false doneRe line) as [m|] eqn:Ed.
  - intros [= <-]. simpl. split; [by apply doneRe_shape|done].
  - destruct (match1 false todoRe line) as [m|] eqn:Et; [|done].
    case_bool_decide; [|done]. intros [= <-]. simpl.
    split; [by apply todoRe_shape|done].
Qed.

(** A header line is no checklist line. *)
Lemma priorityOfLine_header line :
  startsWith H2 line = true → priorityOfLine line = None.
Proof.
  intros H. destruct (priorityOfLine line) as [it|] eqn:E; [|done].
  apply priorityOfLine_shape in E as [E%shape_head _].
  apply (startsWith_head _ _ 35) in H; [congruence|done].
Qed.

Lemma prioritiesLoop_body body rest :
  sectionBody body →
  prioritiesLoop true (body ++ rest)
  = omap priorityOfLine body ++ prioritiesLoop true rest.
Proof.
  intros Hb. induction Hb as [|ln body Hln _ IH]; cbn [app]; [done|].
  cbn [prioritiesLoop omap list_omap].
  destruct (startsWith PRIORITIES_HEADER ln) eqn:Ep.
  - rewrite priorityOfLine_header; [done|].
    by apply (startsWith_app H2 (js "Priorities")).
  - destruct (startsWith H2 ln) eqn:E2.
    { by specialize (Hln eq_refl). }
    cbn [andb]. rewrite IH. by destruct (priorityOfLine ln).
Qed.

Lemma prioritiesLoop_end post :
  sectionEnd post → prioritiesLoop true post = [].
Proof.
  intros [->|(stop & post' & -> & H2' & Hp)]; [done|].
  cbn [prioritiesLoop]. by rewrite Hp, H2'.
Qed.

Lemma prioritiesLoop_pre pre : ∀ rest,
  noHeader PRIORITIES_HEADER pre →
  prioritiesLoop false (pre ++ rest) = prioritiesLoop false rest.
Proof.
  intros rest H. induction H as [|ln pre Hln _ IH]; [done|].
  cbn [app prioritiesLoop]. by rewrite Hln.
Qed.

Lemma prioritiesLoop_noHeader lines :
  noHeader PRIORITIES_HEADER lines → prioritiesLoop false lines = [].
Proof.
  intros H. rewrite <- (app_nil_r lines). by rewrite prioritiesLoop_pre.
Qed.

Lemma getPriorities_eq now D st c :
  daily st !! dailyPath D = Some c →
  getPriorities now (Some D) st = (prioritiesLoop false (splitLines c), st).
Proof.
  intros Hc. unfold getPriorities, readDailyNote, readNote. simpl.
  rewrite (ensureDailyNote_present _ _ _ Hc). by rewrite Hc.
Qed.

(** C3 (amended): on an existing note, [getPriorities(D)] scans the lines
    behind the first line that starts with [## Priorities], up to the next
    line that starts with ["## "] and is not again a Priorities header; each
    line yields what [priorityOfLine] gives.  [- [ ] t] with text [t] yields
    [{t, false}]; [- [x] t] and [- [X] t] yield [{t, true}]; a checked line
    yields its item also for blank text, where an unchecked line yields
    nothing, but a checked line with no text at all yields nothing; and a
    line that yields an item has the shape of a checklist line. *)
Theorem getPriorities_spec now st D c :
  daily st !! dailyPath D = Some c →
  (∀ pre hdr body post,
     splitLines c = pre ++ hdr :: body ++ post →
     noHeader PRIORITIES_HEADER pre →
     startsWith PRIORITIES_HEADER hdr = true →
     sectionBody body → sectionEnd post →
     getPriorities now (Some D) st = (omap priorityOfLine body, st))
  ∧ (noHeader PRIORITIES_HEADER (splitLines c) →
     getPriorities now (Some D) st = ([], st))
  ∧ (∀ t, plainText t →
       priorityOfLine (PLACEHOLDER ++ t) = Some {| text := t; done := false |}
       ∧ priorityOfLine (CHECKED_x ++ t) = Some {| text := t; done := true |}
       ∧ priorityOfLine (CHECKED_X ++ t) = Some {| text := t; done := true |})
  ∧ priorityOfLine (CHECKED_x ++ js " ")
    = Some {| text := js " "; done := true |}
  ∧ priorityOfLine (PLACEHOLDER ++ js " ") = None
  ∧ priorityOfLine CHECKED_x = None
  ∧ (∀ line it,
       priorityOfLine line = Some it →
       checklistShape
         (λ mk, if done it then mk = 120 ∨ mk = 88 else isSpace mk = true)
         line (text it)
       ∧ (done it = false → trim (text it) ≠ [])).
Proof.
  intros Hc. rewrite (getPriorities_eq now D st c Hc). split_and!.
  - intros pre hdr body post -> Hpre Hh Hb He.
    rewrite prioritiesLoop_pre by done. cbn [prioritiesLoop]. rewrite Hh.
    by rewrite prioritiesLoop_body, prioritiesLoop_end, app_nil_r.
  - intros Hn. by rewrite prioritiesLoop_noHeader.
  - intros t Ht. unfold priorityOfLine. split_and!.
    + rewrite doneRe_unchecked, todoRe_plain by done.
      rewrite bool_decide_true; [done|].
      destruct Ht as [(x & t' & -> & Hx) _]. by apply trim_cons_nonspace.
    + by rewrite doneRe_plain_x.
    + by rewrite doneRe_plain_X.
  - vm_compute. reflexivity.
  - vm_compute. reflexivity.
  - vm_compute. reflexivity.
  - apply priorityOfLine_shape.
Qed.

Lemma getPriorities_spec_witness :
  getPriorities exampleClock (Some exampleDate) (noteFs exampleDate priorityNote)
  = ([{| text := js "write"; done := false |};
      {| text := js "read"; done := true |}],
     noteFs exampleDate priorityNote).
Proof.
  destruct (getPriorities_spec exampleClock (noteFs exampleDate priorityNote)
              exampleDate (joinLines (js <$> priorityNote)) eq_refl)
    as (Hsec & _).
  etrans.
  - apply (Hsec (js <$> ["# Friday"; "- [ ] before"]%string)
             (js "## Priorities")
             (js <$> ["- [ ] write"; "- [X] read"; "note"; "- [x] "]%string)
             (js <$> ["## Log"; "- [ ] after"]%string)).
    + vm_compute. reflexivity.
    + vm_compute. repeat constructor.
    + vm_compute. reflexivity.
    + repeat constructor; vm_compute; done.
    + right. eexists _, _. split_and!; [done|vm_compute; done..].
  - vm_compute. reflexivity.
Defined.

(** C3 (as stated) fails: a checked checklist line with empty text yields
    no item. *)
Lemma getPriorities_checked_empty_counterexample :
  (getPriorities exampleClock (Some exampleDate)
     (noteFs exampleDate ["## Priorities"; "- [x] "; "## Log"]%string)).1 = [].
Proof. vm_compute. reflexivity. Qed.

(** ** Rollover *)

Lemma cutAt_unfold p s :
  cutAt p s
  = if startsWith p s then Some ([], drop (length p) s)
    else match s with
         | [] => None
         | c :: s' =>
             match cutAt p s' with
             | Some (a, b) => Some (c :: a, b)
             | None => None
             end
         end.
Proof. by destruct s. Qed.

Lemma startsWith_self p s : startsWith p (p ++ s) = true.
Proof. induction p as [|a p IH]; simpl; [done|]. by rewrite N.eqb_refl. Qed.

Lemma cutAt_first p a b :
  noOccurrenceBefore p (length a) (a ++ p ++ b) →
  cutAt p (a ++ p ++ b) = Some (a, b).
Proof.
  induction a as [|c a IH]; intros Hno.
  - rewrite cutAt_unfold. cbn [app]. rewrite startsWith_self.
    by rewrite drop_app_length.
  - rewrite cutAt_unfold.
    assert (H0 : startsWith p ((c :: a) ++ p ++ b) = false).
    { apply (Hno 0%nat). simpl. lia. }
    rewrite H0. cbn [app]. rewrite IH; [done|].
    intros i Hi. apply (Hno (S i)). simpl. lia.
Qed.

Lemma getSubstitution_plain matched before after rep :
  36 ∉ rep → getSubstitution matched before after rep = rep.
Proof.
  induction rep as [|c rep IH]; intros Hn; simpl; [done|].
  destruct (c =? 36) eqn:E.
  - apply N.eqb_eq in E as ->. exfalso. apply Hn. by left.
  - rewrite IH; [done|]. intros ?. apply Hn. by right.
Qed.

Lemma rollOver_at y a b :
  extractIncompletePriorities y ≠ [] →
  noOccurrenceBefore (PLACEHOLDER ++ NL) (length a)
    (a ++ (PLACEHOLDER ++ NL) ++ b) →
  rollOver y (a ++ (PLACEHOLDER ++ NL) ++ b)
  = a ++ getSubstitution (PLACEHOLDER ++ NL) a b
           (joinLines (rolledLines (extractIncompletePriorities y))
              ++ NL ++ PLACEHOLDER ++ NL)
      ++ b.
Proof.
  intros Hne Hno. unfold rollOver.
  destruct (extractIncompletePriorities y) as [|p ps] eqn:E; [done|].
  cbn [length Nat.ltb Nat.leb]. unfold replaceFirst.
  by rewrite cutAt_first.
Qed.

Lemma not_elem_of_joinLines (x : N) ls :
  x ≠ 10 → Forall (λ l, x ∉ l) ls → x ∉ joinLines ls.
Proof.
  intros Hx Hall. induction Hall as [|l ls Hl _ IH].
  - by intros ?%elem_of_nil.
  - destruct ls as [|l' ls]; [done|].
    rewrite joinLines_cons by done.
    rewrite !elem_of_app. intros [?|[?%list_elem_of_singleton|?]]; done.
Qed.

Lemma no_dollar_constants :
  (36 ∉ PLACEHOLDER) ∧ (36 ∉ ROLLED_OVER) ∧ (36 ∉ NL).
Proof. split_and!; not_in_literal. Qed.

Lemma rolled_text_plain incomplete :
  Forall (λ p, 36 ∉ p) incomplete →
  36 ∉ joinLines (rolledLines incomplete) ++ NL ++ PLACEHOLDER ++ NL.
Proof.
  destruct no_dollar_constants as (Hp & Hr & Hn).
  intros Hall. rewrite !not_elem_of_app. split_and!; try done.
  apply not_elem_of_joinLines; [done|].
  unfold rolledLines. apply Forall_fmap.
  eapply Forall_impl; [exact Hall|]. intros p Hpp. unfold compose.
  by rewrite !not_elem_of_app.
Qed.

(** C10: when [ensureDailyNote] rolls items over, it splices them at the
    first occurrence of ["- [ ] \n"] in the instantiated template text,
    wherever that is: with the text [a ++ "- [ ] \n" ++ b] and no earlier
    occurrence, the new note is [a], the replacement text, [b].  The
    replacement text is the rolled-over lines and the placeholder line, as
    [String.prototype.replace] expands it; it is exactly those lines when
    no rolled-over item holds a dollar sign. *)
Theorem rollover_at_first_placeholder st D y a b :
  daily st !! dailyPath D = None →
  daily st !! dailyPath (dayBefore D) = Some y →
  extractIncompletePriorities y ≠ [] →
  freshContent st D = a ++ (PLACEHOLDER ++ NL) ++ b →
  noOccurrenceBefore (PLACEHOLDER ++ NL) (length a) (freshContent st D) →
  let rolled := joinLines (rolledLines (extractIncompletePriorities y)) in
  daily (ensureDailyNote D st) !! dailyPath D
  = Some (a ++ getSubstitution (PLACEHOLDER ++ NL) a b
                 (rolled ++ NL ++ PLACEHOLDER ++ NL) ++ b)
  ∧ (Forall (λ p, 36 ∉ p) (extractIncompletePriorities y) →
     daily (ensureDailyNote D st) !! dailyPath D
     = Some (a ++ (rolled ++ NL ++ PLACEHOLDER ++ NL) ++ b)).
Proof.
  intros Hno Hy Hne Hc Hfirst rolled.
  assert (Hnew : daily (ensureDailyNote D st) !! dailyPath D
                 = Some (a ++ getSubstitution (PLACEHOLDER ++ NL) a b
                                (rolled ++ NL ++ PLACEHOLDER ++ NL) ++ b)).
  { rewrite ensureDailyNote_lookup, Hno. cbn [default from_option id].
    unfold newNoteContent. fold (freshContent st D). rewrite Hy.
    rewrite Hc in Hfirst |- *. by rewrite rollOver_at. }
  split; [done|].
  intros Hplain. rewrite Hnew.
  by rewrite getSubstitution_plain by by apply rolled_text_plain.
Qed.

Lemma rollover_at_first_placeholder_witness :
  daily (ensureDailyNote exampleDate elsewhereFs) !! dailyPath exampleDate
  = Some (joinLines (js <$>
            ["# Friday"; "## Inbox"; "- [ ] write report *(rolled over)*";
             "- [ ] "; blank; "## Priorities"; "- [ ] "; blank]%string)).
Proof.
  destruct (rollover_at_first_placeholder elsewhereFs exampleDate
              (joinLines (js <$> yesterdayNote))
              (joinLines (js <$> ["# Friday"; "## Inbox"; blank]%string))
              (joinLines
                 (js <$> [blank; "## Priorities"; "- [ ] "; blank]%string)))
    as [_ H].
  - vm_compute. reflexivity.
  - vm_compute. reflexivity.
  - vm_compute. discriminate.
  - vm_compute. reflexivity.
  - intros i Hi.
    repeat (destruct i as [|i]; [vm_compute; reflexivity|]).
    vm_compute in Hi. lia.
  - etrans; [apply H|].
    + repeat constructor. not_in_literal.
    + vm_compute. reflexivity.
Defined.

(** ** What is rolled over *)

Lemma incompleteOfLine_header line :
  startsWith H2 line = true → incompleteOfLine line = None.
Proof.
  intros H. unfold incompleteOfLine.
  destruct (match1 false todoRe line) as [m|] eqn:E; [|done].
  apply todoRe_shape, shape_head in E.
  apply (startsWith_head _ _ 35) in H; [congruence|done].
Qed.

Lemma incompleteLoop_body body rest :
  sectionBody body →
  incompleteLoop true (body ++ rest)
  = omap incompleteOfLine body ++ incompleteLoop true rest.
Proof.
  intros Hb. induction Hb as [|ln body Hln _ IH]; cbn [app]; [done|].
  cbn [incompleteLoop omap list_omap].
  destruct (startsWith PRIORITIES_HEADER ln) eqn:Ep.
  - rewrite incompleteOfLine_header; [done|].
    by apply (startsWith_app H2 (js "Priorities")).
  - destruct (startsWith H2 ln) eqn:E2.
    { by specialize (Hln eq_refl). }
    cbn [andb]. rewrite IH. by destruct (incompleteOfLine ln).
Qed.

Lemma incompleteLoop_end post :
  sectionEnd post → incompleteLoop true post = [].
Proof.
  intros [->|(stop & post' & -> & H2' & Hp)]; [done|].
  cbn [incompleteLoop]. by rewrite Hp, H2'.
Qed.

Lemma incompleteLoop_pre pre rest :
  noHeader PRIORITIES_HEADER pre →
  incompleteLoop false (pre ++ rest) = incompleteLoop false rest.
Proof.
  intros H. induction H as [|ln pre Hln _ IH]; [done|].
  cbn [app incompleteLoop]. by rewrite Hln.
Qed.

(** The items rolled over from a note with a Priorities section. *)
Lemma extractIncompletePriorities_section y pre hdr body post :
  splitLines y = pre ++ hdr :: body ++ post →
  noHeader PRIORITIES_HEADER pre →
  startsWith PRIORITIES_HEADER hdr = true →
  sectionBody body → sectionEnd post →
  extractIncompletePriorities y = omap incompleteOfLine body.
Proof.
  intros Hl Hpre Hh Hb He. unfold extractIncompletePriorities.
  rewrite Hl, incompleteLoop_pre by done. cbn [incompleteLoop]. rewrite Hh.
  by rewrite incompleteLoop_body, incompleteLoop_end, app_nil_r.
Qed.

(** Where a search ends: in a state of [run]. *)
Lemma searchFrom_elem m r s : ∀ pv i j st,
  searchFrom m r pv s i = Some (j, st) →
  ∃ pv' s', st ∈ run m r (MState pv' s' None).
Proof.
  induction s as [|c s IH]; intros pv i j st; cbn [searchFrom].
  - destruct (run m r _) as [|st0 l] eqn:E; [done|].
    intros [= _ <-]. exists pv, []. rewrite E. by left.
  - destruct (run m r _) as [|st0 l] eqn:E.
    + apply IH.
    + intros [= _ <-]. exists pv, (c :: s). rewrite E. by left.
Qed.

(** Stripping the rollover mark keeps a prefix of the text. *)
Lemma strip_rolled_prefix t : removeFirst false rolledRe t `prefix_of` t.
Proof.
  unfold removeFirst.
  destruct (exec false rolledRe t) as [[i st]|] eqn:E; [|done].
  apply searchFrom_elem in E as (pv & s & H). revert H. re_norm rolledRe.
  intros (s1 & _ & H)%elem_of_run_Seq.
  apply elem_of_run_Seq in H as (s2 & _ & H).
  apply elem_of_run_Seq in H as (s3 & _ & H).
  apply elem_of_run_Seq in H as (s4 & H4 & ->%elem_of_run_Emp).
  apply elem_of_run_Eol in H4 as [-> ->].
  rewrite app_nil_r. apply prefix_take.
Qed.

Lemma plainText_prefix x t :
  plainText t → x `prefix_of` t → x ≠ [] → plainText x.
Proof.
  intros [(c & t' & -> & Hc) Hd] [k Hk] Hx. split.
  - destruct x as [|c' x']; [done|]. simplify_eq/=. by eexists _, _.
  - rewrite Hk in Hd. by apply Forall_app in Hd as [Hd _].
Qed.

Lemma plainText_app x t :
  plainText x → Forall (λ c, isDot c = true) t → plainText (x ++ t).
Proof.
  intros [(c & x' & -> & Hc) Hd] Ht. split.
  - by eexists _, _.
  - by apply Forall_app.
Qed.

Lemma plainText_trim t : plainText t → trim t ≠ [].
Proof. intros [(c & t' & -> & Hc) _]. by apply trim_cons_nonspace. Qed.

(** An unchecked line with plain text is rolled over without its mark; a
    checked line is not rolled over. *)
Lemma incompleteOfLine_plain t :
  plainText t →
  incompleteOfLine (PLACEHOLDER ++ t) = Some (removeFirst false rolledRe t).
Proof.
  intros Ht. unfold incompleteOfLine. rewrite todoRe_plain by done.
  by rewrite bool_decide_true by by apply plainText_trim.
Qed.

Lemma incompleteOfLine_checked t :
  incompleteOfLine (CHECKED_x ++ t) = None
  ∧ incompleteOfLine (CHECKED_X ++ t) = None.
Proof.
  unfold incompleteOfLine. by rewrite todoRe_checked_x, todoRe_checked_X.
Qed.

Lemma joinLines_app ls1 ls2 :
  ls2 ≠ [] → joinLines (ls1 ++ ls2) = linesText ls1 ++ joinLines ls2.
Proof.
  intros Hne. induction ls1 as [|l ls1 IH]; [done|].
  cbn [app]. rewrite joinLines_cons by by destruct ls1, ls2.
  rewrite IH. unfold linesText. rewrite bind_cons.
  by rewrite <- !app_assoc.
Qed.

Lemma linesText_joinLines ls : ls ≠ [] → linesText ls = joinLines ls ++ NL.
Proof.
  intros Hne. induction ls as [|l ls IH]; [done|].
  unfold linesText in *. rewrite bind_cons.
  destruct ls as [|l' ls].
  - by rewrite app_nil_r.
  - rewrite IH by done. rewrite (joinLines_cons l) by done.
    by rewrite <- !app_assoc.
Qed.

Lemma priorityOfLine_unchecked t :
  plainText t →
  priorityOfLine (PLACEHOLDER ++ t) = Some {| text := t; done := false |}.
Proof.
  intros Ht. unfold priorityOfLine.
  rewrite doneRe_unchecked, todoRe_plain by done.
  by rewrite bool_decide_true by by apply plainText_trim.
Qed.

Lemma isDot_no_newline t : Forall (λ c, isDot c = true) t → 10 ∉ t.
Proof.
  intros H Hin. rewrite Forall_forall in H. by apply H in Hin.
Qed.

Lemma incompleteOfLine_no_newline line p :
  incompleteOfLine line = Some p → 10 ∉ p.
Proof.
  unfold incompleteOfLine.
  destruct (match1 false todoRe line) as [m|] eqn:E; [|done].
  case_bool_decide; [|done]. intros [= <-].
  apply todoRe_shape in E as (w1 & mk & w2 & tl & _ & _ & _ & _ & _ & _ & _ & Hd).
  apply isDot_no_newline in Hd.
  destruct (strip_rolled_prefix m) as [k Hk]. rewrite Hk in Hd.
  by apply not_elem_of_app in Hd as [Hd _].
Qed.

Lemma rolledLines_no_newline body :
  Forall (λ ln, 10 ∉ ln) (rolledLines (omap incompleteOfLine body)).
Proof.
  unfold rolledLines. apply Forall_fmap, Forall_forall.
  intros p (ln & _ & Hp)%list_elem_of_omap. unfold compose.
  apply incompleteOfLine_no_newline in Hp.
  rewrite !not_elem_of_app. split_and!; [|done|]; not_in_literal.
Qed.

Lemma rolledLines_sectionBody incomplete : sectionBody (rolledLines incomplete).
Proof.
  unfold rolledLines. apply Forall_fmap, Forall_forall. intros p _ H.
  unfold compose in H. by apply (startsWith_head _ _ 35) in H.
Qed.

(** C1 (amended): let the note of the day before [E] have, in its
    Priorities section, an unchecked line [- [ ] T] with plain text [T] and
    a checked line [- [x] Y]; let [X], the text [T] without a trailing
    rollover mark, be non-empty, and let no rolled-over item hold a dollar
    sign.  Let the fresh text for [E] (template or skeleton) have its first
    ["- [ ] \n"] as a line of its Priorities section.  Then
    [ensureDailyNote(E)] creates the note whose lines are those of the fresh
    text with the rolled-over lines inserted right before the placeholder
    line, which stays the last of them; [- [ ] X *(rolled over)*] is among
    the rolled-over lines and is read back as an unchecked priority with
    that text; the checked line is not rolled over. *)
Theorem ensure_rolls_over now st E y pre hdr body post T Y L1 L2 P1 h1 M1 :
  daily st !! dailyPath E = None →
  daily st !! dailyPath (dayBefore E) = Some y →
  splitLines y = pre ++ hdr :: body ++ post →
  noHeader PRIORITIES_HEADER pre →
  startsWith PRIORITIES_HEADER hdr = true →
  sectionBody body →
  sectionEnd post →
  PLACEHOLDER ++ T ∈ body →
  CHECKED_x ++ Y ∈ body →
  plainText T →
  removeFirst false rolledRe T ≠ [] →
  Forall (λ p, 36 ∉ p) (omap incompleteOfLine body) →
  freshContent st E = joinLines (L1 ++ PLACEHOLDER :: L2) →
  Forall (λ ln, 10 ∉ ln) (L1 ++ PLACEHOLDER :: L2) →
  L2 ≠ [] →
  noOccurrenceBefore (PLACEHOLDER ++ NL) (length (linesText L1))
    (freshContent st E) →
  L1 = P1 ++ h1 :: M1 →
  noHeader PRIORITIES_HEADER P1 →
  startsWith PRIORITIES_HEADER h1 = true →
  sectionBody M1 →
  let X := removeFirst false rolledRe T in
  let rolled := rolledLines (omap incompleteOfLine body) in
  daily (ensureDailyNote E st) !! dailyPath E
  = Some (joinLines (L1 ++ rolled ++ PLACEHOLDER :: L2))
  ∧ PLACEHOLDER ++ X ++ ROLLED_OVER ∈ rolled
  ∧ (CHECKED_x ++ Y ∉ rolled)
  ∧ incompleteOfLine (CHECKED_x ++ Y) = None
  ∧ {| text := X ++ ROLLED_OVER; done := false |}
    ∈ (getPriorities now (Some E) (ensureDailyNote E st)).1.
Proof.
  intros Hno Hy Hl Hpre Hh Hb He HT HY HpT HX Hdollar Hfresh Hnl HL2 Hfirst
    HL1 HP1 Hh1 HM1 X rolled.
  assert (Hext : extractIncompletePriorities y = omap incompleteOfLine body)
    by by eapply extractIncompletePriorities_section.
  assert (HXin : X ∈ omap incompleteOfLine body).
  { apply list_elem_of_omap. exists (PLACEHOLDER ++ T). split; [done|].
    by apply incompleteOfLine_plain. }
  assert (Hrolled : PLACEHOLDER ++ X ++ ROLLED_OVER ∈ rolled).
  { unfold rolled, rolledLines. apply list_elem_of_fmap. by exists X. }
  assert (Hne : rolled ≠ []).
  { intros E0. rewrite E0 in Hrolled. by apply elem_of_nil in Hrolled. }
  assert (Hnew : daily (ensureDailyNote E st) !! dailyPath E
                 = Some (joinLines (L1 ++ rolled ++ PLACEHOLDER :: L2))).
  { rewrite ensureDailyNote_lookup, Hno. cbn [default from_option id].
    unfold newNoteContent. fold (freshContent st E). rewrite Hy.
    assert (Hshape : freshContent st E
                     = linesText L1 ++ (PLACEHOLDER ++ NL) ++ joinLines L2).
    { rewrite Hfresh, joinLines_app by done.
      rewrite joinLines_cons by done. by rewrite <- !app_assoc. }
    rewrite Hshape in Hfirst |- *.
    rewrite rollOver_at; [| |done].
    2: { rewrite Hext. intros E0. apply Hne. unfold rolled. by rewrite E0. }
    rewrite Hext. fold rolled.
    rewrite getSubstitution_plain by by apply rolled_text_plain.
    f_equal. rewrite joinLines_app by by destruct rolled.
    f_equal. rewrite joinLines_app by done.
    rewrite linesText_joinLines by done.
    rewrite joinLines_cons by done. by rewrite <- !app_assoc. }
  split_and!; [done|done| | |].
  - intros (p & Heq & _)%list_elem_of_fmap.
    apply (f_equal (λ l, l !! 3%nat)) in Heq. done.
  - apply incompleteOfLine_checked.
  - rewrite (getPriorities_eq now E _ _ Hnew). cbn [fst].
    rewrite splitLines_joinLines.
    2: { intros E0. apply (f_equal length) in E0.
         rewrite !length_app in E0. simpl in E0. lia. }
    2: { apply Forall_app in Hnl as [H1 H2']. apply Forall_app. split; [done|].
         apply Forall_app. split; [apply rolledLines_no_newline|done]. }
    rewrite HL1, <- app_assoc. rewrite prioritiesLoop_pre by done.
    cbn [app prioritiesLoop]. rewrite Hh1.
    rewrite (app_assoc M1), prioritiesLoop_body.
    2: { apply Forall_app. split; [done|apply rolledLines_sectionBody]. }
    apply elem_of_app. left. apply list_elem_of_omap.
    exists (PLACEHOLDER ++ X ++ ROLLED_OVER). split.
    + apply elem_of_app. by right.
    + apply priorityOfLine_unchecked, plainText_app.
      * eapply plainText_prefix; [done|apply strip_rolled_prefix|done].
      * by vm_compute; repeat constructor.
Qed.

Lemma ensure_rolls_over_witness :
  daily (ensureDailyNote exampleDate rolloverFs) !! dailyPath exampleDate
  = Some (joinLines (js <$>
            ["---"; "date: 2024-03-01"; "---"; "# Friday, March 1, 2024"; blank;
             "## Priorities"; "- [ ] write report *(rolled over)*"; "- [ ] ";
             blank; "## Log"; blank; "## Notes"; blank; "## Decisions"; blank;
             "## Learned"; blank]%string))
  ∧ {| text := js "write report *(rolled over)*"; done := false |}
    ∈ (getPriorities exampleClock (Some exampleDate)
         (ensureDailyNote exampleDate rolloverFs)).1.
Proof.
  destruct (ensure_rolls_over exampleClock rolloverFs exampleDate
              (joinLines (js <$> yesterdayNote))
              [] (js "## Priorities")
              (js <$> ["- [ ] write report"; "- [x] call home"; blank]%string) []
              (js "write report") (js "call home")
              (js <$> ["---"; "date: 2024-03-01"; "---";
                       "# Friday, March 1, 2024"; blank; "## Priorities"]%string)
              (js <$> [blank; "## Log"; blank; "## Notes"; blank; "## Decisions"; blank;
                       "## Learned"; blank]%string)
              (js <$> ["---"; "date: 2024-03-01"; "---";
                       "# Friday, March 1, 2024"; blank]%string)
              (js "## Priorities") [])
    as (Hnote & _ & _ & _ & Hitem).
  - vm_compute. reflexivity.
  - vm_compute. reflexivity.
  - vm_compute. reflexivity.
  - constructor.
  - vm_compute. reflexivity.
  - repeat constructor; vm_compute; done.
  - by left.
  - vm_compute. repeat constructor.
  - vm_compute. repeat constructor.
  - split; [|vm_compute; repeat constructor].
    exists 119, (js "rite report"). split; vm_compute; reflexivity.
  - vm_compute. discriminate.
  - vm_compute. repeat constructor; not_in_literal.
  - vm_compute. reflexivity.
  - repeat constructor; not_in_literal.
  - discriminate.
  - intros i Hi.
    repeat (destruct i as [|i]; [vm_compute; reflexivity|]).
    vm_compute in Hi. lia.
  - reflexivity.
  - vm_compute. repeat constructor.
  - vm_compute. reflexivity.
  - constructor.
  - split.
    + etrans; [exact Hnote|]. vm_compute. reflexivity.
    + exact Hitem.
Defined.

(** C1 (as stated) fails: the note of the day before has the unchecked item
    [write report] and the checked item [call home] in its Priorities
    section and the template has one empty checklist line, under another
    header; the new note has the rolled-over item there, and its Priorities
    section holds no item. *)
Lemma ensure_rollover_counterexample :
  daily somedayFs !! dailyPath exampleDate = None
  ∧ (getPriorities exampleClock (Some (dayBefore exampleDate)) somedayFs).1
    = [{| text := js "write report"; done := false |};
       {| text := js "call home"; done := true |}]
  ∧ daily (ensureDailyNote exampleDate somedayFs) !! dailyPath exampleDate
    = Some (joinLines (js <$>
              ["# Friday"; "## Priorities"; blank; "## Someday";
               "- [ ] write report *(rolled over)*"; "- [ ] "; blank]%string))
  ∧ (getPriorities exampleClock (Some exampleDate)
       (ensureDailyNote exampleDate somedayFs)).1 = [].
Proof. split_and!; vm_compute; reflexivity. Qed.

(** The replacement text goes through [String.prototype.replace]: a [$$]
    in a rolled-over item arrives as one [$]. *)
Example rollover_dollar :
  daily (ensureDailyNote exampleDate
           (Fs {[ dailyPath (dayBefore exampleDate) :=
                    joinLines (js <$> ["## Priorities"; "- [ ] pay $$ back"]%string) ]}
               None)) !! dailyPath exampleDate
  = Some (joinLines (js <$>
            ["---"; "date: 2024-03-01"; "---"; "# Friday, March 1, 2024"; blank;
             "## Priorities"; "- [ ] pay $ back *(rolled over)*"; "- [ ] ";
             blank; "## Log"; blank; "## Notes"; blank; "## Decisions"; blank;
             "## Learned"; blank]%string)).
Proof. vm_compute. reflexivity. Qed.

(** ** Writing the light extraction *)

Lemma leadingSkippable_all lines :
  Forall skippable (leadingSkippable lines).
Proof.
  induction lines as [|ln lines IH]; simpl; [constructor|].
  case_decide; by constructor.
Qed.

Lemma leadingSkippable_app lead x r :
  Forall skippable lead → ¬ skippable x →
  leadingSkippable (lead ++ x :: r) = lead
  ∧ afterSkippable (lead ++ x :: r) = x :: r.
Proof.
  intros Hl Hx. induction Hl as [|ln lead Hln _ [IH1 IH2]]; simpl.
  - by rewrite !decide_False by done.
  - rewrite !decide_True by done. by rewrite IH1, IH2.
Qed.

(** Inserting again under the same header goes in front of what was
    inserted before. *)
Lemma insertBehind_twice header ys x xs lines :
  ¬ skippable x →
  insertBehind header ys (insertBehind header (x :: xs) lines)
  = insertBehind header (ys ++ x :: xs) lines.
Proof.
  intros Hx. induction lines as [|ln lines IH]; [done|].
  cbn [insertBehind]. destruct (startsWith header ln) eqn:E.
  - cbn [insertBehind]. rewrite E.
    destruct (leadingSkippable_app (leadingSkippable lines) x
                (xs ++ afterSkippable lines)
                (leadingSkippable_all lines) Hx) as [H1 H2].
    cbn [app] in *. rewrite H1, H2. by rewrite <- !app_assoc.
  - cbn [insertBehind]. by rewrite E, IH.
Qed.

Lemma insertBehind_nil header lines : insertBehind header [] lines = lines.
Proof.
  induction lines as [|ln lines IH]; [done|]. cbn [insertBehind].
  destruct (startsWith header ln); [|by rewrite IH].
  by rewrite app_nil_l, leading_after.
Qed.

Lemma insertBehind_no_newline header xs lines :
  Forall (λ l, 10 ∉ l) xs → Forall (λ l, 10 ∉ l) lines →
  Forall (λ l, 10 ∉ l) (insertBehind header xs lines).
Proof.
  intros Hxs Hl. induction Hl as [|ln lines Hln Hl IH]; [constructor|].
  cbn [insertBehind]. destruct (startsWith header ln).
  - constructor; [done|]. rewrite <- (leading_after lines) in Hl.
    apply Forall_app in Hl as [H1 H2']. by rewrite !Forall_app.
  - by constructor.
Qed.

Lemma insertBehind_nonempty header xs lines :
  lines ≠ [] → insertBehind header xs lines ≠ [].
Proof.
  destruct lines as [|ln lines]; [done|]. intros _. cbn [insertBehind].
  by destruct (startsWith header ln).
Qed.

Lemma writeNote_same d c st :
  daily st !! dailyPath d = Some c → writeNote d c st = st.
Proof.
  intros H. destruct st as [m t]. unfold writeNote. simpl in *.
  by rewrite insert_id.
Qed.

Lemma writeNote_twice d c1 c2 st :
  writeNote d c2 (writeNote d c1 st) = writeNote d c2 st.
Proof. unfold writeNote. simpl. by rewrite insert_insert_eq. Qed.

Lemma writeNote_lookup d c st :
  daily (writeNote d c st) !! dailyPath d = Some c.
Proof. unfold writeNote. simpl. by rewrite lookup_insert_eq. Qed.

(** [appendToSection] on today's note, which exists. *)
Lemma appendToSection_today now section b st c :
  daily st !! dailyPath (today now) = Some c →
  appendToSection now section b None st
  = writeNote (today now)
      (joinLines (insertBehind (H2 ++ section) [b] (splitLines c))) st.
Proof.
  intros Hc.
  pose proof (ensureDailyNote_present _ _ _ Hc) as He.
  rewrite (appendToSection_eq now section b None st c); cbv zeta;
    change (default (today now) None) with (today now); rewrite He; [|done].
  case_decide as Hn; [|done].
  rewrite insertBehind_noHeader, joinLines_splitLines by done.
  by rewrite writeNote_same.
Qed.

Lemma foldl_appendToSection now section items : ∀ st c,
  daily st !! dailyPath (today now) = Some c →
  Forall (λ d, 10 ∉ d) items →
  foldl (λ st d, appendToSection now section (js "- " ++ d) None st) st items
  = writeNote (today now) (addBullets section items c) st.
Proof.
  unfold addBullets.
  induction items as [|d items IH]; intros st c Hc Hnl.
  - cbn [foldl bullets fmap list_fmap reverse rev_append].
    change (reverse []) with (@nil jsstring).
    rewrite insertBehind_nil, joinLines_splitLines.
    by rewrite writeNote_same.
  - inversion Hnl as [|? ? Hd Hnl']; subst. cbn [foldl].
    rewrite (appendToSection_today now section _ st c Hc).
    rewrite (IH _ _ (writeNote_lookup _ _ _) Hnl').
    rewrite writeNote_twice. f_equal. f_equal.
    assert (Hb : 10 ∉ js "- " ++ d).
    { rewrite not_elem_of_app. split; [not_in_literal|done]. }
    rewrite splitLines_joinLines.
    + rewrite insertBehind_twice by apply dash_not_skippable.
      unfold bullets. rewrite fmap_cons, reverse_cons. done.
    + apply insertBehind_nonempty, splitLines_nonempty.
    + apply insertBehind_no_newline; [by repeat constructor|].
      apply splitLines_no_newline.
Qed.

Lemma joinLines_insert_length a x b :
  a ≠ [] →
  length (joinLines (a ++ x :: b))
  = (length (joinLines (a ++ b)) + length x + 1)%nat.
Proof.
  intros Ha. rewrite joinLines_app by done.
  destruct b as [|l b].
  - rewrite app_nil_r, linesText_joinLines by done.
    change (joinLines [x]) with x.
    rewrite !length_app. change (length NL) with 1%nat. lia.
  - rewrite joinLines_cons, (joinLines_app a) by done.
    rewrite !length_app. change (length NL) with 1%nat. lia.
Qed.

Lemma summaryParts_nil k :
  summaryParts k = []
  ↔ (projectContext k = None ∨ projectContext k = Some [])
    ∧ decisions k = [] ∧ solutions k = [] ∧ learnings k = [].
Proof.
  unfold summaryParts.
  destruct (projectContext k) as [p|]; [destruct p as [|x p]|];
    destruct (decisions k), (solutions k), (learnings k); simpl;
    split; try done; try (intros (? & ? & ? & ?); done);
    try (intros ([?|?] & ? & ? & ?); done); try (intros _; split_and!; auto);
    intros H; by apply app_nil in H as [_ H].
Qed.

Lemma summaryParts_ext k k' :
  projectContext k' = projectContext k →
  length (decisions k') = length (decisions k) →
  length (solutions k') = length (solutions k) →
  length (learnings k') = length (learnings k) →
  summaryParts k' = summaryParts k.
Proof. unfold summaryParts. by intros -> -> -> ->. Qed.

(** C8 (amended): on today's note, [writeToDaily(knowledge)] appends one
    summary entry to the Log section exactly when the project context is
    present or one of the counts of decisions, solutions and learnings is
    not zero; the summary is the parts of [summaryParts] joined: the
    project-context prefix if present, then the comma-joined counts.  Every
    decision becomes a bullet under the Decisions header and every learning
    a bullet under the Learned header, the last one first.  Nothing else is
    written: solutions matter by their number only, todos and commands not
    at all. *)
Theorem writeToDaily_spec now k st c :
  daily st !! dailyPath (today now) = Some c →
  Forall (λ d, 10 ∉ d) (decisions k) →
  Forall (λ l, 10 ∉ l) (learnings k) →
  writeToDaily now k st
  = writeNote (today now)
      (addBullets (js "Learned") (learnings k)
         (addBullets (js "Decisions") (decisions k) (withSummary now k c)))
      st
  ∧ (withSummary now k c = c
     ↔ (projectContext k = None ∨ projectContext k = Some [])
       ∧ decisions k = [] ∧ solutions k = [] ∧ learnings k = [])
  ∧ (∀ k',
       projectContext k' = projectContext k →
       decisions k' = decisions k →
       learnings k' = learnings k →
       length (solutions k') = length (solutions k) →
       writeToDaily now k' st = writeToDaily now k st).
Proof.
  intros Hc Hd Hl. split_and!.
  - unfold writeToDaily.
    pose proof (ensureDailyNote_present _ _ _ Hc) as He.
    assert (H1 : (if (0 <? length (summaryParts k))%nat
                  then appendToLog now (joinWith (js ". ") (summaryParts k))
                         None st
                  else st)
                 = writeNote (today now) (withSummary now k c) st).
    { unfold withSummary. destruct (summaryParts k) as [|p ps] eqn:E.
      - simpl. by rewrite writeNote_same.
      - cbn [length Nat.ltb Nat.leb]. rewrite decide_False by done.
        rewrite (appendToLog_eq now _ None st c); cbv zeta;
          change (default (today now) None) with (today now); rewrite He;
          [|done].
        by case_decide. }
    rewrite H1.
    rewrite (foldl_appendToSection now (js "Decisions") _ _ _
               (writeNote_lookup _ _ _) Hd).
    rewrite (foldl_appendToSection now (js "Learned") _ _ _
               (writeNote_lookup _ _ _) Hl).
    by rewrite !writeNote_twice.
  - rewrite <- summaryParts_nil. unfold withSummary.
    case_decide as Hs; [done|]. split; [|done]. intros Heq. exfalso.
    case_decide.
    + apply (f_equal length) in Heq. rewrite !length_app in Heq.
      simpl in Heq. lia.
    + apply (f_equal length) in Heq. revert Heq.
      rewrite <- (joinLines_splitLines c) at 2.
      destruct (first_header _ _ H) as (pre & h & post & -> & Hpre & Hh).
      rewrite (insertBehind_at _ [_]) by done.
      set (entry := logEntry _ _).
      replace (pre ++ h :: leadingSkippable post ++ [entry]
                 ++ afterSkippable post)
        with ((pre ++ h :: leadingSkippable post)
                ++ entry :: afterSkippable post)
        by by rewrite <- app_assoc.
      replace (pre ++ h :: post)
        with ((pre ++ h :: leadingSkippable post) ++ afterSkippable post)
        by (rewrite <- app_assoc; cbn [app]; by rewrite leading_after).
      rewrite joinLines_insert_length; [lia|]. by destruct pre.
  - intros k' Hp Hd' Hl' Hs. unfold writeToDaily.
    rewrite (summaryParts_ext k k') by congruence.
    by rewrite Hd', Hl'.
Qed.

Lemma writeToDaily_spec_witness :
  writeToDaily exampleClock exampleKnowledge (noteFs exampleDate sectionsNote)
  = Fs {[ dailyPath exampleDate :=
            joinLines
              [js "## Log"; [];
               js "- 09:05 " ++ LOG_DASH
                 ++ js " Working on **pi**. 2 decision(s), 3 solution(s), "
                 ++ js "1 learning(s)";
               js "## Decisions"; js "<!-- Key decisions made today -->"; [];
               js "- keep N"; js "- use stdpp";
               js "## Learned"; []; js "- greedy first"] ]} None.
Proof.
  destruct (writeToDaily_spec exampleClock exampleKnowledge
              (noteFs exampleDate sectionsNote)
              (joinLines (js <$> sectionsNote))) as (H & _ & _).
  - vm_compute. reflexivity.
  - repeat constructor; not_in_literal.
  - repeat constructor; not_in_literal.
  - etrans; [exact H|]. vm_compute. reflexivity.
Defined.

(** C8 (as stated) fails: with a project context and all counts zero, a
    summary entry is appended to the Log section all the same. *)
Lemma writeToDaily_context_only_counterexample :
  length (decisions contextOnly) = 0%nat
  ∧ length (solutions contextOnly) = 0%nat
  ∧ length (learnings contextOnly) = 0%nat
  ∧ writeToDaily exampleClock contextOnly
      (noteFs exampleDate ["## Log"; blank]%string)
    = Fs {[ dailyPath exampleDate :=
              joinLines [js "## Log"; [];
                         js "- 09:05 " ++ LOG_DASH ++ js " Working on **pi**"] ]}
         None.
Proof. split_and!; vm_compute; reflexivity. Qed.

(** ** The reply of the deep extraction *)

(** The decoder never runs out of fuel: every step that spends fuel goes
    with input consumed. *)

Lemma skipWs_length s : (length (skipWs s) ≤ length s)%nat.
Proof.
  induction s as [|c s IH]; simpl; [done|].
  destruct (isJsonWs c); simpl; lia.
Qed.

Lemma skipWs_cons_length s c t :
  skipWs s = c :: t → (length t < length s)%nat.
Proof.
  intros H. pose proof (skipWs_length s) as Hl. rewrite H in Hl.
  simpl in Hl. lia.
Qed.

Lemma spanDigits_length s :
  (length (spanDigits s).2 ≤ length s)%nat.
Proof.
  induction s as [|c s IH]; simpl; [done|].
  destruct (isDigit c); simpl; [|lia].
  destruct (spanDigits s) as [a b]. simpl in *. lia.
Qed.

Lemma parseChars_length n : ∀ s r t,
  (length s ≤ n)%nat → parseChars s = Some (r, t) →
  (length t < length s)%nat.
Proof.
  induction n as [|n IH]; intros s r t Hn H;
    destruct s as [|c s]; simpl in Hn; try lia; try done.
  cbn [parseChars] in H.
  destruct (c =? 34); [simplify_eq/=; lia|].
  destruct (c <? 32); [done|].
  destruct (c =? 92).
  - destruct s as [|e s'']; [done|]. simpl in Hn.
    assert (Hs : ∀ x r t,
              ('(r0, t0) ← parseChars s''; Some (x :: r0, t0)) = Some (r, t) →
              (length t < length s'')%nat).
    { intros x r0 t0 H0. destruct (parseChars s'') as [[r1 t1]|] eqn:E; [|done].
      simplify_eq/=. apply IH in E; lia. }
    repeat (match type of H with
            | (if ?b then _ else _) = _ => destruct b
            end; [apply Hs in H; simpl; lia|]).
    destruct (e =? 117); [|done].
    destruct s'' as [|h1 [|h2 [|h3 [|h4 s4]]]]; try done.
    destruct (hexValue h1), (hexValue h2), (hexValue h3), (hexValue h4);
      simpl in H; try done.
    destruct (parseChars s4) as [[r1 t1]|] eqn:E; [|done].
    simplify_eq/=. apply IH in E; simpl in *; lia.
  - destruct (parseChars s) as [[r1 t1]|] eqn:E; [|done].
    simplify_eq/=. apply IH in E; lia.
Qed.

Lemma parseNumber_length s l t :
  parseNumber s = Some (l, t) → (length t < length s)%nat.
Proof.
  unfold parseNumber. intros H.
  repeat match type of H with
  | context [spanDigits ?x] =>
      let E := fresh "E" in let Hl := fresh "Hl" in
      pose proof (spanDigits_length x) as Hl;
      destruct (spanDigits x) as [? ?] eqn:E; simpl in Hl
  | context [match ?x with [] => _ | _ :: _ => _ end] =>
      destruct x as [|? ?]
  | context [if ?b then _ else _] => destruct b eqn:?
  | _ => progress simplify_eq/=
  end; try lia.
  all: match goal with
       | E : context [if isDigit ?n then _ else _], Hd : isDigit ?n = true |- _ =>
           rewrite Hd in E;
           match type of E with
           | context [spanDigits ?x] =>
               pose proof (spanDigits_length x);
               destruct (spanDigits x); simplify_eq/=; lia
           end
       end.
Qed.

Lemma consumes_ofOption {A B} (o : option (A * jsstring)) (k : A → B)
    (s s' : jsstring) :
  (∀ a t, o = Some (a, t) → (length t < length s')%nat) →
  (length s' ≤ length s)%nat →
  consumes (andThen (ofOption o) (λ a t, Parsed (k a) t)) s.
Proof.
  intros Ho Hs. destruct o as [[a t]|]; simpl; split; try done.
  intros a' t' [= <- <-]. specialize (Ho a t eq_refl). lia.
Qed.

Lemma parse_fuel f :
  (∀ s, (2 * length s + 1 ≤ f)%nat → consumes (parseValue f s) s)
  ∧ (∀ s, (2 * length s + 2 ≤ f)%nat → consumes (parseItems f s) s)
  ∧ (∀ s, (2 * length s + 2 ≤ f)%nat → consumes (parseMembers f s) s).
Proof.
  induction f as [|f (IHv & IHi & IHm)].
  { split_and!; intros s Hs; lia. }
  split_and!; intros s Hf.
  - cbn [parseValue].
    destruct (skipWs s) as [|c s'] eqn:Es; [by split|].
    pose proof (skipWs_cons_length _ _ _ Es) as Hs'.
    destruct (c =? 34).
    { apply (consumes_ofOption _ _ _ s'); [|lia].
      intros a t. apply (parseChars_length (length s')). lia. }
    destruct (c =? 91).
    { destruct (skipWs s') as [|x t] eqn:Es'; [by split|].
      pose proof (skipWs_cons_length _ _ _ Es') as Ht.
      destruct (x =? 93).
      - split; [done|]. intros a t' [= <- <-]. lia.
      - destruct (IHi s') as [Hnf Hlen]; [lia|].
        destruct (parseItems f s') as [items t'| |] eqn:E; simpl; split;
          try done.
        intros a t'' [= <- <-]. specialize (Hlen _ _ eq_refl). lia. }
    destruct (c =? 123).
    { destruct (skipWs s') as [|x t] eqn:Es'; [by split|].
      pose proof (skipWs_cons_length _ _ _ Es') as Ht.
      destruct (x =? 125).
      - split; [done|]. intros a t' [= <- <-]. lia.
      - destruct (IHm s') as [Hnf Hlen]; [lia|].
        destruct (parseMembers f s') as [ms t'| |] eqn:E; simpl; split;
          try done.
        intros a t'' [= <- <-]. specialize (Hlen _ _ eq_refl). lia. }
    destruct (startsWith (js "null") (c :: s')).
    { split; [done|]. intros a t [= <- <-]. simpl. rewrite length_drop. lia. }
    destruct (startsWith (js "true") (c :: s')).
    { split; [done|]. intros a t [= <- <-]. simpl. rewrite length_drop. lia. }
    destruct (startsWith (js "false") (c :: s')).
    { split; [done|]. intros a t [= <- <-]. simpl. rewrite length_drop. lia. }
    apply (consumes_ofOption _ _ _ (c :: s')); [|simpl; lia].
    intros a t. apply parseNumber_length.
  - cbn [parseItems].
    destruct (IHv s) as [Hnf Hlen]; [lia|].
    destruct (parseValue f s) as [v t| |] eqn:E; simpl; [|by split|done].
    specialize (Hlen _ _ eq_refl).
    destruct (skipWs t) as [|x t'] eqn:Et; [by split|].
    pose proof (skipWs_cons_length _ _ _ Et) as Ht'.
    destruct (x =? 93).
    { split; [done|]. intros a t'' [= <- <-]. lia. }
    destruct (x =? 44); [|by split].
    destruct (IHi t') as [Hnf' Hlen']; [lia|].
    destruct (parseItems f t') as [vs t''| |] eqn:E'; simpl; split; try done.
    intros a t3 [= <- <-]. specialize (Hlen' _ _ eq_refl). lia.
  - cbn [parseMembers].
    destruct (skipWs s) as [|q s1] eqn:Es; [by split|].
    pose proof (skipWs_cons_length _ _ _ Es) as Hs1.
    destruct (q =? 34); [|by split].
    destruct (parseChars s1) as [[key s2]|] eqn:Ek; simpl; [|by split].
    apply (parseChars_length (length s1)) in Ek; [|lia].
    destruct (skipWs s2) as [|colon s3] eqn:Es2; [by split|].
    pose proof (skipWs_cons_length _ _ _ Es2) as Hs3.
    destruct (colon =? 58); [|by split].
    destruct (IHv s3) as [Hnf Hlen]; [lia|].
    destruct (parseValue f s3) as [v t| |] eqn:E; simpl; [|by split|done].
    specialize (Hlen _ _ eq_refl).
    destruct (skipWs t) as [|x t'] eqn:Et; [by split|].
    pose proof (skipWs_cons_length _ _ _ Et) as Ht'.
    destruct (x =? 125).
    { split; [done|]. intros a t'' [= <- <-]. lia. }
    destruct (x =? 44); [|by split].
    destruct (IHm t') as [Hnf' Hlen']; [lia|].
    destruct (parseMembers f t') as [ms t''| |] eqn:E'; simpl; split; try done.
    intros a t3 [= <- <-]. specialize (Hlen' _ _ eq_refl). lia.
Qed.

(** The fuel of [JSON_parse] is enough for every text. *)
Lemma parse_fuel_enough s : parseValue (2 * length s + 2) s ≠ OutOfFuel.
Proof. apply parse_fuel. lia. Qed.

Lemma JSON_parse_reject s c s' :
  skipWs s = c :: s' → notJsonStart c → JSON_parse s = None.
Proof.
  intros Hs (H34 & H91 & H123 & H45 & Hd & H110 & H116 & H102).
  unfold JSON_parse.
  replace (2 * length s + 2)%nat with (S (2 * length s + 1)) by lia.
  cbn [parseValue]. rewrite Hs.
  apply N.eqb_neq in H34, H91, H123, H45. rewrite H34, H91, H123.
  assert (Hn : startsWith (js "null") (c :: s') = false).
  { change (js "null") with (110 :: js "ull"). cbn [startsWith].
    by rewrite (proj2 (N.eqb_neq 110 c)). }
  assert (Ht : startsWith (js "true") (c :: s') = false).
  { change (js "true") with (116 :: js "rue"). cbn [startsWith].
    by rewrite (proj2 (N.eqb_neq 116 c)). }
  assert (Hf : startsWith (js "false") (c :: s') = false).
  { change (js "false") with (102 :: js "alse"). cbn [startsWith].
    by rewrite (proj2 (N.eqb_neq 102 c)). }
  rewrite Hn, Ht, Hf. unfold parseNumber. rewrite H45.
  assert (H48 : (c =? 48) = false).
  { apply N.eqb_neq. intros ->. done. }
  by rewrite H48, Hd.
Qed.

Lemma strip_open_fence s :
  removeFirst true fenceOpenRe (FENCE_JSON ++ NL ++ s) = s.
Proof.
  unfold removeFirst, exec. re_norm fenceOpenRe.
  change (FENCE_JSON ++ NL ++ s)
    with (96 :: 96 :: 96 :: 106 :: 115 :: 111 :: 110 :: 10 :: s).
  destruct s as [|x s]; cbn [searchFrom]; rewrite run_Bol; re_step;
    rewrite run_Opt; re_step; rewrite run_Opt; re_step; done.
Qed.

Lemma close_fence_miss pv x s :
  x ≠ 96 → head (s ++ NL ++ FENCE) ≠ Some 96 →
  run true fenceCloseRe (MState pv (x :: s ++ NL ++ FENCE) None) = [].
Proof.
  intros Hx Hs. re_norm fenceCloseRe. rewrite run_Opt.
  assert (H96 : (96 =? x) = false) by by apply N.eqb_neq.
  assert (Hmiss : ∀ q y t (r : regex),
            y ≠ 96 → run true (Seq (chr 96) r) (MState q (y :: t) None) = []).
  { intros q y t r Hy. apply run_Chr_miss. by apply N.eqb_neq. }
  rewrite !run_assoc. rewrite (Hmiss _ x) by done. rewrite app_nil_r.
  destruct (decide (x = 10)) as [->|Hx10].
  - rewrite run_chr_hit.
    destruct (s ++ NL ++ FENCE) as [|y t] eqn:E; [done|].
    rewrite !run_assoc. apply Hmiss. simpl in Hs. congruence.
  - apply run_Chr_miss. apply N.eqb_neq. congruence.
Qed.

Lemma search_close_fence s : ∀ pv i,
  96 ∉ s →
  searchFrom true fenceCloseRe pv (s ++ NL ++ FENCE) i
  = Some ((i + length s)%nat, MState (Some 96) [] None).
Proof.
  induction s as [|x s IH]; intros pv i Hs.
  - change ([] ++ NL ++ FENCE) with [10; 96; 96; 96].
    cbn [searchFrom]. re_norm fenceCloseRe.
    rewrite run_Opt. re_step. simpl. do 2 f_equal. lia.
  - apply not_elem_of_cons in Hs as [Hx Hs].
    cbn [app searchFrom]. rewrite close_fence_miss; [| congruence |].
    + rewrite IH by done. do 2 f_equal. simpl. lia.
    + destruct s as [|y s]; [done|]. simpl. intros [= ->].
      apply Hs. by left.
Qed.

Lemma strip_close_fence s :
  96 ∉ s → removeFirst true fenceCloseRe (s ++ NL ++ FENCE) = s.
Proof.
  intros Hs. unfold removeFirst, exec. rewrite search_close_fence by done.
  cbn [rest Nat.add]. by rewrite take_app_length, app_nil_r.
Qed.

(** A reply fenced as a [json] code block is stripped to what it wraps. *)
Lemma stripFences_fenced s :
  96 ∉ s → stripFences (FENCE_JSON ++ NL ++ s ++ NL ++ FENCE) = s.
Proof.
  intros Hs. unfold stripFences.
  by rewrite strip_open_fence, strip_close_fence.
Qed.

(** C5 (amended): [parseDeepExtraction(raw)] removes the first [```json]
    marker at the start of a line and the first [```] at the end of a line,
    then calls [JSON.parse] and checks no shape: it returns absent exactly
    when the text does not parse or is the text [null], never raises (the
    decoder always comes to an end), and returns any other decoded value as
    it is, an array or an object with any members.  It returns absent for
    the empty string and for text that starts with a character no JSON
    value starts with, the decoded array for
    a JSON array, and the decoded value [v] for a [```json] block that wraps
    the text of [v]. *)
Theorem parseDeepExtraction_spec :
  (∀ raw,
     parseDeepExtraction raw = JNull
     ↔ JSON_parse (stripFences raw) = None
       ∨ JSON_parse (stripFences raw) = Some JNull)
  ∧ (∀ raw v,
       JSON_parse (stripFences raw) = Some v → parseDeepExtraction raw = v)
  ∧ (∀ s, parseValue (2 * length s + 2) s ≠ OutOfFuel)
  ∧ parseDeepExtraction [] = JNull
  ∧ (∀ raw c rest,
       skipWs (stripFences raw) = c :: rest → notJsonStart c →
       parseDeepExtraction raw = JNull)
  ∧ parseDeepExtraction (js "[1, 2]")
    = JArray [JNumber (js "1"); JNumber (js "2")]
  ∧ (∀ s v,
       JSON_parse s = Some v → 96 ∉ s →
       parseDeepExtraction (FENCE_JSON ++ NL ++ s ++ NL ++ FENCE) = v).
Proof.
  unfold parseDeepExtraction. split_and!.
  - intros raw. destruct (JSON_parse (stripFences raw)) as [v|]; simpl.
    + split; [intros ->; by right|]. by intros [?|[= ->]].
    + split; [by left|done].
  - by intros raw v ->.
  - apply parse_fuel_enough.
  - vm_compute. reflexivity.
  - intros raw c rest Hs Hc. by rewrite (JSON_parse_reject _ _ _ Hs Hc).
  - vm_compute. reflexivity.
  - intros s v Hv Hs. by rewrite stripFences_fenced, Hv.
Qed.

Lemma parseDeepExtraction_spec_witness :
  parseDeepExtraction (js "Sorry, there is nothing to extract.") = JNull
  ∧ parseDeepExtraction (FENCE_JSON ++ NL ++ extractionText ++ NL ++ FENCE)
    = extractionValue.
Proof.
  destruct parseDeepExtraction_spec as (_ & _ & _ & _ & Hprose & _ & Hfenced).
  split.
  - apply (Hprose _ 83 (js "orry, there is nothing to extract.")).
    + vm_compute. reflexivity.
    + vm_compute. split_and!; done.
  - apply Hfenced.
    + vm_compute. reflexivity.
    + not_in_literal.
Defined.

(** C5 (as stated) fails: a JSON array is returned, not absent, and an
    object without any of the DeepExtraction fields is returned as it is. *)
Lemma parseDeepExtraction_array_counterexample :
  parseDeepExtraction (js "[]") = JArray []
  ∧ parseDeepExtraction (js "[]") ≠ JNull
  ∧ parseDeepExtraction (js "{}") = JObject [].
Proof. split_and!; vm_compute; done. Qed.

(** * Theorems on the further parts *)

(** ** What the daily-note operations leave alone *)

Lemma writeNote_other d c st p :
  p ≠ dailyPath d → daily (writeNote d c st) !! p = daily st !! p.
Proof. intros Hp. unfold writeNote; cbn [daily]. by rewrite lookup_insert_ne. Qed.

Lemma ensureDailyNote_other d st p :
  p ≠ dailyPath d → daily (ensureDailyNote d st) !! p = daily st !! p.
Proof.
  intros Hp. unfold ensureDailyNote.
  destruct (daily st !! dailyPath d); [done|].
  cbn [daily]. by rewrite lookup_insert_ne.
Qed.

Lemma ensureDailyNote_template d st :
  dailyTemplate (ensureDailyNote d st) = dailyTemplate st.
Proof. unfold ensureDailyNote. by destruct (daily st !! dailyPath d). Qed.

Lemma appendToLog_other now entry date st p :
  p ≠ dailyPath (default (today now) date) →
  daily (appendToLog now entry date st) !! p = daily st !! p.
Proof.
  intros Hp. unfold appendToLog. cbv zeta.
  destruct (findInsertIndex _ _ _);
    by rewrite writeNote_other, ensureDailyNote_other.
Qed.

Lemma appendToSection_other now section content date st p :
  p ≠ dailyPath (default (today now) date) →
  daily (appendToSection now section content date st) !! p = daily st !! p.
Proof.
  intros Hp. unfold appendToSection. cbv zeta.
  destruct (findInsertIndex _ _ _).
  - by rewrite writeNote_other, ensureDailyNote_other.
  - by rewrite ensureDailyNote_other.
Qed.

(** X1: the operations of daily.ts on the note of a day read and write that
    one file: every other file of the daily directory, and the template,
    are afterwards what they were. *)
Theorem daily_ops_touch_one_file now date st p section content entry :
  p ≠ dailyPath (default (today now) date) →
  (daily (ensureDailyNote (default (today now) date) st) !! p = daily st !! p
   ∧ daily (appendToLog now entry date st) !! p = daily st !! p
   ∧ daily (appendToSection now section content date st) !! p = daily st !! p
   ∧ daily (readDailyNote now date st).2 !! p = daily st !! p
   ∧ daily (getPriorities now date st).2 !! p = daily st !! p)
  ∧ dailyTemplate (ensureDailyNote (default (today now) date) st)
    = dailyTemplate st
  ∧ dailyTemplate (appendToLog now entry date st) = dailyTemplate st
  ∧ dailyTemplate (appendToSection now section content date st)
    = dailyTemplate st
  ∧ dailyTemplate (getPriorities now date st).2 = dailyTemplate st.
Proof.
  intros Hp. split_and!.
  - by apply ensureDailyNote_other.
  - by apply appendToLog_other.
  - by apply appendToSection_other.
  - by apply ensureDailyNote_other.
  - by apply ensureDailyNote_other.
  - apply ensureDailyNote_template.
  - unfold appendToLog. cbv zeta.
    destruct (findInsertIndex _ _ _); apply ensureDailyNote_template.
  - unfold appendToSection. cbv zeta.
    destruct (findInsertIndex _ _ _); apply ensureDailyNote_template.
  - apply ensureDailyNote_template.
Qed.

Lemma daily_ops_touch_one_file_witness :
  daily (appendToLog exampleClock (js "hi") None rolloverFs)
    !! dailyPath (dayBefore exampleDate)
  = Some (joinLines (js <$> yesterdayNote)).
Proof.
  destruct (daily_ops_touch_one_file exampleClock None rolloverFs
              (dailyPath (dayBefore exampleDate)) [] [] (js "hi"))
    as [(_ & H & _) _].
  - vm_compute. discriminate.
  - etrans; [exact H|]. vm_compute. reflexivity.
Defined.

(** ** Decimal numerals and names hold no line break *)

Lemma string_of_uint_digits d :
  Forall (λ c, isDigit c = true) (js (NilEmpty.string_of_uint d)).
Proof.
  unfold js. induction d; cbn [NilEmpty.string_of_uint list_ascii_of_string fmap list_fmap];
    constructor; try done; by vm_compute.
Qed.

Lemma strZ_chars z : Forall (λ c, isDigit c = true ∨ c = 45) (strZ z).
Proof.
  unfold strZ.
  assert (Hu : ∀ d, Forall (λ c, isDigit c = true ∨ c = 45)
                      (js (NilEmpty.string_of_uint d))).
  { intros d. eapply Forall_impl; [apply string_of_uint_digits|]. by left. }
  destruct (Z.to_int z) as [d|d]; cbn [NilEmpty.string_of_int]; [apply Hu|].
  unfold js in *. cbn [list_ascii_of_string fmap list_fmap].
  constructor; [by right|apply Hu].
Qed.

Lemma strZ_no_newline z : 10 ∉ strZ z.
Proof.
  intros Hin. pose proof (strZ_chars z) as H. rewrite Forall_forall in H.
  by destruct (H _ Hin).
Qed.

Lemma padStart2_no_newline s : 10 ∉ s → 10 ∉ padStart2 s.
Proof.
  intros Hs. unfold padStart2. rewrite not_elem_of_app. split; [|done].
  by intros [? _]%elem_of_replicate.
Qed.

Lemma formatDate_no_newline d : 10 ∉ formatDate d.
Proof.
  unfold formatDate. rewrite !not_elem_of_app.
  split_and!; try apply padStart2_no_newline; try apply strZ_no_newline;
    not_in_literal.
Qed.

Lemma nameAt_elem names i :
  nameAt names i ∈ js "undefined" :: (js <$> names).
Proof.
  unfold nameAt. destruct (names !! i) as [n|] eqn:E; cbn [default from_option id].
  - right. apply list_elem_of_fmap. exists n. split; [done|].
    by eapply list_elem_of_lookup_2.
  - by left.
Qed.

Lemma dayName_no_newline d : 10 ∉ dayName d.
Proof.
  unfold dayName. pose proof (nameAt_elem DAYS (getDay d)) as H.
  revert H. generalize (nameAt DAYS (getDay d)). intros n H.
  assert (Hall : Forall (λ l : jsstring, 10 ∉ l) (js "undefined" :: (js <$> DAYS))).
  { repeat constructor; not_in_literal. }
  rewrite Forall_forall in Hall. by apply Hall.
Qed.

Lemma fullDate_no_newline d : 10 ∉ fullDate d.
Proof.
  unfold fullDate. rewrite !not_elem_of_app.
  assert (Hm : 10 ∉ nameAt MONTHS (getMonth d)).
  { pose proof (nameAt_elem MONTHS (getMonth d)) as H.
    revert H. generalize (nameAt MONTHS (getMonth d)). intros n H.
    assert (Hall : Forall (λ l : jsstring, 10 ∉ l)
                     (js "undefined" :: (js <$> MONTHS))).
    { repeat constructor; not_in_literal. }
    rewrite Forall_forall in Hall. by apply Hall. }
  split_and!; try done; try apply strZ_no_newline; not_in_literal.
Qed.

Lemma logEntry_no_newline now e : 10 ∉ e → 10 ∉ logEntry now e.
Proof.
  intros He. unfold logEntry. rewrite !not_elem_of_app.
  split_and!; try done; try (apply padStart2_no_newline, strZ_no_newline);
    not_in_literal.
Qed.

(** ** The built-in skeleton *)

Lemma skeleton_eq d :
  skeleton d = joinLines (skeletonHead d ++ PLACEHOLDER :: skeletonTail).
Proof. reflexivity. Qed.

Lemma skeletonHead_no_newline d : Forall (λ l, 10 ∉ l) (skeletonHead d).
Proof.
  unfold skeletonHead.
  apply Forall_cons; split; [not_in_literal|].
  apply Forall_cons; split.
  { rewrite not_elem_of_app. split; [not_in_literal|apply formatDate_no_newline]. }
  apply Forall_cons; split; [not_in_literal|].
  apply Forall_cons; split.
  { rewrite !not_elem_of_app. split_and!.
    - not_in_literal.
    - apply dayName_no_newline.
    - not_in_literal.
    - apply fullDate_no_newline. }
  apply Forall_cons; split; [not_in_literal|].
  apply Forall_cons; split; [not_in_literal|constructor].
Qed.

Lemma skeleton_lines d :
  splitLines (skeleton d) = skeletonHead d ++ PLACEHOLDER :: skeletonTail.
Proof.
  rewrite skeleton_eq. apply splitLines_joinLines; [done|].
  apply Forall_app. split; [apply skeletonHead_no_newline|].
  repeat (apply Forall_cons; split; [not_in_literal|]). constructor.
Qed.

Lemma skeletonHead_split d :
  ∃ pre, skeletonHead d = pre ++ [PRIORITIES_HEADER]
         ∧ noHeader PRIORITIES_HEADER pre.
Proof.
  eexists [_; _; _; _; _]. split; [reflexivity|].
  repeat (apply Forall_cons; split; [by vm_compute|]). constructor.
Qed.

Lemma getPriorities_ensure now D st :
  getPriorities now (Some D) st
  = (prioritiesLoop false
       (splitLines (default (newNoteContent st D) (daily st !! dailyPath D))),
     ensureDailyNote D st).
Proof.
  unfold getPriorities, readDailyNote, readNote. cbn [default from_option id].
  by rewrite ensureDailyNote_lookup.
Qed.

Lemma newNoteContent_skeleton st D :
  dailyTemplate st = None →
  (∀ y, daily st !! dailyPath (dayBefore D) = Some y →
        extractIncompletePriorities y = []) →
  newNoteContent st D = skeleton D.
Proof.
  intros Ht Hy. unfold newNoteContent. rewrite Ht.
  destruct (daily st !! dailyPath (dayBefore D)) as [y|]; [|done].
  unfold rollOver. by rewrite (Hy y eq_refl).
Qed.

(** X2: without a template and with nothing to roll over (no note for the
    day before, or one without incomplete priorities), the first access to
    the note of a day writes the built-in skeleton, and [getPriorities]
    reads no priority from it: the empty checklist line of the skeleton is
    no priority. *)
Theorem fresh_note_is_skeleton now st D :
  dailyTemplate st = None →
  daily st !! dailyPath D = None →
  (∀ y, daily st !! dailyPath (dayBefore D) = Some y →
        extractIncompletePriorities y = []) →
  ensureDailyNote D st = writeNote D (skeleton D) st
  ∧ readDailyNote now (Some D) st = (skeleton D, writeNote D (skeleton D) st)
  ∧ getPriorities now (Some D) st = ([], writeNote D (skeleton D) st).
Proof.
  intros Ht Hno Hy.
  assert (He : ensureDailyNote D st = writeNote D (skeleton D) st).
  { rewrite ensureDailyNote_absent by done.
    by rewrite newNoteContent_skeleton. }
  split_and!; [done| |].
  - unfold readDailyNote, readNote. cbn [default from_option id].
    rewrite He. by rewrite writeNote_lookup.
  - rewrite getPriorities_ensure, Hno, He. cbn [default from_option id].
    rewrite newNoteContent_skeleton by done. f_equal.
    rewrite skeleton_lines.
    destruct (skeletonHead_split D) as (pre & -> & Hpre).
    rewrite <- app_assoc. rewrite prioritiesLoop_pre by done.
    by vm_compute.
Qed.

Lemma fresh_note_is_skeleton_witness :
  getPriorities exampleClock (Some exampleDate) emptyFs
  = ([], Fs {[ dailyPath exampleDate := skeleton exampleDate ]} None).
Proof.
  destruct (fresh_note_is_skeleton exampleClock emptyFs exampleDate)
    as (_ & _ & H).
  - reflexivity.
  - reflexivity.
  - intros y Hy. vm_compute in Hy. discriminate.
  - etrans; [exact H|]. vm_compute. reflexivity.
Defined.

(** ** The rollover mark is stripped *)

Lemma elem_of_run_chrs m cs : ∀ st st',
  st' ∈ run m (cat (chr <$> cs)) st → rest st = cs ++ rest st'.
Proof.
  induction cs as [|c cs IH]; intros st st'.
  - by intros ->%elem_of_run_Emp.
  - change (cat (chr <$> c :: cs)) with (Seq (chr c) (cat (chr <$> cs))).
    intros (mid & Hc & Hr)%elem_of_run_Seq.
    apply elem_of_run_Chr in Hc as (x & Hx & Heq & _).
    apply N.eqb_eq in Heq as <-. apply IH in Hr. by rewrite Hx, Hr.
Qed.

Lemma run_chrs m cs K : ∀ pv s cp,
  ∃ pv', run m (Seq (cat (chr <$> cs)) K) (MState pv (cs ++ s) cp)
         = run m K (MState pv' s cp).
Proof.
  induction cs as [|c cs IH]; intros pv s cp.
  - exists pv. change (cat (chr <$> [])) with Emp. by rewrite run_Emp.
  - change (cat (chr <$> c :: cs)) with (Seq (chr c) (cat (chr <$> cs))).
    rewrite run_assoc. cbn [app]. rewrite run_chr_hit. apply IH.
Qed.

(** Greedy [p*] over a run of [p] that ends where [p] fails: the first
    results are those behind the whole run. *)
Lemma run_Many_span m p K w : ∀ pv s cp,
  Forall (λ x, p x = true) w →
  head s = None ∨ (∃ c, head s = Some c ∧ p c = false) →
  ∃ pv' tl, run m (Seq (Many p) K) (MState pv (w ++ s) cp)
            = run m K (MState pv' s cp) ++ tl.
Proof.
  induction w as [|x w IH]; intros pv s cp Hw Hs.
  - exists pv, []. rewrite app_nil_r. cbn [app run rest prev cap].
    destruct s as [|c s]; cbn [many].
    + by rewrite bind_cons, app_nil_r.
    + destruct Hs as [Hs|(c' & [= <-] & Hc)]; [done|]. rewrite Hc.
      by rewrite bind_cons, app_nil_r.
  - apply Forall_cons in Hw as [Hx Hw].
    destruct (IH (Some x) s cp Hw Hs) as (pv' & tl & Heq).
    cbn [app run rest prev cap many] in *. rewrite Hx.
    rewrite bind_app, Heq. exists pv'. eexists. by rewrite <- app_assoc.
Qed.

(** What the pattern of the rollover mark matches: white space, the mark,
    white space, up to the end of the text. *)
Lemma rolledRe_inv pv s st :
  st ∈ run false rolledRe (MState pv s None) →
  ∃ w1 w2, s = w1 ++ MARK ++ w2
           ∧ Forall (λ x, isSpace x = true) w1
           ∧ Forall (λ x, isSpace x = true) w2.
Proof.
  unfold rolledRe. cbn [cat foldr].
  intros (s1 & H1 & H)%elem_of_run_Seq.
  apply elem_of_run_Seq in H as (s2 & H2 & H).
  apply elem_of_run_Seq in H as (s3 & H3 & H).
  apply elem_of_run_Seq in H as (s4 & H4 & ->%elem_of_run_Emp).
  apply elem_of_run_Eol in H4 as [-> H4].
  apply elem_of_run_Many in H1 as (w1 & Hw1 & Hs1 & _).
  apply elem_of_run_chrs in H2.
  apply elem_of_run_Many in H3 as (w2 & Hw2 & Hs2 & _).
  exists w1, w2. cbn [rest] in Hw1. rewrite Hw1, H2, Hw2, H4.
  by rewrite app_nil_r.
Qed.

Lemma last_MARK_app a : last (a ++ MARK) = Some 42.
Proof. by rewrite last_app. Qed.

Lemma isSpace_last w c :
  Forall (λ x, isSpace x = true) w → last w = Some c → isSpace c = true.
Proof.
  intros Hw Hl. rewrite Forall_forall in Hw. apply Hw.
  rewrite last_Some in Hl. destruct Hl as [l' ->].
  apply elem_of_app. right. by left.
Qed.

Lemma mark_at_end a w1 w2 :
  a ++ MARK = w1 ++ MARK ++ w2 → Forall (λ x, isSpace x = true) w2 →
  w2 = [] ∧ a = w1.
Proof.
  intros Heq Hw2.
  assert (w2 = []) as ->.
  { destruct (last w2) as [c|] eqn:E; [|by apply last_None].
    pose proof (isSpace_last _ _ Hw2 E) as Hc.
    pose proof (last_MARK_app a) as Hl. rewrite Heq in Hl.
    rewrite app_assoc, last_app, E in Hl. by simplify_eq. }
  split; [done|]. rewrite app_nil_r in Heq. by apply app_inv_tail in Heq.
Qed.

Lemma noTrailingSpace_tail c q : noTrailingSpace (c :: q) → noTrailingSpace q.
Proof.
  intros H x Hx. apply H. destruct q; [done|]. by rewrite last_cons, Hx.
Qed.

Lemma search_rolled_mark ws : ∀ q pv i,
  noTrailingSpace q → Forall (λ x, isSpace x = true) ws →
  ∃ st, searchFrom false rolledRe pv (q ++ ws ++ MARK) i
        = Some ((i + length q)%nat, st) ∧ rest st = [].
Proof.
  intros q. induction q as [|c q IH]; intros pv i Hq Hws.
  - cbn [app length]. rewrite Nat.add_0_r.
    assert (∃ pv', ∃ tl, run false rolledRe (MState pv (ws ++ MARK) None)
                     = MState pv' [] None :: tl) as (pv' & tl & Hrun).
    { unfold rolledRe. cbn [cat foldr].
      destruct (run_Many_span false isSpace
                  (Seq (lit "*(rolled over)*") (Seq (Many isSpace) (Seq Eol Emp)))
                  ws pv MARK None Hws) as (pv1 & tl & ->).
      { right. exists 42. by vm_compute. }
      destruct (run_chrs false MARK (Seq (Many isSpace) (Seq Eol Emp))
                  pv1 [] None) as (pv2 & Hr).
      rewrite app_nil_r in Hr. unfold lit. fold MARK. rewrite Hr.
      exists pv2, tl. reflexivity. }
    exists (MState pv' [] None). split; [|done].
    destruct (ws ++ MARK); cbn [searchFrom]; by rewrite Hrun.
  - assert (Hnone : run false rolledRe
                      (MState pv ((c :: q) ++ ws ++ MARK) None) = []).
    { destruct (run false rolledRe _) as [|st l] eqn:E; [done|]. exfalso.
      assert (Hin : st ∈ run false rolledRe
                           (MState pv ((c :: q) ++ ws ++ MARK) None)).
      { rewrite E. by left. }
      apply rolledRe_inv in Hin as (w1 & w2 & Heq & Hw1 & Hw2).
      rewrite app_assoc in Heq.
      apply mark_at_end in Heq as [_ <-]; [|done].
      apply Forall_app in Hw1 as [Hcq _].
      destruct (last (c :: q)) as [x|] eqn:El; [|by apply last_None in El].
      pose proof (isSpace_last _ _ Hcq El) as Hx.
      by rewrite (Hq x El) in Hx. }
    cbn [app searchFrom] in *. rewrite Hnone.
    destruct (IH (Some c) (S i) (noTrailingSpace_tail _ _ Hq) Hws)
      as (st & Hs & Hr).
    exists st. split; [|done]. rewrite Hs. f_equal. f_equal. cbn [length]. lia.
Qed.

Lemma strip_rolled_mark q ws :
  noTrailingSpace q → Forall (λ x, isSpace x = true) ws →
  removeFirst false rolledRe (q ++ ws ++ MARK) = q.
Proof.
  intros Hq Hws. unfold removeFirst, exec.
  destruct (search_rolled_mark ws q None 0%nat Hq Hws) as (st & -> & ->).
  cbn [Nat.add]. by rewrite take_app_length, app_nil_r.
Qed.

(** A text whose last character is neither white space nor an asterisk
    holds no rollover mark to strip. *)
Lemma strip_rolled_none q c :
  last q = Some c → isSpace c = false → c ≠ 42 →
  removeFirst false rolledRe q = q.
Proof.
  intros Hl Hc H42. unfold removeFirst.
  destruct (exec false rolledRe q) as [[i st]|] eqn:E; [|done]. exfalso.
  unfold exec in E.
  assert (Hsuf : ∀ s pv i0, searchFrom false rolledRe pv s i0 = Some (i, st) →
                 last s = Some c → False).
  { clear E. intros s. induction s as [|x s IH]; intros pv i0; [done|].
    cbn [searchFrom].
    destruct (run false rolledRe _) as [|st0 l] eqn:Er.
    - intros Hs Hls. destruct s as [|y s].
      + by vm_compute in Hs.
      + apply (IH _ _ Hs). by rewrite last_cons_cons in Hls.
    - intros _ Hls.
      assert (Hin : st0 ∈ run false rolledRe (MState pv (x :: s) None)).
      { rewrite Er. by left. }
      apply rolledRe_inv in Hin as (w1 & w2 & Heq & Hw1 & Hw2).
      rewrite Heq in Hls. rewrite app_assoc in Hls.
      destruct (last w2) as [z|] eqn:Ez.
      + rewrite last_app, Ez in Hls. simplify_eq.
        pose proof (isSpace_last _ _ Hw2 Ez). congruence.
      + apply last_None in Ez as ->. rewrite app_nil_r in Hls.
        rewrite last_MARK_app in Hls. by simplify_eq. }
  by apply (Hsuf q None 0%nat E).
Qed.

(** X3: the rollover mark never stacks.  An unchecked line whose plain text
    [q] ends in the mark, with any white space before it, is rolled over as
    [q]: the line written for it is again [- [ ] q *(rolled over)*].  Text
    that ends in neither white space nor an asterisk is rolled over as it
    is. *)
Theorem rolled_mark_is_stripped q ws :
  plainText q → noTrailingSpace q →
  Forall (λ x, isSpace x = true ∧ isDot x = true) ws →
  incompleteOfLine (PLACEHOLDER ++ q ++ ws ++ MARK) = Some q
  ∧ incompleteOfLine (PLACEHOLDER ++ q ++ ROLLED_OVER) = Some q
  ∧ omap incompleteOfLine (rolledLines [q]) = [q]
  ∧ (∀ c, last q = Some c → c ≠ 42 →
          incompleteOfLine (PLACEHOLDER ++ q) = Some q).
Proof.
  intros Hq Hnt Hws.
  assert (Hgen : ∀ ws', Forall (λ x, isSpace x = true ∧ isDot x = true) ws' →
                 incompleteOfLine (PLACEHOLDER ++ q ++ ws' ++ MARK) = Some q).
  { intros ws' Hws'. rewrite incompleteOfLine_plain.
    - rewrite strip_rolled_mark; [done|done|].
      eapply Forall_impl; [exact Hws'|]. by intros x [? _].
    - apply plainText_app; [done|]. apply Forall_app. split.
      + eapply Forall_impl; [exact Hws'|]. by intros x [_ ?].
      + by vm_compute; repeat constructor. }
  assert (Hro : incompleteOfLine (PLACEHOLDER ++ q ++ ROLLED_OVER) = Some q).
  { apply (Hgen [32]). by repeat constructor. }
  split_and!.
  - by apply Hgen.
  - done.
  - cbn [rolledLines fmap list_fmap omap list_omap]. by rewrite Hro.
  - intros c Hl Hc. rewrite incompleteOfLine_plain by done.
    by rewrite (strip_rolled_none q c Hl (Hnt c Hl) Hc).
Qed.

Lemma rolled_mark_is_stripped_witness :
  incompleteOfLine (js "- [ ] write report   *(rolled over)*")
  = Some (js "write report")
  ∧ incompleteOfLine (js "- [ ] write report") = Some (js "write report").
Proof.
  destruct (rolled_mark_is_stripped (js "write report") (js "   "))
    as (H1 & _ & _ & H2).
  - split; [|by vm_compute; repeat constructor].
    exists 119, (js "rite report"). by vm_compute.
  - intros c Hc. vm_compute in Hc. by simplify_eq.
  - by vm_compute; repeat constructor.
  - split; [exact H1|]. apply (H2 116); [by vm_compute|done].
Defined.

(** ** The first match of the checklist pattern *)

Lemma head_bind {A B} (f : A → list B) l y :
  head (l ≫= f) = Some y → ∃ x, x ∈ l ∧ head (f x) = Some y.
Proof.
  induction l as [|x l IH]; [done|].
  rewrite bind_cons. destruct (f x) as [|z tl] eqn:E.
  - intros (x' & ? & ?)%IH. exists x'. split; [by right|done].
  - cbn [app head]. intros [= <-]. exists x. split; [by left|]. by rewrite E.
Qed.

Lemma head_run_Seq m a b st st' :
  head (run m (Seq a b) st) = Some st' →
  ∃ mid, mid ∈ run m a st ∧ head (run m b mid) = Some st'.
Proof. apply head_bind. Qed.

Lemma trimStart_spaces w : Forall (λ x, isSpace x = true) w → trimStart w = [].
Proof. induction 1 as [|x w Hx _ IH]; [done|]. cbn [trimStart]. by rewrite Hx. Qed.

Lemma trim_spaces w : Forall (λ x, isSpace x = true) w → trim w = [].
Proof. intros H. unfold trim, trimEnd. by rewrite (trimStart_spaces w). Qed.

Lemma elem_of_run_dots m st st' :
  st' ∈ run m (Seq (Cap (plus isDot)) Emp) st →
  ∃ w, rest st = w ++ rest st' ∧ w ≠ [] ∧ cap st' = Some w.
Proof.
  intros (mid & H & ->%elem_of_run_Emp)%elem_of_run_Seq.
  apply elem_of_run_Cap_plus in H as (w & ? & ? & _ & ?). by exists w.
Qed.

Lemma many_nonempty p s : ∀ pv cp, many p pv s cp ≠ [].
Proof.
  destruct s as [|c s]; intros pv cp; cbn [many]; [done|].
  destruct (p c); [|done]. by intros [_ ?]%app_eq_nil.
Qed.

Lemma run_dots_nonempty m pv c s cp :
  isDot c = true →
  run m (Seq (Cap (plus isDot)) Emp) (MState pv (c :: s) cp) ≠ [].
Proof.
  intros Hd. cbn [run rest prev cap plus]. rewrite Hd.
  cbn [mbind list_bind app prev rest cap]. rewrite app_nil_r.
  pose proof (many_nonempty isDot s (Some c) cp) as Hm.
  destruct (many isDot (Some c) s cp) as [|z l]; [done|].
  by cbn [fmap list_fmap mbind list_bind app].
Qed.

Lemma many_dots_empty m s : ∀ pv cp,
  many isSpace pv s cp ≫= run m (Seq (Cap (plus isDot)) Emp) = [] →
  Forall (λ x, isSpace x = true) s.
Proof.
  induction s as [|c s IH]; intros pv cp; [done|].
  cbn [many]. destruct (isSpace c) eqn:Ec.
  - rewrite bind_app. intros [H _]%app_eq_nil. constructor; [done|].
    by apply IH in H.
  - rewrite bind_cons, app_nil_r. intros H. exfalso.
    apply (run_dots_nonempty m pv c s cp); [|done].
    unfold isSpace in Ec. apply orb_false_iff in Ec as [_ Ec].
    unfold isDot. by rewrite Ec.
Qed.

Lemma many_dots_head m s : ∀ pv cp st,
  head (many isSpace pv s cp ≫= run m (Seq (Cap (plus isDot)) Emp)) = Some st →
  captureStartsText st.
Proof.
  induction s as [|c s IH]; intros pv cp st.
  - cbn [many]. rewrite bind_cons. by vm_compute.
  - cbn [many]. destruct (isSpace c) eqn:Ec.
    + rewrite bind_app.
      destruct (many isSpace (Some c) s cp ≫= _) as [|z l] eqn:E.
      * apply many_dots_empty in E. rewrite app_nil_l, bind_cons, app_nil_r.
        intros Hh.
        assert (Hin : st ∈ run m (Seq (Cap (plus isDot)) Emp)
                             (MState pv (c :: s) cp)).
        { destruct (run m _ _); [done|]. simplify_eq/=. by left. }
        apply elem_of_run_dots in Hin as (w & Hw & _ & Hc).
        exists w. split; [done|]. left. cbn [rest] in Hw.
        assert (Hall : Forall (λ x, isSpace x = true) (c :: s)) by by constructor.
        rewrite Hw in Hall. by apply Forall_app in Hall as [? _].
      * cbn [app head]. intros [= <-]. apply (IH (Some c) cp). by rewrite E.
    + rewrite bind_cons, app_nil_r. intros Hh.
      assert (Hin : st ∈ run m (Seq (Cap (plus isDot)) Emp)
                           (MState pv (c :: s) cp)).
      { destruct (run m _ _); [done|]. simplify_eq/=. by left. }
      apply elem_of_run_dots in Hin as (w & Hw & Hne & Hc).
      exists w. split; [done|]. right. cbn [rest] in Hw.
      destruct w as [|x w]; [done|]. simplify_eq/=. by eexists _, _.
Qed.

Lemma spaces_dots_head m st0 st :
  head (run m (Seq (plus isSpace) (Seq (Cap (plus isDot)) Emp)) st0) = Some st →
  captureStartsText st.
Proof.
  unfold plus at 1. rewrite run_assoc.
  destruct st0 as [pv [|a s] cp].
  - by rewrite run_Chr_nil.
  - destruct (isSpace a) eqn:Ea.
    + rewrite run_Chr_hit by done. apply many_dots_head.
    + by rewrite run_Chr_miss.
Qed.

Lemma todoRe_first_capture line t :
  match1 false todoRe line = Some t → trim t ≠ [] →
  ∃ c t', t = c :: t' ∧ isSpace c = false.
Proof.
  re_norm todoRe. unfold match1. rewrite exec_Bol.
  destruct (head (run false _ _)) as [st|] eqn:E; [|done].
  cbn. intros [= <-] Ht.
  apply head_run_Seq in E as (s1 & _ & E).
  apply head_run_Seq in E as (s2 & _ & E).
  apply head_run_Seq in E as (s3 & _ & E).
  apply head_run_Seq in E as (s4 & _ & E).
  apply head_run_Seq in E as (s5 & _ & E).
  apply spaces_dots_head in E as (t & Hcap & [Hs|Hc]);
    rewrite Hcap in *; cbn [default from_option id] in *.
  - exfalso. by apply Ht, trim_spaces.
  - done.
Qed.

(** What is rolled over is empty or plain text. *)
Lemma incompleteOfLine_plain_or_empty line p :
  incompleteOfLine line = Some p → p = [] ∨ plainText p.
Proof.
  unfold incompleteOfLine.
  destruct (match1 false todoRe line) as [t|] eqn:E; [|done].
  case_bool_decide as Ht; [|done]. intros [= <-].
  destruct (todoRe_first_capture _ _ E Ht) as (c & t' & -> & Hc).
  apply todoRe_shape in E
    as (w1 & mk & w2 & tl & _ & _ & _ & _ & _ & _ & _ & Hd).
  destruct (removeFirst false rolledRe (c :: t')) as [|x r] eqn:Er; [by left|].
  right. rewrite <- Er. apply (plainText_prefix _ (c :: t')).
  - split; [by eexists _, _|done].
  - apply strip_rolled_prefix.
  - by rewrite Er.
Qed.

Lemma incompleteLoop_elem lines : ∀ b p,
  p ∈ incompleteLoop b lines → ∃ ln, incompleteOfLine ln = Some p.
Proof.
  induction lines as [|ln lines IH]; intros b p; cbn [incompleteLoop].
  - by intros ?%elem_of_nil.
  - destruct (startsWith PRIORITIES_HEADER ln); [apply IH|].
    destruct (b && startsWith H2 ln); [by intros ?%elem_of_nil|].
    destruct b; [|apply IH].
    destruct (incompleteOfLine ln) as [q|] eqn:E; [|apply IH].
    intros [->|Hin]%elem_of_cons; [by exists ln|by eapply IH].
Qed.

Lemma incomplete_no_newline y :
  Forall (λ p, 10 ∉ p) (extractIncompletePriorities y).
Proof.
  apply Forall_forall. intros p (ln & H)%incompleteLoop_elem.
  by eapply incompleteOfLine_no_newline.
Qed.

Lemma rolledLines_no_newline' items :
  Forall (λ p, 10 ∉ p) items → Forall (λ ln, 10 ∉ ln) (rolledLines items).
Proof.
  intros H. unfold rolledLines. apply Forall_fmap.
  eapply Forall_impl; [exact H|]. intros p Hp. unfold compose.
  rewrite !not_elem_of_app. split_and!; [|done|]; not_in_literal.
Qed.

(** A rolled-over line is read back as an unchecked priority. *)
Lemma priorityOfLine_rolled p :
  p = [] ∨ plainText p →
  priorityOfLine (PLACEHOLDER ++ p ++ ROLLED_OVER)
  = Some {| text := rolledText p; done := false |}.
Proof.
  intros [->|Hp].
  - by vm_compute.
  - rewrite priorityOfLine_unchecked.
    + destruct Hp as [(c & t & -> & Hc) _]. unfold rolledText.
      cbn [app trimStart]. by rewrite Hc.
    + apply plainText_app; [done|]. by vm_compute; repeat constructor.
Qed.

Lemma omap_priorityOfLine_rolled items :
  Forall (λ p, p = [] ∨ plainText p) items →
  omap priorityOfLine (rolledLines items)
  = (λ p, {| text := rolledText p; done := false |}) <$> items.
Proof.
  induction 1 as [|p items Hp _ IH]; [done|].
  cbn [rolledLines fmap list_fmap omap list_omap].
  rewrite priorityOfLine_rolled by done. f_equal. apply IH.
Qed.

(** ** Where the placeholder occurs in a text of lines *)

Lemma startsWith_line P : ∀ d r,
  10 ∉ P → 10 ∉ d →
  startsWith (P ++ NL) (d ++ NL ++ r) = true → d = P.
Proof.
  induction P as [|a P IH]; intros d r HP Hd.
  - destruct d as [|x d]; [done|]. cbn [app startsWith NL].
    intros [Hx%N.eqb_eq _]%andb_true_iff. subst x.
    exfalso. apply Hd. by left.
  - destruct d as [|x d]; cbn [app startsWith NL].
    + intros [Hx%N.eqb_eq _]%andb_true_iff. subst a.
      exfalso. apply HP. by left.
    + intros [Hx%N.eqb_eq H]%andb_true_iff. subst x. f_equal.
      apply (IH d r); [| |done].
      * intros ?. apply HP. by right.
      * intros ?. apply Hd. by right.
Qed.

(** Lines that do not end in the placeholder hold no occurrence of the
    placeholder line. *)
Lemma noOccurrence_lines P L1 : ∀ r,
  10 ∉ P →
  Forall (λ ln, (10 ∉ ln) ∧ ¬ (P `suffix_of` ln)) L1 →
  noOccurrenceBefore (P ++ NL) (length (linesText L1)) (linesText L1 ++ r).
Proof.
  intros r HP Hall. induction Hall as [|ln L1 [Hnl Hsuf] _ IH].
  - intros i Hi. cbn in Hi. lia.
  - intros i Hi. unfold linesText in *. rewrite bind_cons in *.
    rewrite <- !app_assoc in *.
    destruct (decide (i ≤ length ln)%nat) as [Hle|Hgt].
    + rewrite drop_app_le by done.
      destruct (startsWith (P ++ NL) _) eqn:E; [|done]. exfalso.
      apply startsWith_line in E; [|done|].
      * apply Hsuf. rewrite <- E. apply suffix_drop.
      * intros Hin. apply Hnl.
        destruct (suffix_drop ln i) as [k Hk]. rewrite Hk.
        apply elem_of_app. by right.
    + rewrite drop_app_ge by lia.
      change (NL ++ ?x) with (10 :: x).
      replace (i - length ln)%nat with (S (i - length ln - 1)) by lia.
      cbn [drop]. apply IH. rewrite !length_app in Hi. cbn [length NL] in Hi. lia.
Qed.

(** The rollover step on a text given by its lines. *)
Lemma rollOver_lines y L1 L2 :
  L2 ≠ [] →
  Forall (λ ln, (10 ∉ ln) ∧ ¬ (PLACEHOLDER `suffix_of` ln)) L1 →
  Forall (λ p, 36 ∉ p) (extractIncompletePriorities y) →
  rollOver y (joinLines (L1 ++ PLACEHOLDER :: L2))
  = joinLines (L1 ++ rolledLines (extractIncompletePriorities y)
                 ++ PLACEHOLDER :: L2).
Proof.
  intros HL2 HL1 Hd.
  destruct (extractIncompletePriorities y) as [|p ps] eqn:E.
  { unfold rollOver. by rewrite E. }
  assert (Hshape : joinLines (L1 ++ PLACEHOLDER :: L2)
                   = linesText L1 ++ (PLACEHOLDER ++ NL) ++ joinLines L2).
  { rewrite joinLines_app by done. rewrite joinLines_cons by done.
    by rewrite <- !app_assoc. }
  rewrite Hshape, rollOver_at.
  - rewrite E, getSubstitution_plain by by apply rolled_text_plain.
    rewrite joinLines_app by done.
    f_equal. rewrite joinLines_app by done.
    rewrite linesText_joinLines by done.
    rewrite joinLines_cons by done. by rewrite <- !app_assoc.
  - by rewrite E.
  - apply noOccurrence_lines; [not_in_literal|done].
Qed.

(** ** Rollover into the built-in skeleton *)

Lemma strZ_no_bracket z : 91 ∉ strZ z.
Proof.
  intros Hin. pose proof (strZ_chars z) as H. rewrite Forall_forall in H.
  by destruct (H _ Hin).
Qed.

Lemma nameAt_no_bracket names i :
  Forall (λ l : jsstring, 91 ∉ l) (js "undefined" :: (js <$> names)) →
  91 ∉ nameAt names i.
Proof.
  intros Hall. rewrite Forall_forall in Hall. apply Hall, nameAt_elem.
Qed.

Lemma skeletonHead_no_bracket d : Forall (λ l, 91 ∉ l) (skeletonHead d).
Proof.
  unfold skeletonHead.
  apply Forall_cons; split; [not_in_literal|].
  apply Forall_cons; split.
  { unfold formatDate, padStart2. rewrite !not_elem_of_app. split_and!.
    - not_in_literal.
    - apply strZ_no_bracket.
    - not_in_literal.
    - by intros [? _]%elem_of_replicate.
    - apply strZ_no_bracket.
    - not_in_literal.
    - by intros [? _]%elem_of_replicate.
    - apply strZ_no_bracket. }
  apply Forall_cons; split; [not_in_literal|].
  apply Forall_cons; split.
  { unfold dayName, fullDate. rewrite !not_elem_of_app. split_and!.
    - not_in_literal.
    - apply nameAt_no_bracket. repeat (apply Forall_cons; split; [not_in_literal|]).
      constructor.
    - not_in_literal.
    - apply nameAt_no_bracket. repeat (apply Forall_cons; split; [not_in_literal|]).
      constructor.
    - not_in_literal.
    - apply strZ_no_bracket.
    - not_in_literal.
    - apply strZ_no_bracket. }
  apply Forall_cons; split; [not_in_literal|].
  apply Forall_cons; split; [not_in_literal|constructor].
Qed.

Lemma skeletonHead_no_placeholder d :
  Forall (λ ln, (10 ∉ ln) ∧ ¬ (PLACEHOLDER `suffix_of` ln)) (skeletonHead d).
Proof.
  pose proof (skeletonHead_no_newline d) as H1.
  pose proof (skeletonHead_no_bracket d) as H2.
  rewrite Forall_forall in *. intros ln Hin. split; [by apply H1|].
  intros [k ->]. apply (H2 _ Hin). apply elem_of_app. right.
  by vm_compute; repeat constructor.
Qed.

(** X4: rollover into the built-in skeleton.  Without a template, when the
    note of the day before [D] exists and no item to roll over holds a
    dollar sign, the new note of [D] is the skeleton with one line
    [- [ ] item *(rolled over)*] per incomplete priority of the day before,
    in their order, between the Priorities header and the empty checklist
    line; [getPriorities] reads exactly these items back, all unchecked. *)
Theorem skeleton_rollover now st D y :
  dailyTemplate st = None →
  daily st !! dailyPath D = None →
  daily st !! dailyPath (dayBefore D) = Some y →
  Forall (λ p, 36 ∉ p) (extractIncompletePriorities y) →
  ensureDailyNote D st
  = writeNote D
      (joinLines (skeletonHead D
                    ++ rolledLines (extractIncompletePriorities y)
                    ++ PLACEHOLDER :: skeletonTail))
      st
  ∧ getPriorities now (Some D) st
    = ((λ p, {| text := rolledText p; done := false |})
         <$> extractIncompletePriorities y,
       ensureDailyNote D st).
Proof.
  intros Ht Hno Hy Hd.
  assert (Hnew : newNoteContent st D
                 = joinLines (skeletonHead D
                                ++ rolledLines (extractIncompletePriorities y)
                                ++ PLACEHOLDER :: skeletonTail)).
  { unfold newNoteContent. rewrite Ht, Hy, skeleton_eq.
    apply rollOver_lines; [done|apply skeletonHead_no_placeholder|done]. }
  split.
  - rewrite ensureDailyNote_absent by done. by rewrite Hnew.
  - rewrite getPriorities_ensure, Hno. cbn [default from_option id].
    f_equal. rewrite Hnew.
    rewrite splitLines_joinLines.
    2: { by destruct (skeletonHead_split D) as ([|? ?] & -> & _). }
    2: { apply Forall_app. split; [apply skeletonHead_no_newline|].
         apply Forall_app. split.
         - apply rolledLines_no_newline', incomplete_no_newline.
         - repeat (apply Forall_cons; split; [not_in_literal|]). constructor. }
    destruct (skeletonHead_split D) as (pre & -> & Hpre).
    rewrite <- app_assoc. rewrite prioritiesLoop_pre by done.
    cbn [app prioritiesLoop].
    assert (Hh : startsWith PRIORITIES_HEADER PRIORITIES_HEADER = true)
      by by vm_compute.
    rewrite Hh.
    change (PLACEHOLDER :: skeletonTail)
      with ([PLACEHOLDER; []] ++ drop 1 skeletonTail).
    rewrite app_assoc, prioritiesLoop_body.
    2: { apply Forall_app. split; [apply rolledLines_sectionBody|].
         repeat (apply Forall_cons; split; [by vm_compute|]). constructor. }
    rewrite omap_app, omap_priorityOfLine_rolled.
    2: { apply Forall_forall. intros p (ln & H)%incompleteLoop_elem.
         by eapply incompleteOfLine_plain_or_empty. }
    assert (Hrest : omap priorityOfLine [PLACEHOLDER; []]
                    ++ prioritiesLoop true (drop 1 skeletonTail) = [])
      by by vm_compute.
    by rewrite <- app_assoc, Hrest, app_nil_r.
Qed.

Lemma skeleton_rollover_witness :
  (getPriorities exampleClock (Some exampleDate) rolloverFs).1
  = [{| text := js "write report *(rolled over)*"; done := false |}].
Proof.
  destruct (skeleton_rollover exampleClock rolloverFs exampleDate
              (joinLines (js <$> yesterdayNote))) as [_ H].
  - reflexivity.
  - by vm_compute.
  - by vm_compute.
  - vm_compute. repeat constructor. not_in_literal.
  - rewrite H. by vm_compute.
Defined.

(** ** The order of log entries *)

Lemma splitLines_app a b :
  splitLines (a ++ NL ++ b) = splitLines a ++ splitLines b.
Proof.
  induction a as [|c a IH]; [done|].
  cbn [app splitLines]. rewrite IH. destruct (c =? 10); [done|].
  pose proof (splitLines_nonempty a). by destruct (splitLines a).
Qed.

Lemma logEntry_dash now e : ∃ s, logEntry now e = js "- " ++ s.
Proof. unfold logEntry. by eexists. Qed.

Lemma logEntry_not_skippable now e : ¬ skippable (logEntry now e).
Proof. destruct (logEntry_dash now e) as [s ->]. apply dash_not_skippable. Qed.

Lemma logEntry_no_header now e : startsWith (js "## Log") (logEntry now e) = false.
Proof. destruct (logEntry_dash now e) as [s ->]. by vm_compute. Qed.

Lemma insertBehind_has_header header xs lines :
  ¬ noHeader header lines → ¬ noHeader header (insertBehind header xs lines).
Proof.
  intros Hn H. apply Hn. clear Hn.
  induction lines as [|ln lines IH]; [constructor|].
  cbn [insertBehind] in H. destruct (startsWith header ln) eqn:E.
  - apply Forall_cons in H as [H _]. congruence.
  - apply Forall_cons in H as [_ H]. constructor; [done|by apply IH].
Qed.

(** X5: the order of log entries.  Two entries written to the note of one
    day, the second after the first: when the note has a line that starts
    with [## Log], the later entry stands directly above the earlier one,
    behind the header and its comment and blank lines; when it has none,
    both are appended at the end of the text, the earlier one first, each
    with an empty line before it. *)
Theorem log_entries_order now1 now2 e1 e2 st D c :
  daily st !! dailyPath D = Some c →
  10 ∉ e1 →
  (∀ pre h post,
     splitLines c = pre ++ h :: post →
     noHeader (js "## Log") pre →
     startsWith (js "## Log") h = true →
     appendToLog now2 e2 (Some D) (appendToLog now1 e1 (Some D) st)
     = writeNote D
         (joinLines (pre ++ h :: leadingSkippable post
                       ++ logEntry now2 e2 :: logEntry now1 e1
                       :: afterSkippable post))
         st)
  ∧ (noHeader (js "## Log") (splitLines c) →
     appendToLog now2 e2 (Some D) (appendToLog now1 e1 (Some D) st)
     = writeNote D
         (c ++ NL ++ logEntry now1 e1 ++ NL ++ NL ++ logEntry now2 e2 ++ NL)
         st).
Proof.
  intros Hc He1.
  assert (Hc0 : daily (ensureDailyNote D st) !! dailyPath D = Some c).
  { by rewrite (ensureDailyNote_present D st c). }
  pose proof (appendToLog_eq now1 e1 (Some D) st c Hc0) as H1.
  cbv zeta in H1. cbn [default from_option id] in H1.
  rewrite (ensureDailyNote_present D st c) in H1 by done.
  split.
  - intros pre h post Hl Hpre Hh.
    assert (Hhas : ¬ noHeader (js "## Log") (splitLines c)).
    { rewrite Hl. intros Hn. apply Forall_app in Hn as [_ Hn].
      apply Forall_cons in Hn as [Hn _]. congruence. }
    rewrite decide_False in H1 by done.
    set (c1 := joinLines (insertBehind (js "## Log") [logEntry now1 e1]
                            (splitLines c))) in *.
    assert (Hl1 : splitLines c1
                  = insertBehind (js "## Log") [logEntry now1 e1] (splitLines c)).
    { apply splitLines_joinLines.
      - apply insertBehind_nonempty, splitLines_nonempty.
      - apply insertBehind_no_newline; [|apply splitLines_no_newline].
        repeat constructor. by apply logEntry_no_newline. }
    assert (Hc1 : daily (ensureDailyNote D (writeNote D c1 st)) !! dailyPath D
                  = Some c1).
    { rewrite (ensureDailyNote_present D _ c1); apply writeNote_lookup. }
    rewrite H1.
    rewrite (appendToLog_eq now2 e2 (Some D) _ c1 Hc1).
    cbn [default from_option id].
    rewrite (ensureDailyNote_present D _ c1) by apply writeNote_lookup.
    rewrite writeNote_twice. f_equal.
    rewrite decide_False.
    2: { rewrite Hl1. by apply insertBehind_has_header. }
    rewrite Hl1, insertBehind_twice by apply logEntry_not_skippable.
    rewrite Hl. by rewrite insertBehind_at.
  - intros Hn. rewrite decide_True in H1 by done.
    set (c1 := c ++ NL ++ logEntry now1 e1 ++ NL) in *.
    assert (Hl1 : splitLines c1 = splitLines c ++ [logEntry now1 e1; []]).
    { unfold c1. rewrite splitLines_app. f_equal.
      rewrite <- (app_nil_r NL).
      by rewrite splitLines_app_newline by by apply logEntry_no_newline. }
    assert (Hc1 : daily (ensureDailyNote D (writeNote D c1 st)) !! dailyPath D
                  = Some c1).
    { rewrite (ensureDailyNote_present D _ c1); apply writeNote_lookup. }
    rewrite H1.
    rewrite (appendToLog_eq now2 e2 (Some D) _ c1 Hc1).
    cbn [default from_option id].
    rewrite (ensureDailyNote_present D _ c1) by apply writeNote_lookup.
    rewrite writeNote_twice. f_equal.
    rewrite decide_True.
    + unfold c1. by rewrite <- !app_assoc.
    + rewrite Hl1. apply Forall_app. split; [done|].
      apply Forall_cons; split; [apply logEntry_no_header|].
      by repeat constructor.
Qed.

Lemma log_entries_order_witness :
  appendToLog exampleClock (js "second") (Some exampleDate)
    (appendToLog exampleClock (js "first") (Some exampleDate)
       (noteFs exampleDate ["## Log"; "<!-- auto -->"; "## Notes"]%string))
  = Fs {[ dailyPath exampleDate :=
            joinLines [js "## Log"; js "<!-- auto -->";
                       js "- 09:05 " ++ LOG_DASH ++ js " second";
                       js "- 09:05 " ++ LOG_DASH ++ js " first";
                       js "## Notes"] ]} None.
Proof.
  destruct (log_entries_order exampleClock exampleClock (js "first")
              (js "second")
              (noteFs exampleDate ["## Log"; "<!-- auto -->"; "## Notes"]%string)
              exampleDate
              (joinLines (js <$> ["## Log"; "<!-- auto -->"; "## Notes"]%string)))
    as [H _].
  - by vm_compute.
  - not_in_literal.
  - etrans.
    + apply (H [] (js "## Log") (js <$> ["<!-- auto -->"; "## Notes"]%string)).
      * by vm_compute.
      * constructor.
      * by vm_compute.
    + by vm_compute.
Defined.

(** ** File names of daily notes *)

Lemma js_inj s1 s2 : js s1 = js s2 → s1 = s2.
Proof.
  unfold js. intros H.
  assert (Hi : Inj (=) (=) N_of_ascii).
  { intros a b Hab. rewrite <- (ascii_N_embedding a), <- (ascii_N_embedding b).
    by rewrite Hab. }
  apply (inj (fmap N_of_ascii)) in H.
  rewrite <- (string_of_list_ascii_of_string s1),
    <- (string_of_list_ascii_of_string s2). by rewrite H.
Qed.

Lemma strZ_inj z1 z2 : strZ z1 = strZ z2 → z1 = z2.
Proof.
  unfold strZ. intros H%js_inj. apply to_int_inj.
  assert (Hs : Some (Z.to_int z1) = Some (Z.to_int z2)).
  { by rewrite <- !NilEmpty.isi, H. }
  by simplify_eq.
Qed.

Lemma twoDigits_inj a b :
  (a < 100)%nat → (b < 100)%nat → twoDigits a = twoDigits b → a = b.
Proof.
  intros Ha Hb. unfold twoDigits.
  remember (48 + a / 10)%nat as x1. remember (48 + a `mod` 10)%nat as x0.
  remember (48 + b / 10)%nat as y1. remember (48 + b `mod` 10)%nat as y0.
  intros [= H1 H2]. apply Nat2N.inj in H1, H2.
  rewrite (Nat.div_mod_eq a 10), (Nat.div_mod_eq b 10). lia.
Qed.

Lemma formatDate_eq d :
  (getMonth d < 12)%nat → (getDate d < 100)%nat →
  formatDate d
  = strZ (getFullYear d) ++ [45] ++ twoDigits (getMonth d + 1) ++ [45]
      ++ twoDigits (getDate d).
Proof.
  intros Hm Hd. unfold formatDate.
  by rewrite !padStart2_twoDigits by lia.
Qed.

(** X6: the notes of different days are different files: for calendar
    dates, of any year, [dailyPath] agrees only on the same day. *)
Theorem dailyPath_inj d1 d2 :
  calendarDate d1 → calendarDate d2 →
  dailyPath d1 = dailyPath d2 → sameDay d1 d2.
Proof.
  intros [Hm1 Hd1] [Hm2 Hd2]. unfold dailyPath.
  rewrite !formatDate_eq by lia. intros H.
  apply app_inv_tail in H.
  apply app_inj_2 in H as [Hy H]; [|done].
  apply strZ_inj in Hy.
  apply app_inj_1 in H as [_ H]; [|done].
  apply app_inj_1 in H as [Hm H]; [|done].
  apply app_inj_1 in H as [_ H]; [|done].
  apply twoDigits_inj in Hm; [|lia..]. apply twoDigits_inj in H; [|lia..].
  unfold sameDay. split_and!; [done|lia|done].
Qed.

Lemma dailyPath_inj_witness :
  dailyPath exampleDate ≠ dailyPath (dayBefore exampleDate).
Proof.
  intros H.
  destruct (dailyPath_inj exampleDate (dayBefore exampleDate)) as (_ & Hm & _).
  - split; vm_compute; lia.
  - split; vm_compute; lia.
  - exact H.
  - vm_compute in Hm. discriminate.
Defined.

(** ** The order of strings *)

Lemma strLt_irrefl a : strLt a a = false.
Proof.
  induction a as [|x a IH]; [done|]. cbn [strLt].
  by rewrite N.ltb_irrefl, N.eqb_refl, IH.
Qed.

Lemma strLt_asym a : ∀ b, strLt a b = true → strLt b a = false.
Proof.
  induction a as [|x a IH]; intros [|y b]; cbn [strLt]; try done.
  intros [H%N.ltb_lt|[H%N.eqb_eq H']%andb_true_iff]%orb_true_iff.
  - apply orb_false_iff. split; [apply N.ltb_ge; lia|].
    apply andb_false_iff. left. apply N.eqb_neq. lia.
  - subst y. rewrite N.ltb_irrefl, N.eqb_refl. cbn [orb andb]. by apply IH.
Qed.

Lemma strLt_trans a : ∀ b c,
  strLt a b = true → strLt b c = true → strLt a c = true.
Proof.
  induction a as [|x a IH]; intros [|y b] [|z c]; cbn [strLt]; try done.
  intros [H1%N.ltb_lt|[H1%N.eqb_eq H1']%andb_true_iff]%orb_true_iff
         [H2%N.ltb_lt|[H2%N.eqb_eq H2']%andb_true_iff]%orb_true_iff;
    apply orb_true_iff.
  - left. apply N.ltb_lt. lia.
  - left. apply N.ltb_lt. lia.
  - left. apply N.ltb_lt. lia.
  - right. subst. rewrite N.eqb_refl. cbn [andb]. by eapply IH.
Qed.

Lemma strLt_total a : ∀ b,
  strLt a b = false → strLt b a = false → a = b.
Proof.
  induction a as [|x a IH]; intros [|y b]; cbn [strLt]; try done.
  intros [H1%N.ltb_ge H1']%orb_false_iff [H2%N.ltb_ge H2']%orb_false_iff.
  assert (x = y) as -> by lia. rewrite N.eqb_refl in *. cbn [andb] in *.
  f_equal. by apply IH.
Qed.

Lemma strLt_app p : ∀ s t, strLt (p ++ s) (p ++ t) = strLt s t.
Proof.
  induction p as [|x p IH]; intros s t; [done|].
  cbn [app strLt]. by rewrite N.ltb_irrefl, N.eqb_refl, IH.
Qed.

(** ** Sorting *)

Lemma insertSorted_perm x l : insertSorted x l ≡ₚ x :: l.
Proof.
  induction l as [|y l IH]; [done|]. cbn [insertSorted].
  destruct (strLt y x); [|done]. rewrite IH. apply Permutation_swap.
Qed.

Lemma sortStrings_perm l : sortStrings l ≡ₚ l.
Proof.
  induction l as [|x l IH]; [done|].
  cbn [sortStrings foldr]. fold (sortStrings l).
  by rewrite insertSorted_perm, IH.
Qed.

Lemma insertSorted_ascending x l : ascending l → ascending (insertSorted x l).
Proof.
  unfold ascending. induction 1 as [|y l Hl IH Hy]; cbn [insertSorted].
  - by repeat constructor.
  - destruct (strLt y x) eqn:E.
    + constructor; [done|].
      rewrite insertSorted_perm. constructor; [|done].
      by apply strLt_asym.
    + constructor; [by constructor|].
      constructor; [done|].
      eapply Forall_impl; [exact Hy|]. intros z Hz. cbn in Hz |- *.
      destruct (strLt z x) eqn:Ezx; [|done].
      destruct (strLt y z) eqn:Eyz.
      * by rewrite (strLt_trans _ _ _ Eyz Ezx) in E.
      * by rewrite (strLt_total _ _ Eyz Hz), Ezx in E.
Qed.

Lemma sortStrings_ascending l : ascending (sortStrings l).
Proof.
  induction l as [|x l IH]; [constructor|].
  cbn [sortStrings foldr]. by apply insertSorted_ascending.
Qed.

Lemma ascending_lookup l : ascending l → ∀ i j a b,
  (i < j)%nat → l !! i = Some a → l !! j = Some b → strLt b a = false.
Proof.
  induction 1 as [|x l Hl IH Hx]; intros i j a b Hij Hi Hj; [done|].
  destruct j as [|j]; [lia|]. cbn in Hj. destruct i as [|i].
  - cbn in Hi. simplify_eq. rewrite Forall_forall in Hx.
    apply Hx. by eapply list_elem_of_lookup_2.
  - cbn in Hi. apply (IH i j); [lia|done..].
Qed.

(** The reverse of a sorted list without duplicates is strictly
    descending. *)
Lemma descending_lookup l : ascending l → NoDup l → ∀ i j a b,
  (i < j)%nat → reverse l !! i = Some a → reverse l !! j = Some b →
  strLt b a = true.
Proof.
  intros Hs Hnd i j a b Hij Hi Hj.
  pose proof (lookup_lt_Some _ _ _ Hi) as Hli.
  pose proof (lookup_lt_Some _ _ _ Hj) as Hlj.
  rewrite length_reverse in Hli, Hlj.
  rewrite reverse_lookup in Hi, Hj by done.
  destruct (strLt b a) eqn:E; [done|]. exfalso.
  assert (Hab : strLt a b = false).
  { eapply (ascending_lookup l Hs (length l - S j) (length l - S i));
      [lia|done..]. }
  assert (a = b) as -> by by apply strLt_total.
  pose proof (NoDup_lookup _ _ _ _ Hnd Hi Hj). lia.
Qed.

(** ** The names [listRecentDailies] keeps *)

Lemma test_Bol_head r s :
  test false (Seq Bol r) s = true
  ↔ ∃ st, head (run false r (MState None s None)) = Some st.
Proof.
  unfold test. rewrite bool_decide_eq_true, exec_Bol.
  destruct (head _) as [st|]; cbn.
  - split; [by exists st|by eexists].
  - split; [by intros [? ?]|by intros [? ?]].
Qed.

Lemma head_elem {A} (l : list A) x : head l = Some x → x ∈ l.
Proof. destruct l; [done|]. intros [= ->]. by left. Qed.

Ltac dailyNameRe_norm :=
  let r' := eval cbv -[chr isDigit] in dailyNameRe in
  change dailyNameRe with r'.

Lemma isDailyName_shape f : isDailyName f = true ↔ dateShaped f.
Proof.
  unfold isDailyName. split.
  - intros [_ Ht]%andb_true_iff. revert Ht. dailyNameRe_norm.
    rewrite test_Bol_head. intros (st & H%head_elem).
    apply elem_of_run_Seq in H as (s1 & H1 & H).
    apply elem_of_run_Seq in H as (s2 & H2 & H).
    apply elem_of_run_Seq in H as (s3 & H3 & H).
    apply elem_of_run_Seq in H as (s4 & H4 & H).
    apply elem_of_run_Seq in H as (s5 & H5 & H).
    apply elem_of_run_Seq in H as (s6 & H6 & H).
    apply elem_of_run_Seq in H as (s7 & H7 & H).
    apply elem_of_run_Seq in H as (s8 & H8 & H).
    apply elem_of_run_Seq in H as (s9 & H9 & H).
    apply elem_of_run_Seq in H as (s10 & H10 & H).
    apply elem_of_run_Seq in H as (s11 & H11 & H).
    apply elem_of_run_Seq in H as (s12 & H12 & ->%elem_of_run_Emp).
    apply elem_of_run_Chr in H1 as (y1 & E1 & Hy1 & _).
    apply elem_of_run_Chr in H2 as (y2 & E2 & Hy2 & _).
    apply elem_of_run_Chr in H3 as (y3 & E3 & Hy3 & _).
    apply elem_of_run_Chr in H4 as (y4 & E4 & Hy4 & _).
    apply elem_of_run_chr1 in H5 as [E5 _].
    apply elem_of_run_Chr in H6 as (m1 & E6 & Hm1 & _).
    apply elem_of_run_Chr in H7 as (m2 & E7 & Hm2 & _).
    apply elem_of_run_chr1 in H8 as [E8 _].
    apply elem_of_run_Chr in H9 as (d1 & E9 & Hd1 & _).
    apply elem_of_run_Chr in H10 as (d2 & E10 & Hd2 & _).
    apply (elem_of_run_chrs false [46; 109; 100]) in H11.
    apply elem_of_run_Eol in H12 as [-> H12].
    exists y1, y2, y3, y4, m1, m2, d1, d2. split; [|by repeat constructor].
    cbn [rest] in E1.
    rewrite E1, E2, E3, E4, E5, E6, E7, E8, E9, E10, H11, H12.
    by rewrite app_nil_r.
  - intros (y1 & y2 & y3 & y4 & m1 & m2 & d1 & d2 & -> & Hd).
    apply Forall_cons in Hd as [Hy1 Hd]. apply Forall_cons in Hd as [Hy2 Hd].
    apply Forall_cons in Hd as [Hy3 Hd]. apply Forall_cons in Hd as [Hy4 Hd].
    apply Forall_cons in Hd as [Hm1 Hd]. apply Forall_cons in Hd as [Hm2 Hd].
    apply Forall_cons in Hd as [Hd1 Hd]. apply Forall_cons in Hd as [Hd2 _].
    apply andb_true_iff. split; [by vm_compute|].
    dailyNameRe_norm. apply test_Bol_head.
    change ([y1; y2; y3; y4; 45; m1; m2; 45; d1; d2] ++ js ".md")
      with (y1 :: y2 :: y3 :: y4 :: 45 :: m1 :: m2 :: 45 :: d1 :: d2
              :: 46 :: 109 :: [100]).
    re_step. by eexists.
Qed.

Lemma elem_of_readdir f st : f ∈ readdir st ↔ is_Some (daily st !! f).
Proof.
  unfold readdir. rewrite list_elem_of_fmap. split.
  - intros ([k v] & -> & H%elem_of_map_to_list). by eexists.
  - intros [v H]. exists (f, v). split; [done|]. by apply elem_of_map_to_list.
Qed.

Lemma NoDup_readdir st : NoDup (readdir st).
Proof. apply NoDup_fst_map_to_list. Qed.

(** All the names the listing can show, latest first. *)
Lemma allDailies_elem st f :
  f ∈ reverse (sortStrings (filter (λ f, isDailyName f = true) (readdir st)))
  ↔ is_Some (daily st !! f) ∧ dateShaped f.
Proof.
  rewrite elem_of_reverse, sortStrings_perm, list_elem_of_filter.
  rewrite elem_of_readdir, isDailyName_shape. tauto.
Qed.

Lemma allDailies_descending st i j a b :
  (i < j)%nat →
  reverse (sortStrings (filter (λ f, isDailyName f = true) (readdir st))) !! i
  = Some a →
  reverse (sortStrings (filter (λ f, isDailyName f = true) (readdir st))) !! j
  = Some b →
  strLt b a = true.
Proof.
  apply descending_lookup; [apply sortStrings_ascending|].
  rewrite sortStrings_perm. apply NoDup_filter, NoDup_readdir.
Qed.

Lemma listRecentDailies_descending count st i j a b :
  (i < j)%nat →
  listRecentDailies count st !! i = Some a →
  listRecentDailies count st !! j = Some b →
  strLt b a = true.
Proof.
  unfold listRecentDailies. intros Hij Hi Hj.
  apply lookup_take_Some in Hi as [Hi _].
  apply lookup_take_Some in Hj as [Hj _].
  by eapply (allDailies_descending st i j).
Qed.

Lemma listRecentDailies_left_out count st f g :
  is_Some (daily st !! f) → dateShaped f →
  f ∉ listRecentDailies count st →
  g ∈ listRecentDailies count st →
  strLt f g = true.
Proof.
  unfold listRecentDailies.
  set (L := reverse (sortStrings (filter _ (readdir st)))).
  intros Hf Hs Hnot Hg.
  assert (HfL : f ∈ L) by by apply allDailies_elem.
  apply list_elem_of_lookup in HfL as [j Hj].
  apply list_elem_of_lookup in Hg as [i Hi].
  apply lookup_take_Some in Hi as [Hi Hic].
  destruct (decide (j < count)%nat) as [Hlt|Hge].
  - exfalso. apply Hnot. apply list_elem_of_lookup. exists j.
    by apply lookup_take_Some.
  - apply (allDailies_descending st i j); [lia|done..].
Qed.

(** X7: [listRecentDailies(count)] lists at most [count] names; each is a
    file of the daily directory named [dddd-dd-dd.md]; the names are in
    strictly descending order; and every such file that is not listed is
    below every name listed. *)
Theorem listRecentDailies_spec count st :
  (length (listRecentDailies count st) ≤ count)%nat
  ∧ (∀ f, f ∈ listRecentDailies count st →
          is_Some (daily st !! f) ∧ dateShaped f)
  ∧ (∀ i j a b, (i < j)%nat →
        listRecentDailies count st !! i = Some a →
        listRecentDailies count st !! j = Some b →
        strLt b a = true)
  ∧ (∀ f g, is_Some (daily st !! f) → dateShaped f →
        f ∉ listRecentDailies count st →
        g ∈ listRecentDailies count st →
        strLt f g = true).
Proof.
  split_and!.
  - unfold listRecentDailies. rewrite length_take. lia.
  - intros f Hf. apply allDailies_elem.
    unfold listRecentDailies in Hf. by eapply subseteq_take.
  - apply listRecentDailies_descending.
  - apply listRecentDailies_left_out.
Qed.

(** ** File names follow the calendar *)

Lemma strNat_fourDigits n :
  (1000 ≤ Z.of_nat n ≤ 9999)%Z → strNat n = fourDigits n.
Proof.
  intros Hn.
  assert (Hall : forallb (λ k, bool_decide (strNat k = fourDigits k))
                   (seq 1000 (9 * 1000)) = true) by by vm_compute.
  rewrite forallb_forall in Hall.
  assert (Hin : In n (seq 1000 (9 * 1000))) by (apply in_seq; lia).
  apply Hall in Hin. by apply bool_decide_eq_true in Hin.
Qed.

Lemma dailyPath_digits d :
  calendarDate d → fourDigitYear d →
  dailyPath d
  = fourDigits (Z.to_nat (getFullYear d)) ++ [45]
      ++ twoDigits (getMonth d + 1) ++ [45] ++ twoDigits (getDate d)
      ++ js ".md".
Proof.
  intros [Hm Hd] Hy. unfold dailyPath. rewrite formatDate_eq by lia.
  rewrite <- !app_assoc. f_equal.
  rewrite <- strNat_fourDigits by (unfold fourDigitYear in Hy; lia).
  unfold strNat. f_equal. unfold fourDigitYear in Hy. lia.
Qed.

Lemma digit_ltb x y :
  (N.of_nat (48 + x) <? N.of_nat (48 + y)) = (x <? y)%nat.
Proof.
  destruct (Nat.ltb_spec x y).
  - apply N.ltb_lt. lia.
  - apply N.ltb_ge. lia.
Qed.

Lemma digit_eqb x y :
  (N.of_nat (48 + x) =? N.of_nat (48 + y)) = (x =? y)%nat.
Proof.
  destruct (Nat.eqb_spec x y).
  - apply N.eqb_eq. lia.
  - apply N.eqb_neq. lia.
Qed.

Lemma strLt_twoDigits a b s t :
  (a < b)%nat → (b < 100)%nat →
  strLt (twoDigits a ++ s) (twoDigits b ++ t) = true.
Proof.
  intros Hab Hb. unfold twoDigits. cbn [app strLt].
  rewrite !digit_ltb, !digit_eqb.
  destruct (Nat.ltb_spec (a / 10) (b / 10)); [done|].
  destruct (Nat.eqb_spec (a / 10) (b / 10)); cbn [orb andb].
  - destruct (Nat.ltb_spec (a `mod` 10) (b `mod` 10)); [done|].
    exfalso. rewrite (Nat.div_mod_eq a 10), (Nat.div_mod_eq b 10) in Hab. lia.
  - exfalso.
    assert (a / 10 ≤ b / 10)%nat by (apply Nat.Div0.div_le_mono; lia). lia.
Qed.

Lemma strLt_fourDigits a b s t :
  (a < b)%nat → (Z.of_nat b ≤ 9999)%Z →
  strLt (fourDigits a ++ s) (fourDigits b ++ t) = true.
Proof.
  intros Hab Hb. unfold fourDigits. cbn [app strLt].
  rewrite !digit_ltb, !digit_eqb.
  pose proof (Nat.div_mod_eq a 10). pose proof (Nat.div_mod_eq b 10).
  pose proof (Nat.div_mod_eq (a / 10) 10).
  pose proof (Nat.div_mod_eq (b / 10) 10).
  pose proof (Nat.div_mod_eq (a / 100) 10).
  pose proof (Nat.div_mod_eq (b / 100) 10).
  assert (Ha1 : (a / 10 / 10 = a / 100)%nat) by by rewrite Nat.Div0.div_div.
  assert (Hb1 : (b / 10 / 10 = b / 100)%nat) by by rewrite Nat.Div0.div_div.
  assert (Ha2 : (a / 100 / 10 = a / 1000)%nat) by by rewrite Nat.Div0.div_div.
  assert (Hb2 : (b / 100 / 10 = b / 1000)%nat) by by rewrite Nat.Div0.div_div.
  pose proof (Nat.mod_upper_bound a 10). pose proof (Nat.mod_upper_bound b 10).
  pose proof (Nat.mod_upper_bound (a / 10) 10).
  pose proof (Nat.mod_upper_bound (b / 10) 10).
  pose proof (Nat.mod_upper_bound (a / 100) 10).
  pose proof (Nat.mod_upper_bound (b / 100) 10).
  repeat match goal with
  | |- context [(?x <? ?y)%nat] => destruct (Nat.ltb_spec x y); cbn [orb andb]
  | |- context [(?x =? ?y)%nat] => destruct (Nat.eqb_spec x y); cbn [orb andb]
  end; try done; exfalso; lia.
Qed.

Lemma dailyPath_order d1 d2 :
  calendarDate d1 → calendarDate d2 → fourDigitYear d1 → fourDigitYear d2 →
  earlierDay d1 d2 → strLt (dailyPath d1) (dailyPath d2) = true.
Proof.
  intros C1 C2 Y1 Y2 He.
  rewrite !dailyPath_digits by done.
  destruct C1 as [Hm1 Hd1], C2 as [Hm2 Hd2].
  unfold fourDigitYear in *.
  destruct He as [Hy|[Hy [Hm|[Hm Hd]]]].
  - apply strLt_fourDigits; lia.
  - rewrite Hy, strLt_app, strLt_app. apply strLt_twoDigits; lia.
  - rewrite Hy, Hm, strLt_app, strLt_app, strLt_app, strLt_app.
    apply strLt_twoDigits; lia.
Qed.

Lemma dailyPath_dateShaped d :
  calendarDate d → fourDigitYear d → dateShaped (dailyPath d).
Proof.
  intros C Y. rewrite dailyPath_digits by done.
  do 8 eexists. split; [reflexivity|].
  destruct C as [Hm Hd]. unfold fourDigitYear in Y.
  assert (Hdig : ∀ k, (k < 10)%nat → isDigit (N.of_nat (48 + k)) = true).
  { intros k Hk. unfold isDigit. apply andb_true_iff.
    split; apply N.leb_le; lia. }
  repeat (apply Forall_cons; split;
    [apply Hdig; first [apply Nat.mod_upper_bound; lia
                       |apply Nat.Div0.div_lt_upper_bound; lia]|]).
  constructor.
Qed.

(** X8: the listing follows the calendar.  For calendar dates with years
    from 1000 to 9999, the file name of a later day is above that of an
    earlier day; so when the note of the earlier day is listed and the
    later day has a note, that note is listed too, before it. *)
Theorem dailies_latest_first count st d1 d2 :
  calendarDate d1 → calendarDate d2 → fourDigitYear d1 → fourDigitYear d2 →
  earlierDay d1 d2 →
  strLt (dailyPath d1) (dailyPath d2) = true
  ∧ (dailyPath d1 ∈ listRecentDailies count st →
     is_Some (daily st !! dailyPath d2) →
     listedBefore (dailyPath d2) (dailyPath d1) (listRecentDailies count st)).
Proof.
  intros C1 C2 Y1 Y2 He.
  pose proof (dailyPath_order d1 d2 C1 C2 Y1 Y2 He) as Hlt.
  split; [done|]. intros H1 H2.
  pose proof (listRecentDailies_descending count st) as Hdesc.
  pose proof (listRecentDailies_left_out count st) as Hout.
  assert (Hin2 : dailyPath d2 ∈ listRecentDailies count st).
  { destruct (decide (dailyPath d2 ∈ listRecentDailies count st)); [done|].
    pose proof (Hout (dailyPath d2) (dailyPath d1) H2
                  (dailyPath_dateShaped d2 C2 Y2) n H1) as Hc.
    by rewrite (strLt_asym _ _ Hlt) in Hc. }
  apply list_elem_of_lookup in H1 as [j Hj].
  apply list_elem_of_lookup in Hin2 as [i Hi].
  assert (Hij : (i < j)%nat).
  { destruct (decide (i < j)%nat); [done|]. exfalso.
    destruct (decide (i = j)) as [->|Hne].
    - rewrite Hi in Hj. simplify_eq. rewrite Hj in Hlt.
      by rewrite strLt_irrefl in Hlt.
    - pose proof (Hdesc j i _ _ ltac:(lia) Hj Hi) as Hc.
      by rewrite (strLt_asym _ _ Hlt) in Hc. }
  apply list_elem_of_split_length in Hi as (l1 & l' & Hl & Hlen).
  rewrite Hl in Hj. rewrite lookup_app_r in Hj by lia.
  replace (j - length l1)%nat with (S (j - length l1 - 1)) in Hj by lia.
  cbn in Hj. apply list_elem_of_split_length in Hj as (l2 & l3 & -> & _).
  by exists l1, l2, l3.
Qed.

Lemma dailies_latest_first_witness :
  listedBefore (dailyPath exampleDate) (dailyPath (dayBefore exampleDate))
    (listRecentDailies 7 (ensureDailyNote exampleDate rolloverFs)).
Proof.
  destruct (dailies_latest_first 7 (ensureDailyNote exampleDate rolloverFs)
              (dayBefore exampleDate) exampleDate) as [_ H].
  - split; vm_compute; lia.
  - split; vm_compute; lia.
  - vm_compute. split; discriminate.
  - vm_compute. split; discriminate.
  - right. split; [reflexivity|]. left. vm_compute. lia.
  - apply H.
    + apply list_elem_of_lookup. exists 1%nat. by vm_compute.
    + by vm_compute; eexists.
Defined.

Example slugify_example :
  slugify (js "  Hello, World!  (v2) ") = js "hello-world-v2"
  ∧ slugify (js "--a--") = js "a"
  ∧ slugify (js "!?") = [].
Proof. by vm_compute. Qed.

(** ** Global replacement of runs *)

Lemma many_span_head p w : ∀ pv r cp,
  Forall (λ x, p x = true) w →
  (r = [] ∨ ∃ c r', r = c :: r' ∧ p c = false) →
  ∃ pv' tl, many p pv (w ++ r) cp = MState pv' r cp :: tl.
Proof.
  induction w as [|x w IH]; intros pv r cp Hw Hr.
  - exists pv, []. cbn [app].
    destruct Hr as [->|(c & r' & -> & Hc)]; cbn [many]; [done|by rewrite Hc].
  - apply Forall_cons in Hw as [Hx Hw].
    destruct (IH (Some x) r cp Hw Hr) as (pv' & tl & Heq).
    cbn [app many]. rewrite Hx, Heq. by eexists _, _.
Qed.

Lemma run_plus_head m p x w pv r cp :
  Forall (λ x, p x = true) (x :: w) →
  (r = [] ∨ ∃ c r', r = c :: r' ∧ p c = false) →
  ∃ pv' tl, run m (plus p) (MState pv (x :: w ++ r) cp)
            = MState pv' r cp :: tl.
Proof.
  intros [Hx Hw]%Forall_cons Hr.
  destruct (many_span_head p w (Some x) r cp Hw Hr) as (pv' & tl & Heq).
  cbn [run plus rest prev cap]. rewrite Hx.
  cbn [mbind list_bind run rest prev cap]. rewrite Heq, app_nil_r.
  by eexists _, _.
Qed.

Lemma run_plus_miss m p x s pv cp :
  p x = false → run m (plus p) (MState pv (x :: s) cp) = [].
Proof. intros Hx. cbn [run plus rest prev cap]. by rewrite Hx. Qed.

Lemma search_plus_skip m p a : ∀ s pv i,
  Forall (λ x, p x = false) a →
  ∃ pv', searchFrom m (plus p) pv (a ++ s) i
         = searchFrom m (plus p) pv' s (i + length a)%nat.
Proof.
  induction a as [|x a IH]; intros s pv i Ha.
  - exists pv. cbn [app length]. by rewrite Nat.add_0_r.
  - apply Forall_cons in Ha as [Hx Ha].
    destruct (IH s (Some x) (S i) Ha) as (pv' & Heq).
    exists pv'. cbn [app searchFrom]. rewrite run_plus_miss by done.
    rewrite Heq. f_equal. cbn [length]. lia.
Qed.

Lemma slug_span s :
  ∃ a r, s = a ++ r ∧ Forall (λ x, isSlugChar x = true) a
         ∧ (r = [] ∨ ∃ c r', r = c :: r' ∧ isSlugChar c = false).
Proof.
  induction s as [|x s (a & r & -> & Ha & Hr)].
  - exists [], []. split_and!; [done|constructor|by left].
  - destruct (isSlugChar x) eqn:Ex.
    + exists (x :: a), r. split_and!; [done|by constructor|done].
    + exists [], (x :: a ++ r). split_and!; [done|constructor|].
      right. by eexists _, _.
Qed.

Lemma nonslug_span s :
  ∃ w r, s = w ++ r ∧ Forall (λ x, negb (isSlugChar x) = true) w
         ∧ (r = [] ∨ ∃ c r', r = c :: r' ∧ negb (isSlugChar c) = false).
Proof.
  induction s as [|x s (w & r & -> & Hw & Hr)].
  - exists [], []. split_and!; [done|constructor|by left].
  - destruct (isSlugChar x) eqn:Ex.
    + exists [], (x :: w ++ r). split_and!; [done|constructor|].
      right. eexists _, _. split; [done|]. by rewrite Ex.
    + exists (x :: w), r. split_and!; [done| |done].
      constructor; [by rewrite Ex|done].
Qed.

Lemma collapse_slug a b s :
  Forall (λ x, isSlugChar x = true) a →
  collapse b (a ++ s) = a ++ collapse (if a is [] then b else false) s.
Proof.
  revert b. induction a as [|x a IH]; intros b Ha; [done|].
  apply Forall_cons in Ha as [Hx Ha]. cbn [app collapse]. rewrite Hx.
  rewrite IH by done. by destruct a.
Qed.

Lemma collapse_skip w s :
  Forall (λ x, negb (isSlugChar x) = true) w →
  collapse true (w ++ s) = collapse true s.
Proof.
  induction 1 as [|x w Hx _ IH]; [done|].
  cbn [app collapse]. apply negb_true_iff in Hx. by rewrite Hx.
Qed.

Lemma collapse_flag r :
  (r = [] ∨ ∃ c r', r = c :: r' ∧ negb (isSlugChar c) = false) →
  collapse true r = collapse false r.
Proof.
  intros [->|(c & r' & -> & Hc)]; [done|].
  apply negb_false_iff in Hc. cbn [collapse]. by rewrite Hc.
Qed.

Lemma replace_nonSlug fuel : ∀ s pv,
  (length s < fuel)%nat →
  replaceReFuel fuel false nonSlugRe DASH pv s = collapse false s.
Proof.
  induction fuel as [|fuel IH]; intros s pv Hlen; [lia|].
  cbn [replaceReFuel]. unfold nonSlugRe.
  destruct (slug_span s) as (a & r & -> & Ha & Hr).
  destruct (search_plus_skip false (λ c, negb (isSlugChar c)) a r pv 0%nat)
    as (pv1 & ->).
  { eapply Forall_impl; [exact Ha|]. intros x Hx. cbn. by rewrite Hx. }
  cbn [Nat.add].
  destruct Hr as [->|(c & r' & -> & Hc)].
  - cbn [searchFrom run plus rest]. cbn [mbind list_bind].
    rewrite (collapse_slug a false []) by done. by destruct a.
  - destruct (nonslug_span r') as (w & r2 & -> & Hw & Hr2).
    destruct (run_plus_head false (λ c, negb (isSlugChar c)) c w pv1 r2 None)
      as (pv2 & tl & Hrun).
    { constructor; [by rewrite Hc|done]. }
    { done. }
    cbn [searchFrom]. rewrite Hrun. cbn [rest prev].
    rewrite drop_app_length, take_app_length.
    assert (Hlt : (length r2 <? length (c :: w ++ r2))%nat = true).
    { apply Nat.ltb_lt. cbn [length]. rewrite length_app. lia. }
    rewrite Hlt. rewrite IH.
    2: { rewrite !length_app in Hlen. cbn [length] in Hlen.
         rewrite length_app in Hlen. lia. }
    rewrite collapse_slug by done. f_equal.
    assert ((if a is [] then false else false) = false) as -> by by destruct a.
    cbn [collapse]. rewrite Hc.
    rewrite collapse_skip by done. by rewrite collapse_flag.
Qed.

Lemma replaceRe_nonSlug s :
  replaceRe false nonSlugRe DASH s = collapse false s.
Proof. apply replace_nonSlug. lia. Qed.

(** ** Global replacement of the dashes at the ends *)

Lemma run_edge_inner x s :
  run false edgeDashRe (MState (Some x) s None)
  = if bool_decide (s = [45]) then [MState (Some 45) [] None] else [].
Proof.
  destruct s as [|c [|c' s']]; [done| |].
  - cbv -[N.eqb bool_decide]. destruct (45 =? c) eqn:E.
    + apply N.eqb_eq in E as <-. by rewrite bool_decide_true.
    + rewrite bool_decide_false; [done|]. intros [= ->]. by vm_compute in E.
  - rewrite bool_decide_false by done.
    cbv -[N.eqb]. by destruct (45 =? c).
Qed.

Lemma run_edge_start s :
  run false edgeDashRe (MState None s None)
  = match s with
    | c :: s' =>
        if c =? 45 then
          MState (Some 45) s' None
          :: (if bool_decide (s' = []) then [MState (Some 45) [] None] else [])
        else []
    | [] => []
    end.
Proof.
  destruct s as [|c s']; [done|].
  rewrite (N.eqb_sym c 45).
  destruct s' as [|c' s'']; cbv -[N.eqb bool_decide];
    destruct (45 =? c) eqn:E; try done.
  all: by apply N.eqb_eq in E as <-.
Qed.

Lemma search_edge_inner s : ∀ x i,
  searchFrom false edgeDashRe (Some x) s i
  = if bool_decide (last s = Some 45)
    then Some ((i + length s - 1)%nat, MState (Some 45) [] None)
    else None.
Proof.
  induction s as [|c s IH]; intros x i.
  - by cbn [searchFrom].
  - cbn [searchFrom]. rewrite run_edge_inner.
    destruct (decide (c :: s = [45])) as [Hs|Hs].
    + rewrite (bool_decide_true (c :: s = [45])) by done.
      assert (c = 45 ∧ s = []) as [-> ->] by (by inversion Hs).
      rewrite bool_decide_true by done.
      do 2 f_equal. cbn [length]. lia.
    + rewrite (bool_decide_false (c :: s = [45])) by done.
      rewrite IH. destruct s as [|c' s'].
      * rewrite (bool_decide_false (last [] = Some 45)) by done.
        rewrite bool_decide_false; [done|].
        cbn. intros [= ->]. done.
      * rewrite last_cons_cons.
        destruct (bool_decide (last (c' :: s') = Some 45)); [|done].
        do 2 f_equal. cbn [length]. lia.
Qed.

Lemma dropLastDash_snoc s : dropLastDash (s ++ [45]) = s.
Proof.
  unfold dropLastDash. rewrite reverse_app. cbn [reverse rev_append app].
  cbn [dropFirstDash]. change (45 =? 45) with true. apply reverse_involutive.
Qed.

Lemma dropLastDash_other s : last s ≠ Some 45 → dropLastDash s = s.
Proof.
  intros Hl. unfold dropLastDash.
  destruct (reverse s) as [|c r] eqn:E.
  - apply (f_equal reverse) in E. by rewrite reverse_involutive in E.
  - cbn [dropFirstDash]. destruct (c =? 45) eqn:Ec.
    + apply N.eqb_eq in Ec as ->. exfalso. apply Hl.
      apply (f_equal reverse) in E. rewrite reverse_involutive in E.
      rewrite E, reverse_cons. by rewrite last_snoc.
    + rewrite <- E. apply reverse_involutive.
Qed.

Lemma replace_edge_inner fuel x s :
  replaceReFuel (S fuel) false edgeDashRe [] (Some x) s = dropLastDash s.
Proof.
  cbn [replaceReFuel]. rewrite search_edge_inner.
  case_bool_decide as Hl.
  - apply last_Some in Hl as [s0 ->].
    rewrite length_app. cbn [length Nat.add rest prev].
    replace (length s0 + 1 - 1)%nat with (length s0) by lia.
    rewrite drop_app_length, take_app_length. cbn [length Nat.ltb Nat.leb].
    rewrite dropLastDash_snoc.
    destruct fuel; cbn [replaceReFuel searchFrom app]; by rewrite ?app_nil_r.
  - by rewrite dropLastDash_other.
Qed.

Lemma replaceRe_edge u :
  replaceRe false edgeDashRe [] u = dropLastDash (dropFirstDash u).
Proof.
  unfold replaceRe. destruct u as [|c u]; [done|].
  cbn [length replaceReFuel searchFrom dropFirstDash].
  rewrite run_edge_start. destruct (c =? 45) eqn:Ec.
  - cbn [rest prev drop take app length].
    assert ((length u <? S (length u))%nat = true) as ->
      by (apply Nat.ltb_lt; lia).
    apply replace_edge_inner.
  - rewrite search_edge_inner. case_bool_decide as Hl.
    + apply last_Some in Hl as [u0 ->].
      replace (1 + length (u0 ++ [45%N]) - 1)%nat with (S (length u0))
        by (rewrite length_app; cbn [length]; lia).
      cbn [rest prev drop take]. rewrite drop_app_length, take_app_length.
      cbn [length Nat.ltb Nat.leb].
      change (c :: u0 ++ [45]) with ((c :: u0) ++ [45]).
      rewrite dropLastDash_snoc.
      destruct (length (u0 ++ [45])); cbn [replaceReFuel searchFrom app];
        by rewrite ?app_nil_r.
    + rewrite dropLastDash_other; [done|].
      destruct u as [|c' u']; [|by rewrite last_cons_cons].
      cbn. intros [= ->]. by vm_compute in Ec.
Qed.

(** The two replacements of [slugify] in closed form. *)
Lemma slugify_eq title :
  slugify title
  = take 60 (dropLastDash (dropFirstDash (collapse false (toLowerCase title)))).
Proof.
  unfold slugify. fold DASH. by rewrite replaceRe_nonSlug, replaceRe_edge.
Qed.

(** ** The words of a slug *)

Lemma joinWith_cons sep l ls :
  ls ≠ [] → joinWith sep (l :: ls) = l ++ sep ++ joinWith sep ls.
Proof. by destruct ls. Qed.

Lemma slugPieces_nonempty s : slugPieces s ≠ [].
Proof.
  destruct s as [|c s]; [done|]. cbn [slugPieces].
  destruct (isSlugChar c); [|done]. by destruct (slugPieces s).
Qed.

Lemma slugPieces_app a s :
  Forall (λ x, isSlugChar x = true) a →
  slugPieces (a ++ s)
  = (a ++ default [] (head (slugPieces s))) :: tail (slugPieces s).
Proof.
  induction 1 as [|x a Hx _ IH]; cbn [app].
  - pose proof (slugPieces_nonempty s). by destruct (slugPieces s).
  - cbn [slugPieces]. by rewrite Hx, IH.
Qed.

Lemma slugWords_sep c s : isSlugChar c = false → slugWords (c :: s) = slugWords s.
Proof.
  intros Hc. unfold slugWords. cbn [slugPieces]. rewrite Hc.
  by rewrite filter_cons_False by (by intros ?).
Qed.

Lemma slugWords_skip w s :
  Forall (λ x, negb (isSlugChar x) = true) w → slugWords (w ++ s) = slugWords s.
Proof.
  induction 1 as [|x w Hx _ IH]; [done|]. cbn [app].
  rewrite slugWords_sep; [done|]. by apply negb_true_iff.
Qed.

Lemma slugWords_word a c s :
  Forall (λ x, isSlugChar x = true) a → a ≠ [] → isSlugChar c = false →
  slugWords (a ++ c :: s) = a :: slugWords s.
Proof.
  intros Ha Hne Hc. unfold slugWords. rewrite slugPieces_app by done.
  cbn [slugPieces]. rewrite Hc. cbn [head tail default from_option id].
  rewrite app_nil_r. by rewrite filter_cons_True.
Qed.

Lemma slugWords_last a :
  Forall (λ x, isSlugChar x = true) a → a ≠ [] → slugWords a = [a].
Proof.
  intros Ha Hne. pose proof (slugPieces_app a [] Ha) as H.
  rewrite app_nil_r in H. cbn [slugPieces head tail default from_option id] in H.
  rewrite app_nil_r in H. unfold slugWords. rewrite H.
  by rewrite filter_cons_True.
Qed.

Lemma slugWords_start c s : isSlugChar c = true → slugWords (c :: s) ≠ [].
Proof.
  intros Hc. unfold slugWords. cbn [slugPieces]. rewrite Hc.
  pose proof (slugPieces_nonempty s). destruct (slugPieces s); [done|].
  by rewrite filter_cons_True.
Qed.

Lemma dropLastDash_app x y : y ≠ [] → dropLastDash (x ++ y) = x ++ dropLastDash y.
Proof.
  intros Hy. unfold dropLastDash. rewrite reverse_app.
  destruct (reverse y) as [|c r] eqn:E.
  { apply (f_equal reverse) in E. by rewrite reverse_involutive in E. }
  cbn [app dropFirstDash]. destruct (c =? 45).
  - by rewrite reverse_app, reverse_involutive.
  - change (c :: r ++ reverse x) with ((c :: r) ++ reverse x).
    by rewrite reverse_app, reverse_involutive.
Qed.

Lemma slug_not_dash c : isSlugChar c = true → c ≠ 45.
Proof. intros H ->. by vm_compute in H. Qed.

Lemma dropFirstDash_slug c s :
  isSlugChar c = true → dropFirstDash (c :: s) = c :: s.
Proof.
  intros Hc. cbn [dropFirstDash].
  destruct (c =? 45) eqn:E; [|done].
  apply N.eqb_eq in E. by apply slug_not_dash in Hc.
Qed.

Lemma dropLastDash_slugs a :
  Forall (λ x, isSlugChar x = true) a → dropLastDash a = a.
Proof.
  intros Ha. apply dropLastDash_other. intros Hl.
  apply last_Some in Hl as [a' ->]. apply Forall_app in Ha as [_ Ha].
  apply Forall_cons in Ha as [Ha _]. by apply slug_not_dash in Ha.
Qed.

Lemma collapse_start c s :
  isSlugChar c = true → ∃ u, collapse false (c :: s) = c :: u.
Proof. intros Hc. cbn [collapse]. rewrite Hc. by eexists. Qed.

(** The two replacements leave the words, joined by dashes. *)
Lemma edges_collapse_words n : ∀ s,
  (length s < n)%nat →
  dropLastDash (dropFirstDash (collapse false s)) = joinWith DASH (slugWords s).
Proof.
  induction n as [|n IH]; intros s Hlen; [lia|].
  destruct (slug_span s) as (a & r & -> & Ha & Hr).
  destruct Hr as [->|(c & r' & -> & Hc)].
  - rewrite app_nil_r. rewrite <- (app_nil_r a) at 1.
    rewrite collapse_slug by done. rewrite app_nil_r.
    destruct a as [|x a]; [done|].
    apply Forall_cons in Ha as [Hx Ha'].
    rewrite dropFirstDash_slug by done.
    rewrite dropLastDash_slugs by by constructor.
    by rewrite slugWords_last by (done || by constructor).
  - destruct (nonslug_span r') as (w & r2 & -> & Hw & Hr2).
    assert (Hcol : collapse false (c :: w ++ r2) = 45 :: collapse false r2).
    { cbn [collapse]. rewrite Hc. by rewrite collapse_skip, collapse_flag. }
    assert (Hlen2 : (length r2 < n)%nat).
    { rewrite !length_app in Hlen. cbn [length] in Hlen.
      rewrite length_app in Hlen. lia. }
    assert (Hr2' : dropFirstDash (collapse false r2) = collapse false r2).
    { destruct Hr2 as [->|(x & r3 & -> & Hx)]; [done|].
      apply negb_false_iff in Hx.
      destruct (collapse_start x r3 Hx) as [u ->].
      by apply dropFirstDash_slug. }
    pose proof (IH r2 Hlen2) as IH2. rewrite Hr2' in IH2.
    rewrite collapse_slug by done.
    assert ((if a is [] then false else false) = false) as -> by by destruct a.
    rewrite Hcol.
    destruct a as [|x a].
    + cbn [app dropFirstDash]. change (45 =? 45) with true. cbn match.
      rewrite IH2. rewrite slugWords_sep by done.
      by rewrite slugWords_skip.
    + apply Forall_cons in Ha as [Hx Ha'].
      change ((x :: a) ++ 45 :: collapse false r2)
        with (x :: (a ++ 45 :: collapse false r2)).
      rewrite dropFirstDash_slug by done.
      rewrite slugWords_word by (done || by constructor).
      rewrite slugWords_skip by done.
      destruct Hr2 as [->|(y & r3 & -> & Hy)].
      * cbn [collapse]. change (slugWords []) with (@nil jsstring).
        cbn [joinWith].
        change (x :: a ++ [45]) with ((x :: a) ++ [45]).
        by rewrite dropLastDash_snoc.
      * apply negb_false_iff in Hy.
        rewrite joinWith_cons by by apply slugWords_start.
        rewrite <- IH2.
        destruct (collapse_start y r3 Hy) as [u Hu]. rewrite Hu.
        replace (x :: a ++ 45 :: y :: u) with ((x :: a ++ [45]) ++ y :: u)
          by (cbn [app]; by rewrite <- app_assoc).
        rewrite dropLastDash_app by done.
        cbn [app]. by rewrite <- app_assoc.
Qed.

Lemma toLowerCase_nil : toLowerCase [] = [].
Proof. done. Qed.

Lemma slugPieces_slugs s :
  Forall (Forall (λ c, isSlugChar c = true)) (slugPieces s).
Proof.
  induction s as [|c s IH]; [by repeat constructor|].
  cbn [slugPieces]. destruct (isSlugChar c) eqn:Ec.
  - destruct (slugPieces s) as [|l ls]; [by repeat constructor|].
    apply Forall_cons in IH as [Hl Hls]. by repeat constructor.
  - by constructor.
Qed.

Lemma slugWords_words s :
  Forall (λ w, w ≠ [] ∧ Forall (λ c, isSlugChar c = true) w) (slugWords s).
Proof.
  apply Forall_forall. intros w [Hne Hin]%list_elem_of_filter.
  split; [done|]. pose proof (slugPieces_slugs s) as H.
  rewrite Forall_forall in H. by apply H.
Qed.

Lemma slugWords_nil s :
  slugWords s = [] ↔ Forall (λ c, isSlugChar c = false) s.
Proof.
  induction s as [|c s IH]; [by split|].
  destruct (isSlugChar c) eqn:Ec.
  - split.
    + intros H. by apply slugWords_start in H.
    + intros [H _]%Forall_cons. congruence.
  - rewrite slugWords_sep by done. rewrite IH. split.
    + intros H. by constructor.
    + by intros [_ H]%Forall_cons.
Qed.

Lemma lowerUnit_upper c : lowerUnit (asciiUpper c) = lowerUnit c.
Proof.
  unfold asciiUpper, lowerUnit.
  destruct ((97 <=? c) && (c <=? 122)) eqn:E1.
  - apply andb_true_iff in E1 as [H1%N.leb_le H2%N.leb_le].
    assert (((65 <=? c - 32) && (c - 32 <=? 90)) = true) as ->.
    { apply andb_true_iff. split; apply N.leb_le; lia. }
    assert (((65 <=? c) && (c <=? 90)) = false) as ->.
    { apply andb_false_iff. right. apply N.leb_gt. lia. }
    assert ((c =? 304) = false) as -> by (apply N.eqb_neq; lia).
    assert ((c =? 8490) = false) as -> by (apply N.eqb_neq; lia).
    f_equal. lia.
  - done.
Qed.

Lemma slugify_joined title :
  slugify title = take 60 (joinWith DASH (slugWords (toLowerCase title))).
Proof.
  rewrite slugify_eq.
  by rewrite (edges_collapse_words (S (length (toLowerCase title)))) by lia.
Qed.

(** X9: the slug of a title is its lower-cased words, the maximal runs of
    characters of [a-z0-9], joined by single dashes and cut to 60 code
    units; the case of ASCII letters does not show in it. *)
Theorem slugify_words title :
  slugify title = take 60 (joinWith DASH (slugWords (toLowerCase title)))
  ∧ Forall (λ w, w ≠ [] ∧ Forall (λ c, isSlugChar c = true) w)
      (slugWords (toLowerCase title))
  ∧ slugify (asciiUpper <$> title) = slugify title.
Proof.
  split_and!; [apply slugify_joined|apply slugWords_words|].
  rewrite !slugify_joined. do 3 f_equal. unfold toLowerCase.
  induction title as [|c t IH]; [done|].
  rewrite fmap_cons, !bind_cons, IH. by rewrite lowerUnit_upper.
Qed.

(** ** The shape of a slug *)

Lemma singleDashes_app w u :
  Forall (λ c, isSlugChar c = true) w → singleDashes u → singleDashes (w ++ u).
Proof.
  induction 1 as [|x w Hx _ IH]; intros Hu; [done|].
  cbn [app singleDashes]. split; [|by apply IH].
  destruct (w ++ u); [done|]. intros [-> _]. by vm_compute in Hx.
Qed.

Lemma joined_shape ws :
  Forall (λ w, w ≠ [] ∧ Forall (λ c, isSlugChar c = true) w) ws →
  slugShaped (joinWith DASH ws)
  ∧ last (joinWith DASH ws) ≠ Some 45
  ∧ (ws ≠ [] → ∃ c u, joinWith DASH ws = c :: u ∧ isSlugChar c = true).
Proof.
  induction 1 as [|w ws [Hne Hw] Hws (IHs & IHl & IHh)].
  - split_and!; [|done..]. split_and!; [constructor|done|done].
  - destruct w as [|x w]; [done|]. apply Forall_cons in Hw as [Hx Hw].
    destruct ws as [|w' ws'].
    + cbn [joinWith]. split_and!.
      * split_and!.
        -- constructor; [by left|].
           eapply Forall_impl; [exact Hw|]. by left.
        -- cbn. intros [= ->]. by vm_compute in Hx.
        -- rewrite <- (app_nil_r (x :: w)).
           apply singleDashes_app; [by constructor|done].
      * intros Hl. apply last_Some in Hl as [l' Hl].
        assert (Hall : Forall (λ c, isSlugChar c = true) (x :: w))
          by by constructor.
        rewrite Hl in Hall. apply Forall_app in Hall as [_ Hall].
        apply Forall_cons in Hall as [Hall _]. by vm_compute in Hall.
      * intros _. by eexists _, _.
    + rewrite joinWith_cons by done.
      destruct (IHh ltac:(done)) as (c & u & Hu & Hc).
      destruct IHs as (Hch & _ & Hsd).
      split_and!.
      * split_and!.
        -- apply Forall_app. split.
           { constructor; [by left|].
             eapply Forall_impl; [exact Hw|]. by left. }
           apply Forall_app. split; [|done].
           by repeat constructor; right.
        -- cbn. intros [= ->]. by vm_compute in Hx.
        -- apply singleDashes_app; [by constructor|].
           rewrite Hu in Hsd |- *. cbn [DASH app singleDashes].
           change (js "-" ++ c :: u) with (45 :: c :: u).
           cbn [singleDashes]. split; [|done].
           intros [_ ->]. by vm_compute in Hc.
      * rewrite app_assoc, last_app.
        destruct (last (joinWith DASH (w' :: ws'))) eqn:E; [done|].
        apply last_None in E. by rewrite Hu in E.
      * intros _. by eexists _, _.
Qed.

Lemma singleDashes_take n : ∀ u, singleDashes u → singleDashes (take n u).
Proof.
  induction n as [|n IH]; intros [|a u]; try done.
  cbn [take singleDashes]. intros [H1 H2]. split; [|by apply IH].
  destruct u as [|b u]; [by destruct n|]. by destruct n.
Qed.

Lemma slugShaped_take n u : slugShaped u → slugShaped (take n u).
Proof.
  intros (H1 & H2 & H3). split_and!.
  - by apply Forall_take.
  - by destruct n, u.
  - by apply singleDashes_take.
Qed.

(** X10: every slug is at most 60 code units of [a-z0-9] and dashes, starts
    with no dash and has no two dashes in a row; it ends in a dash only
    when it is 60 long, by the cut; and it is empty exactly when the
    lower-cased title holds no character of [a-z0-9]. *)
Theorem slugify_shape title :
  (length (slugify title) ≤ 60)%nat
  ∧ slugShaped (slugify title)
  ∧ ((length (slugify title) < 60)%nat → last (slugify title) ≠ Some 45)
  ∧ (slugify title = []
     ↔ Forall (λ c, isSlugChar c = false) (toLowerCase title)).
Proof.
  destruct (joined_shape _ (slugWords_words (toLowerCase title)))
    as (Hs & Hl & Hh).
  rewrite slugify_joined. split_and!.
  - rewrite length_take. lia.
  - by apply slugShaped_take.
  - intros Hlen. rewrite take_ge; [done|].
    rewrite length_take in Hlen. lia.
  - rewrite <- slugWords_nil. split.
    + intros Ht. destruct (slugWords (toLowerCase title)) as [|w ws]; [done|].
      destruct (Hh ltac:(done)) as (c & u & Hu & _). by rewrite Hu in Ht.
    + by intros ->.
Qed.

(** ** The slug of a slug *)

Lemma lowerUnit_slug c : isSlugChar c = true ∨ c = 45 → lowerUnit c = [c].
Proof.
  intros Hc. unfold lowerUnit.
  assert (Hr : (97 ≤ c ≤ 122) ∨ (48 ≤ c ≤ 57) ∨ c = 45).
  { destruct Hc as [Hc| ->]; [|by right; right]. unfold isSlugChar in Hc.
    apply orb_true_iff in Hc as [Hc|Hc];
      apply andb_true_iff in Hc as [H1%N.leb_le H2%N.leb_le]; lia. }
  assert (((65 <=? c) && (c <=? 90)) = false) as ->.
  { apply andb_false_iff.
    destruct (decide (c < 65)); [left; apply N.leb_gt; lia|].
    right. apply N.leb_gt. lia. }
  assert ((c =? 304) = false) as -> by (apply N.eqb_neq; lia).
  by assert ((c =? 8490) = false) as -> by (apply N.eqb_neq; lia).
Qed.

Lemma toLowerCase_slug u :
  Forall (λ c, isSlugChar c = true ∨ c = 45) u → toLowerCase u = u.
Proof.
  unfold toLowerCase. induction 1 as [|c u Hc _ IH]; [done|].
  by rewrite bind_cons, IH, lowerUnit_slug.
Qed.

Lemma collapse_slugShaped u :
  Forall (λ c, isSlugChar c = true ∨ c = 45) u → singleDashes u →
  collapse false u = u.
Proof.
  induction 1 as [|c u Hc Hu IH]; [done|]. cbn [singleDashes].
  intros [Hd Hs]. cbn [collapse]. destruct (isSlugChar c) eqn:Ec.
  - by rewrite IH.
  - destruct Hc as [Hc| ->]; [congruence|]. f_equal.
    destruct u as [|b u']; [done|].
    apply Forall_cons in Hu as [Hb _].
    destruct Hb as [Hb| ->]; [|by destruct Hd].
    rewrite collapse_flag; [by apply IH|].
    right. eexists _, _. split; [done|]. by rewrite Hb.
Qed.

Lemma dropLastDash_length u : (length (dropLastDash u) ≤ length u)%nat.
Proof.
  unfold dropLastDash. rewrite length_reverse, <- (length_reverse u).
  destruct (reverse u) as [|c r]; [done|]. cbn [dropFirstDash].
  destruct (c =? 45); cbn [length]; lia.
Qed.

Lemma slugify_of_slug u :
  slugShaped u → (length u ≤ 60)%nat → slugify u = dropLastDash u.
Proof.
  intros (Hch & Hh & Hs) Hlen. rewrite slugify_eq.
  rewrite toLowerCase_slug, collapse_slugShaped by done.
  assert (dropFirstDash u = u) as ->.
  { destruct u as [|c u']; [done|]. cbn [dropFirstDash].
    destruct (c =? 45) eqn:E; [|done].
    apply N.eqb_eq in E as ->. by destruct Hh. }
  apply take_ge. pose proof (dropLastDash_length u). lia.
Qed.

Lemma singleDashes_snoc u : singleDashes (u ++ [45]) → last u ≠ Some 45.
Proof.
  induction u as [|a u IH]; [done|].
  cbn [app singleDashes]. intros [Hd Hs].
  destruct u as [|b u'].
  - cbn in *. intros [= ->]. by apply Hd.
  - rewrite last_cons_cons. by apply IH.
Qed.

Lemma slugShaped_prefix u v : slugShaped (u ++ v) → slugShaped u.
Proof.
  intros H. apply (slugShaped_take (length u)) in H.
  by rewrite take_app_length in H.
Qed.

Lemma slugify_joined_shaped title :
  slugShaped (slugify title) ∧ (length (slugify title) ≤ 60)%nat
  ∧ ((length (slugify title) < 60)%nat → last (slugify title) ≠ Some 45).
Proof.
  destruct (joined_shape _ (slugWords_words (toLowerCase title)))
    as (Hs & Hl & Hh).
  rewrite slugify_joined. split_and!.
  - by apply slugShaped_take.
  - rewrite length_take. lia.
  - intros Hlen. rewrite take_ge; [done|].
    rewrite length_take in Hlen. lia.
Qed.

(** X11: [slugify] on a slug.  A second pass only removes the dash that the
    cut to 60 code units can leave at the end; a slug shorter than 60 is a
    fixed point, and after two passes every title is. *)
Theorem slugify_again title :
  slugify (slugify title) = dropLastDash (slugify title)
  ∧ ((length (slugify title) < 60)%nat →
     slugify (slugify title) = slugify title)
  ∧ slugify (slugify (slugify title)) = slugify (slugify title).
Proof.
  destruct (slugify_joined_shaped title) as (Hs & Hlen & Hl).
  assert (H1 : slugify (slugify title) = dropLastDash (slugify title))
    by by apply slugify_of_slug.
  split_and!; [done| |].
  - intros Hlt. rewrite H1. by apply dropLastDash_other, Hl.
  - rewrite H1.
    destruct (decide (last (slugify title) = Some 45)) as [Hd|Hd].
    + apply last_Some in Hd as [u Hu]. rewrite Hu in *.
      rewrite dropLastDash_snoc.
      rewrite slugify_of_slug.
      * apply dropLastDash_other, singleDashes_snoc. by destruct Hs as (_ & _ & ?).
      * by eapply slugShaped_prefix.
      * rewrite length_app in Hlen. lia.
    + rewrite dropLastDash_other by done.
      rewrite slugify_of_slug by done. by apply dropLastDash_other.
Qed.

(** ** Light extraction: the other lists *)

Lemma scanLine_solutions r k line :
  solutions (scanLine r k line)
  = solutions k ++ (if decide (solutionLine line) then [trim line] else []).
Proof.
  destruct (decide (solutionLine line)) as [[H1 H2]|Hn].
  - assert (Hb : test false solutionRe line && (15 <? length line)%nat
                 && (length line <? 300)%nat = true).
    { rewrite !andb_true_iff, !Nat.ltb_lt. intuition lia. }
    unfold scanLine, push. rewrite Hb.
    repeat (match goal with |- context [if ?b then _ else _] =>
              destruct b eqn:? end; simpl); reflexivity.
  - assert (Hb : test false solutionRe line && (15 <? length line)%nat
                 && (length line <? 300)%nat = false).
    { apply not_true_is_false. rewrite !andb_true_iff, !Nat.ltb_lt.
      intros [[? ?] ?]. apply Hn. split; [done|lia]. }
    unfold scanLine, push. rewrite Hb.
    repeat (match goal with |- context [if ?b then _ else _] =>
              destruct b eqn:? end; simpl); by rewrite ?app_nil_r.
Qed.

Lemma scanLine_learnings r k line :
  learnings (scanLine r k line)
  = learnings k ++ (if decide (learningLine line) then [trim line] else []).
Proof.
  destruct (decide (learningLine line)) as [[H1 H2]|Hn].
  - assert (Hb : test false learningRe line && (10 <? length line)%nat
                 && (length line <? 300)%nat = true).
    { rewrite !andb_true_iff, !Nat.ltb_lt. intuition lia. }
    unfold scanLine, push. rewrite Hb.
    repeat (match goal with |- context [if ?b then _ else _] =>
              destruct b eqn:? end; simpl); reflexivity.
  - assert (Hb : test false learningRe line && (10 <? length line)%nat
                 && (length line <? 300)%nat = false).
    { apply not_true_is_false. rewrite !andb_true_iff, !Nat.ltb_lt.
      intros [[? ?] ?]. apply Hn. split; [done|lia]. }
    unfold scanLine, push. rewrite Hb.
    repeat (match goal with |- context [if ?b then _ else _] =>
              destruct b eqn:? end; simpl); by rewrite ?app_nil_r.
Qed.

Lemma scanLine_todos r k line :
  todos (scanLine r k line)
  = todos k ++ (if decide (todoLine line) then [trim line] else []).
Proof.
  destruct (decide (todoLine line)) as [[H1 H2]|Hn].
  - assert (Hb : test false actionRe line && (10 <? length line)%nat
                 && (length line <? 200)%nat = true).
    { rewrite !andb_true_iff, !Nat.ltb_lt. intuition lia. }
    unfold scanLine, push. rewrite Hb.
    repeat (match goal with |- context [if ?b then _ else _] =>
              destruct b eqn:? end; simpl); reflexivity.
  - assert (Hb : test false actionRe line && (10 <? length line)%nat
                 && (length line <? 200)%nat = false).
    { apply not_true_is_false. rewrite !andb_true_iff, !Nat.ltb_lt.
      intros [[? ?] ?]. apply Hn. split; [done|lia]. }
    unfold scanLine, push. rewrite Hb.
    repeat (match goal with |- context [if ?b then _ else _] =>
              destruct b eqn:? end; simpl); by rewrite ?app_nil_r.
Qed.

Lemma scanLine_commands r k line :
  commands (scanLine r k line)
  = commands k
    ++ (if decide (r = Some (js "assistant") ∧ commandLine line)
        then [trim line] else []).
Proof.
  destruct (decide (r = Some (js "assistant") ∧ commandLine line))
    as [[Hr (H1 & H2 & H3)]|Hn].
  - assert (Hb : bool_decide (r = Some (js "assistant"))
                 && negb (test false fenceRe (trim line))
                 && test false commandRe (trim line)
                 && (length line <? 200)%nat = true).
    { rewrite !andb_true_iff, Nat.ltb_lt, bool_decide_eq_true, H1. done. }
    unfold scanLine, push. rewrite Hb.
    repeat (match goal with |- context [if ?b then _ else _] =>
              destruct b eqn:? end; simpl); reflexivity.
  - assert (Hb : bool_decide (r = Some (js "assistant"))
                 && negb (test false fenceRe (trim line))
                 && test false commandRe (trim line)
                 && (length line <? 200)%nat = false).
    { apply not_true_is_false.
      rewrite !andb_true_iff, Nat.ltb_lt, bool_decide_eq_true, negb_true_iff.
      intros [[[? ?] ?] ?]. by apply Hn. }
    unfold scanLine, push. rewrite Hb.
    repeat (match goal with |- context [if ?b then _ else _] =>
              destruct b eqn:? end; simpl); by rewrite ?app_nil_r.
Qed.

Lemma scanLine_projectContext r k line :
  projectContext (scanLine r k line) = projectContext k.
Proof.
  unfold scanLine.
  repeat (match goal with |- context [if ?b then _ else _] =>
            destruct b eqn:? end; simpl); reflexivity.
Qed.

Section Fields.

Context (f : ExtractedKnowledge → list jsstring).
Context (Q : option jsstring → jsstring → Prop) `{∀ r l, Decision (Q r l)}.
Hypothesis scanLine_f : ∀ r k line,
f (scanLine r k line) = f k ++ (if decide (Q r line) then [trim line] else []).

Lemma foldl_scanLine_field r ls : ∀ k,
f (foldl (scanLine r) k ls) = f k ++ (trim <$> filter (Q r) ls).
Proof.
induction ls as [|l ls IH]; intros k; cbn [foldl].
- by rewrite app_nil_r.
- rewrite IH, scanLine_f, filter_cons.
  destruct (decide (Q r l)); by rewrite <- app_assoc.
Qed.

Lemma scanEntry_field k entry :
f (scanEntry k entry)
= f k ++ (trim <$> filter (Q (message entry ≫= role)) (linesOfEntry entry)).
Proof.
unfold scanEntry, linesOfEntry.
destruct (decide (entryType entry = js "message")) as [E|E].
- rewrite bool_decide_false by by intros ?.
  rewrite (bool_decide_true _ E).
  destruct (message entry) as [msg|]; [|by rewrite app_nil_r].
  destruct (bool_decide (extractText (content msg) = []));
    [by rewrite app_nil_r|].
  apply foldl_scanLine_field.
- rewrite bool_decide_true by done. rewrite bool_decide_false by done.
  by rewrite app_nil_r.
Qed.

Lemma foldl_scanEntry_field entries : ∀ k,
f (foldl scanEntry k entries)
= f k ++ (entries ≫= λ e,
            trim <$> filter (Q (message e ≫= role)) (linesOfEntry e)).
Proof.
induction entries as [|e es IH]; intros k; cbn [foldl].
- by rewrite app_nil_r.
- rewrite IH, scanEntry_field, bind_cons. by rewrite <- app_assoc.
Qed.

End Fields.

Lemma bind_fmap_filter (P : jsstring → Prop) `{∀ l, Decision (P l)}
    (entries : list SessionEntry) :
  (entries ≫= λ e, trim <$> filter P (linesOfEntry e))
  = trim <$> filter P (scannedLines entries).
Proof.
  unfold scannedLines. induction entries as [|e es IH]; [done|].
  by rewrite !bind_cons, filter_app, fmap_app, IH.
Qed.

Lemma filter_nothing {A} (P : A → Prop) `{∀ x, Decision (P x)} l :
  (∀ x, ¬ P x) → filter P l = [].
Proof.
  intros HP. induction l as [|x l IH]; [done|].
  by rewrite filter_cons_False.
Qed.

Lemma foldl_scanEntry_projectContext entries : ∀ k,
  projectContext (foldl scanEntry k entries) = projectContext k.
Proof.
  induction entries as [|e es IH]; intros k; [done|].
  cbn [foldl]. rewrite IH. unfold scanEntry.
  destruct (bool_decide _); [done|]. destruct (message e) as [msg|]; [|done].
  destruct (bool_decide _); [done|].
  generalize (splitLines (extractText (content msg))). intros ls.
  revert k. induction ls as [|l ls IHl]; intros k; [done|].
  cbn [foldl]. by rewrite IHl, scanLine_projectContext.
Qed.

Lemma lightExtract_fields detectProject entries cwd :
  decisions (lightExtract detectProject entries cwd)
  = dedupe5 (trim <$> filter decisionLine (scannedLines entries))
  ∧ solutions (lightExtract detectProject entries cwd)
    = dedupe5 (trim <$> filter solutionLine (scannedLines entries))
  ∧ learnings (lightExtract detectProject entries cwd)
    = dedupe5 (trim <$> filter learningLine (scannedLines entries))
  ∧ todos (lightExtract detectProject entries cwd)
    = dedupe5 (trim <$> filter todoLine (scannedLines entries))
  ∧ commands (lightExtract detectProject entries cwd)
    = dedupe5 (trim <$> filter commandLine (assistantLines entries))
  ∧ projectContext (lightExtract detectProject entries cwd)
    = detectProject cwd.
Proof.
  unfold lightExtract.
  cbn [decisions solutions learnings todos commands projectContext].
  split_and!.
  - by rewrite foldl_scanEntry_decisions.
  - rewrite (foldl_scanEntry_field solutions (λ _, solutionLine))
      by apply scanLine_solutions.
    by rewrite bind_fmap_filter.
  - rewrite (foldl_scanEntry_field learnings (λ _, learningLine))
      by apply scanLine_learnings.
    by rewrite bind_fmap_filter.
  - rewrite (foldl_scanEntry_field todos (λ _, todoLine))
      by apply scanLine_todos.
    by rewrite bind_fmap_filter.
  - rewrite (foldl_scanEntry_field commands
               (λ r line, r = Some (js "assistant") ∧ commandLine line))
      by apply scanLine_commands.
    cbn [commands app]. f_equal. unfold assistantLines.
    induction entries as [|e es IH]; [done|].
    rewrite !bind_cons, filter_app, fmap_app, IH. f_equal.
    destruct (message e) as [msg|] eqn:Em; cbn [mbind option_bind].
    + case_bool_decide as Hr.
      * f_equal. apply list_filter_iff. intros l. by split; [intros [_ ?]|].
      * rewrite filter_nothing; [done|]. by intros l [? _].
    + rewrite filter_nothing; [done|]. by intros l [? _].
  - by rewrite foldl_scanEntry_projectContext.
Qed.

(** X12: what [lightExtract] records besides decisions.  A scanned line is a
    solution when it bears a solution marker and is 16 to 299 long, a
    learning when it bears a learning marker and is 11 to 299 long, a todo
    when it bears an action marker and is 11 to 199 long; a line of a message
    of the assistant is a command when it is shorter than 200 and, trimmed,
    starts with a command name and not with a code fence.  Each list is the
    first five distinct trimmed such lines, in the order of the
    conversation; the project context is what [detectProject] returns. *)
Theorem lightExtract_lists detectProject entries cwd :
  solutions (lightExtract detectProject entries cwd)
  = dedupe5 (trim <$> filter solutionLine (scannedLines entries))
  ∧ learnings (lightExtract detectProject entries cwd)
    = dedupe5 (trim <$> filter learningLine (scannedLines entries))
  ∧ todos (lightExtract detectProject entries cwd)
    = dedupe5 (trim <$> filter todoLine (scannedLines entries))
  ∧ commands (lightExtract detectProject entries cwd)
    = dedupe5 (trim <$> filter commandLine (assistantLines entries))
  ∧ projectContext (lightExtract detectProject entries cwd)
    = detectProject cwd.
Proof. by destruct (lightExtract_fields detectProject entries cwd) as [_ ?]. Qed.

(** ** Trimming *)

Lemma trimStart_suffix s : trimStart s `suffix_of` s.
Proof.
  induction s as [|c s IH]; [done|]. cbn [trimStart].
  destruct (isSpace c); [|done]. by apply suffix_cons_r.
Qed.

Lemma trimEnd_prefix s : trimEnd s `prefix_of` s.
Proof.
  unfold trimEnd. destruct (trimStart_suffix (rev s)) as [k Hk].
  exists (rev k). apply (f_equal (@rev N)) in Hk.
  by rewrite rev_involutive, rev_app_distr in Hk.
Qed.

Lemma elem_of_trim x s : x ∈ trim s → x ∈ s.
Proof.
  unfold trim. intros H.
  destruct (trimEnd_prefix (trimStart s)) as [k Hk].
  destruct (trimStart_suffix s) as [k' Hk'].
  rewrite Hk', Hk. rewrite !elem_of_app. auto.
Qed.

Lemma length_trim s : (length (trim s) ≤ length s)%nat.
Proof.
  unfold trim.
  destruct (trimEnd_prefix (trimStart s)) as [k Hk].
  destruct (trimStart_suffix s) as [k' Hk'].
  rewrite Hk' at 2. rewrite Hk at 2. rewrite !length_app. lia.
Qed.

Lemma trimStart_head s c : head (trimStart s) = Some c → isSpace c = false.
Proof.
  induction s as [|x s IH]; [done|]. cbn [trimStart].
  destruct (isSpace x) eqn:E; [done|]. by intros [= <-].
Qed.

Lemma trimStart_keeps s c :
  c ∈ s → isSpace c = false → c ∈ trimStart s.
Proof.
  induction s as [|x s IH]; [done|]. cbn [trimStart].
  intros Hin Hc. destruct (isSpace x) eqn:E; [|done].
  apply elem_of_cons in Hin as [->|Hin]; [congruence|]. by apply IH.
Qed.

Lemma trim_keeps s c : c ∈ s → isSpace c = false → c ∈ trim s.
Proof.
  intros Hin Hc. unfold trim, trimEnd.
  rewrite list_elem_of_In, <- in_rev, <- list_elem_of_In.
  apply trimStart_keeps; [|done].
  rewrite list_elem_of_In, <- in_rev, <- list_elem_of_In.
  by apply trimStart_keeps.
Qed.

Lemma last_rev {A} (l : list A) : last (rev l) = head l.
Proof. destruct l as [|x l]; [done|]. cbn [rev]. by rewrite last_snoc. Qed.

Lemma head_rev {A} (l : list A) : head (rev l) = last l.
Proof. by rewrite <- (rev_involutive l) at 2; rewrite last_rev. Qed.

Lemma last_suffix {A} (u v : list A) :
  u `suffix_of` v → u ≠ [] → last u = last v.
Proof.
  intros [k ->] Hu. rewrite last_app.
  destruct (last u) eqn:E; [done|]. by apply last_None in E.
Qed.

(** What [trim] returns has no white space at its ends. *)
Lemma trim_ends s c :
  head (trim s) = Some c ∨ last (trim s) = Some c → isSpace c = false.
Proof.
  unfold trim, trimEnd. intros [H|H].
  - rewrite head_rev in H.
    destruct (decide (trimStart (rev (trimStart s)) = [])) as [E|E].
    { by rewrite E in H. }
    rewrite (last_suffix _ _ (trimStart_suffix _) E), last_rev in H.
    by apply trimStart_head in H.
  - rewrite last_rev in H. by apply trimStart_head in H.
Qed.

Lemma isWord_not_space c : isWord c = true → isSpace c = false.
Proof.
  intros Hw.
  assert (Hr : 48 ≤ c ≤ 122).
  { unfold isWord in Hw.
    repeat (apply orb_true_iff in Hw as [Hw|Hw]);
      try (apply andb_true_iff in Hw as [H1%N.leb_le H2%N.leb_le]; lia).
    apply N.eqb_eq in Hw. lia. }
  unfold isSpace, isWhiteSpace, isLineTerminator.
  repeat (apply orb_false_iff; split);
    try (apply N.eqb_neq; lia).
  apply andb_false_iff. left. apply N.leb_gt. lia.
Qed.

Lemma trimmed_word s c :
  c ∈ s → isWord c = true → trimmedText (trim s).
Proof.
  intros Hin Hw. split.
  - intros E. apply (trim_keeps s c) in Hin; [|by apply isWord_not_space].
    rewrite E in Hin. by apply elem_of_nil in Hin.
  - apply trim_ends.
Qed.

(** ** Word boundaries *)

Lemma searchFrom_Wb_word m r s : ∀ pv i j st,
  searchFrom m (Seq Wb r) pv s i = Some (j, st) →
  (∃ c, pv = Some c ∧ isWord c = true) ∨ (∃ c, c ∈ s ∧ isWord c = true).
Proof.
  induction s as [|x s IH]; intros pv i j st; cbn [searchFrom].
  - change (run m (Seq Wb r) (MState pv [] None))
      with (run m Wb (MState pv [] None) ≫= run m r).
    cbn [run]. destruct (atWb _) eqn:Ex; [|done]. intros _.
    unfold atWb in Ex. cbn [prev rest head from_option] in Ex.
    destruct pv as [c|]; cbn [from_option] in Ex; [|done].
    left. exists c. split; [done|]. by destruct (isWord c).
  - change (run m (Seq Wb r) (MState pv (x :: s) None))
      with (run m Wb (MState pv (x :: s) None) ≫= run m r).
    cbn [run]. destruct (atWb _) eqn:Ex.
    + intros _. unfold atWb in Ex. cbn [prev rest head from_option] in Ex.
      destruct pv as [c|]; cbn [from_option] in Ex.
      * destruct (isWord c) eqn:Ec; [left; by exists c|].
        right. exists x. split; [by left|]. by destruct (isWord x).
      * right. exists x. split; [by left|]. by destruct (isWord x).
    + cbn [mbind list_bind]. intros H.
      apply IH in H as [(c & [= <-] & Hc)|(c & Hin & Hc)].
      * right. exists x. split; [by left|done].
      * right. exists c. split; [by right|done].
Qed.

Lemma test_Wb_word r s :
  test false (Seq Wb r) s = true → ∃ c, c ∈ s ∧ isWord c = true.
Proof.
  unfold test, exec. rewrite bool_decide_eq_true. intros [[j st] H].
  apply searchFrom_Wb_word in H as [(c & ? & _)|H]; done.
Qed.

(** ** Deduplication *)

Lemma uniqFrom_spec a : ∀ seen,
  NoDup (uniqFrom seen a)
  ∧ ∀ x, x ∈ uniqFrom seen a ↔ x ∈ a ∧ x ∉ seen.
Proof.
  induction a as [|y a IH]; intros seen; cbn [uniqFrom].
  - split; [constructor|]. intros x. rewrite elem_of_nil. tauto.
  - case_bool_decide as Hy.
    + destruct (IH seen) as [Hnd Hin]. split; [done|].
      intros x. rewrite Hin, elem_of_cons. split; [tauto|].
      intros [[->|?] ?]; tauto.
    + destruct (IH (y :: seen)) as [Hnd Hin]. split.
      * constructor; [|done]. rewrite Hin, elem_of_cons. tauto.
      * intros x. rewrite !elem_of_cons, Hin, elem_of_cons.
        split; [|destruct (decide (x = y)); tauto].
        intros [->|[? ?]]; tauto.
Qed.

Lemma dedupe5_spec a :
  (length (dedupe5 a) ≤ 5)%nat ∧ NoDup (dedupe5 a)
  ∧ ∀ x, x ∈ dedupe5 a → x ∈ a.
Proof.
  unfold dedupe5. destruct (uniqFrom_spec a []) as [Hnd Hin]. split_and!.
  - rewrite length_take. lia.
  - rewrite <- (take_drop 5 (uniqFrom [] a)) in Hnd.
    by apply NoDup_app in Hnd as [? _].
  - intros x Hx%subseteq_take. by apply Hin in Hx as [? _].
Qed.

Lemma dedupe5_nil a : dedupe5 a = [] ↔ a = [].
Proof.
  split; [|by intros ->]. destruct a as [|x a]; [done|].
  unfold dedupe5. cbn [uniqFrom]. by rewrite bool_decide_false by apply not_elem_of_nil.
Qed.

Lemma linesOfEntry_no_newline e : Forall (λ l, 10 ∉ l) (linesOfEntry e).
Proof.
  unfold linesOfEntry. destruct (bool_decide _); [|constructor].
  destruct (message e); [|constructor].
  destruct (bool_decide _); [constructor|apply splitLines_no_newline].
Qed.

Lemma scannedLines_no_newline entries :
  Forall (λ l, 10 ∉ l) (scannedLines entries).
Proof.
  unfold scannedLines. induction entries as [|e es IH]; [constructor|].
  rewrite bind_cons. apply Forall_app. split; [apply linesOfEntry_no_newline|done].
Qed.

Lemma assistantLines_no_newline entries :
  Forall (λ l, 10 ∉ l) (assistantLines entries).
Proof.
  unfold assistantLines. induction entries as [|e es IH]; [constructor|].
  rewrite bind_cons. apply Forall_app. split; [|done].
  destruct (message e); [|constructor].
  destruct (bool_decide _); [apply linesOfEntry_no_newline|constructor].
Qed.

(** The first five distinct trimmed lines among the lines that satisfy
    [P], when [P] lines hold visible text and are shorter than 300. *)
Lemma extractedList_dedupe5 (P : jsstring → Prop) `{∀ l, Decision (P l)} lines :
  Forall (λ l, 10 ∉ l) lines →
  (∀ l, P l → trimmedText (trim l) ∧ (length l < 300)%nat) →
  extractedList (dedupe5 (trim <$> filter P lines)).
Proof.
  intros Hnl HP. destruct (dedupe5_spec (trim <$> filter P lines))
    as (Hlen & Hnd & Hin).
  split_and!; [done..|]. apply Forall_forall. intros x Hx%Hin.
  apply list_elem_of_fmap in Hx as (l & -> & [Hl Hlin]%list_elem_of_filter).
  destruct (HP l Hl) as [Ht Hlt]. split_and!; [done| |].
  - intros Hx%elem_of_trim. rewrite Forall_forall in Hnl. by apply (Hnl l).
  - pose proof (length_trim l). lia.
Qed.

(** X13: every list that [lightExtract] returns holds at most five items,
    all distinct; each item is a single line shorter than 300 without
    white space at its ends, and not empty. *)
Theorem lightExtract_items detectProject entries cwd :
  extractedList (decisions (lightExtract detectProject entries cwd))
  ∧ extractedList (solutions (lightExtract detectProject entries cwd))
  ∧ extractedList (learnings (lightExtract detectProject entries cwd))
  ∧ extractedList (todos (lightExtract detectProject entries cwd))
  ∧ extractedList (commands (lightExtract detectProject entries cwd)).
Proof.
  destruct (lightExtract_fields detectProject entries cwd)
    as (-> & -> & -> & -> & -> & _).
  split_and!.
  - apply extractedList_dedupe5; [apply scannedLines_no_newline|].
    intros l [Ht Hlen]. split; [|lia].
    apply test_Wb_word in Ht as (c & Hc & Hw). by eapply trimmed_word.
  - apply extractedList_dedupe5; [apply scannedLines_no_newline|].
    intros l [Ht Hlen]. split; [|lia].
    apply test_Wb_word in Ht as (c & Hc & Hw). by eapply trimmed_word.
  - apply extractedList_dedupe5; [apply scannedLines_no_newline|].
    intros l [Ht Hlen]. split; [|lia].
    apply test_Wb_word in Ht as (c & Hc & Hw). by eapply trimmed_word.
  - apply extractedList_dedupe5; [apply scannedLines_no_newline|].
    intros l [Ht Hlen]. split; [|lia].
    apply test_Wb_word in Ht as (c & Hc & Hw). by eapply trimmed_word.
  - apply extractedList_dedupe5; [apply assistantLines_no_newline|].
    intros l (Hf & Hc & Hl). split; [|lia].
    split; [|apply trim_ends]. intros E. rewrite E in Hc. by vm_compute in Hc.
Qed.

(** ** The [agent_end] handler *)

Lemma filter_nil_Forall {A} (P : A → Prop) `{∀ x, Decision (P x)} l :
  filter P l = [] ↔ Forall (λ x, ¬ P x) l.
Proof.
  induction l as [|x l IH]; [by split|].
  rewrite filter_cons. destruct (decide (P x)).
  - split; [done|]. by intros [? _]%Forall_cons.
  - rewrite IH. split; [by constructor|by intros [_ ?]%Forall_cons].
Qed.

Lemma extracted_nil (P : jsstring → Prop) `{∀ x, Decision (P x)} lines :
  dedupe5 (trim <$> filter P lines) = [] ↔ Forall (λ x, ¬ P x) lines.
Proof.
  rewrite dedupe5_nil, <- (filter_nil_Forall P lines).
  generalize (filter P lines). by intros [|x l].
Qed.

Lemma appendToLog_exists now e st :
  is_Some (daily (appendToLog now e None st) !! dailyPath (today now)).
Proof.
  unfold appendToLog. cbv zeta. cbn [default from_option id].
  destruct (findInsertIndex _ _ _); rewrite writeNote_lookup; by eexists.
Qed.

Lemma appendToSection_exists now s c st :
  is_Some (daily (appendToSection now s c None st) !! dailyPath (today now)).
Proof.
  unfold appendToSection. cbv zeta. cbn [default from_option id].
  destruct (findInsertIndex _ _ _).
  - rewrite writeNote_lookup. by eexists.
  - rewrite ensureDailyNote_lookup. by eexists.
Qed.

Lemma foldl_appendToSection_exists now s (g : jsstring → jsstring) l : ∀ st,
  is_Some (daily st !! dailyPath (today now)) →
  is_Some (daily (foldl (λ st d, appendToSection now s (g d) None st) st l)
             !! dailyPath (today now)).
Proof.
  induction l as [|x l IH]; intros st Hst; [done|].
  cbn [foldl]. apply IH, appendToSection_exists.
Qed.

(** X14: the [agent_end] handler writes only when the conversation holds a
    decision, solution or learning line.  When no scanned line is one, the
    file system is left as it is, even without a note for today, whatever
    todos, commands or project context were found; otherwise the light
    extraction is written to today's note, with a summary that is not
    empty, the note exists afterwards, and a re-index is queued. *)
Theorem agentEnd_spec detectProject now entries cwd st q :
  (Forall (λ l, ¬ decisionLine l ∧ ¬ solutionLine l ∧ ¬ learningLine l)
     (scannedLines entries) →
   agentEnd detectProject now (Some entries) cwd st q = (st, q))
  ∧ (¬ Forall (λ l, ¬ decisionLine l ∧ ¬ solutionLine l ∧ ¬ learningLine l)
         (scannedLines entries) →
     agentEnd detectProject now (Some entries) cwd st q
     = (writeToDaily now (lightExtract detectProject entries cwd) st, true)
     ∧ summaryParts (lightExtract detectProject entries cwd) ≠ []
     ∧ is_Some (daily (writeToDaily now
                         (lightExtract detectProject entries cwd) st)
                  !! dailyPath (today now)))
  ∧ agentEnd detectProject now None cwd st q = (st, q).
Proof.
  set (k := lightExtract detectProject entries cwd).
  destruct (lightExtract_fields detectProject entries cwd)
    as (Hd & Hs & Hl & _). fold k in Hd, Hs, Hl.
  assert (Hnone : Forall (λ l, ¬ decisionLine l ∧ ¬ solutionLine l
                               ∧ ¬ learningLine l) (scannedLines entries)
                  ↔ decisions k = [] ∧ solutions k = [] ∧ learnings k = []).
  { rewrite Hd, Hs, Hl, !extracted_nil, !Forall_forall. split.
    - intros H. split_and!; intros x Hx; by destruct (H x Hx) as (? & ? & ?).
    - intros (H1 & H2 & H3) x Hx. split_and!; [by apply H1|by apply H2|by apply H3]. }
  assert (Hhas : ((0 <? length (decisions k))%nat
                  || (0 <? length (solutions k))%nat
                  || (0 <? length (learnings k))%nat) = false
                 ↔ decisions k = [] ∧ solutions k = [] ∧ learnings k = []).
  { rewrite !orb_false_iff, !Nat.ltb_ge.
    split.
    - intros [[H1 H2] H3]. split_and!; apply length_zero_iff_nil; lia.
    - by intros (-> & -> & ->). }
  split_and!.
  - intros Hall. unfold agentEnd. fold k.
    destruct entries as [|e es]; [done|].
    apply Hnone, Hhas in Hall. by rewrite Hall.
  - intros Hnot.
    assert (Hb : ((0 <? length (decisions k))%nat
                  || (0 <? length (solutions k))%nat
                  || (0 <? length (learnings k))%nat) = true).
    { apply not_false_is_true. intros Hf. by apply Hnot, Hnone, Hhas. }
    assert (Hparts : summaryParts k ≠ []).
    { intros Hp. apply summaryParts_nil in Hp as (_ & ? & ? & ?).
      apply Hnot, Hnone. done. }
    split_and!; [|done|].
    + unfold agentEnd. fold k. destruct entries as [|e es].
      * exfalso. apply Hnot. constructor.
      * by rewrite Hb.
    + unfold writeToDaily. cbv zeta.
      apply foldl_appendToSection_exists, foldl_appendToSection_exists.
      destruct (0 <? length (summaryParts k))%nat eqn:E.
      * apply appendToLog_exists.
      * apply Nat.ltb_ge in E. destruct (summaryParts k); [done|].
        cbn [length] in E. lia.
  - done.
Qed.

(** ** writePriorities *)

Lemma sectionBounds_pre pre : ∀ rest i,
  noHeader PRIORITIES_HEADER pre →
  sectionBounds (pre ++ rest) i None
  = sectionBounds rest (i + length pre) None.
Proof.
  induction pre as [|ln pre IH]; intros rest i Hpre.
  - cbn [app length]. by rewrite Nat.add_0_r.
  - apply Forall_cons in Hpre as [Hln Hpre].
    cbn [app sectionBounds]. rewrite Hln.
    rewrite bool_decide_false by by intros [? ?]. cbn [andb].
    rewrite IH by done. f_equal. cbn [length]. lia.
Qed.

Lemma not_H2_not_priorities ln :
  startsWith H2 ln = false → startsWith PRIORITIES_HEADER ln = false.
Proof.
  intros H. destruct (startsWith PRIORITIES_HEADER ln) eqn:E; [|done].
  apply (startsWith_app H2 (js "Priorities")) in E. congruence.
Qed.

Lemma sectionBounds_body body : ∀ rest i s,
  noHeaders body →
  sectionBounds (body ++ rest) i (Some s)
  = sectionBounds rest (i + length body) (Some s).
Proof.
  induction body as [|ln body IH]; intros rest i s Hb.
  - cbn [app length]. by rewrite Nat.add_0_r.
  - apply Forall_cons in Hb as [Hln Hb].
    cbn [app sectionBounds]. rewrite not_H2_not_priorities, Hln by done.
    rewrite andb_false_r. rewrite IH by done. f_equal. cbn [length]. lia.
Qed.

Lemma sectionBounds_noHeader lines i :
  noHeader PRIORITIES_HEADER lines → (sectionBounds lines i None).1 = None.
Proof.
  intros H. rewrite <- (app_nil_r lines), sectionBounds_pre by done. done.
Qed.

Lemma sectionBounds_section pre hdr body post :
  noHeader PRIORITIES_HEADER pre →
  startsWith PRIORITIES_HEADER hdr = true →
  noHeaders body → sectionEnd post →
  sectionBounds (pre ++ hdr :: body ++ post) 0 None
  = (Some (S (length pre)),
     if post is [] then None else Some (S (length pre) + length body)%nat).
Proof.
  intros Hpre Hh Hb He. rewrite sectionBounds_pre by done.
  cbn [sectionBounds Nat.add]. rewrite Hh. rewrite sectionBounds_body by done.
  destruct He as [->|(stop & post' & -> & H2' & Hp)]; [done|].
  cbn [sectionBounds]. rewrite Hp, H2'.
  by rewrite bool_decide_true by by eexists.
Qed.

Lemma spliceLines_section pre hdr body post items e :
  e = (if post is [] then length (pre ++ hdr :: body ++ post)
       else (S (length pre) + length body))%nat →
  spliceLines (S (length pre)) (e - S (length pre)) items
    (pre ++ hdr :: body ++ post)
  = pre ++ hdr :: items ++ post.
Proof.
  intros ->. unfold spliceLines.
  assert (Hd : (S (length pre)
               + ((if post is [] then length (pre ++ hdr :: body ++ post)
                   else S (length pre) + length body) - S (length pre))
               = length (pre ++ hdr :: body))%nat).
  { destruct post; rewrite ?app_nil_r, !length_app; cbn [length];
      rewrite ?length_app; lia. }
  rewrite Hd.
  replace (pre ++ hdr :: body ++ post) with ((pre ++ hdr :: body) ++ post)
    by by rewrite <- app_assoc.
  rewrite drop_app_length.
  replace (S (length pre)) with (length (pre ++ [hdr]))
    by (rewrite length_app; cbn [length]; lia).
  replace ((pre ++ hdr :: body) ++ post) with ((pre ++ [hdr]) ++ body ++ post)
    by by rewrite <- !app_assoc.
  rewrite take_app_length. by rewrite <- app_assoc.
Qed.

Lemma writePriorities_eq now lines st c :
  daily (ensureDailyNote (today now) st) !! dailyPath (today now) = Some c →
  writePriorities now lines st
  = match sectionBounds (splitLines c) 0 None with
    | (Some startIdx, endIdx) =>
        writeNote (today now)
          (joinLines
             (spliceLines startIdx
                (default (length (splitLines c)) endIdx - startIdx)
                (lines ++ [[]]) (splitLines c)))
          (ensureDailyNote (today now) st)
    | (None, _) => ensureDailyNote (today now) st
    end.
Proof. intros Hc. unfold writePriorities, readNote. by rewrite Hc. Qed.

Lemma writePriorities_section now lines st c pre hdr body post :
  daily (ensureDailyNote (today now) st) !! dailyPath (today now) = Some c →
  splitLines c = pre ++ hdr :: body ++ post →
  noHeader PRIORITIES_HEADER pre →
  startsWith PRIORITIES_HEADER hdr = true →
  noHeaders body → sectionEnd post →
  writePriorities now lines st
  = writeNote (today now) (joinLines (pre ++ hdr :: lines ++ [] :: post))
      (ensureDailyNote (today now) st).
Proof.
  intros Hc Hl Hpre Hh Hb He.
  rewrite (writePriorities_eq now lines st c Hc), Hl.
  rewrite sectionBounds_section by done. f_equal. f_equal.
  rewrite spliceLines_section; [by rewrite <- app_assoc|].
  by destruct post.
Qed.

Lemma sectionBounds_earlier earlier : ∀ rest i s,
  earlierSections earlier →
  ∃ s', sectionBounds (earlier ++ rest) i s
        = sectionBounds rest (i + length earlier) s'.
Proof.
  induction earlier as [|ln earlier IH]; intros rest i s He.
  - exists s. cbn [app length]. by rewrite Nat.add_0_r.
  - apply Forall_cons in He as [Hln He]. cbn [app sectionBounds length].
    replace (i + S (length earlier))%nat with (S i + length earlier)%nat
      by lia.
    destruct (startsWith PRIORITIES_HEADER ln) eqn:Ep; [by apply IH|].
    destruct Hln as [?|Hln]; [done|].
    rewrite Hln, andb_false_r. by apply IH.
Qed.

Lemma sectionBounds_last_section before earlier hdr body post :
  noHeader PRIORITIES_HEADER before →
  earlierSections earlier →
  startsWith PRIORITIES_HEADER hdr = true →
  noHeaders body → sectionEnd post →
  sectionBounds ((before ++ earlier) ++ hdr :: body ++ post) 0 None
  = (Some (S (length (before ++ earlier))),
     if post is [] then None
     else Some (S (length (before ++ earlier)) + length body)%nat).
Proof.
  intros Hpre Hear Hh Hb He.
  rewrite <- app_assoc, sectionBounds_pre by done.
  destruct (sectionBounds_earlier earlier (hdr :: body ++ post)
              (0 + length before) None Hear) as [s' ->].
  rewrite length_app. cbn [sectionBounds Nat.add]. rewrite Hh.
  rewrite sectionBounds_body by done.
  destruct He as [->|(stop & post' & -> & H2' & Hp)]; [done|].
  cbn [sectionBounds]. rewrite Hp, H2'.
  by rewrite bool_decide_true by by eexists.
Qed.

Lemma writePriorities_last_section now lines st c before earlier hdr body
    post :
  daily (ensureDailyNote (today now) st) !! dailyPath (today now) = Some c →
  splitLines c = before ++ earlier ++ hdr :: body ++ post →
  noHeader PRIORITIES_HEADER before →
  earlierSections earlier →
  startsWith PRIORITIES_HEADER hdr = true →
  noHeaders body → sectionEnd post →
  writePriorities now lines st
  = writeNote (today now)
      (joinLines (before ++ earlier ++ hdr :: lines ++ [] :: post))
      (ensureDailyNote (today now) st).
Proof.
  intros Hc Hl Hpre Hear Hh Hb He.
  rewrite (writePriorities_eq now lines st c Hc), Hl.
  rewrite !(app_assoc before earlier).
  rewrite sectionBounds_last_section by done. f_equal. f_equal.
  rewrite spliceLines_section; [by rewrite <- (app_assoc lines [[]] post)|].
  by destruct post.
Qed.

(** Behind a Priorities header the lines split into earlier sections, the
    last header, its body and what ends it. *)
Lemma last_section_behind rest : ∀ h0,
  startsWith PRIORITIES_HEADER h0 = true →
  ∃ earlier hdr body post,
    h0 :: rest = earlier ++ hdr :: body ++ post
    ∧ earlierSections earlier
    ∧ startsWith PRIORITIES_HEADER hdr = true
    ∧ noHeaders body ∧ sectionEnd post.
Proof.
  induction rest as [|ln rest IH]; intros h0 Hh0.
  - exists [], h0, [], []. split_and!; [done|constructor|done|constructor|].
    by left.
  - destruct (startsWith PRIORITIES_HEADER ln) eqn:Ep.
    + destruct (IH ln Ep) as (earlier & hdr & body & post & E & He & Hh & Hb & Hp).
      exists (h0 :: earlier), hdr, body, post.
      split_and!; [by rewrite E|constructor; [by left|done]|done..].
    + destruct (startsWith H2 ln) eqn:E2.
      * exists [], h0, [], (ln :: rest).
        split_and!; [done|constructor|done|constructor|].
        right. by exists ln, rest.
      * destruct (IH h0 Hh0)
          as (earlier & hdr & body & post & E & He & Hh & Hb & Hp).
        destruct earlier as [|e0 earlier].
        -- cbn [app] in E. injection E as <- ->.
           exists [], h0, (ln :: body), post.
           split_and!; [done|constructor|done|by constructor|done].
        -- cbn [app] in E. injection E as <- ->.
           apply Forall_cons in He as [He0 He].
           exists (h0 :: ln :: earlier), hdr, body, post.
           split_and!; [done| |done..].
           constructor; [done|]. constructor; [by right|done].
Qed.

Lemma section_or_none ls :
  noHeader PRIORITIES_HEADER ls
  ∨ ∃ before earlier hdr body post,
      ls = before ++ earlier ++ hdr :: body ++ post
      ∧ noHeader PRIORITIES_HEADER before
      ∧ earlierSections earlier
      ∧ startsWith PRIORITIES_HEADER hdr = true
      ∧ noHeaders body ∧ sectionEnd post.
Proof.
  induction ls as [|ln ls IH]; [left; constructor|].
  destruct (startsWith PRIORITIES_HEADER ln) eqn:Ep.
  - right. destruct (last_section_behind ls ln Ep)
      as (earlier & hdr & body & post & E & He & Hh & Hb & Hp).
    exists [], earlier, hdr, body, post. split_and!; try done. constructor.
  - destruct IH as [IH|(before & earlier & hdr & body & post & -> & H)].
    + left. by constructor.
    + right. exists (ln :: before), earlier, hdr, body, post.
      destruct H as (Hbf & He & Hh & Hb & Hp).
      split_and!; try done. by constructor.
Qed.

(** X15: [writePriorities(lines)] rewrites the body of one Priorities
    section of today's note.  A line that starts with [## Priorities]
    opens the section again, and the first other header behind such a
    line, or the end of the text, ends it.  So the body replaced is the one
    behind the last [## Priorities] line before that end: the lines before
    the first such line, the earlier sections with their headers and
    bodies, and the lines from the end on stay as they were, and the body
    gives way to the given lines and one empty line.  Every text has such
    a section or has no line that starts with [## Priorities]; then
    nothing is written. *)
Theorem writePriorities_spec now lines st c :
  daily (ensureDailyNote (today now) st) !! dailyPath (today now) = Some c →
  (∀ before earlier hdr body post,
     splitLines c = before ++ earlier ++ hdr :: body ++ post →
     noHeader PRIORITIES_HEADER before →
     earlierSections earlier →
     startsWith PRIORITIES_HEADER hdr = true →
     noHeaders body → sectionEnd post →
     writePriorities now lines st
     = writeNote (today now)
         (joinLines (before ++ earlier ++ hdr :: lines ++ [] :: post))
         (ensureDailyNote (today now) st))
  ∧ (noHeader PRIORITIES_HEADER (splitLines c) →
     writePriorities now lines st = ensureDailyNote (today now) st)
  ∧ (noHeader PRIORITIES_HEADER (splitLines c)
     ∨ ∃ before earlier hdr body post,
         splitLines c = before ++ earlier ++ hdr :: body ++ post
         ∧ noHeader PRIORITIES_HEADER before
         ∧ earlierSections earlier
         ∧ startsWith PRIORITIES_HEADER hdr = true
         ∧ noHeaders body ∧ sectionEnd post).
Proof.
  intros Hc. split_and!.
  - intros before earlier hdr body post.
    by apply writePriorities_last_section.
  - intros Hn. rewrite (writePriorities_eq now lines st c Hc).
    pose proof (sectionBounds_noHeader (splitLines c) 0 Hn) as H.
    by destruct (sectionBounds (splitLines c) 0 None) as [[s|] e].
  - apply section_or_none.
Qed.

Lemma writePriorities_spec_witness :
  writePriorities exampleClock [js "- [x] write"; js "- [ ] read"]
    (noteFs exampleDate
       ["# Friday"; "## Priorities"; "a"; "## Priorities B"; "b"; "## Log";
        "c"]%string)
  = noteFs exampleDate
      ["# Friday"; "## Priorities"; "a"; "## Priorities B"; "- [x] write";
       "- [ ] read"; blank; "## Log"; "c"]%string.
Proof.
  destruct (writePriorities_spec exampleClock
              [js "- [x] write"; js "- [ ] read"]
              (noteFs exampleDate
                 ["# Friday"; "## Priorities"; "a"; "## Priorities B"; "b";
                  "## Log"; "c"]%string)
              (joinLines
                 (js <$> ["# Friday"; "## Priorities"; "a"; "## Priorities B";
                          "b"; "## Log"; "c"]%string))) as (H & _ & _).
  - by vm_compute.
  - etrans.
    + apply (H [js "# Friday"] (js <$> ["## Priorities"; "a"]%string)
               (js "## Priorities B") [js "b"]
               (js <$> ["## Log"; "c"]%string)).
      * by vm_compute.
      * by repeat constructor.
      * constructor; [by left|]. constructor; [by right|constructor].
      * by vm_compute.
      * by repeat constructor.
      * right. eexists _, _. by split_and!.
    + by vm_compute.
Defined.

(** ** Reading back what was written *)

Lemma priorityOfLine_checked t :
  plainText t →
  priorityOfLine (CHECKED_x ++ t) = Some {| text := t; done := true |}.
Proof. intros Ht. unfold priorityOfLine. by rewrite doneRe_plain_x. Qed.

Lemma getPriorities_after_write now lines st c pre hdr body post :
  daily (ensureDailyNote (today now) st) !! dailyPath (today now) = Some c →
  splitLines c = pre ++ hdr :: body ++ post →
  noHeader PRIORITIES_HEADER pre →
  startsWith PRIORITIES_HEADER hdr = true →
  noHeaders body → sectionEnd post →
  Forall (λ l, 10 ∉ l) lines → sectionBody lines →
  getPriorities now None (writePriorities now lines st)
  = (omap priorityOfLine lines, writePriorities now lines st).
Proof.
  intros Hc Hl Hpre Hh Hb He Hnl Hsb.
  rewrite (writePriorities_section now lines st c pre hdr body post) by done.
  change (getPriorities now None ?s)
    with (getPriorities now (Some (today now)) s).
  rewrite (getPriorities_eq now (today now) _ _ (writeNote_lookup _ _ _)).
  f_equal.
  pose proof (splitLines_no_newline c) as Hall. rewrite Hl in Hall.
  apply Forall_app in Hall as [Hn1 Hall].
  apply Forall_cons in Hall as [Hn2 Hall].
  apply Forall_app in Hall as [_ Hn3].
  rewrite splitLines_joinLines.
  2: { by destruct pre. }
  2: { apply Forall_app. split; [done|]. constructor; [done|].
       apply Forall_app. split; [done|]. constructor; [|done].
       by intros ?%elem_of_nil. }
  rewrite prioritiesLoop_pre by done. cbn [prioritiesLoop]. rewrite Hh.
  change (lines ++ [] :: post) with (lines ++ [[]] ++ post).
  rewrite app_assoc, prioritiesLoop_body.
  2: { apply Forall_app. split; [done|]. by repeat constructor. }
  rewrite prioritiesLoop_end by done.
  rewrite omap_app, app_nil_r.
  assert (omap priorityOfLine [[]] = []) as -> by by vm_compute.
  by rewrite app_nil_r.
Qed.

Lemma linesOfItems_plain items :
  Forall (λ p, plainText (text p)) items →
  Forall (λ l, 10 ∉ l) (linesOfItems items)
  ∧ sectionBody (linesOfItems items)
  ∧ omap priorityOfLine (linesOfItems items) = items.
Proof.
  induction 1 as [|[t d] items Ht _ (IH1 & IH2 & IH3)].
  - by split_and!; [constructor|constructor|].
  - cbn [text] in Ht. cbn [linesOfItems fmap list_fmap text done].
    fold (linesOfItems items).
    assert (Hnt : 10 ∉ t) by (apply isDot_no_newline; by destruct Ht).
    split_and!.
    + constructor; [|done].
      destruct d; rewrite not_elem_of_app; (split; [not_in_literal|done]).
    + constructor; [|done]. intros H.
      destruct d; by apply (startsWith_head _ _ 35) in H.
    + cbn [omap list_omap]. fold (omap priorityOfLine (linesOfItems items)).
      rewrite IH3. destruct d.
      * by rewrite priorityOfLine_checked.
      * by rewrite priorityOfLine_unchecked.
Qed.

(** X16: what [/priorities] writes is read back.  On a note whose Priorities
    section has no header line in its body, after the items are written,
    checked ones as [- [x] text] and the others as [- [ ] text],
    [getPriorities] returns exactly these items, when every text is plain
    (it starts with a non-space character and holds no line terminator);
    so after a toggle it returns the items with that one item toggled. *)
Theorem priorities_round_trip now items st c pre hdr body post :
  daily (ensureDailyNote (today now) st) !! dailyPath (today now) = Some c →
  splitLines c = pre ++ hdr :: body ++ post →
  noHeader PRIORITIES_HEADER pre →
  startsWith PRIORITIES_HEADER hdr = true →
  noHeaders body → sectionEnd post →
  Forall (λ p, plainText (text p)) items →
  getPriorities now None (writePriorities now (linesOfItems items) st)
  = (items, writePriorities now (linesOfItems items) st)
  ∧ ∀ selected p,
      lookupZ items selected = Some p →
      ∃ st',
        togglePriority now selected items st
        = Some (<[Z.to_nat selected :=
                    {| text := text p; done := negb (done p) |}]> items, st')
        ∧ getPriorities now None st'
          = (<[Z.to_nat selected :=
                 {| text := text p; done := negb (done p) |}]> items, st').
Proof.
  intros Hc Hl Hpre Hh Hb He Hitems.
  assert (Hgen : ∀ its, Forall (λ p, plainText (text p)) its →
            getPriorities now None (writePriorities now (linesOfItems its) st)
            = (its, writePriorities now (linesOfItems its) st)).
  { intros its Hits. destruct (linesOfItems_plain its Hits) as (H1 & H2 & H3).
    rewrite (getPriorities_after_write now _ st c pre hdr body post) by done.
    by rewrite H3. }
  split; [by apply Hgen|].
  intros selected p Hp. unfold togglePriority. rewrite Hp. cbn.
  eexists. split; [done|]. apply Hgen.
  apply Forall_insert; [done|]. cbn [text].
  unfold lookupZ in Hp. destruct (0 <=? selected)%Z; [|done].
  by apply (Forall_lookup_1 _ _ _ _ Hitems Hp).
Qed.

Lemma priorities_round_trip_witness :
  (getPriorities exampleClock None
     (writePriorities exampleClock
        (linesOfItems [{| text := js "write"; done := false |};
                       {| text := js "read"; done := true |}])
        (noteFs exampleDate priorityNote))).1
  = [{| text := js "write"; done := false |};
     {| text := js "read"; done := true |}].
Proof.
  destruct (priorities_round_trip exampleClock
              [{| text := js "write"; done := false |};
               {| text := js "read"; done := true |}]
              (noteFs exampleDate priorityNote)
              (joinLines (js <$> priorityNote))
              (js <$> ["# Friday"; "- [ ] before"]%string)
              (js "## Priorities")
              (js <$> ["- [ ] write"; "- [X] read"; "note"; "- [x] "]%string)
              (js <$> ["## Log"; "- [ ] after"]%string)) as [H _].
  - by vm_compute.
  - by vm_compute.
  - by repeat constructor.
  - by vm_compute.
  - by repeat constructor.
  - right. eexists _, _. by split_and!.
  - apply Forall_cons; split; [|apply Forall_cons; split; [|by constructor]];
      (split; [|by vm_compute; repeat constructor]).
    + exists 119, (js "rite"). by vm_compute.
    + exists 114, (js "ead"). by vm_compute.
  - by rewrite H.
Defined.

Lemma trim_plain l :
  trim l ≠ [] → Forall (λ x, isDot x = true) (trim l) → plainText (trim l).
Proof.
  intros Hne Hd. split; [|done].
  destruct (trim l) as [|x t] eqn:E; [done|]. exists x, t. split; [done|].
  apply (trim_ends l). left. by rewrite E.
Qed.

Lemma linesOfInput_plain ls :
  Forall (λ l, Forall (λ x, isDot x = true) (trim l)) ls →
  Forall (λ l, 10 ∉ l)
    ((λ l, PLACEHOLDER ++ trim l) <$> filter (λ l, trim l ≠ []) ls)
  ∧ sectionBody ((λ l, PLACEHOLDER ++ trim l) <$> filter (λ l, trim l ≠ []) ls)
  ∧ omap priorityOfLine
      ((λ l, PLACEHOLDER ++ trim l) <$> filter (λ l, trim l ≠ []) ls)
    = (λ l, {| text := trim l; done := false |})
        <$> filter (λ l, trim l ≠ []) ls.
Proof.
  induction 1 as [|l ls Hl _ (IH1 & IH2 & IH3)].
  - by split_and!; [constructor|constructor|].
  - rewrite filter_cons. destruct (decide (trim l ≠ [])) as [Hne|]; [|done].
    rewrite !fmap_cons. split_and!.
    + constructor; [|done]. rewrite not_elem_of_app.
      split; [not_in_literal|by apply isDot_no_newline].
    + constructor; [|done]. intros H.
      by apply (startsWith_head _ _ 35) in H.
    + cbn [omap list_omap].
      rewrite priorityOfLine_unchecked by by apply trim_plain.
      f_equal. apply IH3.
Qed.

(** X17: the priorities set from the editor are read back.  On a note whose
    Priorities section has no header line in its body, when the text of the
    editor is not blank and no line of it holds a line terminator inside
    its trimmed text, [getPriorities] afterwards returns one unchecked item
    for each line with visible text, trimmed, in the order of the lines. *)
Theorem setPriorities_round_trip now input st c pre hdr body post :
  daily (ensureDailyNote (today now) st) !! dailyPath (today now) = Some c →
  splitLines c = pre ++ hdr :: body ++ post →
  noHeader PRIORITIES_HEADER pre →
  startsWith PRIORITIES_HEADER hdr = true →
  noHeaders body → sectionEnd post →
  trim input ≠ [] →
  Forall (λ l, Forall (λ x, isDot x = true) (trim l)) (splitLines input) →
  getPriorities now None (setPriorities now (Some input) st)
  = ((λ l, {| text := trim l; done := false |})
       <$> filter (λ l, trim l ≠ []) (splitLines input),
     setPriorities now (Some input) st).
Proof.
  intros Hc Hl Hpre Hh Hb He Hin Hd.
  unfold setPriorities. rewrite bool_decide_true by done.
  destruct (linesOfInput_plain _ Hd) as (H1 & H2 & H3).
  unfold linesOfInput.
  rewrite (getPriorities_after_write now _ st c pre hdr body post) by done.
  by rewrite H3.
Qed.

Lemma setPriorities_round_trip_witness :
  (getPriorities exampleClock None
     (setPriorities exampleClock (Some (js "  ship it  ")) 
        (noteFs exampleDate priorityNote))).1
  = [{| text := js "ship it"; done := false |}].
Proof.
  rewrite (setPriorities_round_trip exampleClock (js "  ship it  ")
             (noteFs exampleDate priorityNote)
             (joinLines (js <$> priorityNote))
             (js <$> ["# Friday"; "- [ ] before"]%string)
             (js "## Priorities")
             (js <$> ["- [ ] write"; "- [X] read"; "note"; "- [x] "]%string)
             (js <$> ["## Log"; "- [ ] after"]%string)).
  - by vm_compute.
  - by vm_compute.
  - by vm_compute.
  - by repeat constructor.
  - by vm_compute.
  - by repeat constructor.
  - right. eexists _, _. by split_and!.
  - by vm_compute.
  - by vm_compute; repeat constructor.
Defined.

(** ** The key handlers *)

Lemma lookupZ_inRange {A} (a : list A) i :
  inRange a i ↔ is_Some (lookupZ a i).
Proof.
  unfold inRange, lookupZ. destruct (Z.leb_spec 0 i).
  - rewrite lookup_lt_is_Some. lia.
  - split; [lia|]. by intros [? ?].
Qed.

Section KeyFacts.
Variable matchesKey : jsstring → jsstring → bool.
Variables Key_escape Key_up Key_down Key_left Key_right Key_enter
  Key_space : jsstring.

Lemma dashboardRun_range inputs : ∀ s,
  inRange sections s →
  inRange sections
    (dashboardRun matchesKey Key_escape Key_left Key_right inputs s).
Proof.
  unfold dashboardRun.
  induction inputs as [|d inputs IH]; intros s Hs; [done|].
  cbn [foldl]. apply IH. unfold dashboardInput, inRange in *.
  change (Z.of_nat (length sections)) with 5%Z in *.
  repeat case_match; cbn [fst]; lia.
Qed.

Lemma searchRun_snoc results inputs d s0 :
  searchRun matchesKey Key_escape Key_up Key_down Key_enter results
    (inputs ++ [d]) s0
  = let '(s, evs) :=
      searchRun matchesKey Key_escape Key_up Key_down Key_enter results
        inputs s0 in
    let '(s', ev) :=
      searchInput matchesKey Key_escape Key_up Key_down Key_enter
        results d s in
    (s', evs ++ option_list ev).
Proof.
  unfold searchRun. rewrite foldl_app. cbn [foldl].
  by destruct (foldl _ _ inputs) as [s evs].
Qed.

Lemma searchRun_nonempty results inputs :
  results ≠ [] →
  let '(s, evs) :=
    searchRun matchesKey Key_escape Key_up Key_down Key_enter results
      inputs 0%Z in
  inRange results s
  ∧ Forall (λ ev, ∀ r, ev = OnSelect r → r ∈ results) evs.
Proof.
  intros Hne.
  induction inputs as [|d inputs IH] using rev_ind.
  - cbn. split; [|constructor]. unfold inRange. destruct results; [done|].
    cbn [length]. lia.
  - rewrite searchRun_snoc.
    destruct (searchRun _ _ _ _ _ results inputs 0%Z) as [s evs].
    destruct IH as [Hs Hev]. unfold searchInput.
    destruct (matchesKey d Key_escape).
    { split; [done|]. apply Forall_app. split; [done|].
      by repeat constructor. }
    destruct (matchesKey d Key_up || matchesKey d (js "k")).
    { cbn [option_list]. rewrite app_nil_r.
      split; [unfold inRange in *; lia|done]. }
    destruct (matchesKey d Key_down || matchesKey d (js "j")).
    { cbn [option_list]. rewrite app_nil_r.
      split; [unfold inRange in *; lia|done]. }
    destruct (matchesKey d Key_enter).
    { split; [done|]. apply Forall_app. split; [done|].
      destruct (lookupZ results s) as [r|] eqn:Hr; cbn; [|constructor].
      repeat constructor. intros r' [= <-].
      unfold lookupZ in Hr. destruct (0 <=? s)%Z; [|done].
      by apply list_elem_of_lookup_2 in Hr. }
    cbn [option_list]. by rewrite app_nil_r.
Qed.

Lemma searchRun_empty inputs :
  let '(s, evs) :=
    searchRun matchesKey Key_escape Key_up Key_down Key_enter [] inputs 0%Z in
  (s = 0 ∨ s = -1)%Z ∧ Forall (λ ev, ev = OnClose) evs.
Proof.
  induction inputs as [|d inputs IH] using rev_ind.
  - cbn. split; [by left|constructor].
  - rewrite searchRun_snoc.
    destruct (searchRun _ _ _ _ _ [] inputs 0%Z) as [s evs].
    destruct IH as [Hs Hev]. unfold searchInput.
    cbn [length].
    destruct (matchesKey d Key_escape).
    { split; [done|]. apply Forall_app. split; [done|].
      by repeat constructor. }
    destruct (matchesKey d Key_up || matchesKey d (js "k")).
    { cbn [option_list]. rewrite app_nil_r. split; [lia|done]. }
    destruct (matchesKey d Key_down || matchesKey d (js "j")).
    { cbn [option_list]. rewrite app_nil_r. split; [lia|done]. }
    destruct (matchesKey d Key_enter).
    { split; [done|]. apply Forall_app. split; [done|].
      unfold lookupZ. destruct (0 <=? s)%Z; [|constructor].
      rewrite lookup_nil. constructor. }
    cbn [option_list]. by rewrite app_nil_r.
Qed.

Lemma prioritiesRun_snoc inputs now d v :
  prioritiesRun matchesKey Key_escape Key_up Key_down Key_enter Key_space
    (inputs ++ [(now, d)]) v
  = v' ← prioritiesRun matchesKey Key_escape Key_up Key_down Key_enter
           Key_space inputs v;
    fst <$> prioritiesInput matchesKey Key_escape Key_up Key_down
              Key_enter Key_space now d v'.
Proof. unfold prioritiesRun. by rewrite foldl_app. Qed.

Lemma prioritiesInput_keeps now d v :
  inRange (items v) (selected v) →
  ∃ v' closed,
    prioritiesInput matchesKey Key_escape Key_up Key_down Key_enter
      Key_space now d v = Some (v', closed)
    ∧ inRange (items v') (selected v')
    ∧ text <$> items v' = text <$> items v
    ∧ (reindexQueued v = true → reindexQueued v' = true)
    ∧ (reindexQueued v' = true ∨ vault v' = vault v).
Proof.
  intros Hr. unfold prioritiesInput.
  destruct (matchesKey d Key_escape || matchesKey d (js "q"));
    [eexists _, _; split_and!; try done; by right|].
  destruct (matchesKey d Key_up || matchesKey d (js "k")).
  { eexists _, _. split; [done|]. cbn. unfold inRange in *.
    split_and!; [lia|lia|done|done|by right]. }
  destruct (matchesKey d Key_down || matchesKey d (js "j")).
  { eexists _, _. split; [done|]. cbn. unfold inRange in *.
    split_and!; [lia|lia|done|done|by right]. }
  destruct (matchesKey d Key_space || matchesKey d Key_enter);
    [|eexists _, _; split_and!; try done; by right].
  apply lookupZ_inRange in Hr as Hp. destruct Hp as [p Hp].
  unfold togglePriority. rewrite Hp. cbn.
  eexists _, _. split; [done|]. cbn. split_and!; [| |done|by left].
  - unfold inRange in *. by rewrite length_insert.
  - unfold lookupZ in Hp. case_match; [|done].
    rewrite list_fmap_insert. cbn [text].
    apply list_insert_id. rewrite list_lookup_fmap. by rewrite Hp.
Qed.
End KeyFacts.

(** X18: the selection of the two views of [ui.ts] stays on an item.  After
    any inputs the dashboard selects one of its five sections.  With search
    results the selection of the result list stays within them and
    [onSelect] only ever gets one of the results; without results the
    selection is 0 or -1 and [onSelect] is never called. *)
Theorem ui_selection_in_range
    (matchesKey : jsstring → jsstring → bool)
    (Key_escape Key_up Key_down Key_left Key_right Key_enter : jsstring)
    (results : list SearchResult) (inputs : list jsstring) :
  is_Some (lookupZ sections
             (dashboardRun matchesKey Key_escape Key_left Key_right inputs 0))
  ∧ (let '(s, evs) :=
       searchRun matchesKey Key_escape Key_up Key_down Key_enter results
         inputs 0%Z in
     (results ≠ [] →
        is_Some (lookupZ results s)
        ∧ Forall (λ ev, ∀ r, ev = OnSelect r → r ∈ results) evs)
     ∧ (results = [] →
          (s = 0 ∨ s = -1)%Z ∧ Forall (λ ev, ev = OnClose) evs)).
Proof.
  split.
  - apply lookupZ_inRange, dashboardRun_range. by vm_compute.
  - pose proof (searchRun_nonempty matchesKey Key_escape Key_up Key_down
                  Key_enter results inputs) as H1.
    pose proof (searchRun_empty matchesKey Key_escape Key_up Key_down
                  Key_enter inputs) as H2.
    destruct (searchRun _ _ _ _ _ results inputs 0%Z) as [s evs] eqn:E.
    split.
    + intros Hne. destruct (H1 Hne) as [Hs Hev].
      split; [by apply lookupZ_inRange|done].
    + intros ->. by rewrite E in H2.
Qed.

Lemma ui_selection_in_range_witness :
  is_Some (lookupZ sections
             (dashboardRun (λ data key, bool_decide (data = key))
                (js "escape") (js "left") (js "right")
                [js "right"; js "l"; js "l"; js "l"; js "l"; js "l"] 0))
  ∧ searchRun (λ data key, bool_decide (data = key))
      (js "escape") (js "up") (js "down") (js "enter") []
      [js "down"; js "enter"] 0%Z = ((-1)%Z, []).
Proof.
  split; [|by vm_compute].
  apply (ui_selection_in_range (λ data key, bool_decide (data = key))
           (js "escape") (js "up") (js "down") (js "left") (js "right")
           (js "enter") []
           [js "right"; js "l"; js "l"; js "l"; js "l"; js "l"]).
Defined.

(** X19: the toggle view of [/priorities] never fails and keeps its items.
    From a view whose selection is on an item, any inputs are handled
    without a [TypeError]; afterwards the selection is still on an item,
    the texts of the items are the same, in the same order, and the flag
    that queues the re-index is set unless the vault is as it was. *)
Theorem priorities_view_invariant
    (matchesKey : jsstring → jsstring → bool)
    (Key_escape Key_up Key_down Key_enter Key_space : jsstring)
    (inputs : list (Clock * jsstring)) (v : PrioritiesView) :
  inRange (items v) (selected v) →
  ∃ v',
    prioritiesRun matchesKey Key_escape Key_up Key_down Key_enter Key_space
      inputs v = Some v'
    ∧ inRange (items v') (selected v')
    ∧ text <$> items v' = text <$> items v
    ∧ (reindexQueued v = true → reindexQueued v' = true)
    ∧ (reindexQueued v' = true ∨ vault v' = vault v).
Proof.
  intros Hr. induction inputs as [|[now d] inputs IH] using rev_ind.
  - exists v. split_and!; try done. by right.
  - destruct IH as (v1 & E1 & Hr1 & Ht1 & Hq1 & Hv1).
    rewrite prioritiesRun_snoc, E1. cbn.
    destruct (prioritiesInput_keeps matchesKey Key_escape Key_up Key_down
                Key_enter Key_space now d v1 Hr1)
      as (v2 & cl & E2 & Hr2 & Ht2 & Hq2 & Hv2).
    rewrite E2. exists v2. cbn. split_and!; [done|done|congruence|tauto|].
    destruct Hv2 as [?|Hv2]; [by left|].
    destruct Hv1 as [?|Hv1]; [left; tauto|right; congruence].
Qed.

Lemma priorities_view_invariant_witness :
  ∃ v',
    prioritiesRun (λ data key, bool_decide (data = key))
      (js "escape") (js "up") (js "down") (js "enter") (js "space")
      [(exampleClock, js "down"); (exampleClock, js "down");
       (exampleClock, js "space")]
      {| selected := 0;
         items := [{| text := js "write"; done := false |};
                   {| text := js "read"; done := true |}];
         vault := noteFs exampleDate priorityNote;
         reindexQueued := false |} = Some v'
    ∧ selected v' = 1%Z
    ∧ items v' = [{| text := js "write"; done := false |};
                  {| text := js "read"; done := false |}]
    ∧ reindexQueued v' = true.
Proof.
  destruct (priorities_view_invariant (λ data key, bool_decide (data = key))
              (js "escape") (js "up") (js "down") (js "enter") (js "space")
              [(exampleClock, js "down"); (exampleClock, js "down");
               (exampleClock, js "space")]
              {| selected := 0;
                 items := [{| text := js "write"; done := false |};
                           {| text := js "read"; done := true |}];
                 vault := noteFs exampleDate priorityNote;
                 reindexQueued := false |}) as (v' & E & _).
  - by vm_compute.
  - exists v'. split; [done|].
    vm_compute in E. injection E as <-. by vm_compute.
Defined.

(** ** The [context] event *)

Section ContextFacts.
Context {A : Type}.
Variable customType : A → option jsstring.

Lemma pruneLoop_pruning pre : ∀ rest l,
  (Z.of_nat (length pre) ≤ l)%Z →
  pruneLoop customType (length pre) (pre ++ rest) l
  = Some (otherMessages customType pre ++ rest,
          (l - (Z.of_nat (length pre)
                - Z.of_nat (length (otherMessages customType pre))))%Z).
Proof.
  induction pre as [|x pre IH] using rev_ind; intros rest l Hl.
  - cbn. f_equal. f_equal. lia.
  - rewrite length_app in *. cbn [length] in *. rewrite Nat.add_1_r in *.
    cbn [pruneLoop].
    rewrite <- app_assoc. cbn [app].
    rewrite list_lookup_middle by done. cbn.
    unfold otherMessages. rewrite filter_app.
    destruct (isBrainContext customType x) eqn:Hx.
    + rewrite (proj2 (Z.eqb_neq l (-1))) by lia.
      replace (delete (length pre) (pre ++ x :: rest)) with (pre ++ rest).
      2: { by rewrite delete_middle. }
      rewrite IH by lia.
      rewrite filter_cons_False by by rewrite Hx.
      rewrite filter_nil, app_nil_r. f_equal. f_equal. unfold otherMessages. lia.
    + rewrite IH by lia.
      rewrite filter_cons_True by done. rewrite filter_nil.
      rewrite <- app_assoc. cbn [app]. f_equal. f_equal.
      rewrite length_app. cbn [length]. unfold otherMessages. lia.
Qed.

Lemma pruneLoop_others post : ∀ pre rest,
  Forall (λ m, isBrainContext customType m = false) post →
  pruneLoop customType (length (pre ++ post)) (pre ++ post ++ rest) (-1)
  = pruneLoop customType (length pre) (pre ++ post ++ rest) (-1).
Proof.
  induction post as [|x post IH] using rev_ind; intros pre rest Hp.
  - by rewrite app_nil_r.
  - apply Forall_app in Hp as [Hp Hx]. rewrite Forall_singleton in Hx.
    rewrite (app_assoc pre post [x]).
    rewrite (length_app (pre ++ post)). cbn [length]. rewrite Nat.add_1_r.
    cbn [pruneLoop].
    rewrite <- (app_assoc post [x] rest). cbn [app].
    rewrite (app_assoc pre post (x :: rest)).
    rewrite (list_lookup_middle (pre ++ post) rest x) by done. cbn.
    rewrite Hx. rewrite <- app_assoc.
    by rewrite <- (IH pre (x :: rest) Hp).
Qed.

Lemma pruneLoop_nothing messages :
  Forall (λ m, isBrainContext customType m = false) messages →
  pruneLoop customType (length messages) messages (-1)
  = Some (messages, (-1)%Z).
Proof.
  intros H.
  pose proof (pruneLoop_others messages [] [] H) as E.
  cbn [app length] in E. by rewrite app_nil_r in E.
Qed.

Lemma pruneLoop_last pre m post :
  isBrainContext customType m = true →
  Forall (λ x, isBrainContext customType x = false) post →
  pruneLoop customType (length (pre ++ m :: post)) (pre ++ m :: post) (-1)
  = Some (otherMessages customType pre ++ m :: post,
          Z.of_nat (length (otherMessages customType pre))).
Proof.
  intros Hm Hpost.
  pose proof (pruneLoop_others post (pre ++ [m]) [] Hpost) as E.
  rewrite app_nil_r, <- !app_assoc in E. cbn [app] in E. rewrite E.
  rewrite length_app. cbn [length]. rewrite Nat.add_1_r. cbn [pruneLoop].
  rewrite list_lookup_middle by done. cbn. rewrite Hm.
  rewrite pruneLoop_pruning by lia. f_equal. f_equal. lia.
Qed.
End ContextFacts.

(** X20: the [context] event keeps only the last context message of the
    second brain.  The loop never reads past the messages; messages without
    such a context message come back as they are; otherwise every earlier
    context message is removed, all other messages stay in their order, and
    [lastBrainIdx] ends at the index of the message that is kept. *)
Theorem pruneContext_spec {A} (customType : A → option jsstring)
    (messages : list A) :
  (Forall (λ m, isBrainContext customType m = false) messages →
   pruneLoop customType (length messages) messages (-1)
   = Some (messages, (-1)%Z)
   ∧ pruneContext customType messages = Some messages)
  ∧ (∀ pre m post,
       messages = pre ++ m :: post →
       isBrainContext customType m = true →
       Forall (λ x, isBrainContext customType x = false) post →
       ∃ idx,
         pruneLoop customType (length messages) messages (-1)
         = Some (otherMessages customType pre ++ m :: post, idx)
         ∧ lookupZ (otherMessages customType pre ++ m :: post) idx = Some m
         ∧ pruneContext customType messages
           = Some (otherMessages customType pre ++ m :: post)).
Proof.
  split.
  - intros H. unfold pruneContext. by rewrite pruneLoop_nothing.
  - intros pre m post -> Hm Hpost. unfold pruneContext.
    rewrite pruneLoop_last by done. eexists. split_and!; [done| |done].
    unfold lookupZ. rewrite (proj2 (Z.leb_le _ _)) by lia.
    rewrite Nat2Z.id. by rewrite list_lookup_middle.
Qed.

Lemma pruneContext_spec_witness :
  pruneContext (λ m : string * option jsstring, m.2)
    [("old", Some (js "second-brain-context")); ("question", None);
     ("new", Some (js "second-brain-context")); ("answer", Some (js "other"))]%string
  = Some [("question", None); ("new", Some (js "second-brain-context"));
          ("answer", Some (js "other"))]%string.
Proof.
  destruct (pruneContext_spec (λ m : string * option jsstring, m.2)
    [("old", Some (js "second-brain-context")); ("question", None);
     ("new", Some (js "second-brain-context")); ("answer", Some (js "other"))]%string)
    as [_ H].
  destruct (H [("old", Some (js "second-brain-context")); ("question", None)]%string
              ("new", Some (js "second-brain-context"))%string
              [("answer", Some (js "other"))]%string) as (idx & _ & _ & E).
  - done.
  - by vm_compute.
  - by repeat constructor.
  - by rewrite E.
Defined.

(** ** parseTextSearchResults *)

Lemma trim_id s :
  (∀ c, head s = Some c → isSpace c = false) →
  (∀ c, last s = Some c → isSpace c = false) →
  trim s = s.
Proof.
  intros Hh Hl. unfold trim, trimEnd.
  assert (E1 : trimStart s = s).
  { destruct s as [|c s]; [done|]. cbn [trimStart]. by rewrite (Hh c). }
  rewrite E1.
  assert (E2 : trimStart (rev s) = rev s).
  { destruct (rev s) as [|c s'] eqn:E; [done|]. cbn [trimStart].
    rewrite (Hl c); [done|]. by rewrite <- head_rev, E. }
  rewrite E2. apply rev_involutive.
Qed.

Lemma trim_trim s : trim (trim s) = trim s.
Proof. apply trim_id; intros c H; apply (trim_ends s c); auto. Qed.

Lemma trimmed_ends s c :
  trimmed s → head s = Some c ∨ last s = Some c → isSpace c = false.
Proof. intros <-. apply trim_ends. Qed.

Lemma trim_space_app w s :
  Forall (λ x, isSpace x = true) w → trim (w ++ s) = trim s.
Proof.
  intros Hw. unfold trim. f_equal.
  induction Hw as [|x w Hx _ IH]; [done|]. cbn [app trimStart]. by rewrite Hx.
Qed.

Lemma elem_of_run_lit m s st st' :
  st' ∈ run m (lit s) st → rest st = js s ++ rest st'.
Proof. apply elem_of_run_chrs. Qed.

Lemma match_qmdPath line p :
  match1 false qmdPathRe line = Some p → qmdPath p ∧ p `prefix_of` line.
Proof.
  unfold match1, qmdPathRe.
  change (cat [Bol; ?r]) with (Seq Bol (Seq r Emp)).
  rewrite exec_Bol.
  destruct (head _) as [st|] eqn:E; [|done]. cbn. intros [= <-].
  apply head_elem in E.
  apply elem_of_run_Seq in E as (mid & Hc & ->%elem_of_run_Emp).
  cbn [run] in Hc. apply list_elem_of_fmap in Hc as (st2 & -> & H).
  fold (run false (lit "qmd://") (MState None line None) ≫=
          run false (plus (λ c, negb (isSpace c)))) in H.
  apply list_elem_of_bind in H as (st1 & H2 & H1).
  apply elem_of_run_lit in H1. cbn [rest] in H1.
  apply elem_of_run_plus in H2 as (w & Hr & Hne & Hw & _).
  cbn [rest cap default]. rewrite H1, Hr.
  rewrite !length_app.
  replace (length (js "qmd://") + (length w + length (rest st2))
           - length (rest st2))%nat
    with (length (js "qmd://" ++ w)) by (rewrite length_app; lia).
  rewrite app_assoc, take_app_length. split.
  - exists w. split_and!; [done|done|].
    eapply Forall_impl; [exact Hw|]. intros c Hc. by apply negb_true_iff.
  - by exists (rest st2).
Qed.

Lemma resultOfBlock_shape block r :
  resultOfBlock block = Some r →
  qmdPath (path r) ∧ trimmed (title r) ∧ trimmed (score r)
  ∧ trimmed (snippet r)
  ∧ path r `prefix_of` trim block.
Proof.
  unfold resultOfBlock.
  destruct (match1 _ _ _) as [p|] eqn:E; [|done]. cbn. intros [= <-]. cbn.
  apply match_qmdPath in E as [Hp Hpre]. split_and!.
  - done.
  - destruct (List.find _ _); cbn; [apply trim_trim|done].
  - destruct (List.find _ _); cbn; [apply trim_trim|by vm_compute].
  - apply trim_trim.
  - destruct Hpre as [k Hk].
    rewrite <- (joinLines_splitLines (trim block)).
    destruct (splitLines (trim block)) as [|l ls]; simpl in Hk.
    { by destruct Hp as (n & -> & _). }
    rewrite Hk. destruct ls as [|l' ls].
    + by exists k.
    + rewrite joinLines_cons by done. rewrite <- app_assoc. by eexists.
Qed.

Lemma length_splitFuel sep : ∀ fuel s,
  (length (splitFuel fuel sep s) ≤ S fuel)%nat.
Proof.
  induction fuel as [|fuel IH]; intros s; cbn [splitFuel]; [done|].
  destruct (cutAt sep s) as [[a b]|]; cbn [length]; [|lia].
  specialize (IH b). lia.
Qed.

Lemma omap_length_le {A B} (f : A → option B) l :
  (length (omap f l) ≤ length l)%nat.
Proof.
  induction l as [|x l IH]; [done|]. cbn [omap list_omap].
  destruct (f x); cbn [length]; fold (omap f l); lia.
Qed.

(** X21: what the parser of the text output returns.  Every result has a
    path that is [qmd://] followed by at least one character and holds no
    white space; its title, score and snippet have no white space at their
    ends; there are at most as many results as blocks between blank lines,
    and the path of a result is the start of its block, behind the white
    space the block starts with. *)
Theorem parseTextSearchResults_shape output :
  Forall (λ r, qmdPath (path r) ∧ trimmed (title r) ∧ trimmed (score r)
               ∧ trimmed (snippet r))
    (parseTextSearchResults output)
  ∧ (length (parseTextSearchResults output)
     ≤ length (split BLANK_LINE output))%nat
  ∧ (∀ r, r ∈ parseTextSearchResults output →
       ∃ block, block ∈ split BLANK_LINE output
                ∧ path r `prefix_of` trim block).
Proof.
  split_and!.
  - apply Forall_forall. intros r Hr. unfold parseTextSearchResults in Hr.
    apply list_elem_of_omap in Hr as (block & _ & Hb).
    apply resultOfBlock_shape in Hb. tauto.
  - unfold parseTextSearchResults. apply omap_length_le.
  - intros r Hr. unfold parseTextSearchResults in Hr.
    apply list_elem_of_omap in Hr as (block & Hin & Hb).
    exists block. split; [done|]. apply resultOfBlock_shape in Hb. tauto.
Qed.

(** ** Blocks between blank lines *)

Lemma tight_line l : 10 ∉ l → tight l = true.
Proof.
  induction l as [|c l IH]; [done|]. intros Hn.
  apply not_elem_of_cons in Hn as [Hc Hl]. cbn [tight].
  rewrite (proj2 (N.eqb_neq c 10)) by done. cbn. by apply IH.
Qed.

Lemma tight_join l b :
  10 ∉ l → (∃ c b', b = c :: b' ∧ c ≠ 10) → tight b = true →
  tight (l ++ 10 :: b) = true.
Proof.
  intros Hn (c & b' & -> & Hc) Hb.
  induction l as [|x l IH].
  - cbn [app].
    change (tight (10 :: c :: b'))
      with ((negb (10 =? 10) || negb (c =? 10)) && tight (c :: b')).
    rewrite (proj2 (N.eqb_neq c 10)) by done. by rewrite Hb, N.eqb_refl.
  - apply not_elem_of_cons in Hn as [Hx Hl]. cbn [app tight].
    rewrite (proj2 (N.eqb_neq x 10)) by done. cbn. by apply IH.
Qed.

Lemma tight_joinLines ls :
  ls ≠ [] → Forall (λ l, l ≠ [] ∧ 10 ∉ l) ls →
  tight (joinLines ls) = true
  ∧ ∃ c b', joinLines ls = c :: b' ∧ c ≠ 10.
Proof.
  induction ls as [|l ls IH]; [done|]. intros _ Hall.
  apply Forall_cons in Hall as [[Hne Hn] Hall].
  assert (Hhead : ∀ t, ∃ c b', l ++ t = c :: b' ∧ c ≠ 10).
  { intros t. destruct l as [|c l]; [done|]. exists c, (l ++ t).
    split; [done|]. intros ->. apply Hn. by left. }
  destruct ls as [|l' ls].
  - split; [by apply tight_line|]. destruct (Hhead []) as (c & b' & E & Hc).
    rewrite app_nil_r in E. by exists c, b'.
  - rewrite joinLines_cons by done. destruct IH as [IH1 IH2]; [done|done|].
    split; [by apply tight_join|]. apply Hhead.
Qed.

Lemma cutAt_tight b rest :
  tight b = true → cutAt BLANK_LINE (b ++ BLANK_LINE ++ rest) = Some (b, rest).
Proof.
  induction b as [|c b IH]; intros Hb.
  - by rewrite cutAt_unfold.
  - cbn [tight] in Hb. apply andb_true_iff in Hb as [Hc Hb].
    rewrite cutAt_unfold. cbn [app].
    assert (E : startsWith BLANK_LINE (c :: b ++ BLANK_LINE ++ rest) = false).
    { cbn [startsWith BLANK_LINE]. destruct (N.eqb_spec 10 c) as [<-|]; [|done].
      destruct b as [|d b]; [by rewrite N.eqb_refl in Hc|]. cbn [app].
      rewrite N.eqb_refl in Hc. cbn [negb orb] in Hc.
      apply negb_true_iff in Hc. rewrite N.eqb_sym in Hc.
      cbn [startsWith andb]. by rewrite Hc. }
    change (c :: b ++ BLANK_LINE ++ rest) with (c :: (b ++ BLANK_LINE ++ rest)) in E.
    rewrite E. by rewrite IH.
Qed.

Lemma cutAt_tight_none b : tight b = true → cutAt BLANK_LINE b = None.
Proof.
  induction b as [|c b IH]; intros Hb; [done|].
  cbn [tight] in Hb. apply andb_true_iff in Hb as [Hc Hb].
  rewrite cutAt_unfold.
  assert (E : startsWith BLANK_LINE (c :: b) = false).
  { cbn [startsWith BLANK_LINE]. destruct (N.eqb_spec 10 c) as [<-|]; [|done].
    destruct b as [|d b]; [by rewrite N.eqb_refl in Hc|].
    rewrite N.eqb_refl in Hc. cbn [negb orb] in Hc.
    apply negb_true_iff in Hc. rewrite N.eqb_sym in Hc.
    cbn [startsWith andb]. by rewrite Hc. }
  rewrite E. by rewrite IH.
Qed.

Lemma splitFuel_join bs : ∀ fuel,
  bs ≠ [] → Forall (λ b, tight b = true) bs → (length bs ≤ fuel)%nat →
  splitFuel fuel BLANK_LINE (joinWith BLANK_LINE bs) = bs.
Proof.
  induction bs as [|b bs IH]; [done|]. intros fuel _ Hall Hf.
  apply Forall_cons in Hall as [Hb Hall].
  destruct fuel as [|fuel]; [cbn in Hf; lia|]. cbn [splitFuel].
  destruct bs as [|b' bs].
  - cbn [joinWith]. by rewrite cutAt_tight_none.
  - change (joinWith BLANK_LINE (b :: b' :: bs))
      with (b ++ BLANK_LINE ++ joinWith BLANK_LINE (b' :: bs)).
    rewrite cutAt_tight by done. f_equal. apply IH; [done|done|].
    cbn [length] in *. lia.
Qed.

Lemma length_joinWith_blocks bs :
  (length bs ≤ S (length (joinWith BLANK_LINE bs)))%nat.
Proof.
  induction bs as [|b bs IH]; [cbn; lia|].
  destruct bs as [|b' bs]; [cbn; lia|].
  change (joinWith BLANK_LINE (b :: b' :: bs))
    with (b ++ BLANK_LINE ++ joinWith BLANK_LINE (b' :: bs)).
  rewrite !length_app. cbn [length BLANK_LINE] in *. lia.
Qed.

Lemma split_join bs :
  bs ≠ [] → Forall (λ b, tight b = true) bs →
  split BLANK_LINE (joinWith BLANK_LINE bs) = bs.
Proof.
  intros Hne Hall. unfold split. apply splitFuel_join; [done|done|].
  apply length_joinWith_blocks.
Qed.

(** ** The block of a result *)

Lemma qmdPath_no_space p : qmdPath p → Forall (λ c, isSpace c = false) p.
Proof.
  intros (name & -> & _ & Hn). apply Forall_app. split; [|done].
  by vm_compute; repeat constructor.
Qed.

Lemma no_space_no_newline p : Forall (λ c, isSpace c = false) p → 10 ∉ p.
Proof.
  intros H Hin. rewrite Forall_forall in H. by specialize (H 10 Hin).
Qed.

Lemma blockOf_lines r :
  printable r →
  blockOf r
  = joinLines ([path r; js "Title: " ++ title r; js "Score: " ++ score r]
               ++ splitLines (snippet r))
  ∧ Forall (λ l, l ≠ [] ∧ 10 ∉ l)
      ([path r; js "Title: " ++ title r; js "Score: " ++ score r]
       ++ splitLines (snippet r)).
Proof.
  intros (Hp & [_ Ht] & [_ Hs] & _ & _ & Hl). split.
  - unfold blockOf.
    rewrite (joinLines_app _ (splitLines (snippet r)))
      by apply splitLines_nonempty.
    rewrite joinLines_splitLines.
    change [path r; js "Title: " ++ title r; js "Score: " ++ score r; snippet r]
      with ([path r; js "Title: " ++ title r; js "Score: " ++ score r]
            ++ [snippet r]).
    by rewrite joinLines_app.
  - apply Forall_app. split.
    + constructor; [|constructor; [|constructor; [|constructor]]].
      * split; [by destruct Hp as (n & -> & _)|].
        by apply no_space_no_newline, qmdPath_no_space.
      * split; [done|]. rewrite not_elem_of_app. split; [not_in_literal|done].
      * split; [done|]. rewrite not_elem_of_app. split; [not_in_literal|done].
    + pose proof (splitLines_no_newline (snippet r)) as Hn.
      rewrite Forall_forall in *. intros l Hin. split; [|by apply Hn].
      by destruct (Hl l Hin).
Qed.

Lemma blockOf_tight r : printable r → tight (blockOf r) = true.
Proof.
  intros Hr. destruct (blockOf_lines r Hr) as [-> Hall].
  by apply tight_joinLines.
Qed.

Lemma last_joinLines_snoc ls l :
  l ≠ [] → last (joinLines (ls ++ [l])) = last l.
Proof.
  intros Hne. rewrite joinLines_app by done. cbn [joinLines joinWith].
  rewrite last_app. destruct (last l) eqn:E; [done|]. by apply last_None in E.
Qed.

Lemma blockOf_trimmed r : printable r → trim (blockOf r) = blockOf r.
Proof.
  intros Hr. pose proof Hr as (Hp & _ & _ & Hsn & Hne & _).
  apply trim_id; intros c Hc.
  - destruct Hp as (n & Hp & _). unfold blockOf in Hc.
    rewrite joinLines_cons, Hp in Hc by done. by injection Hc as <-.
  - unfold blockOf in Hc.
    change [path r; js "Title: " ++ title r; js "Score: " ++ score r; snippet r]
      with ([path r; js "Title: " ++ title r; js "Score: " ++ score r]
            ++ [snippet r]) in Hc.
    rewrite last_joinLines_snoc in Hc by done.
    apply (trimmed_ends (snippet r)); auto.
Qed.

Lemma match_qmdPath_whole p :
  qmdPath p → match1 false qmdPathRe p = Some p.
Proof.
  intros (name & -> & Hne & Hn). unfold match1, qmdPathRe.
  change (cat [Bol; ?r]) with (Seq Bol (Seq r Emp)).
  rewrite exec_Bol. cbn [run].
  fold (run false (lit "qmd://")).
  destruct (run_chrs false (js "qmd://")
              (plus (λ c, negb (isSpace c))) None name None) as [pv E].
  change (cat (chr <$> js "qmd://")) with (lit "qmd://") in E.
  change (run false (lit "qmd://") ?st ≫= run false (plus ?p))
    with (run false (Seq (lit "qmd://") (plus p)) st).
  rewrite E.
  destruct name as [|x w]; [done|].
  destruct (run_plus_head false (λ c, negb (isSpace c)) x w pv [] None)
    as (pv' & tl & E').
  { eapply Forall_impl; [exact Hn|]. intros c Hc. cbn. by rewrite Hc. }
  { by left. }
  rewrite app_nil_r in E'. rewrite E'.
  cbn [fmap list_fmap mbind list_bind app head option_fmap option_map
       rest prev cap length]. cbn.
  f_equal. rewrite Nat.sub_0_r. apply firstn_all.
Qed.

Lemma replaceFirst_prefix p t : replaceFirst p [] (p ++ t) = t.
Proof.
  unfold replaceFirst. rewrite cutAt_unfold, startsWith_self.
  by rewrite drop_app_length.
Qed.

Lemma field_value p v :
  p ≠ [] → trimmed v →
  trim (replaceFirst p [] (p ++ 32 :: v)) = v.
Proof.
  intros _ Hv. rewrite replaceFirst_prefix.
  change (32 :: v) with ([32] ++ v). rewrite trim_space_app; [done|].
  by repeat constructor.
Qed.

Lemma isSnippetLine_field pl p t :
  p = TITLE ∨ p = SCORE → isSnippetLine pl (p ++ t) = false.
Proof.
  unfold isSnippetLine. intros [->| ->]; rewrite startsWith_self; [done|].
  by rewrite andb_false_r.
Qed.

Lemma resultOfBlock_blockOf r : printable r → resultOfBlock (blockOf r) = Some r.
Proof.
  intros Hr. unfold resultOfBlock.
  rewrite (blockOf_trimmed r Hr).
  destruct (blockOf_lines r Hr) as [-> Hall].
  rewrite splitLines_joinLines.
  2: { done. }
  2: { eapply Forall_impl; [exact Hall|]. by intros l [_ ?]. }
  destruct Hr as (Hp & [Ht _] & [Hs _] & Hsn & Hne & Hl).
  cbn [app head]. change (default [] (Some ?x)) with x.
  rewrite (match_qmdPath_whole _ Hp). cbn [mbind option_bind].
  assert (Hq : ∃ name, path r = 113 :: name).
  { destruct Hp as (n & -> & _). by eexists. }
  destruct Hq as [name Hq].
  assert (E1 : startsWith TITLE (path r) = false) by by rewrite Hq.
  assert (E2 : startsWith SCORE (path r) = false) by by rewrite Hq.
  change (js "Title: " ++ title r) with (TITLE ++ 32 :: title r).
  change (js "Score: " ++ score r) with (SCORE ++ 32 :: score r).
  cbn [List.find]. rewrite E1, E2, startsWith_self.
  assert (E3 : startsWith SCORE (TITLE ++ 32 :: title r) = false) by done.
  rewrite E3, startsWith_self. cbn [from_option].
  rewrite !field_value by done.
  rewrite filter_cons_False.
  2: { unfold isSnippetLine. rewrite bool_decide_false by (by intros ?).
       rewrite andb_false_r. done. }
  rewrite filter_cons_False.
  2: { rewrite isSnippetLine_field by by left. done. }
  rewrite filter_cons_False.
  2: { rewrite isSnippetLine_field by by right. done. }
  assert (E4 : filter (λ l, isSnippetLine (path r) l = true)
                 (splitLines (snippet r)) = splitLines (snippet r)).
  { clear -Hl. induction Hl as [|l ls [_ Hx] _ IH]; [done|].
    by rewrite filter_cons_True, IH. }
  rewrite E4, joinLines_splitLines, Hsn. by destruct r.
Qed.

Lemma omap_resultOfBlock rs :
  Forall printable rs → omap resultOfBlock (blockOf <$> rs) = rs.
Proof.
  induction 1 as [|r rs Hr _ IH]; [done|].
  cbn [fmap list_fmap omap list_omap].
  rewrite (resultOfBlock_blockOf r Hr).
  fold (omap resultOfBlock (blockOf <$> rs)). by rewrite IH.
Qed.

(** X22: the parser reads back a printed list of results.  When each result
    has a path of the index, a title and a score of one line without white
    space at the ends, and a snippet without white space at its ends whose
    lines are not empty and are neither fields nor the path, then the
    blocks of path, title, score and snippet, separated by blank lines,
    are parsed into exactly these results, in their order. *)
Theorem parseTextSearchResults_round_trip rs :
  Forall printable rs →
  parseTextSearchResults (joinWith BLANK_LINE (blockOf <$> rs)) = rs.
Proof.
  intros Hrs. unfold parseTextSearchResults.
  destruct rs as [|r rs]; [by vm_compute|].
  rewrite split_join.
  - by apply omap_resultOfBlock.
  - done.
  - apply Forall_fmap. eapply Forall_impl; [exact Hrs|].
    intros x Hx. by apply blockOf_tight.
Qed.

Lemma parseTextSearchResults_round_trip_witness :
  parseTextSearchResults
    (js "qmd://notes/a.md" ++ [10] ++ js "Title: Alpha" ++ [10]
     ++ js "Score: 93%" ++ [10] ++ js "first line" ++ [10] ++ js "second"
     ++ [10; 10]
     ++ js "qmd://notes/b.md" ++ [10] ++ js "Title: " ++ [10]
     ++ js "Score: 7%" ++ [10] ++ js "text")
  = [ {| path := js "qmd://notes/a.md"; title := js "Alpha";
         score := js "93%";
         snippet := js "first line" ++ [10] ++ js "second" |};
      {| path := js "qmd://notes/b.md"; title := [];
         score := js "7%"; snippet := js "text" |} ].
Proof.
  apply (parseTextSearchResults_round_trip
    [ {| path := js "qmd://notes/a.md"; title := js "Alpha";
         score := js "93%";
         snippet := js "first line" ++ [10] ++ js "second" |};
      {| path := js "qmd://notes/b.md"; title := [];
         score := js "7%"; snippet := js "text" |} ]).
  constructor; [|constructor; [|constructor]].
  - split_and!; try by vm_compute.
    + exists (js "notes/a.md"). split_and!; [done|done|].
      by vm_compute; repeat constructor.
    + not_in_literal.
    + not_in_literal.
    + vm_compute. by repeat constructor.
  - split_and!; try by vm_compute.
    + exists (js "notes/b.md"). split_and!; [done|done|].
      by vm_compute; repeat constructor.
    + by intros ?%elem_of_nil.
    + not_in_literal.
    + vm_compute. by repeat constructor.
Defined.

(** ** listNotes *)

Lemma insertNote_perm x l : insertNote x l ≡ₚ x :: l.
Proof.
  induction l as [|y l IH]; [done|]. cbn [insertNote].
  destruct (0 <? _)%Z; [|done]. rewrite IH. apply Permutation_swap.
Qed.

Lemma sortNotes_perm l : sortNotes l ≡ₚ l.
Proof.
  induction l as [|x l IH]; [done|]. cbn [sortNotes foldr].
  fold (sortNotes l). by rewrite insertNote_perm, IH.
Qed.

Lemma insertNote_latestFirst x l :
  latestFirst l → latestFirst (insertNote x l).
Proof.
  unfold latestFirst. induction 1 as [|y l Hs IH Hy]; cbn [insertNote].
  - by repeat constructor.
  - destruct (Z.ltb_spec 0 (Note.modified y - Note.modified x)) as [Hlt|Hge].
    + constructor; [done|].
      rewrite insertNote_perm. constructor; [lia|done].
    + constructor; [by constructor|].
      constructor; [lia|]. eapply Forall_impl; [exact Hy|].
      intros z Hz. cbn in Hz. lia.
Qed.

Lemma sortNotes_latestFirst l : latestFirst (sortNotes l).
Proof.
  induction l as [|x l IH]; [constructor|].
  cbn [sortNotes foldr]. by apply insertNote_latestFirst.
Qed.

Lemma insertNote_modifiedAt t x l :
  modifiedAt t (insertNote x l) = modifiedAt t (x :: l).
Proof.
  unfold modifiedAt. induction l as [|y l IH]; [done|]. cbn [insertNote].
  destruct (Z.ltb_spec 0 (Note.modified y - Note.modified x)) as [Hlt|Hge];
    [|done].
  rewrite (filter_cons _ y), IH, !(filter_cons _ x), (filter_cons _ y).
  destruct (decide (Note.modified y = t)), (decide (Note.modified x = t));
    try done. lia.
Qed.

Lemma sortNotes_modifiedAt t l : modifiedAt t (sortNotes l) = modifiedAt t l.
Proof.
  induction l as [|x l IH]; [done|]. cbn [sortNotes foldr].
  fold (sortNotes l). rewrite insertNote_modifiedAt.
  unfold modifiedAt in *. by rewrite !(filter_cons _ x), IH.
Qed.

Lemma startsWith_iff p s : startsWith p s = true ↔ ∃ t, s = p ++ t.
Proof.
  split.
  - revert s. induction p as [|a p IH]; intros s H; [by exists s|].
    destruct s as [|b s]; [done|]. cbn [startsWith] in H.
    apply andb_true_iff in H as [->%N.eqb_eq H].
    destruct (IH s H) as [t ->]. by exists t.
  - intros [t ->]. apply startsWith_self.
Qed.

Lemma endsWith_iff p s : endsWith p s = true ↔ ∃ b, s = b ++ p.
Proof.
  unfold endsWith. rewrite startsWith_iff. split.
  - intros [t Ht]. exists (reverse t).
    apply (f_equal reverse) in Ht.
    by rewrite reverse_involutive, reverse_app, reverse_involutive in Ht.
  - intros [b ->]. exists (reverse b). by rewrite reverse_app.
Qed.

Lemma run_mdSuffix pv s :
  run false mdSuffixRe (MState pv s None) ≠ [] → s = js ".md".
Proof.
  intros H. destruct (run _ _ _) as [|st l] eqn:E; [done|].
  assert (Hin : st ∈ run false mdSuffixRe (MState pv s None))
    by (rewrite E; by left).
  unfold mdSuffixRe in Hin.
  change (cat [lit ".md"; Eol]) with (Seq (lit ".md") (Seq Eol Emp)) in Hin.
  apply elem_of_run_Seq in Hin as (mid & H1 & H2).
  apply elem_of_run_lit in H1. cbn [rest] in H1.
  apply elem_of_run_Seq in H2 as (mid2 & H2 & _).
  cbn [run] in H2. unfold atEol in H2.
  destruct (rest mid) as [|c r]; [by rewrite app_nil_r in H1|].
  cbn in H2. by apply elem_of_nil in H2.
Qed.

Lemma search_mdSuffix b : ∀ pv i,
  ∃ pv', searchFrom false mdSuffixRe pv (b ++ js ".md") i
         = Some ((i + length b)%nat, MState pv' [] None).
Proof.
  induction b as [|c b IH]; intros pv i.
  - exists (Some 100). cbn [app length]. rewrite Nat.add_0_r. by vm_compute.
  - cbn [app searchFrom].
    destruct (run false mdSuffixRe (MState pv (c :: b ++ js ".md") None))
      as [|st l] eqn:E.
    + destruct (IH (Some c) (S i)) as [pv' ->]. exists pv'.
      cbn [length]. do 2 f_equal. lia.
    + assert (H : c :: b ++ js ".md" = js ".md").
      { apply (run_mdSuffix pv). by rewrite E. }
      apply (f_equal length) in H. rewrite length_cons, length_app in H.
      cbn in H. lia.
Qed.

Lemma removeFirst_mdSuffix b : removeFirst false mdSuffixRe (b ++ js ".md") = b.
Proof.
  unfold removeFirst, exec.
  destruct (search_mdSuffix b None 0) as [pv' ->]. cbn [rest Nat.add].
  by rewrite take_app_length, app_nil_r.
Qed.

Lemma notesOfEntry_paths category dir entry :
  Forall (λ n, Note.category n = category
               ∧ Note.path n = join dir (Note.name n ++ js ".md"))
    (notesOfEntry category dir entry).
Proof.
  destruct entry as [name content mtime|name subs|name];
    cbn [notesOfEntry]; [| |constructor].
  - destruct (endsWith (js ".md") name) eqn:E; [|constructor].
    apply endsWith_iff in E as [b ->]. repeat constructor; cbn.
    by rewrite removeFirst_mdSuffix.
  - apply Forall_forall. intros n Hn.
    apply list_elem_of_bind in Hn as (sub & Hn & _).
    destruct sub as [subName content mtime| |]; try by apply elem_of_nil in Hn.
    destruct (endsWith (js ".md") subName) eqn:E;
      [|by apply elem_of_nil in Hn].
    apply list_elem_of_singleton in Hn as ->.
    apply endsWith_iff in E as [b ->]. split; [done|]. cbn.
    rewrite removeFirst_mdSuffix. unfold join. by rewrite <- !app_assoc.
Qed.

(** X23: the notes [listNotes] returns.  A category whose directory is
    missing has no notes.  Otherwise the notes are those of the files
    ending in [.md] in the directory and one level below, latest first,
    and notes modified at the same time keep the order of the directory.
    The category of every note is the one asked for, and its path is the
    directory of the category, the name of the note and [.md]. *)
Theorem listNotes_spec (PARA_DIRS : ParaCategory → jsstring) (vault : ParaFs)
    (category : ParaCategory) :
  (vault category = None → listNotes PARA_DIRS vault category = [])
  ∧ (∀ entries,
       vault category = Some entries →
       listNotes PARA_DIRS vault category
         ≡ₚ notesOfEntries category (PARA_DIRS category) entries
       ∧ ∀ t, modifiedAt t (listNotes PARA_DIRS vault category)
              = modifiedAt t
                  (notesOfEntries category (PARA_DIRS category) entries))
  ∧ latestFirst (listNotes PARA_DIRS vault category)
  ∧ Forall (λ n, Note.category n = category
                 ∧ Note.path n
                   = join (PARA_DIRS category) (Note.name n ++ js ".md"))
      (listNotes PARA_DIRS vault category).
Proof.
  unfold listNotes. split_and!.
  - by intros ->.
  - intros entries ->. split; [apply sortNotes_perm|].
    intros t. apply sortNotes_modifiedAt.
  - destruct (vault category); [apply sortNotes_latestFirst|constructor].
  - destruct (vault category) as [entries|]; [|constructor].
    rewrite sortNotes_perm. apply Forall_forall. intros n Hn.
    apply list_elem_of_bind in Hn as (entry & Hn & _).
    pose proof (notesOfEntry_paths category (PARA_DIRS category) entry) as H.
    rewrite Forall_forall in H. by apply H.
Qed.

(** ** The title of a note *)

Lemma run_heading_miss pv s cp :
  head s ≠ Some 35 → run true headingRe (MState pv s cp) = [].
Proof.
  intros H. unfold headingRe.
  change (cat (Bol :: lit "#" :: ?r))
    with (Seq Bol (Seq (Seq (chr 35) Emp) (cat r))).
  change (run true (Seq Bol ?r) ?st) with (run true Bol st ≫= run true r).
  cbn [run]. destruct (atBol _ _); [|done].
  rewrite bind_cons, app_nil_r.
  change (run true (Seq (chr 35) Emp) ?st ≫= ?f)
    with ((run true (chr 35) st ≫= run true Emp) ≫= f).
  cbn [run chr rest]. destruct s as [|c s]; [done|].
  destruct (N.eqb_spec 35 c) as [<-|]; [|done]. by destruct H.
Qed.

Lemma search_heading_none s : ∀ pv i,
  35 ∉ s → searchFrom true headingRe pv s i = None.
Proof.
  induction s as [|c s IH]; intros pv i Hn; cbn [searchFrom].
  - by rewrite run_heading_miss.
  - apply not_elem_of_cons in Hn as [Hc Hs].
    rewrite run_heading_miss by (cbn; congruence). by apply IH.
Qed.

Lemma run_Cap_plus_head m p K x w pv r cp :
  Forall (λ c, p c = true) (x :: w) →
  (r = [] ∨ ∃ c r', r = c :: r' ∧ p c = false) →
  ∃ pv' tl,
    run m (Seq (Cap (plus p)) K) (MState pv (x :: w ++ r) cp)
    = run m K (MState pv' r (Some (x :: w))) ++ tl.
Proof.
  intros Hw Hr.
  destruct (run_plus_head m p x w pv r cp Hw Hr) as (pv' & tl & E).
  exists pv'. eexists.
  change (run m (Seq (Cap (plus p)) K) ?st)
    with (((λ st', MState (prev st') (rest st')
              (Some (take (length (rest st) - length (rest st')) (rest st))))
             <$> run m (plus p) st) ≫= run m K).
  rewrite E. cbn [fmap list_fmap rest prev]. rewrite bind_cons.
  replace (take _ (x :: w ++ r)) with (x :: w); [done|].
  change (x :: w ++ r) with ((x :: w) ++ r).
  rewrite length_app, Nat.add_sub. by rewrite take_app_length.
Qed.

Lemma run_plus_seq_head m p K x w pv r cp :
  Forall (λ c, p c = true) (x :: w) →
  (r = [] ∨ ∃ c r', r = c :: r' ∧ p c = false) →
  ∃ pv' tl,
    run m (Seq (plus p) K) (MState pv (x :: w ++ r) cp)
    = run m K (MState pv' r cp) ++ tl.
Proof.
  intros Hw Hr.
  destruct (run_plus_head m p x w pv r cp Hw Hr) as (pv' & tl & E).
  exists pv'. eexists.
  change (run m (Seq (plus p) K) ?st) with (run m (plus p) st ≫= run m K).
  by rewrite E, bind_cons.
Qed.

Lemma run_Bol_at m r st :
  atBol m st = true → run m (Seq Bol r) st = run m r st.
Proof.
  intros H. change (run m (Seq Bol r) st) with (run m Bol st ≫= run m r).
  cbn [run]. rewrite H. by rewrite bind_cons, app_nil_r.
Qed.

Lemma run_heading_hit pv ws t more :
  atBol true (MState pv (js "#" ++ ws ++ t ++ more) None) = true →
  ws ≠ [] → Forall (λ c, isSpace c = true) ws → plainText t →
  (more = [] ∨ ∃ c r, more = c :: r ∧ isDot c = false) →
  ∃ pv' tl,
    run true headingRe (MState pv (js "#" ++ ws ++ t ++ more) None)
    = MState pv' more (Some t) :: tl.
Proof.
  intros Hbol Hne Hws [(c & t' & -> & Hc) Ht] Hmore.
  destruct ws as [|x w]; [done|].
  unfold headingRe.
  change (cat (Bol :: lit "#" :: ?r))
    with (Seq Bol (Seq (Seq (chr 35) Emp) (cat r))).
  rewrite run_Bol_at by done.
  rewrite run_assoc. change (js "#" ++ ?s) with (35 :: s).
  rewrite run_chr_hit, run_Emp.
  change (cat [plus isSpace; Cap (plus isDot); Eol])
    with (Seq (plus isSpace) (Seq (Cap (plus isDot)) (Seq Eol Emp))).
  cbn [app].
  destruct (run_plus_seq_head true isSpace
              (Seq (Cap (plus isDot)) (Seq Eol Emp)) x w (Some 35)
              (c :: t' ++ more) None Hws) as (pv1 & tl1 & E1).
  { right. by exists c, (t' ++ more). }
  rewrite E1.
  destruct (run_Cap_plus_head true isDot (Seq Eol Emp) c t' pv1 more None Ht)
    as (pv2 & tl2 & E2).
  { destruct Hmore as [->|(d & r & -> & Hd)]; [by left|right; by exists d, r]. }
  rewrite E2.
  assert (E3 : run true (Seq Eol Emp) (MState pv2 more (Some (c :: t')))
               = [MState pv2 more (Some (c :: t'))]).
  { change (run true (Seq Eol Emp) ?st)
      with (run true Eol st ≫= run true Emp).
    cbn [run]. unfold atEol. cbn [rest].
    destruct Hmore as [->|(d & r & -> & Hd)]; [done|].
    unfold isDot in Hd. apply negb_false_iff in Hd. by rewrite Hd. }
  rewrite E3. by eexists _, _.
Qed.

Lemma match_heading ws t more :
  ws ≠ [] → Forall (λ c, isSpace c = true) ws → plainText t →
  (more = [] ∨ ∃ c r, more = c :: r ∧ isDot c = false) →
  match1 true headingRe (js "#" ++ ws ++ t ++ more) = Some t.
Proof.
  intros Hne Hws Ht Hmore. unfold match1, exec.
  destruct (run_heading_hit None ws t more) as (pv & tl & E); try done.
  change (js "#" ++ ?s) with (35 :: s) in *.
  cbn [searchFrom]. by rewrite E.
Qed.

(** X24: the name and the title of a note.  The name of the note of a file
    is the file name without its final [.md], behind the name of the sub
    directory when there is one.  The title is that same file name without
    [.md] when the text holds no [#]; it is the heading when the text
    starts with a [#], white space and a heading that starts with a
    non-space character and runs to the end of the line. *)
Theorem note_title (category : ParaCategory)
    (fullPath prefix base content : jsstring) (mtime : Z) :
  Note.name (noteOf category fullPath prefix (base ++ js ".md") content mtime)
  = prefix ++ base
  ∧ (35 ∉ content →
     Note.title
       (noteOf category fullPath prefix (base ++ js ".md") content mtime)
     = base)
  ∧ (∀ ws t rest,
       content = js "#" ++ ws ++ t ++ rest →
       ws ≠ [] → Forall (λ c, isSpace c = true) ws → plainText t →
       (rest = [] ∨ ∃ c r, rest = c :: r ∧ isDot c = false) →
       Note.title
         (noteOf category fullPath prefix (base ++ js ".md") content mtime)
       = t).
Proof.
  unfold noteOf. cbn [Note.name Note.title].
  rewrite removeFirst_mdSuffix. split_and!.
  - done.
  - intros Hn. unfold match1, exec. by rewrite search_heading_none.
  - intros ws t rest -> Hne Hws Ht Hrest. by rewrite match_heading.
Qed.

Lemma note_title_witness :
  Note.title
    (noteOf projects (js "/brain/1-projects/my-app.md") []
       (js "my-app" ++ js ".md")
       (js "#" ++ js "  " ++ js "My App" ++ (10 :: js "text")) 7)
  = js "My App".
Proof.
  destruct (note_title projects (js "/brain/1-projects/my-app.md") []
              (js "my-app")
              (js "#" ++ js "  " ++ js "My App" ++ (10 :: js "text")) 7)
    as (_ & _ & H).
  apply (H (js "  ") (js "My App") (10 :: js "text")).
  - done.
  - done.
  - by vm_compute; repeat constructor.
  - split; [by exists 77, (js "y App")|by vm_compute; repeat constructor].
  - right. by exists 10, (js "text").
Defined.

(** ** detectProject *)

Lemma find_first {A} (f : A → bool) l x :
  List.find f l = Some x →
  ∃ l1 l2, l = l1 ++ x :: l2 ∧ f x = true ∧ Forall (λ y, f y = false) l1.
Proof.
  induction l as [|y l IH]; [done|]. cbn [List.find].
  destruct (f y) eqn:E.
  - intros [= ->]. by exists [], l.
  - intros (l1 & l2 & -> & Hx & Hl1)%IH. exists (y :: l1), l2.
    split_and!; [done|done|by constructor].
Qed.

Lemma find_none {A} (f : A → bool) l :
  List.find f l = None ↔ Forall (λ y, f y = false) l.
Proof.
  induction l as [|y l IH]; cbn [List.find]; [by split; [constructor|]|].
  destruct (f y) eqn:E.
  - split; [done|]. intros [H _]%Forall_cons. congruence.
  - rewrite IH. split; [by constructor|by intros [_ ?]%Forall_cons].
Qed.

(** X25: the project [detectProject] finds.  A project matches the working
    directory when its name is the base name of the directory or its title
    and that base name give the same slug.  Without a matching project the
    result is undefined; otherwise it is the name of a matching project
    that no other matching project was modified after. *)
Theorem detectProject_spec (PARA_DIRS : ParaCategory → jsstring)
    (basename : jsstring → jsstring) (vault : ParaFs) (cwd : jsstring) :
  (detectProject PARA_DIRS basename vault cwd = None
   ↔ Forall (λ p, matchesDir (basename cwd) p = false)
       (listNotes PARA_DIRS vault projects))
  ∧ (∀ n,
       detectProject PARA_DIRS basename vault cwd = Some n →
       ∃ p, p ∈ listNotes PARA_DIRS vault projects
            ∧ Note.name p = n
            ∧ matchesDir (basename cwd) p = true
            ∧ ∀ q, q ∈ listNotes PARA_DIRS vault projects →
                   matchesDir (basename cwd) q = true →
                   (Note.modified q ≤ Note.modified p)%Z).
Proof.
  unfold detectProject. split.
  - rewrite fmap_None. apply find_none.
  - intros n Hn. apply fmap_Some in Hn as (p & Hf & ->).
    apply find_first in Hf as (l1 & l2 & El & Hp & Hl1).
    exists p. split_and!; [rewrite El; set_solver|done|done|].
    intros q Hq Hm. rewrite El in Hq.
    assert (Hs : latestFirst (listNotes PARA_DIRS vault projects)).
    { unfold listNotes. destruct (vault projects);
        [apply sortNotes_latestFirst|constructor]. }
    rewrite El in Hs. unfold latestFirst in Hs.
    apply StronglySorted_app_1_r in Hs.
    apply StronglySorted_inv in Hs as [_ Hp2].
    apply elem_of_app in Hq as [Hq|Hq].
    + rewrite Forall_forall in Hl1. specialize (Hl1 q Hq). congruence.
    + apply elem_of_cons in Hq as [->|Hq]; [lia|].
      rewrite Forall_forall in Hp2. by apply Hp2.
Qed.

Lemma detectProject_spec_witness :
  detectProject (λ _, js "/brain/1-projects") (λ cwd, js "My_App")
    (λ c, match c with
          | projects =>
              Some [File (js "old.md") (js "# my app") 1;
                    Directory (js "work")
                      [File (js "new.md") (js "# My App!") 5;
                       File (js "draft.txt") (js "# My App") 9];
                    File (js "other.md") (js "# Else") 7]
          | _ => None
          end)
    (js "/home/me/My_App")
  = Some (js "work/new").
Proof.
  destruct (detectProject_spec (λ _, js "/brain/1-projects")
              (λ cwd, js "My_App")
    (λ c, match c with
          | projects =>
              Some [File (js "old.md") (js "# my app") 1;
                    Directory (js "work")
                      [File (js "new.md") (js "# My App!") 5;
                       File (js "draft.txt") (js "# My App") 9];
                    File (js "other.md") (js "# Else") 7]
          | _ => None
          end)
    (js "/home/me/My_App")) as [_ H].
  destruct (detectProject _ _ _ _) as [n|] eqn:E; [|by vm_compute in E].
  destruct (H n eq_refl) as (p & _ & _ & _ & _).
  vm_compute in E. by injection E as <-.
Defined.

(** ** Capturing a note and reading it back *)

Lemma lastOr_cons pv c P : lastOr pv (c :: P) = lastOr (Some c) P.
Proof.
  unfold lastOr. destruct P as [|d P]; [done|]. rewrite last_cons_cons.
  destruct (last (d :: P)) eqn:E; [done|]. by apply last_None in E.
Qed.

Lemma lastOr_app pv A B : lastOr pv (A ++ B) = lastOr (lastOr pv A) B.
Proof.
  revert pv. induction A as [|c A IH]; intros pv; [done|].
  cbn [app]. by rewrite !lastOr_cons, IH.
Qed.

Lemma noHeading_app pv A B :
  noHeading pv A → noHeading (lastOr pv A) B → noHeading pv (A ++ B).
Proof.
  revert pv. induction A as [|c A IH]; intros pv HA HB; [done|].
  cbn [app noHeading] in *. destruct HA as [Hc HA]. split; [done|].
  apply IH; [done|]. by rewrite lastOr_cons in HB.
Qed.

Lemma noHeading_nohash pv A : 35 ∉ A → noHeading pv A.
Proof.
  revert pv. induction A as [|c A IH]; intros pv Hn; [done|].
  apply not_elem_of_cons in Hn as [Hc HA]. cbn [noHeading].
  split; [by intros ->|by apply IH].
Qed.

Lemma noHeading_dots c0 T :
  isLineTerminator c0 = false → Forall (λ c, isDot c = true) T →
  noHeading (Some c0) T.
Proof.
  intros Hc0 HT. revert c0 Hc0.
  induction HT as [|c T Hc _ IH]; intros c0 Hc0; [done|].
  cbn [noHeading]. split; [by exists c0|].
  apply IH. unfold isDot in Hc. by apply negb_true_iff in Hc.
Qed.

Lemma lastOr_dots c0 T :
  isLineTerminator c0 = false → Forall (λ c, isDot c = true) T →
  ∃ c1, lastOr (Some c0) T = Some c1 ∧ isLineTerminator c1 = false.
Proof.
  intros Hc0 HT. unfold lastOr. destruct (last T) as [c|] eqn:E.
  - exists c. split; [done|]. apply last_Some in E as [T' ->].
    apply Forall_app in HT as [_ HT]. rewrite Forall_singleton in HT.
    unfold isDot in HT. by apply negb_true_iff in HT.
  - by exists c0.
Qed.

Lemma run_heading_noBol c s cp :
  isLineTerminator c = false → run true headingRe (MState (Some c) s cp) = [].
Proof.
  intros H. unfold headingRe.
  change (cat (Bol :: ?r)) with (Seq Bol (cat r)).
  change (run true (Seq Bol ?r) ?st) with (run true Bol st ≫= run true r).
  cbn [run atBol prev]. by rewrite H.
Qed.

Lemma search_heading_skip P : ∀ pv s i,
  noHeading pv P →
  searchFrom true headingRe pv (P ++ s) i
  = searchFrom true headingRe (lastOr pv P) s (i + length P).
Proof.
  induction P as [|c P IH]; intros pv s i HP.
  - cbn [app length]. by rewrite Nat.add_0_r.
  - cbn [noHeading] in HP. destruct HP as [Hc HP].
    cbn [app searchFrom].
    assert (E : run true headingRe (MState pv (c :: P ++ s) None) = []).
    { destruct (decide (c = 35)) as [->|Hne].
      - destruct (Hc eq_refl) as (c' & -> & Hc'). by apply run_heading_noBol.
      - apply run_heading_miss. cbn. congruence. }
    rewrite E, IH by done. rewrite lastOr_cons. cbn [length].
    f_equal. lia.
Qed.

Lemma lastOr_last pv A c : last A = Some c → lastOr pv A = Some c.
Proof. unfold lastOr. by intros ->. Qed.

Lemma match_heading_capture date title content :
  plainText title → Forall (λ c, isDot c = true) date →
  match1 true headingRe (captureText date title content) = Some title.
Proof.
  intros Ht Hd.
  pose (A1 := js "---" ++ NL ++ js "title: ").
  pose (A2 := NL ++ js "created: ").
  pose (A3 := NL ++ js "---" ++ NL).
  pose (more := NL ++ NL ++ content ++ NL).
  assert (E : captureText date title content
              = (A1 ++ title ++ A2 ++ date ++ A3)
                ++ (js "#" ++ [32] ++ title ++ more)).
  { unfold captureText, A1, A2, A3, more. by rewrite <- !app_assoc. }
  assert (Ht' : Forall (λ c, isDot c = true) title) by by destruct Ht.
  destruct (lastOr_dots 32 title) as (c1 & E1 & Hc1); [done|done|].
  destruct (lastOr_dots 32 date) as (c2 & E2 & Hc2); [done|done|].
  assert (HP : noHeading None (A1 ++ title ++ A2 ++ date ++ A3)).
  { apply noHeading_app; [apply noHeading_nohash; not_in_literal|].
    rewrite (lastOr_last None A1 32) by done.
    apply noHeading_app; [by apply noHeading_dots|]. rewrite E1.
    apply noHeading_app; [apply noHeading_nohash; not_in_literal|].
    rewrite (lastOr_last (Some c1) A2 32) by done.
    apply noHeading_app; [by apply noHeading_dots|]. rewrite E2.
    apply noHeading_nohash. not_in_literal. }
  assert (HL : lastOr None (A1 ++ title ++ A2 ++ date ++ A3) = Some 10).
  { rewrite !lastOr_app. by apply lastOr_last. }
  unfold match1, exec. rewrite E, (search_heading_skip _ _ _ _ HP), HL.
  destruct (run_heading_hit (Some 10) [32] title more) as (pv & tl & R);
    try done.
  { by repeat constructor. }
  { right. by exists 10, (NL ++ content ++ NL). }
  change (js "#" ++ ?s) with (35 :: s) in *.
  cbn [searchFrom]. by rewrite R.
Qed.

(** X26: a captured note is read back under its title.  The capture tool
    writes the text of the note to the file named by the slug of the
    title, in the category given or else the inbox, whatever that file
    held before, and leaves every other file as it was.  When the title
    starts with a non-space character and holds no line terminator, and the
    date holds none, the note that [listNotes] builds for that file has
    the slug as its name and the title as its title, so it matches every
    directory whose name has the same slug.  The [/capture] command writes
    the same file when neither title nor content is blank. *)
Theorem capture_read_back (PARA_DIRS : ParaCategory → jsstring)
    (date title content : jsstring) (category : option ParaCategory)
    (files : ParaFiles) :
  plainText title → Forall (λ c, isDot c = true) date →
  (captureTool PARA_DIRS date title content category files).1.1
    (default inbox category) !! (slugify title ++ js ".md")
  = Some (captureText date title content)
  ∧ (∀ c name,
       c ≠ default inbox category ∨ name ≠ slugify title ++ js ".md" →
       (captureTool PARA_DIRS date title content category files).1.1 c !! name
       = files c !! name)
  ∧ (∀ fullPath prefix mtime,
       Note.name (noteOf (default inbox category) fullPath prefix
                    (slugify title ++ js ".md")
                    (captureText date title content) mtime)
       = prefix ++ slugify title
       ∧ Note.title (noteOf (default inbox category) fullPath prefix
                       (slugify title ++ js ".md")
                       (captureText date title content) mtime)
         = title
       ∧ ∀ dirName,
           slugify dirName = slugify title →
           matchesDir dirName
             (noteOf (default inbox category) fullPath prefix
                (slugify title ++ js ".md")
                (captureText date title content) mtime) = true)
  ∧ (∀ c q,
       trim content ≠ [] →
       captureCommand date (Some c) (Some title) (Some content) files q
       = ((captureTool PARA_DIRS date title content (Some c) files).1.1,
          true)).
Proof.
  intros Ht Hd. unfold captureTool. cbn [fst]. split_and!.
  - unfold writeFile. rewrite decide_True by done. apply lookup_insert_eq.
  - intros c name Hne. unfold writeFile.
    destruct (decide (c = default inbox category)) as [->|]; [|done].
    destruct Hne as [?|Hne]; [done|]. by rewrite lookup_insert_ne.
  - intros fullPath prefix mtime.
    assert (E : Note.title (noteOf (default inbox category) fullPath prefix
                  (slugify title ++ js ".md")
                  (captureText date title content) mtime) = title).
    { unfold noteOf. cbn [Note.title].
      by rewrite match_heading_capture. }
    split_and!.
    + unfold noteOf. cbn [Note.name]. by rewrite removeFirst_mdSuffix.
    + done.
    + intros dirName Hs. unfold matchesDir. rewrite E.
      rewrite (bool_decide_true (slugify title = slugify dirName)) by done.
      apply orb_true_r.
  - intros c q Hc. unfold captureCommand.
    rewrite bool_decide_false by by apply plainText_trim.
    by rewrite bool_decide_false.
Qed.

Lemma capture_read_back_witness :
  Note.title
    (noteOf projects (js "/brain/1-projects/c-notes.md") []
       (slugify (js "C# notes") ++ js ".md")
       (captureText (js "2025-03-01") (js "C# notes") (js "generics")) 3)
  = js "C# notes"
  ∧ slugify (js "C# notes") = js "c-notes".
Proof.
  split; [|by vm_compute].
  destruct (capture_read_back (λ _, js "/brain/1-projects")
              (js "2025-03-01") (js "C# notes") (js "generics")
              (Some projects) (λ _, ∅)) as (_ & _ & H & _).
  - split; [by exists 67, (js "# notes")|by vm_compute; repeat constructor].
  - by vm_compute; repeat constructor.
  - by destruct (H (js "/brain/1-projects/c-notes.md") [] 3%Z) as (_ & E & _).
Defined.
